(** * GraphPlay: the graph-algorithm games, embedded and verified

  The five mini-games of the repository (maze solver, path finder, graph
  colouring, network connector, cycle detector) are React components whose
  algorithms run over component state.  Each algorithm is embedded here as a
  function over an explicit copy of that state; a [setTimeout] pause between
  two steps carries no data and is dropped. *)

From Stdlib Require Import Lia.
From stdpp Require Import gmap list sorting.

(** ** Outcome of a run

  [Done] is a normal return, [Thrown] a JavaScript [TypeError] (reading a
  field of [undefined]), [Timeout] the exhaustion of the recursion budget of
  the embedding. *)

Inductive run (A : Type) : Type :=
  | Done (a : A)
  | Thrown
  | Timeout.
Arguments Done {A} a.
Arguments Thrown {A}.
Arguments Timeout {A}.

#[global] Instance run_ret : MRet run := fun A a => Done a.

#[global] Instance run_bind : MBind run := fun A B k m =>
  match m with
  | Done a => k a
  | Thrown => Thrown
  | Timeout => Timeout
  end.

(** [of_option (a !! i)] reads [a[i]] where the code goes on to use a field of
    it: a missing element makes that use throw. *)
Definition of_option {A} (o : option A) : run A :=
  match o with
  | Some a => Done a
  | None => Thrown
  end.

(** ** Grids

    The maze solver and the path finder keep their cells in an array of rows,
    [cell[][]].  A reference to a cell object (an element of a work list, a
    back pointer) is the place [(x, y)] where the array stores it. *)

Section Grids.
Context {A : Type}.

(** [g[y][x]] for the place [p = (x, y)]. *)
Definition cellAt (g : list (list A)) (p : nat * nat) : option A :=
  g !! p.2 ≫= (.!! p.1).

(** Overwrite of the cell stored at [p]: a field of the object is assigned
    in place. *)
Definition setCell (g : list (list A)) (p : nat * nat) (c : A) : list (list A) :=
  alter (<[p.1 := c]>) p.2 g.

(** The places of the grid in the order of the nested [forEach]. *)
Definition places (g : list (list A)) : list (nat * nat) :=
  concat (imap (fun row r => imap (fun col _ => (col, row)) r) g).

End Grids.

(** ** Cycle detector (the second component of MazeSolver.tsx) *)

Module CycleDetector.

Inductive Color := white | gray | black.

Record Edge := { from : nat; to : nat; isInCycle : bool }.

(** Run-local state of [detectCycle]: the node colours of [newNodes] and the
    closure variables [visited], [recursionStack], [cycleEdgeSet],
    [foundCycle]. *)
Record DfsState := {
  colors : list Color;
  visited : gset nat;
  recursionStack : gset nat;
  cycleEdgeSet : gset nat;
  foundCycle : bool
}.

(** [edges.forEach((edge, index) => ...)]: adjacency lists by [push], and
    the map from the key [from-to] to the edge index ([set] overwrites). *)
Definition addEdge (isDirected : bool)
    (acc : run (list (list nat) * gmap (nat * nat) nat))
    (ie : nat * Edge) : run (list (list nat) * gmap (nat * nat) nat) :=
  '(adj, edgeMap) ← acc;
  let '(index, edge) := ie in
  lf ← of_option (adj !! from edge);
  let adj := <[from edge := lf ++ [to edge]]> adj in
  let edgeMap := <[(from edge, to edge) := index]> edgeMap in
  if isDirected then Done (adj, edgeMap)
  else
    lt ← of_option (adj !! to edge);
    Done (<[to edge := lt ++ [from edge]]> adj,
          <[(to edge, from edge) := index]> edgeMap).

Definition buildAdjacency (n : nat) (edges : list Edge) (isDirected : bool)
    : run (list (list nat) * gmap (nat * nat) nat) :=
  foldl (addEdge isDirected) (Done (replicate n [], ∅)) (imap pair edges).

(** [a || b] on [number | undefined]: [undefined] and [0] are falsy. *)
Definition or_falsy (a b : option nat) : option nat :=
  match a with
  | Some (S k) => Some (S k)
  | _ => b
  end.

Definition addCycleEdge (edgeIndex : option nat) (st : DfsState) : DfsState :=
  {| colors := colors st;
     visited := visited st;
     recursionStack := recursionStack st;
     cycleEdgeSet :=
       match edgeIndex with
       | Some i => {[i]} ∪ cycleEdgeSet st
       | None => cycleEdgeSet st
       end;
     foundCycle := true |}.

Definition enter (nodeId : nat) (st : DfsState) : DfsState :=
  {| colors := <[nodeId := gray]> (colors st);
     visited := {[nodeId]} ∪ visited st;
     recursionStack := {[nodeId]} ∪ recursionStack st;
     cycleEdgeSet := cycleEdgeSet st;
     foundCycle := foundCycle st |}.

Definition leave (nodeId : nat) (st : DfsState) : DfsState :=
  {| colors := <[nodeId := black]> (colors st);
     visited := visited st;
     recursionStack := recursionStack st ∖ {[nodeId]};
     cycleEdgeSet := cycleEdgeSet st;
     foundCycle := foundCycle st |}.

Section Dfs.
Variable isDirected : bool.
Variable adjacencyList : list (list nat).
Variable edgeMap : gmap (nat * nat) nat.

(** [dfs(nodeId, parent = -1)]; [parent = None] stands for [-1], which
    no neighbour equals. *)
Fixpoint dfs (fuel : nat) (nodeId : nat) (parent : option nat)
    (st : DfsState) : run (bool * DfsState) :=
  match fuel with
  | 0 => Timeout
  | S fuel =>
    if decide (nodeId < length (colors st)) then
      match adjacencyList !! nodeId with
      | None => Thrown
      | Some neighbors =>
        (fix each (ns : list nat) (st : DfsState) : run (bool * DfsState) :=
           match ns with
           | [] => Done (false, leave nodeId st)
           | neighbor :: ns =>
             if isDirected then
               if decide (neighbor ∈ recursionStack st) then
                 Done (true, addCycleEdge (edgeMap !! (nodeId, neighbor)) st)
               else if decide (neighbor ∈ visited st) then each ns st
               else
                 match dfs fuel neighbor (Some nodeId) st with
                 | Done (true, st) => Done (true, st)
                 | Done (false, st) => each ns st
                 | Thrown => Thrown
                 | Timeout => Timeout
                 end
             else
               if decide (Some neighbor = parent) then each ns st
               else if decide (neighbor ∈ visited st) then
                 Done (true,
                       addCycleEdge
                         (or_falsy (edgeMap !! (nodeId, neighbor))
                                   (edgeMap !! (neighbor, nodeId))) st)
               else
                 match dfs fuel neighbor (Some nodeId) st with
                 | Done (true, st) => Done (true, st)
                 | Done (false, st) => each ns st
                 | Thrown => Thrown
                 | Timeout => Timeout
                 end
           end) neighbors (enter nodeId st)
      end
    else Thrown
  end.

(** [for (let i = 0; i < nodes.length; i++) if (!visited.has(i)) if (await dfs(i)) break;] *)
Fixpoint roots (fuel : nat) (ids : list nat) (st : DfsState) : run DfsState :=
  match ids with
  | [] => Done st
  | i :: ids =>
    if decide (i ∈ visited st) then roots fuel ids st
    else
      match dfs fuel i None st with
      | Done (true, st) => Done st
      | Done (false, st) => roots fuel ids st
      | Thrown => Thrown
      | Timeout => Timeout
      end
  end.
End Dfs.

(** [detectCycle]: the pair ([hasCycle], [cycleEdges]) it leaves in the
    component state; with no edge it returns before touching them. *)
Definition detectCycle (fuel : nat) (n : nat) (edges : list Edge)
    (isDirected : bool) (old : bool * gset nat) : run (bool * gset nat) :=
  if decide (length edges = 0) then Done old
  else
    '(adjacencyList, edgeMap) ← buildAdjacency n edges isDirected;
    st ← roots isDirected adjacencyList edgeMap fuel (seq 0 n)
           {| colors := replicate n white; visited := ∅;
              recursionStack := ∅; cycleEdgeSet := ∅;
              foundCycle := false |};
    Done (foundCycle st, cycleEdgeSet st).

(** *** Graph builder: the component state touched by the click handlers *)

Record State := {
  nodeCount : nat;
  edges : list Edge;
  isDirected : bool;
  selectedNode : option nat;
  hasCycle : bool;
  cycleEdges : gset nat;
  isRunning : bool
}.

(** [const [isDirected, setIsDirected] = useState(true)] and the other
    initial values, after [generateNodes] on mount. *)
Definition initial (isMobile : bool) : State :=
  {| nodeCount := if isMobile then 4 else 5; edges := []; isDirected := true;
     selectedNode := None; hasCycle := false; cycleEdges := ∅;
     isRunning := false |}.

Definition edgeExists (s : State) (selected clicked : nat) : bool :=
  existsb (fun edge =>
    (Nat.eqb (from edge) selected && Nat.eqb (to edge) clicked)
    || (negb (isDirected s) && Nat.eqb (from edge) clicked
        && Nat.eqb (to edge) selected)) (edges s).

(** [handleCanvasClick]; [clickedNode] is the id of the node under the
    pointer, if any (the hit test is geometry of the view). *)
Definition handleCanvasClick (clickedNode : option nat) (s : State) : State :=
  if isRunning s then s
  else
    match clickedNode with
    | None => s
    | Some clicked =>
      match selectedNode s with
      | None =>
        {| nodeCount := nodeCount s; edges := edges s;
           isDirected := isDirected s; selectedNode := Some clicked;
           hasCycle := hasCycle s; cycleEdges := cycleEdges s;
           isRunning := isRunning s |}
      | Some selected =>
        if Nat.eqb selected clicked then
          {| nodeCount := nodeCount s; edges := edges s;
             isDirected := isDirected s; selectedNode := None;
             hasCycle := hasCycle s; cycleEdges := cycleEdges s;
             isRunning := isRunning s |}
        else
          {| nodeCount := nodeCount s;
             edges :=
               if edgeExists s selected clicked then edges s
               else edges s ++ [{| from := selected; to := clicked;
                                   isInCycle := false |}];
             isDirected := isDirected s; selectedNode := None;
             hasCycle := hasCycle s; cycleEdges := cycleEdges s;
             isRunning := isRunning s |}
      end
    end.

Definition clearGraph (s : State) : State :=
  {| nodeCount := nodeCount s; edges := []; isDirected := isDirected s;
     selectedNode := None; hasCycle := false; cycleEdges := ∅;
     isRunning := isRunning s |}.

(** [setIsDirected(!isDirected); clearGraph()] *)
Definition toggleGraphType (s : State) : State :=
  let s' := clearGraph s in
  {| nodeCount := nodeCount s'; edges := edges s';
     isDirected := negb (isDirected s); selectedNode := selectedNode s';
     hasCycle := hasCycle s'; cycleEdges := cycleEdges s';
     isRunning := isRunning s' |}.

Definition generateNodes (isMobile : bool) (s : State) : State :=
  {| nodeCount := if isMobile then 4 else 5; edges := [];
     isDirected := isDirected s; selectedNode := None; hasCycle := false;
     cycleEdges := ∅; isRunning := isRunning s |}.

Definition setRunning (b : bool) (s : State) : State :=
  {| nodeCount := nodeCount s; edges := edges s; isDirected := isDirected s;
     selectedNode := selectedNode s; hasCycle := hasCycle s;
     cycleEdges := cycleEdges s; isRunning := b |}.

(** What the user can do to the builder: click the canvas, press one of the
    three buttons, and start or see the end of a detection run. *)
Inductive Action :=
  | Click (clickedNode : option nat)
  | PressClear
  | PressToggle
  | PressNewGraph (isMobile : bool)
  | RunStarts
  | RunEnds.

Definition step (s : State) (a : Action) : State :=
  match a with
  | Click c => handleCanvasClick c s
  | PressClear => clearGraph s
  | PressToggle => toggleGraphType s
  | PressNewGraph m => generateNodes m s
  | RunStarts => setRunning true s
  | RunEnds => setRunning false s
  end.

(** Two edges are the same connection: same ordered pair, or in undirected
    mode the same pair in either orientation. *)
Definition sameConnection (directed : bool) (e1 e2 : Edge) : Prop :=
  (from e1 = from e2 ∧ to e1 = to e2)
  ∨ (directed = false ∧ from e1 = to e2 ∧ to e1 = from e2).

Definition noDuplicate (directed : bool) (es : list Edge) : Prop :=
  ∀ i j e1 e2, es !! i = Some e1 → es !! j = Some e2 →
    sameConnection directed e1 e2 → i = j.

Definition mkEdge (a b : nat) : Edge :=
  {| from := a; to := b; isInCycle := false |}.

(** The edge lists of the claim, over the nodes A = 0, B = 1, C = 2. *)
Definition triangle : list Edge := [mkEdge 0 1; mkEdge 1 2; mkEdge 2 0].
Definition chain : list Edge := [mkEdge 0 1; mkEdge 1 2].

End CycleDetector.

(** ** Maze solver (BFS and DFS): the first component of MazeSolver.tsx *)

Module MazeSolver.

Inductive Algorithm := BFS | DFS.

(** [MazeCell] of types/Game.ts; the optional fields [distance] and [parent]
    are never set. *)
Record MazeCell := {
  x : nat;
  y : nat;
  isWall : bool;
  isVisited : bool;
  isPath : bool;
  isStart : bool;
  isEnd : bool
}.

Abbreviation Maze := (list (list MazeCell)).

(** [{ ...cell, isVisited: false, isPath: false }] *)
Definition resetCell (c : MazeCell) : MazeCell :=
  {| x := x c; y := y c; isWall := isWall c; isVisited := false;
     isPath := false; isStart := isStart c; isEnd := isEnd c |}.

Definition markVisited (c : MazeCell) : MazeCell :=
  {| x := x c; y := y c; isWall := isWall c; isVisited := true;
     isPath := isPath c; isStart := isStart c; isEnd := isEnd c |}.

Definition markPath (c : MazeCell) : MazeCell :=
  {| x := x c; y := y c; isWall := isWall c; isVisited := isVisited c;
     isPath := true; isStart := isStart c; isEnd := isEnd c |}.

Definition directions : list (Z * Z) :=
  [(0, -1); (1, 0); (0, 1); (-1, 0)]%Z.

(** The component state. *)
Record State := {
  maze : Maze;
  isRunning : bool;
  algorithm : Algorithm;
  visitedCount : nat;
  pathLength : nat;
  gameCompleted : bool
}.

(** The variables of a run: the private copy [newMaze], the work list
    ([queue] or [stack]), the [parent] map, whose keys [x,y] are the places,
    the counter [visited], and whether [setMaze([...newMaze])] has been
    called, after which the component state shares the cells of [newMaze]. *)
Record Search := {
  newMaze : Maze;
  frontier : list (nat * nat);
  parent : gmap (nat * nat) (nat * nat);
  visited : nat;
  shown : bool
}.

Inductive Turn :=
  | Again (s : Search)
  | Stop (s : Search)
  | AtEnd (s : Search) (current : nat * nat).

(** [queue.shift()] and [stack.pop()]. *)
Definition shift (l : list (nat * nat)) : option ((nat * nat) * list (nat * nat)) :=
  match l with
  | [] => None
  | a :: l => Some (a, l)
  end.

Definition pop (l : list (nat * nat)) : option ((nat * nat) * list (nat * nat)) :=
  match reverse l with
  | [] => None
  | a :: r => Some (a, reverse r)
  end.

Definition take (a : Algorithm) :=
  match a with
  | BFS => shift
  | DFS => pop
  end.

Section Dimensions.
Variable mazeWidth mazeHeight : nat.

(** [initializeMaze]; [randomWall x y] stands for [Math.random() < 0.3]. *)
Definition initializeMaze (randomWall : nat → nat → bool) : Maze :=
  map (fun y =>
    map (fun x =>
      let corner1 := (x =? 1) && (y =? 1) in
      let corner2 := (Z.of_nat x =? Z.of_nat mazeWidth - 2)%Z
                     && (Z.of_nat y =? Z.of_nat mazeHeight - 2)%Z in
      let border := (x =? 0) || (y =? 0)
                    || (Z.of_nat x =? Z.of_nat mazeWidth - 1)%Z
                    || (Z.of_nat y =? Z.of_nat mazeHeight - 1)%Z in
      {| x := x; y := y;
         isWall := (randomWall x y && negb corner1 && negb corner2) || border;
         isVisited := false; isPath := false;
         isStart := corner1; isEnd := corner2 |})
      (seq 0 mazeWidth))
    (seq 0 mazeHeight).

Section Run.
(** The [maze] of the render in which the run was started: [getNeighbors]
    reads this one, not [newMaze]. *)
Variable maze : Maze.

(** One direction of [getNeighbors]. *)
Definition lookAt (cell : MazeCell) (neighbors : run (list (nat * nat)))
    (dir : Z * Z) : run (list (nat * nat)) :=
  neighbors ← neighbors;
  let newX := (Z.of_nat (x cell) + dir.1)%Z in
  let newY := (Z.of_nat (y cell) + dir.2)%Z in
  if ((0 <=? newX) && (newX <? Z.of_nat mazeWidth)
      && (0 <=? newY) && (newY <? Z.of_nat mazeHeight))%Z
  then
    let q := (Z.to_nat newX, Z.to_nat newY) in
    c ← of_option (cellAt maze q);
    if negb (isWall c) && negb (isVisited c)
    then Done (neighbors ++ [q])
    else Done neighbors
  else Done neighbors.

Definition getNeighbors (cell : MazeCell) : run (list (nat * nat)) :=
  foldl (lookAt cell) (Done []) directions.

(** [neighbors.forEach(neighbor => { if (!newMaze[neighbor.y][neighbor.x].isVisited)
      { parent.set(key, current); queue.push(neighbor); } })] *)
Definition discover (m : Maze) (current : nat * nat)
    (acc : run (gmap (nat * nat) (nat * nat) * list (nat * nat)))
    (neighbor : nat * nat)
    : run (gmap (nat * nat) (nat * nat) * list (nat * nat)) :=
  '(parent, frontier) ← acc;
  c ← of_option (cellAt m neighbor);
  if negb (isVisited c)
  then Done (<[neighbor := current]> parent, frontier ++ [neighbor])
  else Done (parent, frontier).

(** One turn of [while (queue.length > 0)], or of the loop over [stack]. *)
Definition turn (a : Algorithm) (s : Search) : run Turn :=
  match take a (frontier s) with
  | None => Done (Stop s)
  | Some (current, rest) =>
    currentCell ← of_option (cellAt (newMaze s) current);
    if isVisited currentCell then
      Done (Again {| newMaze := newMaze s; frontier := rest;
                     parent := parent s; visited := visited s;
                     shown := shown s |})
    else
      let m := setCell (newMaze s) current (markVisited currentCell) in
      if isEnd currentCell then
        Done (AtEnd {| newMaze := m; frontier := rest; parent := parent s;
                       visited := S (visited s); shown := shown s |} current)
      else
        neighbors ← getNeighbors currentCell;
        '(parent, frontier) ←
          foldl (discover m current) (Done (parent s, rest)) neighbors;
        Done (Again {| newMaze := m; frontier := frontier; parent := parent;
                       visited := S (visited s); shown := true |})
  end.

Fixpoint loop (a : Algorithm) (fuel : nat) (s : Search)
    : run (Search * option (nat * nat)) :=
  match fuel with
  | 0 => Timeout
  | S fuel =>
    t ← turn a s;
    match t with
    | Again s => loop a fuel s
    | Stop s => Done (s, None)
    | AtEnd s current => Done (s, Some current)
    end
  end.

End Run.

(** [while (pathNode) { newMaze[pathNode.y][pathNode.x].isPath = true;
      pathLen++; pathNode = parent.get(key); }] *)
Fixpoint reconstruct (fuel : nat) (m : Maze)
    (parent : gmap (nat * nat) (nat * nat)) (pathNode : option (nat * nat))
    (pathLen : nat) : run (Maze * nat) :=
  match pathNode with
  | None => Done (m, pathLen)
  | Some p =>
    match fuel with
    | 0 => Timeout
    | S fuel =>
      c ← of_option (cellAt m p);
      reconstruct fuel (setCell m p (markPath c)) parent (parent !! p)
        (S pathLen)
    end
  end.

(** The variables of [runBFS] and [runDFS] on entry. *)
Definition searchStart (maze : Maze) : Search :=
  {| newMaze := map (map resetCell) maze; frontier := [(1, 1)];
     parent := ∅; visited := 0; shown := false |}.

(** [runBFS] and [runDFS], followed by the [setIsRunning(false)] of
    [startAlgorithm], as a change of the component state. *)
Definition runSearch (fuel : nat) (s : State) : run State :=
  '(r, found) ← loop (maze s) (algorithm s) fuel (searchStart (maze s));
  match found with
  | None =>
    Done {| maze := if shown r then newMaze r else maze s;
            isRunning := false; algorithm := algorithm s;
            visitedCount := if visited r is 0 then visitedCount s else visited r;
            pathLength := pathLength s; gameCompleted := gameCompleted s |}
  | Some current =>
    '(m, pathLen) ← reconstruct fuel (newMaze r) (parent r) (Some current) 0;
    Done {| maze := if shown r then m else maze s;
            isRunning := false; algorithm := algorithm s;
            visitedCount := visited r; pathLength := pathLen;
            gameCompleted := true |}
  end.

(** [startAlgorithm] *)
Definition startAlgorithm (fuel : nat) (s : State) : run State :=
  if isRunning s then Done s else runSearch fuel s.

Definition initial (randomWall : nat → nat → bool) : State :=
  {| maze := initializeMaze randomWall; isRunning := false; algorithm := BFS;
     visitedCount := 0; pathLength := 0; gameCompleted := false |}.

(** The grid has [mazeHeight] rows of [mazeWidth] cells, and each cell
    carries its own coordinates. *)
Definition wellFormed (m : Maze) : Prop :=
  (∀ p, is_Some (cellAt m p) ↔ p.1 < mazeWidth ∧ p.2 < mazeHeight)
  ∧ (∀ p c, cellAt m p = Some c → x c = p.1 ∧ y c = p.2).

End Dimensions.

Definition setAlgorithm (a : Algorithm) (s : State) : State :=
  {| maze := maze s; isRunning := isRunning s; algorithm := a;
     visitedCount := visitedCount s; pathLength := pathLength s;
     gameCompleted := gameCompleted s |}.

(** [q] is the cell above, right of, below or left of [p]. *)
Definition adjacent (p q : nat * nat) : Prop :=
  ∃ dir, dir ∈ directions
    ∧ Z.of_nat q.1 = (Z.of_nat p.1 + dir.1)%Z
    ∧ Z.of_nat q.2 = (Z.of_nat p.2 + dir.2)%Z.

(** A walk of [n] moves from [p] to [r] over cells that are no walls. *)
Inductive walk (m : Maze) : nat → nat * nat → nat * nat → Prop :=
  | walk_here p c :
      cellAt m p = Some c → isWall c = false → walk m 0 p p
  | walk_step n p q r c :
      cellAt m p = Some c → isWall c = false → adjacent p q →
      walk m n q r → walk m (S n) p r.

(** A maze of the narrow layout, 20 x 12: the cells left open form two
    corridors from the start (1, 1) to the end (18, 10), a short one along
    row 1 and column 18 and a long one winding through rows 3, 5 and 10. *)
Definition between (a b v : nat) : bool := (a <=? v) && (v <=? b).

Definition corridor (x y : nat) : bool :=
  ((y =? 1) && between 1 18 x) || ((x =? 18) && between 1 10 y)
  || ((x =? 1) && between 1 3 y) || ((y =? 3) && between 1 16 x)
  || ((x =? 16) && between 3 5 y) || ((y =? 5) && between 3 16 x)
  || ((x =? 3) && between 5 10 y) || ((y =? 10) && between 3 18 x).

Definition twoCorridors : State :=
  initial 20 12 (fun x y => negb (corridor x y)).

End MazeSolver.

(** ** Path finder (Dijkstra over a weighted grid): unnamed/part_001 *)

Module PathFinder.

(** [distance : number], which is a natural number or [Infinity]. *)
Inductive Distance := Finite (d : nat) | Infinity.

(** A cell of [grid]; a reference to a cell ([previous], an element of
    [unvisited]) is the place [(column, row)] where the grid stores it. *)
Record GridCell := {
  x : nat;
  y : nat;
  isWall : bool;
  isStart : bool;
  isEnd : bool;
  isVisited : bool;
  isPath : bool;
  distance : Distance;
  weight : nat;
  previous : option (nat * nat)
}.

Abbreviation Grid := (list (list GridCell)).

(** [{ ...cell, isVisited: false, isPath: false,
       distance: cell.isStart ? 0 : Infinity, previous: null }] *)
Definition resetCell (c : GridCell) : GridCell :=
  {| x := x c; y := y c; isWall := isWall c; isStart := isStart c;
     isEnd := isEnd c; isVisited := false; isPath := false;
     distance := if isStart c then Finite 0 else Infinity;
     weight := weight c; previous := None |}.

Definition markVisited (c : GridCell) : GridCell :=
  {| x := x c; y := y c; isWall := isWall c; isStart := isStart c;
     isEnd := isEnd c; isVisited := true; isPath := isPath c;
     distance := distance c; weight := weight c; previous := previous c |}.

Definition markPath (c : GridCell) : GridCell :=
  {| x := x c; y := y c; isWall := isWall c; isStart := isStart c;
     isEnd := isEnd c; isVisited := isVisited c; isPath := true;
     distance := distance c; weight := weight c; previous := previous c |}.

Definition setDistance (d : nat) (prev : nat * nat) (c : GridCell) : GridCell :=
  {| x := x c; y := y c; isWall := isWall c; isStart := isStart c;
     isEnd := isEnd c; isVisited := isVisited c; isPath := isPath c;
     distance := Finite d; weight := weight c; previous := Some prev |}.

(** [a.distance - b.distance < 0]; [Infinity - Infinity] is [NaN], which a
    comparator result counts as [0]. *)
Definition dist_ltb (a b : Distance) : bool :=
  match a, b with
  | Finite m, Finite n => m <? n
  | Finite _, Infinity => true
  | Infinity, _ => false
  end.

Definition distanceAt (g : Grid) (p : nat * nat) : Distance :=
  match cellAt g p with
  | Some c => distance c
  | None => Infinity
  end.

(** [unvisited.sort((a, b) => a.distance - b.distance)].  [Array.prototype.sort]
    is stable, and this comparator is a consistent one, so the result is the
    one ordering by distance that keeps equal elements in their former order;
    insertion from the right computes it. *)
Fixpoint insertByDistance (g : Grid) (a : nat * nat) (l : list (nat * nat))
    : list (nat * nat) :=
  match l with
  | [] => [a]
  | b :: l' =>
    if dist_ltb (distanceAt g b) (distanceAt g a)
    then b :: insertByDistance g a l'
    else a :: l
  end.

Definition sortByDistance (g : Grid) (l : list (nat * nat)) : list (nat * nat) :=
  foldr (insertByDistance g) [] l.

Definition directions : list (Z * Z) :=
  [(0, -1); (1, 0); (0, 1); (-1, 0)]%Z.

(** The component state read and written by the run and by the clicks. *)
Inductive DrawMode := wallMode | weightMode.

Record State := {
  grid : Grid;
  isRunning : bool;
  drawMode : DrawMode;
  visitedCount : nat;
  pathLength : nat;
  totalDistance : nat;
  gameCompleted : bool
}.

(** The variables of the [while] loop of [runDijkstra]. *)
Record Loop := {
  newGrid : Grid;
  unvisited : list (nat * nat);
  visited : nat
}.

(** How one turn of the loop ends: it goes round again, it leaves by
    [unvisited.length > 0] being false or by the [Infinity] [break], or it has
    shifted the end cell. *)
Inductive Turn :=
  | Again (l : Loop)
  | Stop (l : Loop)
  | AtEnd (l : Loop) (current : nat * nat).

Section Dimensions.
Variable gridWidth gridHeight : nat.

(** [initializeGrid]; [randomWeight x y] stands for the draw
    [Math.random() < 0.3 ? Math.floor(Math.random() * 5) + 2 : 1] of the cell. *)
Definition initializeGrid (randomWeight : nat → nat → nat) : Grid :=
  map (fun y =>
    map (fun x =>
      {| x := x; y := y; isWall := false;
         isStart := (x =? 2) && (y =? gridHeight / 2);
         isEnd := (Z.of_nat x =? Z.of_nat gridWidth - 3)%Z
                  && (y =? gridHeight / 2);
         isVisited := false; isPath := false; distance := Infinity;
         weight := randomWeight x y; previous := None |})
      (seq 0 gridWidth))
    (seq 0 gridHeight).

(** The search for [startCell]: the first start cell in row-major order over
    [gridHeight] rows of [gridWidth] cells. *)
Fixpoint findStart (g : Grid) (ps : list (nat * nat)) : run (option (nat * nat)) :=
  match ps with
  | [] => Done None
  | p :: ps =>
    c ← of_option (cellAt g p);
    if isStart c then Done (Some p) else findStart g ps
  end.

Definition scanOrder : list (nat * nat) :=
  row ← seq 0 gridHeight; (fun col => (col, row)) <$> seq 0 gridWidth.

(** One direction of [directions.forEach]: relax the neighbour of [current]
    (cell [c], at distance [d]) when it lies on the grid, is no wall and is
    not visited. *)
Definition relax (current : nat * nat) (c : GridCell) (d : nat) (g : run Grid)
    (dir : Z * Z) : run Grid :=
  g ← g;
  let newX := (Z.of_nat (x c) + dir.1)%Z in
  let newY := (Z.of_nat (y c) + dir.2)%Z in
  if ((0 <=? newX) && (newX <? Z.of_nat gridWidth)
      && (0 <=? newY) && (newY <? Z.of_nat gridHeight))%Z
  then
    let q := (Z.to_nat newX, Z.to_nat newY) in
    neighbor ← of_option (cellAt g q);
    if negb (isWall neighbor) && negb (isVisited neighbor) then
      let tentativeDistance := d + weight neighbor in
      if dist_ltb (Finite tentativeDistance) (distance neighbor)
      then Done (setCell g q (setDistance tentativeDistance current neighbor))
      else Done g
    else Done g
  else Done g.

(** One turn of [while (unvisited.length > 0)]. *)
Definition turn (l : Loop) : run Turn :=
  match sortByDistance (newGrid l) (unvisited l) with
  | [] => Done (Stop l)
  | current :: rest =>
    c ← of_option (cellAt (newGrid l) current);
    match distance c with
    | Infinity =>
      Done (Stop {| newGrid := newGrid l; unvisited := rest;
                    visited := visited l |})
    | Finite d =>
      let g := setCell (newGrid l) current (markVisited c) in
      if isEnd c then
        Done (AtEnd {| newGrid := g; unvisited := rest;
                       visited := S (visited l) |} current)
      else
        g ← foldl (relax current c d) (Done g) directions;
        Done (Again {| newGrid := g; unvisited := rest;
                       visited := S (visited l) |})
    end
  end.

Fixpoint loop (fuel : nat) (l : Loop) : run (Loop * option (nat * nat)) :=
  match fuel with
  | 0 => Timeout
  | S fuel =>
    t ← turn l;
    match t with
    | Again l => loop fuel l
    | Stop l => Done (l, None)
    | AtEnd l current => Done (l, Some current)
    end
  end.

(** [while (pathNode) { pathNode.isPath = true; pathLen++;
      totalDist += pathNode.weight; pathNode = pathNode.previous; }] *)
Fixpoint reconstruct (fuel : nat) (g : Grid) (pathNode : option (nat * nat))
    (pathLen totalDist : nat) : run (Grid * nat * nat) :=
  match pathNode with
  | None => Done (g, pathLen, totalDist)
  | Some p =>
    match fuel with
    | 0 => Timeout
    | S fuel =>
      c ← of_option (cellAt g p);
      reconstruct fuel (setCell g p (markPath c)) (previous c)
        (S pathLen) (totalDist + weight c)
    end
  end.

(** The loop variables on entry: every cell that is no wall is pushed on
    [unvisited], in the order of the nested [forEach]. *)
Definition loopStart (newGrid : Grid) : Loop :=
  {| newGrid := newGrid;
     unvisited :=
       List.filter (fun p => match cellAt newGrid p with
                             | Some c => negb (isWall c)
                             | None => false
                             end) (places newGrid);
     visited := 0 |}.

(** [runDijkstra], as a change of the component state. *)
Definition runDijkstra (fuel : nat) (s : State) : run State :=
  let newGrid := map (map resetCell) (grid s) in
  startCell ← findStart newGrid scanOrder;
  match startCell with
  | None =>
    Done {| grid := newGrid; isRunning := isRunning s; drawMode := drawMode s;
            visitedCount := visitedCount s; pathLength := pathLength s;
            totalDistance := totalDistance s;
            gameCompleted := gameCompleted s |}
  | Some _ =>
    '(l, found) ← loop fuel (loopStart newGrid);
    match found with
    | None =>
      Done {| grid := PathFinder.newGrid l; isRunning := false;
              drawMode := drawMode s;
              visitedCount := if visited l is 0 then visitedCount s else visited l;
              pathLength := pathLength s; totalDistance := totalDistance s;
              gameCompleted := gameCompleted s |}
    | Some current =>
      '(g, pathLen, totalDist) ←
        reconstruct fuel (PathFinder.newGrid l) (Some current) 0 0;
      Done {| grid := g; isRunning := false; drawMode := drawMode s;
              visitedCount := visited l; pathLength := pathLen;
              totalDistance := totalDist; gameCompleted := true |}
    end
  end.

(** The loop variables after [k] full turns, if the loop goes on that long. *)
Fixpoint turns (k : nat) (l : Loop) : option Loop :=
  match k with
  | 0 => Some l
  | S k =>
    match turn l with
    | Done (Again l) => turns k l
    | _ => None
    end
  end.

(** The grid has [gridHeight] rows of [gridWidth] cells, and each cell
    carries its own coordinates. *)
Definition wellFormed (g : Grid) : Prop :=
  (∀ p, is_Some (cellAt g p) ↔ p.1 < gridWidth ∧ p.2 < gridHeight)
  ∧ (∀ p c, cellAt g p = Some c → x c = p.1 ∧ y c = p.2).

(** [startAlgorithm]: nothing happens while a run is active. *)
Definition startAlgorithm (fuel : nat) (s : State) : run State :=
  if isRunning s then Done s
  else
    runDijkstra fuel
      {| grid := grid s; isRunning := true; drawMode := drawMode s;
         visitedCount := visitedCount s; pathLength := pathLength s;
         totalDistance := totalDistance s; gameCompleted := gameCompleted s |}.

(** The cell edit of [handleCanvasClick]. *)
Definition editCell (mode : DrawMode) (cell : GridCell) : GridCell :=
  if negb (isStart cell) && negb (isEnd cell) then
    match mode with
    | wallMode =>
      {| x := x cell; y := y cell; isWall := negb (isWall cell);
         isStart := isStart cell; isEnd := isEnd cell;
         isVisited := if negb (isWall cell) then false else isVisited cell;
         isPath := if negb (isWall cell) then false else isPath cell;
         distance := distance cell; weight := weight cell;
         previous := previous cell |}
    | weightMode =>
      if negb (isWall cell) then
        {| x := x cell; y := y cell; isWall := isWall cell;
           isStart := isStart cell; isEnd := isEnd cell;
           isVisited := isVisited cell; isPath := isPath cell;
           distance := distance cell;
           weight := if weight cell =? 1 then 5 else 1;
           previous := previous cell |}
      else cell
    end
  else cell.

(** [handleCanvasClick]; [x], [y] are the cell coordinates computed from the
    pointer, [Math.floor((event.clientX - rect.left) / cellSize)] and the
    like.  Were [grid[y]] missing, the handler would throw before [setGrid]
    and leave the state as it is. *)
Definition handleCanvasClick (x y : Z) (s : State) : State :=
  if isRunning s then s
  else if ((0 <=? x) && (x <? Z.of_nat gridWidth)
           && (0 <=? y) && (y <? Z.of_nat gridHeight))%Z
  then
    let p := (Z.to_nat x, Z.to_nat y) in
    match cellAt (grid s) p with
    | None => s
    | Some cell =>
      {| grid := setCell (grid s) p (editCell (drawMode s) cell);
         isRunning := isRunning s; drawMode := drawMode s;
         visitedCount := visitedCount s; pathLength := pathLength s;
         totalDistance := totalDistance s; gameCompleted := gameCompleted s |}
    end
  else s.

Definition initial (randomWeight : nat → nat → nat) : State :=
  {| grid := initializeGrid randomWeight; isRunning := false;
     drawMode := wallMode; visitedCount := 0; pathLength := 0;
     totalDistance := 0; gameCompleted := false |}.

Definition setDrawMode (m : DrawMode) (s : State) : State :=
  {| grid := grid s; isRunning := isRunning s; drawMode := m;
     visitedCount := visitedCount s; pathLength := pathLength s;
     totalDistance := totalDistance s; gameCompleted := gameCompleted s |}.

Definition setIsRunning (b : bool) (s : State) : State :=
  {| grid := grid s; isRunning := b; drawMode := drawMode s;
     visitedCount := visitedCount s; pathLength := pathLength s;
     totalDistance := totalDistance s; gameCompleted := gameCompleted s |}.

(** The edits open to the user while no run is active: a click on the
    canvas and the two draw-mode buttons. *)
Inductive Edit := Click (x y : Z) | Mode (m : DrawMode).

Definition step (s : State) (e : Edit) : State :=
  match e with
  | Click x y => handleCanvasClick x y s
  | Mode m => setDrawMode m s
  end.

End Dimensions.

(** [q] is the cell above, right of, below or left of [p]. *)
Definition adjacent (p q : nat * nat) : Prop :=
  ∃ dir, dir ∈ directions
    ∧ Z.of_nat q.1 = (Z.of_nat p.1 + dir.1)%Z
    ∧ Z.of_nat q.2 = (Z.of_nat p.2 + dir.2)%Z.

(** A walk from [p] to [r] over cells that are no walls. *)
Inductive route (g : Grid) : nat * nat → nat * nat → Prop :=
  | route_here p c :
      cellAt g p = Some c → isWall c = false → route g p p
  | route_step p q r c :
      cellAt g p = Some c → isWall c = false → adjacent p q →
      route g q r → route g p r.

(** Start and end are connected. *)
Definition connected (g : Grid) : Prop :=
  ∃ ps pe cs ce,
    cellAt g ps = Some cs ∧ isStart cs = true
    ∧ cellAt g pe = Some ce ∧ isEnd ce = true
    ∧ route g ps pe.

(** The back-pointer chain from a cell: the cell, its [previous], and so on
    until [null]. *)
Inductive chain (g : Grid) : option (nat * nat) → list (nat * nat) → Prop :=
  | chain_nil : chain g None []
  | chain_cons p c l :
      cellAt g p = Some c → chain g (previous c) l →
      chain g (Some p) (p :: l).

Definition weightAt (g : Grid) (p : nat * nat) : nat :=
  match cellAt g p with
  | Some c => weight c
  | None => 0
  end.

(** Sum of the cell weights along a list of places. *)
Definition pathCost (g : Grid) (l : list (nat * nat)) : nat :=
  sum_list_with (weightAt g) l.

(** Row-major index of a place, [y * gridWidth + x]. *)
Definition rowMajor (gridWidth : nat) (p : nat * nat) : nat :=
  p.2 * gridWidth + p.1.

(** The grid of the wide layout, 20 x 12, when every random weight is 1. *)
Definition unitGrid : State := initial 20 12 (fun _ _ => 1).


(** Number of cells of the grid that satisfy [f]. *)
Definition countCells (f : GridCell → bool) (g : Grid) : nat :=
  length (List.filter f (concat g)).

End PathFinder.

(** ** Graph colouring: GraphColoring.tsx *)

Module GraphColoring.

(** A node; [color = -1] means uncolored.  The canvas position of a node is
    left out: only the drawing reads it. *)
Record Node := {
  id : nat;
  color : Z;
  neighbors : list nat
}.

(** [COLORS.length] *)
Definition paletteSize : nat := 8.

Record State := {
  nodes : list Node;
  conflicts : gset nat;
  isComplete : bool;
  colorsUsed : nat
}.

Definition setColor (c : Z) (node : Node) : Node :=
  {| id := id node; color := c; neighbors := neighbors node |}.

(** [node.neighbors.forEach(neighborId => { const neighborColor =
      newNodes[neighborId].color; if (neighborColor !== -1)
      usedColors.add(neighborColor); })] *)
Definition collect (newNodes : list Node) (usedColors : run (gset Z))
    (neighborId : nat) : run (gset Z) :=
  usedColors ← usedColors;
  neighbor ← of_option (newNodes !! neighborId);
  if (color neighbor =? -1)%Z then Done usedColors
  else Done ({[color neighbor]} ∪ usedColors).

(** [for (let color = 0; color < COLORS.length; color++)
      if (!usedColors.has(color)) { node.color = color; break; }] *)
Definition firstFree (usedColors : gset Z) : option Z :=
  List.find (fun c => bool_decide (c ∉ usedColors))
    (Z.of_nat <$> seq 0 paletteSize).

(** The body of [newNodes.forEach(node => ...)] for the node at index [i]. *)
Definition colorNode (newNodes : run (list Node)) (i : nat) : run (list Node) :=
  newNodes ← newNodes;
  node ← of_option (newNodes !! i);
  usedColors ← foldl (collect newNodes) (Done ∅) (neighbors node);
  match firstFree usedColors with
  | Some c => Done (<[i := setColor c node]> newNodes)
  | None => Done newNodes
  end.

(** The greedy pass of [autoSolve]. *)
Definition greedy (nodes : list Node) : run (list Node) :=
  let newNodes := setColor (-1) <$> nodes in
  foldl colorNode (Done newNodes) (seq 0 (length newNodes)).

(** The inner loop of [checkConflicts] for one coloured node. *)
Definition clash (currentNodes : list Node) (node : Node)
    (newConflicts : run (gset nat)) (neighborId : nat) : run (gset nat) :=
  newConflicts ← newConflicts;
  neighbor ← of_option (currentNodes !! neighborId);
  if (color neighbor =? color node)%Z
  then Done ({[id node]} ∪ ({[neighborId]} ∪ newConflicts))
  else Done newConflicts.

Definition conflictsOf (currentNodes : list Node) : run (gset nat) :=
  foldl (fun newConflicts node =>
           if (color node =? -1)%Z then newConflicts
           else foldl (clash currentNodes node) newConflicts (neighbors node))
    (Done ∅) currentNodes.

(** [checkConflicts(currentNodes)]: the conflict set, and on a complete
    valid colouring the number of colours used. *)
Definition checkConflicts (currentNodes : list Node) (s : State) : run State :=
  newConflicts ← conflictsOf currentNodes;
  let allColored := forallb (fun node => negb (color node =? -1)%Z) currentNodes in
  let noConflicts := bool_decide (size newConflicts = 0) in
  if allColored && noConflicts then
    Done {| nodes := nodes s; conflicts := newConflicts; isComplete := true;
            colorsUsed :=
              size (list_to_set (color <$> currentNodes) : gset Z) |}
  else
    Done {| nodes := nodes s; conflicts := newConflicts; isComplete := false;
            colorsUsed := colorsUsed s |}.

(** [autoSolve]: [setNodes(newNodes); checkConflicts(newNodes)]. *)
Definition autoSolve (s : State) : run State :=
  newNodes ← greedy (nodes s);
  checkConflicts newNodes
    {| nodes := newNodes; conflicts := conflicts s;
       isComplete := isComplete s; colorsUsed := colorsUsed s |}.

(** [currentNodes[k].color], or [-1] where there is no such node. *)
Definition colorAt (ns : list Node) (k : nat) : Z :=
  match ns !! k with
  | Some node => color node
  | None => -1
  end.

(** An undirected graph without loops, as [generateGraph] builds it: every
    neighbour id is the index of a node other than the node itself, which
    lists the node among its own neighbours. *)
Definition isGraph (nodes : list Node) : Prop :=
  ∀ i node k, nodes !! i = Some node → k ∈ neighbors node →
    k ≠ i ∧ ∃ other, nodes !! k = Some other ∧ i ∈ neighbors other.

(** The degree of a node is the length of its neighbour list. *)
Definition maxDegree (nodes : list Node) : nat :=
  max_list ((fun node => length (neighbors node)) <$> nodes).

(** The star of scenario 4: a centre and four leaves. *)
Definition star : list Node :=
  [ {| id := 0; color := -1; neighbors := [1; 2; 3; 4] |};
    {| id := 1; color := -1; neighbors := [0] |};
    {| id := 2; color := -1; neighbors := [0] |};
    {| id := 3; color := -1; neighbors := [0] |};
    {| id := 4; color := -1; neighbors := [0] |} ].

End GraphColoring.

(** ** Network connector (Kruskal with union-find): NetworkConnector.tsx *)

Module NetworkConnector.

Record Edge := {
  from : nat;
  to : nat;
  weight : nat;
  isSelected : bool;
  isInMST : bool
}.

(** The arrays [parent] and [rank] of [findMST]. *)
Record UnionFind := {
  parent : list nat;
  rank : list nat
}.

(** [parent = nodes.map((_, i) => i)], [rank = new Array(nodes.length).fill(0)] *)
Definition singletons (n : nat) : UnionFind :=
  {| parent := seq 0 n; rank := replicate n 0 |}.

(** [find]: [if (parent[x] !== x) parent[x] = find(parent[x]); return parent[x];]
    The edges join existing nodes.  A read outside the arrays, which in
    JavaScript yields [undefined] and corrupts them, ends the model run with
    [Thrown]. *)
Fixpoint find (fuel : nat) (parent : list nat) (x : nat) : run (list nat * nat) :=
  match fuel with
  | 0 => Timeout
  | S fuel =>
    px ← of_option (parent !! x);
    if px =? x then Done (parent, px)
    else
      '(parent, root) ← find fuel parent px;
      Done (<[x := root]> parent, root)
  end.

(** [union]: [true] when the two sets were distinct and are now joined. *)
Definition union (fuel : nat) (uf : UnionFind) (x y : nat)
    : run (UnionFind * bool) :=
  '(parent, rootX) ← find fuel (parent uf) x;
  '(parent, rootY) ← find fuel parent y;
  if rootX =? rootY then Done ({| parent := parent; rank := rank uf |}, false)
  else
    rankX ← of_option (rank uf !! rootX);
    rankY ← of_option (rank uf !! rootY);
    if rankX <? rankY then
      Done ({| parent := <[rootX := rootY]> parent; rank := rank uf |}, true)
    else if rankY <? rankX then
      Done ({| parent := <[rootY := rootX]> parent; rank := rank uf |}, true)
    else
      Done ({| parent := <[rootY := rootX]> parent;
               rank := <[rootX := S rankX]> (rank uf) |}, true).

(** [[...edges].sort((a, b) => a.weight - b.weight)]: the stable sort by
    weight, computed by insertion from the right. *)
Fixpoint insertByWeight (a : Edge) (l : list Edge) : list Edge :=
  match l with
  | [] => [a]
  | b :: l' =>
    if weight b <? weight a then b :: insertByWeight a l' else a :: l
  end.

Definition sortByWeight (l : list Edge) : list Edge :=
  foldr insertByWeight [] l.

(** [edges.findIndex(e => e.from === edge.from && e.to === edge.to
      && e.weight === edge.weight)], [-1] when there is none. *)
Definition sameEdge (edge e : Edge) : bool :=
  (from e =? from edge) && (to e =? to edge) && (weight e =? weight edge).

Fixpoint findIndexFrom (i : nat) (edge : Edge) (edges : list Edge) : Z :=
  match edges with
  | [] => -1
  | e :: edges =>
    if sameEdge edge e then Z.of_nat i else findIndexFrom (S i) edge edges
  end.

Definition findIndex (edges : list Edge) (edge : Edge) : Z :=
  findIndexFrom 0 edge edges.

(** [Set.prototype.add]: a [Set<number>] is kept as the list of its members
    in insertion order. *)
Definition add (i : Z) (set : list Z) : list Z :=
  if bool_decide (i ∈ set) then set else set ++ [i].

(** The variables of the [forEach] over [sortedEdges]. *)
Record Kruskal := {
  sets : UnionFind;
  mstEdgeIndices : list Z;
  mstWeight : nat
}.

Definition visit (fuel : nat) (edges : list Edge) (k : run Kruskal)
    (edge : Edge) : run Kruskal :=
  k ← k;
  let edgeIndex := findIndex edges edge in
  '(uf, joined) ← union fuel (sets k) (from edge) (to edge);
  if joined : bool then
    Done {| sets := uf; mstEdgeIndices := add edgeIndex (mstEdgeIndices k);
            mstWeight := mstWeight k + weight edge |}
  else
    Done {| sets := uf; mstEdgeIndices := mstEdgeIndices k;
            mstWeight := mstWeight k |}.

(** Before the loop: singletons, [new Set<number>()], [mstWeight = 0]. *)
Definition start (nodeCount : nat) : Kruskal :=
  {| sets := singletons nodeCount; mstEdgeIndices := []; mstWeight := 0 |}.

(** The loop over the first edges [l] of [sortedEdges]. *)
Definition visitAll (fuel : nat) (nodeCount : nat) (edges l : list Edge)
    : run Kruskal :=
  foldl (visit fuel edges) (Done (start nodeCount)) l.

(** [findMST]: the pair ([mstEdges], [mstCost]) it stores. *)
Definition findMST (fuel : nat) (nodeCount : nat) (edges : list Edge)
    : run (list Z * nat) :=
  k ← visitAll fuel nodeCount edges (sortByWeight edges);
  Done (mstEdgeIndices k, mstWeight k).

(** [edges[edgeIndex]], [undefined] outside the array. *)
Definition edgeAt (edges : list Edge) (edgeIndex : Z) : option Edge :=
  if bool_decide (0 ≤ edgeIndex)%Z then edges !! Z.to_nat edgeIndex else None.

(** [calculateTotalCost]: the sum of [edges[edgeIndex].weight] over a
    selection; reading [.weight] of [undefined] throws. *)
Definition calculateTotalCost (edges : list Edge) (selectedIndices : list Z)
    : run nat :=
  foldl (fun sum edgeIndex =>
           sum ← sum; e ← of_option (edgeAt edges edgeIndex);
           Done (sum + weight e))
        (Done 0) selectedIndices.

(** *** Graphs, for the statements *)

(** The end points of an edge, and of the edges a selection names. *)
Definition ends (e : Edge) : nat * nat := (from e, to e).

Definition endsAt (edges : list Edge) (selectedIndices : list Z)
    : list (nat * nat) :=
  omap (fun i => ends <$> edgeAt edges i) selectedIndices.

(** Two nodes are joined by a walk over the given connections, in either
    direction. *)
Inductive joined (es : list (nat * nat)) : nat → nat → Prop :=
  | joined_refl x : joined es x x
  | joined_edge a b : (a, b) ∈ es → joined es a b
  | joined_sym x y : joined es x y → joined es y x
  | joined_trans x y z : joined es x y → joined es y z → joined es x z.

(** The connections reach every node from every node. *)
Definition spans (n : nat) (es : list (nat * nat)) : Prop :=
  ∀ x y, x < n → y < n → joined es x y.

(** Every edge joins two of the [n] nodes. *)
Definition inRange (n : nat) (e : Edge) : Prop := from e < n ∧ to e < n.

(** The order of the sort. *)
Definition byWeight (a b : Edge) : Prop := weight a ≤ weight b.

(** A selection of [n - 1] distinct edges of the graph that reach every
    node. *)
Definition spanningSelection (n : nat) (edges : list Edge)
    (selectedIndices : list Z) : Prop :=
  NoDup selectedIndices
  ∧ (∀ i, i ∈ selectedIndices → is_Some (edgeAt edges i))
  ∧ length selectedIndices = n - 1
  ∧ spans n (endsAt edges selectedIndices).

(** Labels of the nodes after joining along [es] in order: joining [a] and
    [b] gives the label of [a] to every node that has the label of [b]. *)
Definition relabel (f : nat → nat) (e : nat * nat) : nat → nat :=
  fun x => if f x =? f e.2 then f e.1 else f x.

Definition labels (es : list (nat * nat)) : nat → nat :=
  foldl relabel (fun x => x) es.

(** The rule of Kruskal over a list of edges taken in order: an edge is kept
    when the edges before it, kept or not, do not join its end points. *)
Fixpoint keptAfter (before : list (nat * nat)) (l : list Edge) : list Edge :=
  match l with
  | [] => []
  | e :: l =>
    (if labels before (from e) =? labels before (to e) then [] else [e])
    ++ keptAfter (before ++ [ends e]) l
  end.

Definition kept (l : list Edge) : list Edge := keptAfter [] l.

Definition totalWeight (l : list Edge) : nat := sum_list_with weight l.

(** Three nodes: AB = 1, AC = 3, BC = 2. *)
Definition mkEdge (a b w : nat) : Edge :=
  {| from := a; to := b; weight := w; isSelected := false; isInMST := false |}.

Definition threeNodes : list Edge := [mkEdge 0 1 1; mkEdge 0 2 3; mkEdge 1 2 2].

End NetworkConnector.

(** ** Network connector, the game around [findMST]: NetworkConnector.tsx *)

Module NetworkGame.
Import NetworkConnector.

(** The calls [union(a, b)] for the pairs of [calls], one after the other,
    on the arrays of [findMST]. *)
Definition unions (fuel : nat) (uf : UnionFind) (calls : list (nat * nat))
    : run UnionFind :=
  foldl (fun uf call =>
           uf ← uf; '(uf, _) ← union fuel uf call.1 call.2; Done uf)
        (Done uf) calls.

(** The component state; of a node only its index matters here, so
    [nodes] is kept as [nodes.length]. *)
Record State := {
  nodeCount : nat;
  edges : list Edge;
  selectedEdges : list Z;
  mstEdges : list Z;
  totalCost : nat;
  mstCost : nat;
  isComplete : bool;
  gameStarted : bool;
  showMST : bool
}.

(** [generateNetwork]: one edge for every pair [i < j], in the order of the
    two nested loops.  [cost i j] stands for
    [Math.floor(distance / 10) + Math.floor(Math.random() * 5)], so that the
    weight is [cost i j + 1]. *)
Definition pairsOf (nodeCount : nat) (cost : nat → nat → nat) : list Edge :=
  i ← seq 0 nodeCount;
  (fun j => {| from := i; to := j; weight := cost i j + 1;
               isSelected := false; isInMST := false |})
    <$> seq (S i) (nodeCount - S i).

Definition generateNetwork (isMobile : bool) (cost : nat → nat → nat) : State :=
  let nodeCount := if isMobile then 5 else 6 in
  {| nodeCount := nodeCount; edges := pairsOf nodeCount cost;
     selectedEdges := []; mstEdges := []; totalCost := 0; mstCost := 0;
     isComplete := false; gameStarted := false; showMST := false |}.

(** [findMST] as the component runs it: it stores its two results. *)
Definition storeMST (fuel : nat) (s : State) : run State :=
  '(mstEdgeIndices, mstWeight) ← findMST fuel (nodeCount s) (edges s);
  Done {| nodeCount := nodeCount s; edges := edges s;
          selectedEdges := selectedEdges s; mstEdges := mstEdgeIndices;
          totalCost := totalCost s; mstCost := mstWeight;
          isComplete := isComplete s; gameStarted := gameStarted s;
          showMST := showMST s |}.

(** The effect [if (edges.length > 0) findMST()], run when the edges
    change. *)
Definition whenEdgesChange (fuel : nat) (s : State) : run State :=
  if length (edges s) =? 0 then Done s else storeMST fuel s.

(** [selectedIndices.forEach(edgeIndex => { const edge = edges[edgeIndex];
      adjacencyList[edge.from].push(edge.to);
      adjacencyList[edge.to].push(edge.from); })] *)
Definition connect (edges : list Edge) (adjacencyList : run (list (list nat)))
    (edgeIndex : Z) : run (list (list nat)) :=
  adjacencyList ← adjacencyList;
  edge ← of_option (edgeAt edges edgeIndex);
  l ← of_option (adjacencyList !! from edge);
  let adjacencyList := <[from edge := l ++ [to edge]]> adjacencyList in
  l ← of_option (adjacencyList !! to edge);
  Done (<[to edge := l ++ [from edge]]> adjacencyList).

(** The [dfs] of [checkSpanningTree], over the closure variable [visited]. *)
Fixpoint dfs (fuel : nat) (adjacencyList : list (list nat)) (node : nat)
    (visited : gset nat) : run (gset nat) :=
  match fuel with
  | 0 => Timeout
  | S fuel =>
    neighbors ← of_option (adjacencyList !! node);
    foldl (fun visited neighbor =>
             visited ← visited;
             if decide (neighbor ∈ visited) then Done visited
             else dfs fuel adjacencyList neighbor visited)
          (Done ({[node]} ∪ visited)) neighbors
  end.

(** [checkSpanningTree] *)
Definition checkSpanningTree (fuel : nat) (nodeCount : nat) (edges : list Edge)
    (selectedIndices : list Z) : run bool :=
  if negb (Z.of_nat (length selectedIndices) =? Z.of_nat nodeCount - 1)%Z
  then Done false
  else
    adjacencyList ← foldl (connect edges) (Done (replicate nodeCount []))
                      selectedIndices;
    visited ← dfs fuel adjacencyList 0 ∅;
    Done (size visited =? nodeCount).

(** [has], [delete] and [add] on the copy [new Set(selectedEdges)]. *)
Definition toggle (i : Z) (set : list Z) : list Z :=
  if bool_decide (i ∈ set) then List.filter (fun j => negb (j =? i)%Z) set
  else set ++ [i].

(** [handleCanvasClick]; [clickedEdgeIndex] is what the hit test leaves:
    the index of the last edge near the pointer, or [-1]. *)
Definition handleCanvasClick (fuel : nat) (clickedEdgeIndex : Z) (s : State)
    : run State :=
  if (clickedEdgeIndex =? -1)%Z then Done s
  else
    let newSelectedEdges := toggle clickedEdgeIndex (selectedEdges s) in
    cost ← calculateTotalCost (edges s) newSelectedEdges;
    isValidSpanningTree ←
      checkSpanningTree fuel (nodeCount s) (edges s) newSelectedEdges;
    Done {| nodeCount := nodeCount s; edges := edges s;
            selectedEdges := newSelectedEdges; mstEdges := mstEdges s;
            totalCost := cost; mstCost := mstCost s;
            isComplete := isValidSpanningTree; gameStarted := true;
            showMST := showMST s |}.

(** [showMSTSolution] *)
Definition showMSTSolution (fuel : nat) (s : State) : run State :=
  s' ← storeMST fuel s;
  Done {| nodeCount := nodeCount s'; edges := edges s';
          selectedEdges := selectedEdges s'; mstEdges := mstEdges s';
          totalCost := totalCost s'; mstCost := mstCost s';
          isComplete := isComplete s'; gameStarted := gameStarted s';
          showMST := true |}.

(** [resetSelection] *)
Definition resetSelection (s : State) : State :=
  {| nodeCount := nodeCount s; edges := edges s; selectedEdges := [];
     mstEdges := mstEdges s; totalCost := 0; mstCost := mstCost s;
     isComplete := false; gameStarted := gameStarted s; showMST := false |}.

(** What the user can do: ask for a new network (the effect on the edges
    follows at once), click the canvas, press one of the two buttons. *)
Inductive Action :=
  | NewNetwork (isMobile : bool) (cost : nat → nat → nat)
  | Click (clickedEdgeIndex : Z)
  | PressShow
  | PressReset.

Definition step (fuel : nat) (s : State) (a : Action) : run State :=
  match a with
  | NewNetwork isMobile cost =>
      whenEdgesChange fuel (generateNetwork isMobile cost)
  | Click i => handleCanvasClick fuel i s
  | PressShow => showMSTSolution fuel s
  | PressReset => Done (resetSelection s)
  end.

(** The hit test answers [-1] or the index of an edge. *)
Definition hits (s : State) (a : Action) : Prop :=
  match a with
  | Click i => (-1 ≤ i < Z.of_nat (length (edges s)))%Z
  | _ => True
  end.

(** The states the game reaches from its first network. *)
Inductive reachable (fuel : nat) : State → Prop :=
  | reachable_first isMobile cost s :
      whenEdgesChange fuel (generateNetwork isMobile cost) = Done s →
      reachable fuel s
  | reachable_step s a s' :
      reachable fuel s → hits s a → step fuel s a = Done s' →
      reachable fuel s'.

End NetworkGame.

(** ** Graph colouring, the game around [autoSolve]: GraphColoring.tsx *)

Module ColoringGame.
Import GraphColoring.

(** The component state: [board] holds [nodes], [conflicts], [isComplete]
    and [colorsUsed]. *)
Record Game := {
  board : State;
  edges : list (nat * nat);
  selectedColor : nat;
  gameStarted : bool
}.

(** The variables of [generateGraph]. *)
Record Build := {
  newNodes : list Node;
  newEdges : list (nat * nat);
  edgeSet : gset (nat * nat)
}.

(** [node.neighbors.push(k)] *)
Definition pushNeighbor (k : nat) (node : Node) : Node :=
  {| id := id node; color := color node; neighbors := neighbors node ++ [k] |}.

(** [if (!edgeSet.has(edgeKey)) { edgeSet.add(edgeKey);
      newEdges.push({ from, to }); newNodes[from].neighbors.push(to);
      newNodes[to].neighbors.push(from); }]
    with the key [min-max] kept as the pair. *)
Definition addEdge (b : run Build) (from to : nat) : run Build :=
  b ← b;
  let edgeKey := (from `min` to, from `max` to) in
  if decide (edgeKey ∈ edgeSet b) then Done b
  else
    node ← of_option (newNodes b !! from);
    let nodes1 := <[from := pushNeighbor to node]> (newNodes b) in
    node ← of_option (nodes1 !! to);
    Done {| newNodes := <[to := pushNeighbor from node]> nodes1;
            newEdges := newEdges b ++ [(from, to)];
            edgeSet := {[edgeKey]} ∪ edgeSet b |}.

(** The two loops of [generateGraph] over the edges; [draw i] stands for
    the pair of [Math.floor(Math.random() * nodeCount)] of the [i]-th random
    edge. *)
Definition ring (nodeCount : nat) (b : run Build) : run Build :=
  foldl (fun b i =>
           foldl (fun b j => addEdge b i ((i + j) `mod` nodeCount)) b [1; 2])
        b (seq 0 nodeCount).

Definition randomEdges (count : nat) (draw : nat → nat * nat) (b : run Build)
    : run Build :=
  foldl (fun b i =>
           let '(from, to) := draw i in
           if decide (from = to) then b else addEdge b from to)
        b (seq 0 count).

(** The nodes pushed by the first loop, and the empty [newEdges] and
    [edgeSet]. *)
Definition blank (nodeCount : nat) : Build :=
  {| newNodes := (fun i => {| id := i; color := -1; neighbors := [] |})
                   <$> seq 0 nodeCount;
     newEdges := []; edgeSet := ∅ |}.

Definition build (isMobile : bool) (draw : nat → nat * nat) : run Build :=
  let nodeCount := if isMobile then 6 else 8 in
  randomEdges (if isMobile then 2 else 3) draw
    (ring nodeCount (Done (blank nodeCount))).

Definition generateGraph (isMobile : bool) (draw : nat → nat * nat) (g : Game)
    : run Game :=
  b ← build isMobile draw;
  Done {| board := {| nodes := newNodes b; conflicts := ∅;
                      isComplete := false; colorsUsed := 0 |};
          edges := newEdges b; selectedColor := selectedColor g;
          gameStarted := false |}.

(** The state before the first graph is generated. *)
Definition initial : Game :=
  {| board := {| nodes := []; conflicts := ∅; isComplete := false;
                 colorsUsed := 0 |};
     edges := []; selectedColor := 0; gameStarted := false |}.

(** [handleCanvasClick]; [clickedNode] is what [nodes.find] returns for the
    hit test: a node of [nodes], or [undefined]. *)
Definition handleCanvasClick (clickedNode : option Node) (g : Game) : run Game :=
  match clickedNode with
  | None => Done g
  | Some clickedNode =>
    let newNodes := nodes (board g) in
    node ← of_option (newNodes !! id clickedNode);
    let newNodes :=
      <[id clickedNode := setColor (Z.of_nat (selectedColor g)) node]> newNodes in
    st ← checkConflicts newNodes
           {| nodes := newNodes; conflicts := conflicts (board g);
              isComplete := isComplete (board g);
              colorsUsed := colorsUsed (board g) |};
    Done {| board := st; edges := edges g; selectedColor := selectedColor g;
            gameStarted := true |}
  end.

(** [setSelectedColor(index)], from one of the palette buttons. *)
Definition setSelectedColor (index : nat) (g : Game) : Game :=
  {| board := board g; edges := edges g; selectedColor := index;
     gameStarted := gameStarted g |}.

(** [autoSolve], which also starts the game. *)
Definition pressAutoSolve (g : Game) : run Game :=
  st ← autoSolve (board g);
  Done {| board := st; edges := edges g; selectedColor := selectedColor g;
          gameStarted := true |}.

(** [clearColors] *)
Definition clearColors (g : Game) : Game :=
  {| board := {| nodes := setColor (-1) <$> nodes (board g); conflicts := ∅;
                 isComplete := false; colorsUsed := 0 |};
     edges := edges g; selectedColor := selectedColor g;
     gameStarted := gameStarted g |}.

Inductive Action :=
  | NewGraph (isMobile : bool) (draw : nat → nat * nat)
  | Click (clickedNode : option Node)
  | Pick (index : nat)
  | PressSolve
  | PressClear.

Definition step (g : Game) (a : Action) : run Game :=
  match a with
  | NewGraph isMobile draw => generateGraph isMobile draw g
  | Click clickedNode => handleCanvasClick clickedNode g
  | Pick index => Done (setSelectedColor index g)
  | PressSolve => pressAutoSolve g
  | PressClear => Done (clearColors g)
  end.

(** What the page can hand to the handlers: random draws below the node
    count, a clicked node taken from [nodes], a palette index. *)
Definition offered (g : Game) (a : Action) : Prop :=
  match a with
  | NewGraph isMobile draw =>
      ∀ i, (draw i).1 < (if isMobile then 6 else 8)
           ∧ (draw i).2 < (if isMobile then 6 else 8)
  | Click (Some clickedNode) => clickedNode ∈ nodes (board g)
  | Pick index => index < paletteSize
  | _ => True
  end.

(** The states the game reaches from its first graph. *)
Inductive reachable : Game → Prop :=
  | reachable_first isMobile draw g :
      offered initial (NewGraph isMobile draw) →
      generateGraph isMobile draw initial = Done g → reachable g
  | reachable_step g a g' :
      reachable g → offered g a → step g a = Done g' → reachable g'.

(** A node is in conflict: it is coloured and a neighbour has its colour. *)
Definition inConflict (ns : list Node) (i : nat) : Prop :=
  colorAt ns i ≠ (-1)%Z
  ∧ ∃ node k, ns !! i = Some node ∧ k ∈ neighbors node
      ∧ colorAt ns k = colorAt ns i.

(** Every node is coloured and no node is in conflict. *)
Definition properColoring (ns : list Node) : Prop :=
  (∀ i, i < length ns → colorAt ns i ≠ (-1)%Z)
  ∧ ∀ i, ¬ inConflict ns i.

End ColoringGame.

(** ** The path finder as a session: [PathFinder] of [part_001], its buttons *)

Module PathFinderGame.
Import PathFinder.

Section Dimensions.
Variable gridWidth gridHeight : nat.

(** The [Reset Grid] button: [initializeGrid] with fresh random weights;
    the button is disabled while a run is active. *)
Definition resetGrid (randomWeight : nat → nat → nat) (s : State) : State :=
  if isRunning s then s
  else
    {| grid := initializeGrid gridWidth gridHeight randomWeight;
       isRunning := isRunning s; drawMode := drawMode s;
       visitedCount := 0; pathLength := 0; totalDistance := 0;
       gameCompleted := false |}.

(** What the player can do: click a cell, choose a draw mode, press
    [Find Shortest Path], press [Reset Grid]. *)
Inductive Action :=
  | Click (x y : Z)
  | Mode (m : DrawMode)
  | Start
  | Reset (randomWeight : nat → nat → nat).

Definition act (fuel : nat) (s : State) (a : Action) : run State :=
  match a with
  | Click x y => Done (handleCanvasClick gridWidth gridHeight x y s)
  | Mode m => Done (setDrawMode m s)
  | Start => startAlgorithm gridWidth gridHeight fuel s
  | Reset randomWeight => Done (resetGrid randomWeight s)
  end.

(** The states of a session: the grid drawn on mount, then any actions. *)
Inductive reachable (fuel : nat) : State → Prop :=
  | reach_mount randomWeight :
      reachable fuel (initial gridWidth gridHeight randomWeight)
  | reach_act s a s' :
      reachable fuel s → act fuel s a = Done s' → reachable fuel s'.

End Dimensions.

(** The actions of a list, one after the other. *)
Fixpoint play (W H fuel : nat) (s : State) (acts : list Action) : run State :=
  match acts with
  | [] => Done s
  | a :: acts => s' ← act W H fuel s a; play W H fuel s' acts
  end.

End PathFinderGame.

(** ** The maze solver as a session: [MazeSolver], its buttons *)

Module MazeGame.
Import MazeSolver.

Section Dimensions.
Variable mazeWidth mazeHeight : nat.

(** The [New Maze] button: [initializeMaze] with fresh random walls; the
    button is disabled while a run is active. *)
Definition newMazeButton (randomWall : nat → nat → bool) (s : State) : State :=
  if isRunning s then s
  else
    {| maze := initializeMaze mazeWidth mazeHeight randomWall;
       isRunning := isRunning s; algorithm := algorithm s;
       visitedCount := 0; pathLength := 0; gameCompleted := false |}.

(** The [BFS] and [DFS] buttons, disabled while a run is active. *)
Definition chooseAlgorithm (a : Algorithm) (s : State) : State :=
  if isRunning s then s else setAlgorithm a s.

(** What the player can do. *)
Inductive Action :=
  | Choose (a : Algorithm)
  | Start
  | NewMaze (randomWall : nat → nat → bool).

Definition act (fuel : nat) (s : State) (a : Action) : run State :=
  match a with
  | Choose a => Done (chooseAlgorithm a s)
  | Start => startAlgorithm mazeWidth mazeHeight fuel s
  | NewMaze randomWall => Done (newMazeButton randomWall s)
  end.

(** The states of a session: the maze drawn on mount, then any actions. *)
Inductive reachable (fuel : nat) : State → Prop :=
  | reach_mount randomWall :
      reachable fuel (initial mazeWidth mazeHeight randomWall)
  | reach_act s a s' :
      reachable fuel s → act fuel s a = Done s' → reachable fuel s'.

(** The actions of a list, one after the other. *)
Fixpoint play (fuel : nat) (s : State) (acts : list Action) : run State :=
  match acts with
  | [] => Done s
  | a :: acts => s' ← act fuel s a; play fuel s' acts
  end.

End Dimensions.

End MazeGame.

(** * Properties *)

(** ** Cycle detector *)

Module CycleDetectorSpec.
Import CycleDetector.

Lemma enough_fuel (fuel : nat) : 3 ≤ fuel → ∃ f, fuel = S (S (S f)).
Proof. intros H. exists (fuel - 3). lia. Qed.

(** C1, as the detector runs: over the nodes the game generates (five, or
    four on a narrow screen) and with a recursion budget of at least three,
    the directed run on A→B, B→C, C→A ends with [hasCycle = true] and flags
    exactly the closing edge C→A (index 2); the directed and the undirected run
    on A→B, B→C alone end with [hasCycle = false] and no flagged edge. *)
Theorem detector_flags_closing_edge (isMobile : bool) (fuel : nat)
    (old : bool * gset nat) :
  3 ≤ fuel →
  let n := nodeCount (initial isMobile) in
  detectCycle fuel n triangle true old = Done (true, {[2]})
  ∧ detectCycle fuel n chain true old = Done (false, ∅)
  ∧ detectCycle fuel n chain false old = Done (false, ∅).
Proof.
  intros [f ->]%enough_fuel n. subst n.
  destruct isMobile; repeat split; vm_compute; reflexivity.
Qed.

Lemma detector_flags_closing_edge_witness :
  3 ≤ 3
  ∧ detectCycle 3 5 triangle true (false, ∅) = Done (true, {[2]})
  ∧ detectCycle 3 5 chain true (false, ∅) = Done (false, ∅)
  ∧ detectCycle 3 5 chain false (false, ∅) = Done (false, ∅).
Proof.
  split; [lia |].
  apply (detector_flags_closing_edge false 3 (false, ∅)). lia.
Defined.

(** C1 as stated fails: no budget makes the directed run on the triangle
    report a cycle-edge set that holds all three edge indices. *)
Lemma triangle_edges_not_all_flagged :
  ¬ ∃ fuel cyc,
      detectCycle fuel 5 triangle true (false, ∅) = Done (true, cyc)
      ∧ 0 ∈ cyc ∧ 1 ∈ cyc ∧ 2 ∈ cyc.
Proof.
  intros (fuel & cyc & H & H0 & _).
  destruct fuel as [|[|[|f]]]; try discriminate H.
  assert (detectCycle (S (S (S f))) 5 triangle true (false, ∅)
          = Done (true, {[2]})) as E by (vm_compute; reflexivity).
  rewrite E in H. injection H as <-. set_solver.
Qed.

Lemma edgeExists_spec s a b :
  edgeExists s a b = true ↔
  ∃ e, e ∈ edges s ∧ sameConnection (isDirected s) (mkEdge a b) e.
Proof.
  unfold edgeExists, sameConnection. rewrite existsb_exists. simpl.
  split.
  - intros (e & Hin & H). exists e. split; [by apply list_elem_of_In |].
    apply orb_true_iff in H as [H | H].
    + apply andb_true_iff in H as [H1 H2].
      apply Nat.eqb_eq in H1, H2. left. done.
    + apply andb_true_iff in H as [H H2]. apply andb_true_iff in H as [H0 H1].
      apply Nat.eqb_eq in H1, H2. apply negb_true_iff in H0. right. done.
  - intros (e & Hin & H). exists e. split; [by apply list_elem_of_In |].
    destruct H as [[H1 H2] | (H0 & H1 & H2)].
    + rewrite <- H1, <- H2, !Nat.eqb_refl. done.
    + rewrite H0, <- H1, <- H2, !Nat.eqb_refl. simpl. apply orb_true_r.
Qed.

Lemma sameConnection_sym d e1 e2 :
  sameConnection d e1 e2 → sameConnection d e2 e1.
Proof. unfold sameConnection. intros [[??] | (?&?&?)]; [left | right]; done. Qed.

Lemma noDuplicate_nil d : noDuplicate d [].
Proof. intros i j e1 e2 H. by rewrite lookup_nil in H. Qed.

Lemma noDuplicate_snoc d es e :
  noDuplicate d es →
  (∀ e', e' ∈ es → ¬ sameConnection d e e') →
  noDuplicate d (es ++ [e]).
Proof.
  intros Hnd Hnew i j e1 e2 Hi Hj Hsame.
  apply lookup_snoc_Some in Hi as [[Hi1 Hi2] | [-> ->]];
  apply lookup_snoc_Some in Hj as [[Hj1 Hj2] | [-> Hj2]].
  - eauto.
  - subst e2. exfalso. apply (Hnew e1).
    + apply list_elem_of_lookup. eauto.
    + by apply sameConnection_sym.
  - exfalso. apply (Hnew e2); [|done]. apply list_elem_of_lookup. eauto.
  - done.
Qed.

Lemma step_noDuplicate s a :
  noDuplicate (isDirected s) (edges s) →
  noDuplicate (isDirected (step s a)) (edges (step s a)).
Proof.
  intros Hnd. destruct a as [c | | | m | |]; simpl;
    try done; try apply noDuplicate_nil.
  unfold handleCanvasClick.
  destruct (isRunning s); [done |].
  destruct c as [clicked |]; [| done].
  destruct (selectedNode s) as [selected |]; [| done].
  destruct (Nat.eqb selected clicked); [done |]. simpl.
  destruct (edgeExists s selected clicked) eqn:Hex; [done |].
  apply noDuplicate_snoc; [done |].
  intros e' Hin Hsame.
  assert (edgeExists s selected clicked = true) as Htrue.
  { apply edgeExists_spec. eauto. }
  congruence.
Qed.

(** C10: in every state [s] the builder reaches from its initial state, the
    edge list holds no two edges for the same connection (the same ordered
    pair, and in undirected mode also the reversed pair); and clicking a
    second node while an equivalent edge is already present leaves the edge
    list as it is. *)
Theorem builder_never_duplicates (isMobile : bool) (actions : list Action) :
  let s := foldl step (initial isMobile) actions in
  noDuplicate (isDirected s) (edges s)
  ∧ ∀ selected clicked e,
      selectedNode s = Some selected → e ∈ edges s →
      sameConnection (isDirected s) (mkEdge selected clicked) e →
      edges (handleCanvasClick (Some clicked) s) = edges s.
Proof.
  intros s. split.
  - subst s. induction actions as [| a actions IH] using rev_ind.
    + apply noDuplicate_nil.
    + rewrite foldl_app. simpl. by apply step_noDuplicate.
  - intros selected clicked e Hsel Hin Hsame.
    unfold handleCanvasClick. rewrite Hsel.
    destruct (isRunning s); [done |].
    destruct (Nat.eqb selected clicked); [done |]. simpl.
    assert (edgeExists s selected clicked = true) as ->; [| done].
    apply edgeExists_spec. eauto.
Qed.

(** After A→B is drawn in undirected mode, selecting B and clicking A adds
    nothing. *)
Lemma builder_never_duplicates_witness :
  let s := foldl step (initial false)
             [PressToggle; Click (Some 0); Click (Some 1); Click (Some 1)] in
  edges s = [mkEdge 0 1]
  ∧ edges (handleCanvasClick (Some 0) s) = edges s.
Proof.
  intros s. split; [reflexivity |].
  apply (proj2 (builder_never_duplicates false
                  [PressToggle; Click (Some 0); Click (Some 1); Click (Some 1)])
           1 0 (mkEdge 0 1)).
  - reflexivity.
  - left.
  - right. done.
Defined.

End CycleDetectorSpec.

(** ** Grids *)

Module GridSpec.

Definition lexlt (p q : nat * nat) : Prop :=
  p.2 < q.2 ∨ (p.2 = q.2 ∧ p.1 < q.1).

Section Grids.
Context {A : Type}.
Implicit Types (g : list (list A)) (c : A).

Lemma cellAt_Some g p c :
  cellAt g p = Some c ↔ ∃ row, g !! p.2 = Some row ∧ row !! p.1 = Some c.
Proof.
  unfold cellAt. destruct (g !! p.2) as [row|]; simpl.
  - split; [eauto | intros (r & [= ->] & ?); done].
  - split; [done | intros (r & ? & ?); done].
Qed.

Lemma cellAt_setCell_eq g p c c' :
  cellAt g p = Some c → cellAt (setCell g p c') p = Some c'.
Proof.
  intros (row & Hr & Hc)%cellAt_Some. unfold cellAt, setCell.
  rewrite list_lookup_alter_eq, Hr. simpl.
  apply list_lookup_insert_eq. by eapply lookup_lt_Some.
Qed.

Lemma cellAt_setCell_ne g p q c' :
  p ≠ q → cellAt (setCell g p c') q = cellAt g q.
Proof.
  intros Hne. unfold cellAt, setCell.
  destruct (decide (p.2 = q.2)) as [E|E].
  - rewrite E, list_lookup_alter_eq. destruct (g !! q.2); simpl; [|done].
    apply list_lookup_insert_ne. intros E'. apply Hne.
    destruct p, q; simpl in *; congruence.
  - by rewrite list_lookup_alter_ne.
Qed.

Lemma setCell_id g p c : cellAt g p = Some c → setCell g p c = g.
Proof.
  intros (row & Hr & Hc)%cellAt_Some. unfold setCell.
  apply list_eq. intros i. destruct (decide (p.2 = i)) as [<-|E].
  - rewrite list_lookup_alter_eq, Hr. simpl. by rewrite list_insert_id.
  - by rewrite list_lookup_alter_ne.
Qed.

Lemma setCell_flags {B} (f : A → B) g p c c' :
  cellAt g p = Some c → f c' = f c →
  map (map f) (setCell g p c') = map (map f) g.
Proof.
  intros (row & Hr & Hc)%cellAt_Some Hf. unfold setCell.
  apply list_eq. intros i. rewrite !list_lookup_fmap.
  destruct (decide (p.2 = i)) as [<-|E].
  - rewrite list_lookup_alter_eq, Hr. simpl. f_equal.
    change (f <$> <[p.1:=c']> row = f <$> row).
    rewrite list_fmap_insert, Hf. apply list_insert_id.
    by rewrite list_lookup_fmap, Hc.
  - by rewrite list_lookup_alter_ne.
Qed.

(** *** The places of a grid *)

Lemma elem_of_places g p : p ∈ places g ↔ is_Some (cellAt g p).
Proof.
  unfold places. rewrite list_elem_of_In, in_concat. split.
  - intros (l & Hl & Hp). apply list_elem_of_In in Hl, Hp.
    apply list_elem_of_lookup in Hl as [row Hl].
    rewrite list_lookup_imap in Hl.
    destruct (g !! row) as [r|] eqn:Hr; [|done]. injection Hl as <-.
    apply list_elem_of_lookup in Hp as [col Hp].
    rewrite list_lookup_imap in Hp.
    destruct (r !! col) as [c|] eqn:Hc; [|done]. injection Hp as <-.
    exists c. apply cellAt_Some. eauto.
  - intros [c (r & Hr & Hc)%cellAt_Some].
    exists (imap (λ col _, (col, p.2)) r). split; apply list_elem_of_In.
    + apply list_elem_of_lookup. exists p.2. by rewrite list_lookup_imap, Hr.
    + apply list_elem_of_lookup. exists p.1. rewrite list_lookup_imap, Hc.
      by destruct p.
Qed.

Lemma NoDup_row (r : list A) (row : nat) :
  NoDup (imap (λ col _, (col, row)) r).
Proof.
  apply NoDup_alt. intros i j p Hi Hj. rewrite list_lookup_imap in Hi, Hj.
  destruct (r !! i), (r !! j); simplify_eq/=. done.
Qed.

Lemma NoDup_places_from g (k : nat) :
  NoDup (concat (imap (λ row r, imap (λ col (_ : A), (col, k + row)) r) g))
  ∧ ∀ p, p ∈ concat (imap (λ row r, imap (λ col (_ : A), (col, k + row)) r) g)
         → k ≤ p.2.
Proof.
  revert k. induction g as [|r g IH]; intros k.
  - split; [constructor | intros p Hp; inversion Hp].
  - rewrite imap_cons. cbn [concat].
    destruct (IH (S k)) as [IH1 IH2].
    assert (E : imap ((λ row r0, imap (λ col (_ : A), (col, k + row)) r0) ∘ S) g
              = imap (λ row r0, imap (λ col (_ : A), (col, S k + row)) r0) g).
    { apply imap_ext. intros i r' _. simpl. apply imap_ext. intros j c _.
      f_equal. lia. }
    rewrite E. split.
    + apply NoDup_app. split; [apply NoDup_row |]. split; [| done].
      intros p Hp Hp'. apply IH2 in Hp'.
      apply list_elem_of_lookup in Hp as [col Hp].
      rewrite list_lookup_imap in Hp. destruct (r !! col); simplify_eq/=. lia.
    + intros p [Hp | Hp]%elem_of_app.
      * apply list_elem_of_lookup in Hp as [col Hp].
        rewrite list_lookup_imap in Hp. destruct (r !! col); simplify_eq/=. lia.
      * apply IH2 in Hp. lia.
Qed.

Lemma NoDup_places g : NoDup (places g).
Proof. apply (NoDup_places_from g 0). Qed.

Lemma cellAt_setCell_proj {B} (f : A → B) g p c c' q :
  cellAt g p = Some c → f c' = f c →
  f <$> cellAt (setCell g p c') q = f <$> cellAt g q.
Proof.
  intros Hc Hf. destruct (decide (p = q)) as [<-|E].
  - rewrite (cellAt_setCell_eq _ _ _ _ Hc), Hc. simpl. by rewrite Hf.
  - by rewrite cellAt_setCell_ne.
Qed.

Lemma cellAt_setCell g p c c' q :
  cellAt g p = Some c →
  cellAt (setCell g p c') q = if decide (p = q) then Some c' else cellAt g q.
Proof.
  intros Hc. case_decide as E.
  - subst q. by eapply cellAt_setCell_eq.
  - by apply cellAt_setCell_ne.
Qed.

Lemma fmap_Some_eq {B} (f : A → B) (o1 o2 : option A) a :
  f <$> o1 = f <$> o2 → o2 = Some a → ∃ a', o1 = Some a' ∧ f a' = f a.
Proof. intros H ->. destruct o1; simplify_eq/=. eauto. Qed.

Lemma StronglySorted_filter (R : relation A) (f : A → bool) (l : list A) :
  StronglySorted R l → StronglySorted R (List.filter f l).
Proof.
  induction 1 as [| a l Hs IH Hall]; [constructor |]. simpl.
  destruct (f a); [| done]. constructor; [done |].
  apply Forall_forall. intros b Hb%list_elem_of_In%filter_In.
  destruct Hb as [Hb _]. apply list_elem_of_In in Hb.
  by apply (proj1 (Forall_forall _ _) Hall).
Qed.

Lemma places_from_sorted g (k : nat) :
  StronglySorted lexlt
    (concat (imap (λ row r, imap (λ col (_ : A), (col, k + row)) r) g)).
Proof.
  revert k. induction g as [|r g IH]; intros k; [constructor |].
  rewrite imap_cons. cbn [concat].
  assert (E : imap ((λ row r0, imap (λ col (_ : A), (col, k + row)) r0) ∘ S) g
            = imap (λ row r0, imap (λ col (_ : A), (col, S k + row)) r0) g).
  { apply imap_ext. intros i r' _. simpl. apply imap_ext. intros j c _.
    f_equal. lia. }
  rewrite E. apply StronglySorted_app_2.
  - intros p q Hp Hq. unfold lexlt. left.
    apply list_elem_of_lookup in Hp as [col Hp].
    rewrite list_lookup_imap in Hp. destruct (r !! col); simplify_eq/=.
    apply (proj2 (NoDup_places_from g (S k))) in Hq. lia.
  - assert (∀ j (r' : list A),
              StronglySorted lexlt (imap (λ col _, (j + col, k + 0)) r')) as Hrow.
    { intros j r'. revert j.
      induction r' as [|c r' IHr]; intros j; [constructor |].
      rewrite imap_cons. constructor.
      - assert (imap ((λ col (_ : A), (j + col, k + 0)) ∘ S) r'
                = imap (λ col _, (S j + col, k + 0)) r') as ->.
        { apply imap_ext. intros i c' _. simpl. f_equal. lia. }
        apply IHr.
      - apply Forall_forall. intros p Hp.
        apply list_elem_of_lookup in Hp as [i Hp].
        rewrite list_lookup_imap in Hp. destruct (r' !! i); simplify_eq/=.
        unfold lexlt. simpl. lia. }
    exact (Hrow 0 r).
  - apply IH.
Qed.

Lemma places_sorted g : StronglySorted lexlt (places g).
Proof. apply (places_from_sorted g 0). Qed.

End Grids.

Lemma cellAt_fmap {A B} (f : A → B) (g : list (list A)) p :
  cellAt (map (map f) g) p = f <$> cellAt g p.
Proof.
  unfold cellAt. change (map (map f) g) with (map f <$> g).
  rewrite list_lookup_fmap. destruct (g !! p.2) as [row|]; [| done]. simpl.
  change (map f row) with (f <$> row). apply list_lookup_fmap.
Qed.

Lemma places_fmap {A B} (f : A → B) (g : list (list A)) :
  places (map (map f) g) = places g.
Proof.
  unfold places. f_equal. change (map (map f) g) with (map f <$> g).
  rewrite imap_fmap. apply imap_ext. intros i row _. simpl.
  change (map f row) with (f <$> row). by rewrite imap_fmap.
Qed.

Lemma filter_flip_length `{EqDecision A} (P P' : A → bool) (l : list A) p :
  NoDup l → p ∈ l → P p = true → P' p = false →
  (∀ q, q ≠ p → P' q = P q) →
  S (length (List.filter P' l)) = length (List.filter P l).
Proof.
  intros Hnd Hin Hp Hp' Hoth. induction l as [|a l IH]; [inversion Hin |].
  apply NoDup_cons in Hnd as [Hnotin Hnd]. simpl.
  destruct (decide (a = p)) as [-> | E].
  - rewrite Hp, Hp'. simpl. f_equal.
    clear IH Hin. induction l as [|b l IH]; [done |].
    apply not_elem_of_cons in Hnotin as [Hb Hnotin].
    apply NoDup_cons in Hnd as [_ Hnd].
    simpl. rewrite (Hoth b) by done. destruct (P b); simpl; by rewrite IH.
  - apply elem_of_cons in Hin as [-> | Hin]; [done |].
    rewrite (Hoth a E). destruct (P a); simpl; rewrite <- IH; done.
Qed.

End GridSpec.

(** ** Maze solver *)

Module MazeSolverSpec.
Import MazeSolver GridSpec.

Definition static (c : MazeCell) := (x c, y c, isWall c, isStart c, isEnd c).

Definition nopath (c : MazeCell) := (static c, isVisited c).

Definition unvisitedAt (m : Maze) (p : nat * nat) : bool :=
  match cellAt m p with
  | Some c => negb (isVisited c)
  | None => false
  end.

Definition unvisitedCount (m : Maze) : nat :=
  length (List.filter (unvisitedAt m) (places m)).

Lemma take_spec a l :
  match take a l with
  | None => l = []
  | Some (c, rest) =>
    length l = S (length rest) ∧ c ∈ l ∧ ∀ q, q ∈ rest → q ∈ l
  end.
Proof.
  destruct a; simpl.
  - destruct l as [|c l]; [done |]. simpl. split_and!; [done | left |].
    intros q Hq. by right.
  - unfold pop. destruct (reverse l) as [|c r] eqn:E.
    + apply (f_equal reverse) in E. by rewrite reverse_involutive in E.
    + apply (f_equal reverse) in E. rewrite reverse_involutive in E.
      rewrite reverse_cons in E. subst l. rewrite length_app. simpl.
      split_and!; [lia | set_solver | set_solver].
Qed.

Lemma places_setCell (m : Maze) p c : places (setCell m p c) = places m.
Proof.
  unfold places, setCell. f_equal. apply list_eq. intros i.
  rewrite !list_lookup_imap. destruct (decide (p.2 = i)) as [<- | E].
  - rewrite list_lookup_alter_eq. destruct (m !! p.2) as [r|]; [| done].
    simpl. f_equal. apply list_eq. intros j. rewrite !list_lookup_imap.
    destruct (decide (p.1 = j)) as [<- | E'].
    + destruct (r !! p.1) eqn:Hr.
      * rewrite list_lookup_insert_eq; [done | by eapply lookup_lt_Some].
      * rewrite list_insert_ge; [by rewrite Hr | by apply lookup_ge_None].
    + by rewrite list_lookup_insert_ne.
  - by rewrite list_lookup_alter_ne.
Qed.

Lemma unvisitedCount_markVisited m p c :
  cellAt m p = Some c → isVisited c = false →
  S (unvisitedCount (setCell m p (markVisited c))) = unvisitedCount m.
Proof.
  intros Hc Hv. unfold unvisitedCount. rewrite places_setCell.
  apply (filter_flip_length _ _ _ p).
  - apply NoDup_places.
  - apply elem_of_places. eauto.
  - unfold unvisitedAt. by rewrite Hc, Hv.
  - unfold unvisitedAt. by rewrite (cellAt_setCell_eq _ _ c).
  - intros q Hq. unfold unvisitedAt. by rewrite cellAt_setCell_ne.
Qed.

Lemma unvisitedCount_le m : unvisitedCount m ≤ length (places m).
Proof. apply List.filter_length_le. Qed.

Section Run.
Variables W H : nat.
Variable maze : Maze.
Variable m0 : Maze.
Hypothesis wfs : wellFormed W H maze.
Hypothesis wf0 : wellFormed W H m0.

Record Inv (s : Search) (rank : nat * nat → nat) : Prop := {
  inv_static : ∀ p, static <$> cellAt (newMaze s) p = static <$> cellAt m0 p;
  inv_frontier : ∀ p, p ∈ frontier s → p.1 < W ∧ p.2 < H;
  inv_visited : ∀ p c, cellAt (newMaze s) p = Some c → isVisited c = true →
    rank p < visited s;
  inv_parent : ∀ n p, parent s !! n = Some p →
    (∃ c, cellAt (newMaze s) p = Some c ∧ isVisited c = true)
    ∧ (∀ cn, cellAt (newMaze s) n = Some cn → isVisited cn = true →
         rank p < rank n);
  inv_count : visited s + unvisitedCount (newMaze s) = length (places m0)
}.

Definition Quiet (s : Search) : Prop :=
  (∀ p c, cellAt (newMaze s) p = Some c → isVisited c = true → isEnd c = false)
  ∧ (shown s = true ∨ (frontier s ≠ [] ∧ visited s = 0)).

Definition measure (s : Search) : nat :=
  5 * unvisitedCount (newMaze s) + length (frontier s).

Lemma inv_exists s rank p :
  Inv s rank → p.1 < W → p.2 < H → is_Some (cellAt (newMaze s) p).
Proof.
  intros HI H1 H2. pose proof (inv_static _ _ HI p) as Hs.
  destruct wf0 as [Hdim _]. destruct (proj2 (Hdim p)) as [c0 Hc0]; [done |].
  rewrite Hc0 in Hs. destruct (cellAt (newMaze s) p); [eauto | done].
Qed.

Lemma inv_place s rank p c :
  Inv s rank → cellAt (newMaze s) p = Some c → x c = p.1 ∧ y c = p.2.
Proof.
  intros HI Hc. pose proof (inv_static _ _ HI p) as Hs.
  rewrite Hc in Hs. simpl in Hs.
  destruct (cellAt m0 p) as [c0|] eqn:Hc0; simplify_eq/=.
  destruct wf0 as [_ Hxy]. destruct (Hxy p c0 Hc0) as [? ?].
  unfold static in Hs. simplify_eq. split; congruence.
Qed.

Lemma lookAt_step cell ns dir :
  (∀ q, q ∈ ns → q.1 < W ∧ q.2 < H) →
  ∃ ns', lookAt W H maze cell (Done ns) dir = Done ns'
    ∧ length ns' ≤ S (length ns)
    ∧ (∀ q, q ∈ ns' → q.1 < W ∧ q.2 < H).
Proof.
  intros Hns. unfold lookAt. cbn [mbind run_bind].
  destruct (_ && _) eqn:Hb; [| exists ns; split_and!; [done | lia | done]].
  apply andb_true_iff in Hb as [Hb Hb4]. apply andb_true_iff in Hb as [Hb Hb3].
  apply andb_true_iff in Hb as [Hb1 Hb2].
  apply Z.leb_le in Hb1, Hb3. apply Z.ltb_lt in Hb2, Hb4.
  destruct wfs as [Hdim _].
  destruct (proj2 (Hdim (Z.to_nat (Z.of_nat (x cell) + dir.1),
                         Z.to_nat (Z.of_nat (y cell) + dir.2)))) as [c Hc];
    [simpl; lia |].
  rewrite Hc. cbn [mbind run_bind of_option].
  destruct (_ && _); [| exists ns; split_and!; [done | lia | done]].
  eexists. split_and!; [done | rewrite length_app; simpl; lia |].
  intros q [Hq | ->%list_elem_of_singleton]%elem_of_app; [by apply Hns |].
  simpl. lia.
Qed.

Lemma getNeighbors_spec cell :
  ∃ ns, getNeighbors W H maze cell = Done ns
    ∧ length ns ≤ 4 ∧ (∀ q, q ∈ ns → q.1 < W ∧ q.2 < H).
Proof.
  unfold getNeighbors, directions. cbn [foldl].
  destruct (lookAt_step cell [] (0, -1)%Z) as (n1 & -> & L1 & B1);
    [intros q Hq; inversion Hq |].
  destruct (lookAt_step cell n1 (1, 0)%Z B1) as (n2 & -> & L2 & B2).
  destruct (lookAt_step cell n2 (0, 1)%Z B2) as (n3 & -> & L3 & B3).
  destruct (lookAt_step cell n3 (-1, 0)%Z B3) as (n4 & -> & L4 & B4).
  exists n4. simpl in *. split_and!; [done | lia | done].
Qed.

(** The [forEach] over the neighbours: new parent entries point to
    [current] and belong to cells not visited in [m]. *)
Lemma discover_spec m current ns : ∀ par fr,
  (∀ q, q.1 < W → q.2 < H → is_Some (cellAt m q)) →
  (∀ q, q ∈ ns → q.1 < W ∧ q.2 < H) →
  ∃ par' fr',
    foldl (discover m current) (Done (par, fr)) ns = Done (par', fr')
    ∧ length fr' ≤ length fr + length ns
    ∧ (∀ q, q ∈ fr' → q ∈ fr ∨ q ∈ ns)
    ∧ (∀ n p, par' !! n = Some p →
         par !! n = Some p
         ∨ (p = current ∧ ∃ c, cellAt m n = Some c ∧ isVisited c = false)).
Proof.
  intros par fr Hex. revert par fr.
  induction ns as [|n ns IH]; intros par fr Hns.
  - exists par, fr. simpl. split_and!; [done | lia | auto | auto].
  - cbn [foldl]. unfold discover at 2. cbn [mbind run_bind].
    destruct (Hex n) as [c Hc]; [apply Hns; left .. |].
    rewrite Hc. cbn [mbind run_bind of_option].
    assert (Hns' : ∀ q, q ∈ ns → q.1 < W ∧ q.2 < H).
    { intros q Hq. apply Hns. by right. }
    destruct (isVisited c) eqn:Hv; simpl.
    + destruct (IH par fr Hns') as (par' & fr' & -> & Hl & Hf & Hp).
      exists par', fr'. split_and!; [done | simpl; lia | | done].
      intros q Hq. destruct (Hf q Hq); [by left | right; by right].
    + destruct (IH (<[n := current]> par) (fr ++ [n]) Hns')
        as (par' & fr' & -> & Hl & Hf & Hp).
      exists par', fr'. split_and!; [done | | |].
      * rewrite length_app in Hl. simpl in *. lia.
      * intros q Hq. destruct (Hf q Hq) as [Hq' | Hq']; [| right; by right].
        apply elem_of_app in Hq' as [? | ->%list_elem_of_singleton];
          [by left | right; left].
      * intros n' p Hn'. destruct (Hp n' p Hn') as [Hold | Hnew]; [| by right].
        destruct (decide (n = n')) as [<- | E].
        -- rewrite lookup_insert_eq in Hold. simplify_eq. right. eauto.
        -- rewrite lookup_insert_ne in Hold by done. by left.
Qed.

Lemma Inv_markVisited s rank cur c rest sh :
  Inv s rank → cellAt (newMaze s) cur = Some c → isVisited c = false →
  (∀ q, q ∈ rest → q ∈ frontier s) →
  Inv {| newMaze := setCell (newMaze s) cur (markVisited c); frontier := rest;
         parent := parent s; visited := S (visited s); shown := sh |}
      (λ p, if decide (p = cur) then visited s else rank p).
Proof.
  intros HI Hc Hv Hrest. constructor; simpl.
  - intros p. rewrite <- (inv_static _ _ HI p).
    by apply (cellAt_setCell_proj static (newMaze s) cur c).
  - intros p Hp. by apply (inv_frontier _ _ HI), Hrest.
  - intros p c'. rewrite (cellAt_setCell _ _ c) by done.
    case_decide as E; [subst p; rewrite decide_True by done; lia |].
    rewrite decide_False by done. intros Hc' Hv'.
    pose proof (inv_visited _ _ HI p c' Hc' Hv'). lia.
  - intros n p Hn.
    destruct (inv_parent _ _ HI n p Hn) as [(cp & Hcp & Hvp) Hrk].
    assert (p ≠ cur) as Hne by (intros ->; congruence).
    split.
    + exists cp. by rewrite cellAt_setCell_ne.
    + intros cn. rewrite (cellAt_setCell _ _ c) by done.
      rewrite (decide_False (P := p = cur)) by done.
      case_decide as E; [subst n; rewrite decide_True by done
                        | rewrite decide_False by done].
      * intros _ _. apply (inv_visited _ _ HI p cp Hcp Hvp).
      * apply Hrk.
  - rewrite <- (inv_count _ _ HI).
    rewrite <- (unvisitedCount_markVisited (newMaze s) cur c) by done. lia.
Qed.

Lemma search_turn_spec a s rank :
  Inv s rank → Quiet s →
  ∃ t, turn W H maze a s = Done t ∧
    match t with
    | Again s' => (∃ rank', Inv s' rank') ∧ Quiet s' ∧ measure s' < measure s
    | Stop s' => s' = s ∧ shown s = true
    | AtEnd s' cur =>
      (∃ rank', Inv s' rank')
      ∧ ∃ c, cellAt (newMaze s') cur = Some c ∧ isVisited c = true
    end.
Proof.
  intros HI [Hnoend Hshown]. unfold turn.
  pose proof (take_spec a (frontier s)) as Htake.
  destruct (take a (frontier s)) as [[cur rest]|].
  2:{ eexists. split; [done |]. simpl. split; [done |].
      destruct Hshown as [? | [? _]]; done. }
  destruct Htake as (Hlen & Hcur & Hrest).
  destruct (inv_exists s rank cur HI) as [c Hc];
    [by apply (inv_frontier _ _ HI) .. |].
  rewrite Hc. cbn [mbind run_bind of_option].
  destruct (isVisited c) eqn:Hv.
  { eexists. split; [done |]. simpl. split_and!.
    - exists rank. destruct HI. constructor; simpl; auto.
    - split; [done |]. simpl. destruct Hshown as [? | [_ Hz]]; [by left |].
      pose proof (inv_visited _ _ HI cur c Hc Hv). lia.
    - unfold measure. simpl. lia. }
  pose proof (Inv_markVisited s rank cur c rest (shown s) HI Hc Hv Hrest) as HI1.
  set (m := setCell (newMaze s) cur (markVisited c)) in *.
  set (rank1 := λ p, if decide (p = cur) then visited s else rank p) in *.
  assert (Hcur1 : cellAt m cur = Some (markVisited c)).
  { by apply (cellAt_setCell_eq _ _ c). }
  destruct (isEnd c) eqn:Hend.
  { eexists. split; [done |]. simpl. split; [by exists rank1 |].
    exists (markVisited c). done. }
  destruct (getNeighbors_spec c) as (ns & -> & Hns4 & Hnsb).
  cbn [mbind run_bind].
  destruct (discover_spec m cur ns (parent s) rest) as (par' & fr' & -> & Hl & Hf & Hp).
  { intros q H1 H2. by apply (inv_exists _ rank1 q HI1). }
  { done. }
  cbn [mbind run_bind]. eexists. split; [done |]. simpl. split_and!.
  - exists rank1. destruct HI1 as [I1 I2 I3 I4 I5]. simpl in *.
    constructor; simpl; auto.
    + intros q Hq. destruct (Hf q Hq); [by apply I2 | by apply Hnsb].
    + intros n p Hn. destruct (Hp n p Hn) as [Hold | [-> (cn & Hcn & Hvn)]];
        [by apply I4 |].
      split; [eauto |]. intros cn' Hcn' Hvn'. congruence.
  - split; [| by left]. simpl. intros p c'. unfold m.
    rewrite (cellAt_setCell _ _ c) by done. case_decide.
    + by intros [= <-].
    + apply Hnoend.
  - unfold measure. simpl.
    pose proof (unvisitedCount_markVisited (newMaze s) cur c Hc Hv). fold m in H0.
    lia.
Qed.

Lemma search_loop_S a f s :
  loop W H maze a (S f) s =
  t ← turn W H maze a s;
  match t with
  | Again s => loop W H maze a f s
  | Stop s => Done (s, None)
  | AtEnd s current => Done (s, Some current)
  end.
Proof. done. Qed.

Lemma search_loop_spec a n : ∀ s rank,
  measure s ≤ n → Inv s rank → Quiet s →
  ∃ r found, loop W H maze a (S n) s = Done (r, found)
    ∧ (∃ rank', Inv r rank')
    ∧ match found with
      | Some cur => ∃ c, cellAt (newMaze r) cur = Some c ∧ isVisited c = true
      | None => Quiet r ∧ shown r = true
      end.
Proof.
  induction n as [|n IH]; intros s rank Hm HI HQ;
    destruct (search_turn_spec a s rank HI HQ) as (t & Ht & Hpost);
    rewrite search_loop_S, Ht; cbn [mbind run_bind];
    destruct t as [s' | s' | s' cur].
  - destruct Hpost as (_ & _ & ?). lia.
  - destruct Hpost as [-> ?]. exists s, None. split_and!; eauto.
  - destruct Hpost as [? ?]. exists s', (Some cur). done.
  - destruct Hpost as ([rank' HI'] & HQ' & Hlt).
    apply (IH s' rank'); [lia | done | done].
  - destruct Hpost as [-> ?]. exists s, None. split_and!; eauto.
  - destruct Hpost as [? ?]. exists s', (Some cur). done.
Qed.

Lemma search_loop_mono a f : ∀ f' s r,
  loop W H maze a f s = Done r → f ≤ f' → loop W H maze a f' s = Done r.
Proof.
  induction f as [|f IH]; intros f' s r Hr Hle; [done |].
  destruct f' as [|f']; [lia |]. rewrite search_loop_S in Hr |- *.
  destruct (turn W H maze a s) as [t | |]; [| done ..].
  cbn [mbind run_bind] in *.
  destruct t; [| done ..]. apply IH; [done | lia].
Qed.

(** *** The chain of parents *)

Inductive pchain (par : gmap (nat * nat) (nat * nat))
    : option (nat * nat) → list (nat * nat) → Prop :=
  | pchain_nil : pchain par None []
  | pchain_cons p l : pchain par (par !! p) l → pchain par (Some p) (p :: l).

Lemma pchain_exists s rank :
  Inv s rank →
  ∀ n p c, rank p ≤ n → cellAt (newMaze s) p = Some c → isVisited c = true →
  ∃ l, pchain (parent s) (Some p) l ∧ length l ≤ S (rank p) ∧ 1 ≤ length l
    ∧ ∀ q, q ∈ l → is_Some (cellAt (newMaze s) q).
Proof.
  intros HI. induction n as [|n IH]; intros p c Hr Hc Hv;
    destruct (parent s !! p) as [q|] eqn:Hp.
  - destruct (inv_parent _ _ HI p q Hp) as [_ Hlt].
    specialize (Hlt c Hc Hv). lia.
  - exists [p]. split_and!; [| simpl; lia ..|].
    + constructor. rewrite Hp. constructor.
    + intros q ->%list_elem_of_singleton. eauto.
  - destruct (inv_parent _ _ HI p q Hp) as [(cq & Hcq & Hvq) Hlt].
    specialize (Hlt c Hc Hv).
    destruct (IH q cq) as (l & Hch & Hlen & _ & Hex); [lia | done | done |].
    exists (p :: l). split_and!; [| simpl; lia ..|].
    + constructor. by rewrite Hp.
    + intros q' [-> | Hq']%elem_of_cons; eauto.
  - exists [p]. split_and!; [| simpl; lia ..|].
    + constructor. rewrite Hp. constructor.
    + intros q ->%list_elem_of_singleton. eauto.
Qed.

End Run.

Lemma search_reconstruct_spec par l : ∀ m o n fuel,
  pchain par o l → (∀ q, q ∈ l → is_Some (cellAt m q)) → length l ≤ fuel →
  ∃ m', reconstruct fuel m par o n = Done (m', n + length l)
    ∧ (∀ q, nopath <$> cellAt m' q = nopath <$> cellAt m q).
Proof.
  induction l as [|p l IH]; intros m o n fuel Hch Hex Hlen.
  - inversion Hch; subst. exists m. split; [| done].
    destruct fuel; simpl; by rewrite Nat.add_0_r.
  - inversion Hch as [|p' l' Hch']; subst.
    destruct fuel as [|fuel]; [simpl in Hlen; lia |].
    destruct (Hex p) as [c Hc]; [left |].
    cbn [reconstruct]. rewrite Hc. cbn [mbind run_bind of_option].
    assert (Hsame : ∀ q, nopath <$> cellAt (setCell m p (markPath c)) q
                         = nopath <$> cellAt m q).
    { intros q. by apply (cellAt_setCell_proj nopath m p c). }
    destruct (IH (setCell m p (markPath c)) (par !! p) (S n) fuel)
      as (m' & -> & Hsame'); [done | | simpl in Hlen; lia |].
    { intros q Hq. rewrite <- (fmap_is_Some nopath), Hsame, fmap_is_Some.
      apply Hex. by right. }
    exists m'. split.
    + simpl. do 2 f_equal. lia.
    + intros q. by rewrite Hsame', Hsame.
Qed.

Lemma search_reconstruct_mono par f : ∀ f' m p n r,
  reconstruct f m par p n = Done r → f ≤ f' → reconstruct f' m par p n = Done r.
Proof.
  induction f as [|f IH]; intros f' m p n r Hr Hle.
  - destruct p; [done |]. destruct f'; done.
  - destruct p as [p|]; [| by destruct f'].
    destruct f' as [|f']; [lia |]. cbn [reconstruct] in *.
    destruct (cellAt m p) as [c|]; [| done]. cbn [mbind run_bind of_option] in *.
    apply IH; [done | lia].
Qed.

Lemma maze_wellFormed_reset W H m :
  wellFormed W H m → wellFormed W H (map (map resetCell) m).
Proof.
  intros [Hdim Hxy]. split.
  - intros p. rewrite cellAt_fmap, <- Hdim. by rewrite fmap_is_Some.
  - intros p c. rewrite cellAt_fmap. destruct (cellAt m p) as [c0|] eqn:E; [| done].
    intros [= <-]. simpl. by apply Hxy.
Qed.

Lemma filter_all_length {A} (P : A → bool) (l : list A) :
  (∀ a, a ∈ l → P a = true) → length (List.filter P l) = length l.
Proof.
  induction l as [|a l IH]; intros Hall; [done |]. simpl.
  rewrite (Hall a) by left. simpl. f_equal. apply IH. intros b Hb.
  apply Hall. by right.
Qed.

Lemma searchStart_Inv W H maze :
  wellFormed W H maze → 2 ≤ W → 2 ≤ H →
  Inv W H (map (map resetCell) maze) (searchStart maze) (λ _, 0)
  ∧ Quiet (searchStart maze)
  ∧ measure (searchStart maze) = 5 * length (places maze) + 1.
Proof.
  intros Hwf HW HH.
  assert (Hreset : ∀ p c, cellAt (map (map resetCell) maze) p = Some c →
                          isVisited c = false).
  { intros p c. rewrite cellAt_fmap. destruct (cellAt maze p); [| done].
    by intros [= <-]. }
  assert (Hcount : unvisitedCount (map (map resetCell) maze)
                   = length (places maze)).
  { unfold unvisitedCount. rewrite filter_all_length, places_fmap; [done |].
    intros p [c Hc]%elem_of_places. unfold unvisitedAt.
    by rewrite Hc, (Hreset p c Hc). }
  split_and!.
  - constructor; simpl.
    + done.
    + intros p ->%list_elem_of_singleton. simpl. lia.
    + intros p c Hc Hv. rewrite (Hreset p c Hc) in Hv. done.
    + intros n p Hn. by rewrite lookup_empty in Hn.
    + by rewrite Hcount, places_fmap.
  - split; simpl.
    + intros p c Hc Hv. rewrite (Hreset p c Hc) in Hv. done.
    + right. done.
  - unfold measure. simpl. rewrite Hcount. lia.
Qed.

(** What a BFS or DFS run leaves behind, on a well-formed maze and with a
    budget above five times the number of cells. *)
Lemma runSearch_spec W H s fuel :
  wellFormed W H (maze s) → 2 ≤ W → 2 ≤ H →
  5 * length (places (maze s)) + 1 < fuel →
  ∃ s', runSearch W H fuel s = Done s'
    ∧ isRunning s' = false
    ∧ ((gameCompleted s' = true ∧ 1 ≤ pathLength s')
       ∨ (gameCompleted s' = gameCompleted s ∧ pathLength s' = pathLength s
          ∧ ∀ p c, cellAt (maze s') p = Some c → isVisited c = true →
                   isEnd c = false)).
Proof.
  intros Hwf HW HH Hfuel. unfold runSearch.
  destruct (searchStart_Inv W H (maze s) Hwf HW HH) as (HI0 & HQ0 & Hm0).
  pose proof (maze_wellFormed_reset _ _ _ Hwf) as Hwf0.
  destruct (search_loop_spec W H (maze s) _ Hwf Hwf0 (algorithm s) _ _ _
              (Nat.le_refl _) HI0 HQ0) as (r & found & Hloop & [rank HI] & Hfound).
  rewrite (search_loop_mono W H (maze s) _ _ fuel _ _ Hloop) by lia.
  cbn [mbind run_bind]. destruct found as [cur|].
  - destruct Hfound as (c & Hc & Hv).
    destruct (pchain_exists W H _ r rank HI _ cur c (Nat.le_refl _) Hc Hv)
      as (l & Hch & Hlen & Hpos & Hex).
    pose proof (inv_visited _ _ _ _ _ HI cur c Hc Hv) as Hrank.
    pose proof (inv_count _ _ _ _ _ HI) as Hcount.
    rewrite places_fmap in Hcount.
    destruct (search_reconstruct_spec (parent r) l (newMaze r) (Some cur) 0 fuel Hch Hex)
      as (m' & -> & _); [lia |].
    cbn [mbind run_bind]. eexists. split; [done |]. simpl.
    split; [done |]. left. split; [done | lia].
  - destruct Hfound as [[Hnoend _] Hshown].
    eexists. split; [done |]. simpl. split; [done |]. right.
    rewrite Hshown. split_and!; done.
Qed.

Lemma cellAt_initializeMaze W H rw p :
  is_Some (cellAt (initializeMaze W H rw) p) ↔ p.1 < W ∧ p.2 < H.
Proof.
  destruct p as [col row]. unfold cellAt, initializeMaze. simpl.
  change (map ?f ?l) with (f <$> l). rewrite list_lookup_fmap.
  destruct (decide (row < H)) as [Hr|Hr].
  - rewrite lookup_seq_lt by done. simpl.
    change (map ?f ?l) with (f <$> l). rewrite list_lookup_fmap.
    destruct (decide (col < W)) as [Hc|Hc].
    + rewrite lookup_seq_lt by done. simpl. split; [done | eauto].
    + rewrite lookup_seq_ge by lia. simpl. split; [by intros [? ?] | lia].
  - rewrite lookup_seq_ge by lia. simpl. split; [by intros [? ?] | lia].
Qed.

Lemma wellFormed_initializeMaze W H rw : wellFormed W H (initializeMaze W H rw).
Proof.
  split; [apply cellAt_initializeMaze |].
  intros [col row] c. unfold cellAt, initializeMaze. simpl.
  change (map ?f ?l) with (f <$> l). rewrite list_lookup_fmap.
  destruct (seq 0 H !! row) as [r|] eqn:Hr; [| done]. simpl.
  change (map ?f ?l) with (f <$> l). rewrite list_lookup_fmap.
  destruct (seq 0 W !! col) as [k|] eqn:Hk; [| done]. simpl.
  apply lookup_seq in Hr as [-> _]. apply lookup_seq in Hk as [-> _].
  by intros [= <-].
Qed.

Lemma walk_right m n a b r c :
  cellAt m (a, b) = Some c → isWall c = false →
  walk m n (S a, b) r → walk m (S n) (a, b) r.
Proof.
  intros Hc Hw Hwalk. apply (walk_step _ _ _ (S a, b) _ c); [done .. | | done].
  exists (1, 0)%Z. split; [set_solver |]. simpl. lia.
Qed.

Lemma walk_down m n a b r c :
  cellAt m (a, b) = Some c → isWall c = false →
  walk m n (a, S b) r → walk m (S n) (a, b) r.
Proof.
  intros Hc Hw Hwalk. apply (walk_step _ _ _ (a, S b) _ c); [done .. | | done].
  exists (0, 1)%Z. split; [set_solver |]. simpl. lia.
Qed.

Lemma twoCorridors_short_walk : walk (maze twoCorridors) 26 (1, 1) (18, 10).
Proof.
  do 17 (eapply walk_right; [reflexivity | reflexivity |]).
  do 9 (eapply walk_down; [reflexivity | reflexivity |]).
  eapply walk_here; reflexivity.
Qed.

(** C5 on a maze that carries the marks of earlier runs: on [twoCorridors],
    after a DFS run and a second run, BFS reaches the end and reports a path
    of 53 cells, although the walls, unchanged, leave a walk of 26 moves
    (27 cells), which BFS reports on the freshly generated maze. *)
Lemma bfs_on_stale_marks :
  ∃ s1 s2 s3 s',
    startAlgorithm 20 12 1202 (setAlgorithm DFS twoCorridors) = Done s1
    ∧ startAlgorithm 20 12 1202 s1 = Done s2
    ∧ startAlgorithm 20 12 1202 (setAlgorithm BFS s2) = Done s3
    ∧ gameCompleted s3 = true ∧ pathLength s3 = 53
    ∧ (isVisited <$> cellAt (maze s3) (18, 10)) = Some true
    ∧ walk (maze twoCorridors) 26 (1, 1) (18, 10)
    ∧ map (map isWall) (maze s2) = map (map isWall) (maze twoCorridors)
    ∧ startAlgorithm 20 12 1202 (setAlgorithm BFS twoCorridors) = Done s'
    ∧ pathLength s' = 27.
Proof.
  set (get := λ r : run State, match r with Done s => s | _ => twoCorridors end).
  set (s1 := get (startAlgorithm 20 12 1202 (setAlgorithm DFS twoCorridors))).
  set (s2 := get (startAlgorithm 20 12 1202 s1)).
  set (s3 := get (startAlgorithm 20 12 1202 (setAlgorithm BFS s2))).
  set (s' := get (startAlgorithm 20 12 1202 (setAlgorithm BFS twoCorridors))).
  exists s1, s2, s3, s'.
  split_and!; try (vm_compute; reflexivity).
  apply twoCorridors_short_walk.
Qed.

End MazeSolverSpec.

(** ** Path finder *)

Module PathFinderSpec.
Import PathFinder GridSpec.

Lemma countCells_flags f g :
  countCells f g = length (List.filter id (concat (map (map f) g))).
Proof.
  unfold countCells. induction g as [|row g IH]; [done |]. simpl.
  rewrite !List.filter_app, !length_app, IH. f_equal.
  clear. induction row as [|c row IH]; [done |]. simpl.
  destruct (f c); simpl; by rewrite IH.
Qed.

Lemma editCell_isStart m c : isStart (editCell m c) = isStart c.
Proof. unfold editCell. destruct (_ && _), m; try done. by destruct (negb _). Qed.

Lemma editCell_isEnd m c : isEnd (editCell m c) = isEnd c.
Proof. unfold editCell. destruct (_ && _), m; try done. by destruct (negb _). Qed.

Lemma step_countCells W H f s e :
  (∀ m c, f (editCell m c) = f c) →
  countCells f (grid (step W H s e)) = countCells f (grid s).
Proof.
  intros Hf. destruct e as [x y | m]; [| done]. simpl.
  unfold handleCanvasClick. destruct (isRunning s); [done |].
  destruct (_ && _); [| done].
  destruct (cellAt _ _) as [cell|] eqn:Hc; [| done]. simpl.
  rewrite !countCells_flags. by erewrite setCell_flags.
Qed.

Lemma count_in_seq (f : nat → bool) a n :
  (∀ i, f i = true ↔ i = a) →
  length (List.filter f (seq 0 n)) = if decide (a < n) then 1 else 0.
Proof.
  intros Hf. induction n as [|n IH].
  - case_decide; [lia | done].
  - rewrite seq_S, List.filter_app, length_app, IH. simpl.
    destruct (f n) eqn:E.
    + apply Hf in E as ->. repeat case_decide; simpl; lia.
    + assert (n ≠ a) by (intros ->; rewrite (proj2 (Hf a) eq_refl) in E; done).
      repeat case_decide; simpl; lia.
Qed.

Lemma countCells_rows {A} (f : GridCell → bool) (mk : A → list GridCell) (l : list A) :
  countCells f (map mk l) = sum_list_with (fun a => length (List.filter f (mk a))) l.
Proof.
  unfold countCells. induction l as [|a l IH]; [done |]. simpl.
  by rewrite List.filter_app, length_app, IH.
Qed.

Lemma sum_single (h : nat → nat) (a n : nat) (v : nat) :
  h a = v → (∀ i, i ≠ a → h i = 0) →
  sum_list_with h (seq 0 n) = if decide (a < n) then v else 0.
Proof.
  intros Ha H0. induction n as [|n IH].
  - case_decide; [lia | done].
  - rewrite seq_S, sum_list_with_app, IH. simpl.
    destruct (decide (n = a)) as [->|E].
    + rewrite Ha. repeat case_decide; lia.
    + rewrite (H0 n E). repeat case_decide; lia.
Qed.

Lemma filter_map_length {A B} (f : B → bool) (mk : A → B) (l : list A) :
  length (List.filter f (map mk l)) = length (List.filter (fun a => f (mk a)) l).
Proof.
  induction l as [|a l IH]; [done |]. simpl. destruct (f (mk a)); simpl; by rewrite IH.
Qed.

Lemma count_none {A} (f : A → bool) (l : list A) :
  (∀ a, f a = false) → length (List.filter f l) = 0.
Proof.
  intros Hf. induction l as [|a l IH]; [done |]. simpl. by rewrite Hf.
Qed.

Lemma initializeGrid_one_start W H rw :
  3 ≤ W → 1 ≤ H → countCells isStart (initializeGrid W H rw) = 1.
Proof.
  intros HW HH. unfold initializeGrid. rewrite countCells_rows.
  rewrite (sum_single _ (H / 2) H 1).
  - case_decide as E; [done |]. exfalso. apply E. apply Nat.div_lt; lia.
  - rewrite filter_map_length, (count_in_seq _ 2 W).
    + case_decide; [done | lia].
    + intros i. cbn [isStart].
      rewrite Nat.eqb_refl, andb_true_r. apply Nat.eqb_eq.
  - intros i Hi. rewrite filter_map_length. apply count_none.
    intros a. cbn [isStart]. apply Nat.eqb_neq in Hi. rewrite Hi.
    apply andb_false_r.
Qed.

Lemma initializeGrid_one_end W H rw :
  3 ≤ W → 1 ≤ H → countCells isEnd (initializeGrid W H rw) = 1.
Proof.
  intros HW HH. unfold initializeGrid. rewrite countCells_rows.
  rewrite (sum_single _ (H / 2) H 1).
  - case_decide as E; [done |]. exfalso. apply E. apply Nat.div_lt; lia.
  - rewrite filter_map_length, (count_in_seq _ (W - 3) W).
    + case_decide; [done | lia].
    + intros i. cbn [isEnd].
      rewrite Nat.eqb_refl, andb_true_r, Z.eqb_eq. lia.
  - intros i Hi. rewrite filter_map_length. apply count_none.
    intros a. cbn [isEnd]. apply Nat.eqb_neq in Hi. rewrite Hi.
    apply andb_false_r.
Qed.

Lemma State_eta s :
  {| grid := grid s; isRunning := isRunning s; drawMode := drawMode s;
     visitedCount := visitedCount s; pathLength := pathLength s;
     totalDistance := totalDistance s; gameCompleted := gameCompleted s |} = s.
Proof. by destruct s. Qed.

(** C9: from the initial grid (at least 3 cells wide, 1 high; the game uses
    20 x 12 and 16 x 10), after any sequence of edit clicks and mode changes
    the grid holds exactly one start cell and exactly one end cell; a click
    on the start or the end cell leaves the whole state as it is; and in any
    state with [isRunning] set a click leaves the state as it is. *)
Theorem edits_keep_start_and_end (W H : nat) (rw : nat → nat → nat)
    (edits : list Edit) :
  3 ≤ W → 1 ≤ H →
  let s := foldl (step W H) (initial W H rw) edits in
  countCells isStart (grid s) = 1
  ∧ countCells isEnd (grid s) = 1
  ∧ (∀ x y cell,
       cellAt (grid s) (Z.to_nat x, Z.to_nat y) = Some cell →
       isStart cell = true ∨ isEnd cell = true →
       handleCanvasClick W H x y s = s)
  ∧ (∀ s' x y, isRunning s' = true → handleCanvasClick W H x y s' = s').
Proof.
  intros HW HH s. repeat split.
  - subst s. induction edits as [|e edits IH] using rev_ind.
    + by apply initializeGrid_one_start.
    + rewrite foldl_app. simpl. rewrite step_countCells; [done |].
      apply editCell_isStart.
  - subst s. induction edits as [|e edits IH] using rev_ind.
    + by apply initializeGrid_one_end.
    + rewrite foldl_app. simpl. rewrite step_countCells; [done |].
      apply editCell_isEnd.
  - intros x y cell Hc Hse. unfold handleCanvasClick.
    destruct (isRunning s) eqn:Hr; [done |]. destruct (_ && _); [| done].
    rewrite Hc. 
    assert (editCell (drawMode s) cell = cell) as ->.
    { unfold editCell. destruct Hse as [-> | ->]; simpl; [done |].
      by rewrite andb_false_r. }
    rewrite (setCell_id _ _ _ Hc), <- Hr. apply State_eta.
  - intros s' x y Hr. unfold handleCanvasClick. by rewrite Hr.
Qed.

Lemma edits_keep_start_and_end_witness :
  let s := foldl (step 20 12) (initial 20 12 (fun _ _ => 1))
             [Click 3 6; Mode weightMode; Click 4 6] in
  countCells isStart (grid s) = 1
  ∧ countCells isEnd (grid s) = 1
  ∧ handleCanvasClick 20 12 2 6 s = s
  ∧ handleCanvasClick 20 12 5 5 (setIsRunning true s) = setIsRunning true s.
Proof.
  intros s.
  destruct (edits_keep_start_and_end 20 12 (fun _ _ => 1)
              [Click 3 6; Mode weightMode; Click 4 6])
    as (H1 & H2 & H3 & H4); [lia | lia |].
  split; [exact H1 |]. split; [exact H2 |]. split.
  - eapply (H3 2%Z 6%Z); [reflexivity | left; reflexivity].
  - apply H4. reflexivity.
Defined.

(** *** The sort *)

Lemma insertByDistance_perm g a l : insertByDistance g a l ≡ₚ a :: l.
Proof.
  induction l as [|b l IH]; [done |]. simpl.
  destruct (dist_ltb _ _); [| done]. rewrite IH. apply Permutation_swap.
Qed.

Lemma sortByDistance_perm g l : sortByDistance g l ≡ₚ l.
Proof.
  induction l as [|a l IH]; [done |]. simpl.
  by rewrite insertByDistance_perm, IH.
Qed.

Lemma dist_ltb_trans a b c :
  dist_ltb a b = true → dist_ltb b c = true → dist_ltb a c = true.
Proof.
  destruct a, b, c; simpl; try done. rewrite !Nat.ltb_lt. lia.
Qed.

Lemma dist_ltb_ge_trans a b c :
  dist_ltb b a = false → dist_ltb c b = false → dist_ltb c a = false.
Proof.
  destruct a, b, c; simpl; try done. rewrite !Nat.ltb_ge. lia.
Qed.

(** The head of the sorted array: no element is nearer, and it is the first
    of the array, as it stood before the sort, among the nearest ones. *)
Lemma sortByDistance_head g l cur rest :
  sortByDistance g l = cur :: rest →
  ∃ l1 l2, l = l1 ++ cur :: l2
    ∧ (∀ a, a ∈ l1 → dist_ltb (distanceAt g cur) (distanceAt g a) = true)
    ∧ (∀ a, a ∈ l2 → dist_ltb (distanceAt g a) (distanceAt g cur) = false).
Proof.
  revert cur rest. induction l as [|a l IH]; intros cur rest; [done |].
  simpl. destruct (sortByDistance g l) as [|b l'] eqn:Hs.
  - simpl. intros [= <- <-]. exists [], l. split; [done |].
    split; [intros ? H; inversion H |].
    assert (l = []) as -> by (apply Permutation_nil; by rewrite <- Hs, sortByDistance_perm).
    intros ? H; inversion H.
  - simpl. destruct (IH b l' eq_refl) as (l1 & l2 & -> & H1 & H2).
    destruct (dist_ltb (distanceAt g b) (distanceAt g a)) eqn:Hba.
    + intros [= <- <-]. exists (a :: l1), l2. split; [done |]. split; [| done].
      intros a' [-> | Ha']%elem_of_cons; [done | by apply H1].
    + intros [= <- <-]. exists [], (l1 ++ b :: l2). split; [done |].
      split; [intros ? H; inversion H |].
      intros a' [Ha' | [-> | Ha']%elem_of_cons]%elem_of_app.
      * apply H1 in Ha'. destruct (distanceAt g a), (distanceAt g b), (distanceAt g a');
          simpl in *; try done. apply Nat.ltb_ge. apply Nat.ltb_ge in Hba.
        apply Nat.ltb_lt in Ha'. lia.
      * done.
      * apply H2 in Ha'. eapply dist_ltb_ge_trans; eauto.
Qed.

(** *** Invariant of the loop *)

Definition static (c : GridCell) :=
  (x c, y c, isWall c, isStart c, isEnd c, weight c).

Definition finiteAt (g : Grid) (p : nat * nat) : Prop :=
  ∃ d, distanceAt g p = Finite d.

Section Run.
Variables W H : nat.
Variable g0 : Grid.
Hypothesis wf0 : wellFormed W H g0.

Record Core (g : Grid) (unv : list (nat * nat)) (v : nat)
    (rank : nat * nat → nat) : Prop := {
  core_static : ∀ p, static <$> cellAt g p = static <$> cellAt g0 p;
  core_unvisited : ∀ p, p ∈ unv ↔
    ∃ c, cellAt g p = Some c ∧ isWall c = false ∧ isVisited c = false;
  core_nodup : NoDup unv;
  core_start : ∀ p c, cellAt g p = Some c → isStart c = true →
    distance c = Finite 0;
  core_visited : ∀ p c, cellAt g p = Some c → isVisited c = true →
    (∃ d, distance c = Finite d) ∧ rank p < v ∧ isWall c = false;
  core_previous : ∀ p c q, cellAt g p = Some c → previous c = Some q →
    ∃ cq dq, cellAt g q = Some cq ∧ isVisited cq = true
      ∧ distance cq = Finite dq ∧ distance c = Finite (dq + weight c)
      ∧ (isVisited c = true → rank q < rank p);
  core_origin : ∀ p c d, cellAt g p = Some c → previous c = None →
    distance c = Finite d → isStart c = true
}.

Definition Settled (g : Grid) : Prop :=
  (∀ p c, cellAt g p = Some c → isVisited c = true → isEnd c = false)
  ∧ (∀ p c q cq, cellAt g p = Some c → isVisited c = true → adjacent p q →
       cellAt g q = Some cq → isWall cq = false → finiteAt g q).

Lemma core_place g unv v rank p c :
  Core g unv v rank → cellAt g p = Some c →
  x c = p.1 ∧ y c = p.2 ∧ p.1 < W ∧ p.2 < H.
Proof.
  intros HC Hc. pose proof (core_static _ _ _ _ HC p) as Hs.
  rewrite Hc in Hs. simpl in Hs.
  destruct (cellAt g0 p) as [c0|] eqn:Hc0; simplify_eq/=.
  destruct wf0 as [Hdim Hxy]. destruct (Hxy p c0 Hc0) as [? ?].
  destruct (proj1 (Hdim p)) as [? ?]; [by rewrite Hc0 |].
  unfold static in Hs. simplify_eq. repeat split; congruence.
Qed.

Lemma core_exists g unv v rank p :
  Core g unv v rank → p.1 < W → p.2 < H → is_Some (cellAt g p).
Proof.
  intros HC H1 H2. pose proof (core_static _ _ _ _ HC p) as Hs.
  destruct wf0 as [Hdim _]. destruct (proj2 (Hdim p)) as [c0 Hc0]; [done |].
  rewrite Hc0 in Hs. destruct (cellAt g p); [eauto | done].
Qed.

(** Marking the shifted cell visited. *)
Lemma Core_markVisited g cur rest v rank c d :
  Core g (cur :: rest) v rank →
  cellAt g cur = Some c → distance c = Finite d →
  Core (setCell g cur (markVisited c)) rest (S v)
       (λ p, if decide (p = cur) then v else rank p).
Proof.
  intros HC Hc Hd.
  pose proof (core_nodup _ _ _ _ HC) as Hnd. apply NoDup_cons in Hnd as [Hnin Hnd].
  assert (Hunv : isWall c = false ∧ isVisited c = false).
  { destruct (proj1 (core_unvisited _ _ _ _ HC cur)) as (c' & ? & ? & ?);
      [left |]. by simplify_eq. }
  destruct Hunv as [Hw Hv].
  constructor.
  - intros p. rewrite <- (core_static _ _ _ _ HC p).
    by apply (cellAt_setCell_proj static g cur c).
  - intros p. rewrite (cellAt_setCell _ _ c) by done. case_decide as E.
    + subst p. split; [done |]. intros (c' & [= <-] & _ & ?). done.
    + rewrite <- (core_unvisited _ _ _ _ HC p). rewrite elem_of_cons.
      split; [tauto | intros [? | ?]; [congruence | done]].
  - done.
  - intros p c'. rewrite (cellAt_setCell _ _ c) by done. case_decide as E.
    + intros [= <-]. simpl. subst p. by apply (core_start _ _ _ _ HC cur).
    + apply (core_start _ _ _ _ HC).
  - intros p c'. rewrite (cellAt_setCell _ _ c) by done.
    case_decide as E; [subst p; rewrite decide_True by done
                      | rewrite decide_False by done].
    + intros [= <-] _. simpl. split; [eauto |]. split; [lia | done].
    + intros Hc' Hv'. destruct (core_visited _ _ _ _ HC p c' Hc' Hv') as (? & ? & ?).
      split; [done |]. split; [lia | done].
  - intros p c' q Hc' Hp.
    assert (∃ c'', cellAt g p = Some c'' ∧ previous c'' = Some q
            ∧ distance c'' = distance c' ∧ weight c'' = weight c'
            ∧ (isVisited c' = true → p ≠ cur → isVisited c'' = true)) as
      (c'' & Hc'' & Hp'' & Hd'' & Hw'' & Hv'').
    { rewrite (cellAt_setCell _ _ c) in Hc' by done. case_decide.
      - subst p. simplify_eq. exists c. done.
      - exists c'. done. }
    destruct (core_previous _ _ _ _ HC p c'' q Hc'' Hp'')
      as (cq & dq & Hcq & Hvq & Hdq & Hdc & Hr).
    assert (q ≠ cur) as Hne by (intros ->; congruence).
    exists cq, dq. rewrite cellAt_setCell_ne by done.
    split; [done |]. split; [done |]. split; [done |].
    split; [congruence |]. intros Hvis.
    rewrite (decide_False (P := q = cur)) by done. case_decide as E.
    + destruct (core_visited _ _ _ _ HC q cq Hcq Hvq) as (_ & ? & _). lia.
    + apply Hr. by apply Hv''.
  - intros p c' d'. rewrite (cellAt_setCell _ _ c) by done. case_decide as E.
    + intros [= <-]. simpl. subst p. by apply (core_origin _ _ _ _ HC cur).
    + apply (core_origin _ _ _ _ HC).
Qed.

(** A relaxation that improves the distance of an unvisited neighbour. *)
Lemma Core_relax g unv v rank cur ccur d q n t :
  Core g unv v rank →
  cellAt g cur = Some ccur → isVisited ccur = true → distance ccur = Finite d →
  cellAt g q = Some n → isVisited n = false →
  t = d + weight n → dist_ltb (Finite t) (distance n) = true →
  Core (setCell g q (setDistance t cur n)) unv v rank.
Proof.
  intros HC Hcur Hvcur Hdcur Hn Hvn -> Hlt.
  assert (q ≠ cur) as Hne by (intros ->; congruence).
  constructor.
  - intros p. rewrite <- (core_static _ _ _ _ HC p).
    by apply (cellAt_setCell_proj static g q n).
  - intros p. rewrite (core_unvisited _ _ _ _ HC p).
    rewrite (cellAt_setCell _ _ n) by done. case_decide as E; [| done].
    subst p. split.
    + intros (c & ? & ? & ?). simplify_eq. eexists. done.
    + intros (c & ? & ? & ?). simplify_eq. eexists. done.
  - apply (core_nodup _ _ _ _ HC).
  - intros p c'. rewrite (cellAt_setCell _ _ n) by done. case_decide as E.
    + intros [= <-]. simpl. intros Hs.
      rewrite (core_start _ _ _ _ HC q n Hn Hs) in Hlt. simpl in Hlt.
      apply Nat.ltb_lt in Hlt. lia.
    + apply (core_start _ _ _ _ HC).
  - intros p c'. rewrite (cellAt_setCell _ _ n) by done. case_decide as E.
    + intros [= <-]. simpl. congruence.
    + apply (core_visited _ _ _ _ HC).
  - intros p c' q'. rewrite !(cellAt_setCell _ _ n) by done.
    case_decide as E.
    + intros [= <-]. simpl. intros [= <-]. exists ccur, d.
      rewrite decide_False by done. repeat split; [done .. |]. congruence.
    + intros Hc' Hp.
      destruct (core_previous _ _ _ _ HC p c' q' Hc' Hp)
        as (cq & dq & Hcq & Hvq & Hdq & Hdc & Hr).
      exists cq, dq. rewrite decide_False by (intros ->; congruence). done.
  - intros p c' d'. rewrite (cellAt_setCell _ _ n) by done. case_decide as E.
    + intros [= <-]. simpl. done.
    + apply (core_origin _ _ _ _ HC).
Qed.

Lemma finiteAt_setCell g p c c' q :
  cellAt g p = Some c → (∃ d, distance c' = Finite d) →
  finiteAt g q → finiteAt (setCell g p c') q.
Proof.
  intros Hc [d Hd] [d' Hq]. unfold finiteAt, distanceAt in *.
  rewrite (cellAt_setCell _ _ c) by done. case_decide; eauto.
Qed.

(** One direction of the relaxation of [cur]. *)
Lemma relax_step g unv v rank cur c d dir :
  Core g unv v rank →
  cellAt g cur = Some (markVisited c) → distance c = Finite d →
  ∃ g', relax W H cur c d (Done g) dir = Done g'
    ∧ Core g' unv v rank
    ∧ cellAt g' cur = Some (markVisited c)
    ∧ (∀ p c', cellAt g' p = Some c' → isVisited c' = true →
         cellAt g p = Some c')
    ∧ (∀ p, finiteAt g p → finiteAt g' p)
    ∧ (∀ q cq, Z.of_nat q.1 = (Z.of_nat cur.1 + dir.1)%Z →
         Z.of_nat q.2 = (Z.of_nat cur.2 + dir.2)%Z →
         cellAt g' q = Some cq → isWall cq = false → finiteAt g' q).
Proof.
  intros HC Hcur Hd. unfold relax. simpl.
  destruct (core_place _ _ _ _ _ _ HC Hcur) as (Hx & Hy & _ & _).
  simpl in Hx, Hy. rewrite Hx, Hy.
  set (newX := (Z.of_nat cur.1 + dir.1)%Z).
  set (newY := (Z.of_nat cur.2 + dir.2)%Z).
  destruct ((0 <=? newX)%Z && (newX <? Z.of_nat W)%Z && (0 <=? newY)%Z
            && (newY <? Z.of_nat H)%Z) eqn:Hb.
  - apply andb_true_iff in Hb as [Hb Hb4]. apply andb_true_iff in Hb as [Hb Hb3].
    apply andb_true_iff in Hb as [Hb1 Hb2].
    apply Z.leb_le in Hb1, Hb3. apply Z.ltb_lt in Hb2, Hb4.
    set (q0 := (Z.to_nat newX, Z.to_nat newY)).
    destruct (core_exists _ _ _ _ q0 HC) as [n Hn]; [simpl; lia .. |].
    rewrite Hn. simpl.
    assert (Htarget : ∀ q, Z.of_nat q.1 = newX → Z.of_nat q.2 = newY → q = q0).
    { intros [q1 q2] ? ?. unfold q0. simpl in *. f_equal; lia. }
    destruct (negb (isWall n) && negb (isVisited n)) eqn:Hnv.
    + apply andb_true_iff in Hnv as [Hnw Hnv].
      apply negb_true_iff in Hnw, Hnv.
      destruct (dist_ltb (Finite (d + weight n)) (distance n)) eqn:Hlt.
      * pose proof Hlt as Hlt'. simpl in Hlt'. rewrite Hlt'.
        eexists. split; [reflexivity |].
        assert (q0 ≠ cur) as Hne.
        { intros E. rewrite E, Hcur in Hn. by simplify_eq. }
        split; [eapply Core_relax; eauto; done |].
        split; [by rewrite cellAt_setCell_ne |].
        split.
        { intros p c'. rewrite (cellAt_setCell _ _ n) by done.
          case_decide; [| done]. intros [= <-]. simpl. congruence. }
        split; [intros p; eapply finiteAt_setCell; eauto; simpl; eauto |].
        intros q cq Hq1 Hq2 Hcq _. rewrite (Htarget q Hq1 Hq2).
        unfold finiteAt, distanceAt. rewrite (cellAt_setCell_eq _ _ n) by done.
        simpl. eauto.
      * pose proof Hlt as Hlt'. simpl in Hlt'. rewrite Hlt'.
        exists g. split_and!; try done.
        intros q cq Hq1 Hq2 Hcq _. rewrite (Htarget q Hq1 Hq2).
        unfold finiteAt, distanceAt. rewrite Hn.
        destruct (distance n); [eauto | done].
    + exists g. split_and!; try done.
      intros q cq Hq1 Hq2 Hcq Hw. rewrite (Htarget q Hq1 Hq2) in Hcq |- *.
      simplify_eq. rewrite Hw in Hnv. simpl in Hnv.
      apply negb_false_iff in Hnv.
      destruct (core_visited _ _ _ _ HC q0 n Hn Hnv) as ([d' Hd'] & _).
      exists d'. unfold distanceAt. by rewrite Hn.
  - exists g. split_and!; try done.
    intros q cq Hq1 Hq2 Hcq _. exfalso.
    destruct (core_place _ _ _ _ _ _ HC Hcq) as (_ & _ & ? & ?).
    apply andb_false_iff in Hb as [Hb | Hb]; [| apply Z.ltb_ge in Hb; lia].
    apply andb_false_iff in Hb as [Hb | Hb]; [| apply Z.leb_gt in Hb; lia].
    apply andb_false_iff in Hb as [Hb | Hb]; [apply Z.leb_gt in Hb; lia |].
    apply Z.ltb_ge in Hb; lia.
Qed.


Lemma Core_perm g unv unv' v rank :
  unv ≡ₚ unv' → Core g unv v rank → Core g unv' v rank.
Proof.
  intros Hp HC. destruct HC. constructor; try done.
  - intros p. by rewrite <- Hp.
  - by rewrite <- Hp.
Qed.

Lemma static_same g unv v rank g' unv' v' rank' q cq :
  Core g unv v rank → Core g' unv' v' rank' → cellAt g' q = Some cq →
  ∃ cq', cellAt g q = Some cq' ∧ static cq' = static cq.
Proof.
  intros HC HC' Hq. apply (fmap_Some_eq static _ (cellAt g' q)); [| done].
  by rewrite (core_static _ _ _ _ HC), (core_static _ _ _ _ HC').
Qed.

Lemma turn_spec l rank :
  Core (newGrid l) (unvisited l) (visited l) rank → Settled (newGrid l) →
  ∃ t, turn W H l = Done t ∧
    match t with
    | Again l' =>
      (∃ rank', Core (newGrid l') (unvisited l') (visited l') rank')
      ∧ Settled (newGrid l')
      ∧ length (unvisited l') < length (unvisited l)
      ∧ visited l' + length (unvisited l') ≤ visited l + length (unvisited l)
    | AtEnd l' cur =>
      (∃ rank', Core (newGrid l') (unvisited l') (visited l') rank')
      ∧ (∃ c, cellAt (newGrid l') cur = Some c ∧ isVisited c = true
              ∧ isEnd c = true)
      ∧ visited l' + length (unvisited l') ≤ visited l + length (unvisited l)
    | Stop l' =>
      newGrid l' = newGrid l ∧ visited l' = visited l
      ∧ ∀ p, p ∈ unvisited l → distanceAt (newGrid l) p = Infinity
    end.
Proof.
  intros HC [Hnoend Hrelaxed]. unfold turn.
  pose proof (sortByDistance_perm (newGrid l) (unvisited l)) as Hperm.
  destruct (sortByDistance (newGrid l) (unvisited l)) as [|cur rest] eqn:Hs.
  { eexists. split; [done |]. simpl. split_and!; try done.
    apply Permutation_nil in Hperm. rewrite Hperm. intros p Hp. inversion Hp. }
  apply (Core_perm _ _ _ _ _ (symmetry Hperm)) in HC as HC'.
  destruct (proj1 (core_unvisited _ _ _ _ HC' cur)) as (c & Hc & Hw & Hv);
    [left |].
  rewrite Hc. cbn [mbind run_bind of_option].
  destruct (distance c) as [d|] eqn:Hd.
  2:{ eexists. split; [done |]. simpl. split_and!; try done.
      destruct (sortByDistance_head _ _ _ _ Hs) as (l1 & l2 & E & H1 & H2).
      assert (Hcur : distanceAt (newGrid l) cur = Infinity).
      { unfold distanceAt. by rewrite Hc. }
      rewrite Hcur in H1, H2.
      intros p Hp. rewrite E in Hp.
      apply elem_of_app in Hp as [Hp | [-> | Hp]%elem_of_cons]; [| done |].
      - apply H1 in Hp. done.
      - apply H2 in Hp. by destruct (distanceAt (newGrid l) p). }
  pose proof (Core_markVisited _ _ _ _ _ _ d HC' Hc Hd) as HC1.
  set (g1 := setCell (newGrid l) cur (markVisited c)) in *.
  set (rank1 := λ p, if decide (p = cur) then visited l else rank p) in *.
  assert (Hcur1 : cellAt g1 cur = Some (markVisited c)).
  { by apply (cellAt_setCell_eq _ _ c). }
  assert (Hlen : length rest < length (unvisited l)).
  { rewrite <- Hperm. simpl. lia. }
  destruct (isEnd c) eqn:Hend.
  { eexists. split; [done |]. simpl. split_and!; [by eexists | | lia].
    exists (markVisited c). done. }
  unfold directions. cbn [foldl].
  destruct (relax_step _ _ _ _ _ _ d (0, -1)%Z HC1 Hcur1 Hd)
    as (g2 & -> & HC2 & Hcur2 & Hold2 & Hfin2 & Hup).
  destruct (relax_step _ _ _ _ _ _ d (1, 0)%Z HC2 Hcur2 Hd)
    as (g3 & -> & HC3 & Hcur3 & Hold3 & Hfin3 & Hright).
  destruct (relax_step _ _ _ _ _ _ d (0, 1)%Z HC3 Hcur3 Hd)
    as (g4 & -> & HC4 & Hcur4 & Hold4 & Hfin4 & Hdown).
  destruct (relax_step _ _ _ _ _ _ d (-1, 0)%Z HC4 Hcur4 Hd)
    as (g5 & -> & HC5 & Hcur5 & Hold5 & Hfin5 & Hleft).
  cbn [mbind run_bind].
  eexists. split; [done |]. simpl. split_and!; [by eexists | | done | lia].
  assert (Hfin1 : ∀ p, finiteAt (newGrid l) p → finiteAt g1 p).
  { intros p. apply (finiteAt_setCell _ _ c); [done |]. simpl. eauto. }
  split.
  - intros p c' Hc' Hv'.
    apply Hold5 in Hc' as Hc4; [| done]. apply Hold4 in Hc4; [| done].
    apply Hold3 in Hc4; [| done]. apply Hold2 in Hc4; [| done].
    unfold g1 in Hc4. rewrite (cellAt_setCell _ _ c) in Hc4 by done.
    case_decide; [by simplify_eq |]. by eapply Hnoend.
  - intros p c' q cq Hc' Hv' Hadj Hq Hwq.
    apply Hold5 in Hc' as Hc4; [| done]. apply Hold4 in Hc4; [| done].
    apply Hold3 in Hc4; [| done]. apply Hold2 in Hc4; [| done].
    unfold g1 in Hc4. rewrite (cellAt_setCell _ _ c) in Hc4 by done.
    case_decide as E.
    + subst p. destruct Hadj as (dir & Hdir & Hq1 & Hq2).
      destruct (static_same _ _ _ _ _ _ _ _ q cq HC2 HC5 Hq) as (c2 & Hc2 & Hs2).
      destruct (static_same _ _ _ _ _ _ _ _ q cq HC3 HC5 Hq) as (c3 & Hc3 & Hs3).
      destruct (static_same _ _ _ _ _ _ _ _ q cq HC4 HC5 Hq) as (c4 & Hc4' & Hs4).
      unfold static in *.
      unfold directions in Hdir.
      repeat (apply elem_of_cons in Hdir as [-> | Hdir]).
      * apply Hfin5, Hfin4, Hfin3. eapply Hup; eauto. congruence.
      * apply Hfin5, Hfin4. eapply Hright; eauto. congruence.
      * apply Hfin5. eapply Hdown; eauto. congruence.
      * eapply Hleft; eauto.
      * inversion Hdir.
    + destruct (static_same _ _ _ _ _ _ _ _ q cq HC HC5 Hq) as (c0 & Hc0 & Hs0).
      apply Hfin5, Hfin4, Hfin3, Hfin2, Hfin1.
      eapply (Hrelaxed p c' q c0); eauto. unfold static in Hs0. congruence.
Qed.


Lemma loop_S f l :
  loop W H (S f) l =
  t ← turn W H l;
  match t with
  | Again l => loop W H f l
  | Stop l => Done (l, None)
  | AtEnd l current => Done (l, Some current)
  end.
Proof. done. Qed.

(** The loop ends within as many turns as [unvisited] is long. *)
Lemma loop_spec n : ∀ l rank,
  length (unvisited l) ≤ n →
  Core (newGrid l) (unvisited l) (visited l) rank → Settled (newGrid l) →
  ∃ l' found, loop W H (S n) l = Done (l', found)
    ∧ match found with
      | Some cur =>
        (∃ rank', Core (newGrid l') (unvisited l') (visited l') rank')
        ∧ (∃ c, cellAt (newGrid l') cur = Some c ∧ isVisited c = true
                ∧ isEnd c = true)
        ∧ visited l' + length (unvisited l') ≤ visited l + length (unvisited l)
      | None =>
        ∃ lp rankp,
          Core (newGrid lp) (unvisited lp) (visited lp) rankp
          ∧ Settled (newGrid lp)
          ∧ newGrid l' = newGrid lp ∧ visited l' = visited lp
          ∧ (∀ p, p ∈ unvisited lp → distanceAt (newGrid lp) p = Infinity)
      end.
Proof.
  induction n as [|n IH]; intros l rank Hlen HC HS;
    destruct (turn_spec l rank HC HS) as (t & Ht & Hpost);
    rewrite loop_S, Ht; cbn [mbind run_bind];
    destruct t as [l' | l' | l' cur].
  - destruct Hpost as (_ & _ & ? & _). lia.
  - exists l', None. split; [done |]. exists l, rank.
    destruct Hpost as (? & ? & ?). split_and!; auto.
  - exists l', (Some cur). done.
  - destruct Hpost as ([rank' HC'] & HS' & Hlt & Hv).
    destruct (IH l' rank') as (l'' & found & -> & Hfound); [lia | done | done |].
    exists l'', found. split; [done |]. destruct found as [cur|].
    + destruct Hfound as (? & ? & ?). split_and!; [done | done | lia].
    + done.
  - exists l', None. split; [done |]. exists l, rank.
    destruct Hpost as (? & ? & ?). split_and!; auto.
  - exists l', (Some cur). done.
Qed.

Lemma loop_mono f : ∀ f' l r,
  loop W H f l = Done r → f ≤ f' → loop W H f' l = Done r.
Proof.
  induction f as [|f IH]; intros f' l r Hr Hle; [done |].
  destruct f' as [|f']; [lia |]. rewrite loop_S in Hr |- *.
  destruct (turn W H l) as [t | |]; [| done ..]. cbn [mbind run_bind] in *.
  destruct t; [| done ..]. apply IH; [done | lia].
Qed.

Lemma reconstruct_mono f : ∀ f' g p n t r,
  reconstruct f g p n t = Done r → f ≤ f' → reconstruct f' g p n t = Done r.
Proof.
  induction f as [|f IH]; intros f' g p n t r Hr Hle.
  - destruct p; [done |]. destruct f'; done.
  - destruct p as [p|]; [| by destruct f'].
    destruct f' as [|f']; [lia |]. cbn [reconstruct] in *.
    destruct (cellAt g p) as [c|]; [| done]. cbn [mbind run_bind of_option] in *.
    apply IH; [done | lia].
Qed.


(** *** Back-pointer chains *)

Definition nopath (c : GridCell) :=
  (static c, isVisited c, distance c, previous c).

Lemma nopath_previous c c' : nopath c' = nopath c → previous c' = previous c.
Proof. intros E. by apply (f_equal snd) in E. Qed.

Lemma nopath_weight c c' : nopath c' = nopath c → weight c' = weight c.
Proof.
  intros E. apply (f_equal (λ t, t.1.1.1)) in E. simpl in E.
  by apply (f_equal snd) in E.
Qed.

Lemma chain_transfer g g' o l :
  (∀ q, nopath <$> cellAt g' q = nopath <$> cellAt g q) →
  chain g o l → chain g' o l.
Proof.
  intros Hsame. induction 1 as [|p c l Hc _ IH]; [constructor |].
  destruct (fmap_Some_eq nopath _ _ c (Hsame p) Hc) as (c' & Hc' & E).
  apply (chain_cons _ _ c'); [done |].
  by rewrite (nopath_previous _ _ E).
Qed.

Lemma pathCost_transfer g g' l :
  (∀ q, nopath <$> cellAt g' q = nopath <$> cellAt g q) →
  pathCost g' l = pathCost g l.
Proof.
  intros Hsame. unfold pathCost. induction l as [|p l IH]; [done |].
  simpl. rewrite IH. f_equal. unfold weightAt.
  specialize (Hsame p).
  destruct (cellAt g' p), (cellAt g p); simplify_eq/=; done.
Qed.

Lemma reconstruct_spec l : ∀ g o n t fuel,
  chain g o l → length l ≤ fuel →
  ∃ g', reconstruct fuel g o n t = Done (g', n + length l, t + pathCost g l)
    ∧ (∀ q, nopath <$> cellAt g' q = nopath <$> cellAt g q).
Proof.
  induction l as [|p l IH]; intros g o n t fuel Hch Hlen.
  - inversion Hch; subst. exists g. split; [| done].
    destruct fuel; simpl; unfold pathCost; simpl; by rewrite !Nat.add_0_r.
  - inversion Hch as [|p' c l' Hc Hch']; subst.
    destruct fuel as [|fuel]; [simpl in Hlen; lia |].
    cbn [reconstruct]. rewrite Hc. cbn [mbind run_bind of_option].
    assert (Hsame : ∀ q, nopath <$> cellAt (setCell g p (markPath c)) q
                         = nopath <$> cellAt g q).
    { intros q. by apply (cellAt_setCell_proj nopath g p c). }
    destruct (IH (setCell g p (markPath c)) (previous c) (S n) (t + weight c) fuel)
      as (g' & -> & Hsame').
    { by apply (chain_transfer g). }
    { simpl in Hlen. lia. }
    exists g'. split.
    + rewrite (pathCost_transfer _ _ _ Hsame).
      assert (pathCost g (p :: l) = weight c + pathCost g l) as ->.
      { unfold pathCost. simpl. unfold weightAt at 1. by rewrite Hc. }
      simpl. do 2 f_equal; [f_equal |]; lia.
    + intros q. by rewrite Hsame', Hsame.
Qed.

Lemma chain_exists g unv v rank :
  Core g unv v rank →
  ∀ n p c, rank p ≤ n → cellAt g p = Some c → isVisited c = true →
  ∃ l d pl cl,
    chain g (Some p) l ∧ length l ≤ S (rank p)
    ∧ distance c = Finite d
    ∧ last l = Some pl ∧ cellAt g pl = Some cl ∧ isStart cl = true
    ∧ pathCost g l = d + weight cl.
Proof.
  intros HC. induction n as [|n IH]; intros p c Hr Hc Hv;
    destruct (core_visited _ _ _ _ HC p c Hc Hv) as ([d Hd] & _ & _);
    destruct (previous c) as [q|] eqn:Hp.
  - destruct (core_previous _ _ _ _ HC p c q Hc Hp)
      as (cq & dq & _ & _ & _ & _ & Hlt). specialize (Hlt Hv). lia.
  - pose proof (core_origin _ _ _ _ HC p c d Hc Hp Hd) as Hs.
    pose proof (core_start _ _ _ _ HC p c Hc Hs) as Hd0.
    exists [p], 0, p, c. split_and!; try done.
    + apply (chain_cons _ _ c); [done |]. rewrite Hp. constructor.
    + simpl. lia.
    + unfold pathCost, weightAt. simpl. rewrite Hc. lia.
  - destruct (core_previous _ _ _ _ HC p c q Hc Hp)
      as (cq & dq & Hcq & Hvq & Hdq & Hdc & Hlt). specialize (Hlt Hv).
    destruct (IH q cq) as (l & d' & pl & cl & Hch & Hlen & Hd' & Hlast & Hcl & Hs & Hcost);
      [lia | done | done |].
    exists (p :: l), (dq + weight c), pl, cl. split_and!; try done.
    + apply (chain_cons _ _ c); [done |]. by rewrite Hp.
    + simpl. lia.
    + destruct l; [done |]. done.
    + unfold pathCost in *. simpl. rewrite Hcost. unfold weightAt. rewrite Hc.
      assert (d' = dq) by congruence. lia.
  - pose proof (core_origin _ _ _ _ HC p c d Hc Hp Hd) as Hs.
    pose proof (core_start _ _ _ _ HC p c Hc Hs) as Hd0.
    exists [p], 0, p, c. split_and!; try done.
    + apply (chain_cons _ _ c); [done |]. rewrite Hp. constructor.
    + simpl. lia.
    + unfold pathCost, weightAt. simpl. rewrite Hc. lia.
Qed.


Lemma route_head g p r :
  route g p r → ∃ c, cellAt g p = Some c ∧ isWall c = false.
Proof. destruct 1; eauto. Qed.

(** When the loop stops for want of a finite distance, every cell a walk
    leads to from a visited cell is visited. *)
Lemma route_visited lp rankp :
  Core (newGrid lp) (unvisited lp) (visited lp) rankp →
  Settled (newGrid lp) →
  (∀ p, p ∈ unvisited lp → distanceAt (newGrid lp) p = Infinity) →
  ∀ p r, route g0 p r →
    (∃ c, cellAt (newGrid lp) p = Some c ∧ isVisited c = true) →
    ∃ c, cellAt (newGrid lp) r = Some c ∧ isVisited c = true.
Proof.
  intros HC [_ Hrelaxed] Hinf p r Hroute.
  induction Hroute as [| p q r c0 Hc0 Hw0 Hadj Hroute IH]; [done |].
  intros (c & Hc & Hv). apply IH.
  destruct (route_head _ _ _ Hroute) as (cq0 & Hcq0 & Hwq0).
  destruct (fmap_Some_eq static _ _ cq0 (core_static _ _ _ _ HC q) Hcq0)
    as (cq & Hcq & Hsq).
  assert (isWall cq = false) as Hwq.
  { unfold static in Hsq. injection Hsq. congruence. }
  exists cq. split; [done |].
  destruct (isVisited cq) eqn:Hvq; [done |]. exfalso.
  destruct (Hrelaxed p c q cq Hc Hv Hadj Hcq Hwq) as [d Hd].
  rewrite Hinf in Hd; [done |].
  apply (core_unvisited _ _ _ _ HC). eauto.
Qed.

Lemma no_stop lp rankp :
  Core (newGrid lp) (unvisited lp) (visited lp) rankp →
  Settled (newGrid lp) →
  (∀ p, p ∈ unvisited lp → distanceAt (newGrid lp) p = Infinity) →
  connected g0 → False.
Proof.
  intros HC HS Hinf (ps & pe & cs0 & ce0 & Hcs0 & Hs0 & Hce0 & He0 & Hroute).
  destruct (route_visited lp rankp HC HS Hinf ps pe Hroute) as (ce & Hce & Hve).
  - destruct (route_head _ _ _ Hroute) as (cs1 & Hcs1 & Hws1).
    destruct (fmap_Some_eq static _ _ cs0 (core_static _ _ _ _ HC ps) Hcs0)
      as (cs & Hcs & Hss).
    assert (isWall cs = false ∧ isStart cs = true) as [Hw Hs].
    { unfold static in Hss. injection Hss. simplify_eq. split; congruence. }
    exists cs. split; [done |].
    destruct (isVisited cs) eqn:Hv; [done |]. exfalso.
    pose proof (core_start _ _ _ _ HC ps cs Hcs Hs) as Hd.
    assert (distanceAt (newGrid lp) ps = Infinity) as Hi.
    { apply Hinf, (core_unvisited _ _ _ _ HC). eauto. }
    unfold distanceAt in Hi. rewrite Hcs in Hi. congruence.
  - destruct HS as [Hnoend _]. pose proof (Hnoend pe ce Hce Hve) as Hne.
    destruct (fmap_Some_eq static _ _ ce0 (core_static _ _ _ _ HC pe) Hce0)
      as (ce' & Hce' & Hse).
    unfold static in Hse. injection Hse. simplify_eq. congruence.
Qed.

End Run.

Lemma wellFormed_reset W H g :
  wellFormed W H g → wellFormed W H (map (map resetCell) g).
Proof.
  intros [Hdim Hxy]. split.
  - intros p. rewrite cellAt_fmap, <- Hdim. by rewrite fmap_is_Some.
  - intros p c. rewrite cellAt_fmap. destruct (cellAt g p) as [c0|] eqn:E; [| done].
    intros [= <-]. simpl. by apply Hxy.
Qed.

Lemma elem_of_scanOrder W H p : p ∈ scanOrder W H ↔ p.1 < W ∧ p.2 < H.
Proof.
  unfold scanOrder. rewrite list_elem_of_bind. split.
  - intros (row & Hp & Hrow). apply list_elem_of_fmap in Hp as (col & -> & Hcol).
    apply elem_of_seq in Hrow, Hcol. simpl. lia.
  - intros [H1 H2]. exists p.2. split.
    + apply list_elem_of_fmap. exists p.1. split; [by destruct p |].
      apply elem_of_seq. lia.
    + apply elem_of_seq. lia.
Qed.

Lemma findStart_done g ps :
  (∀ p, p ∈ ps → is_Some (cellAt g p)) →
  ∃ o, findStart g ps = Done o
    ∧ ((∃ p c, p ∈ ps ∧ cellAt g p = Some c ∧ isStart c = true) → is_Some o).
Proof.
  induction ps as [|p ps IH]; intros Hall.
  - exists None. split; [done |]. intros (p & c & Hp & _). inversion Hp.
  - destruct (Hall p) as [c Hc]; [left |]. cbn [findStart]. rewrite Hc.
    cbn [mbind run_bind of_option]. destruct (isStart c) eqn:Hs.
    + exists (Some p). split; [done |]. eauto.
    + destruct IH as (o & Ho & Hsome); [intros q Hq; apply Hall; by right |].
      exists o. split; [done |].
      intros (q & cq & [-> | Hq]%elem_of_cons & Hcq & Hsq).
      * congruence.
      * apply Hsome. eauto.
Qed.

Lemma Core_start g :
  (∀ p c, cellAt g p = Some c → isVisited c = false ∧ previous c = None
     ∧ (isStart c = true → distance c = Finite 0)
     ∧ (isStart c = false → distance c = Infinity)) →
  Core g g (unvisited (loopStart g)) 0 (λ _, 0) ∧ Settled g.
Proof.
  intros Hreset. split; [constructor | split].
  - done.
  - intros p. unfold loopStart. simpl. rewrite list_elem_of_In, filter_In.
    rewrite <- list_elem_of_In, elem_of_places. split.
    + intros [[c Hc] Hw]. rewrite Hc in Hw. exists c.
      apply negb_true_iff in Hw. destruct (Hreset p c Hc) as (? & _). done.
    + intros (c & Hc & Hw & _). rewrite Hc, Hw. eauto.
  - unfold loopStart. simpl. apply NoDup_ListNoDup, List.NoDup_filter.
    apply NoDup_ListNoDup, NoDup_places.
  - intros p c Hc Hs. by apply (Hreset p c Hc).
  - intros p c Hc Hv. destruct (Hreset p c Hc) as (? & _). congruence.
  - intros p c q Hc Hp. destruct (Hreset p c Hc) as (_ & ? & _). congruence.
  - intros p c d Hc _ Hd. destruct (Hreset p c Hc) as (_ & _ & _ & Hns).
    destruct (isStart c); [done |]. rewrite Hns in Hd; done.
  - intros p c Hc Hv. destruct (Hreset p c Hc) as (? & _). congruence.
  - intros p c q cq Hc Hv. destruct (Hreset p c Hc) as (? & _). congruence.
Qed.

Lemma route_reset g p r : route g p r → route (map (map resetCell) g) p r.
Proof.
  induction 1 as [p c Hc Hw | p q r c Hc Hw Hadj _ IH].
  - apply (route_here _ _ (resetCell c)); [| done]. by rewrite cellAt_fmap, Hc.
  - apply (route_step _ _ q _ (resetCell c)); [| done ..].
    by rewrite cellAt_fmap, Hc.
Qed.

Lemma connected_reset g : connected g → connected (map (map resetCell) g).
Proof.
  intros (ps & pe & cs & ce & Hcs & Hs & Hce & He & Hroute).
  exists ps, pe, (resetCell cs), (resetCell ce).
  rewrite !cellAt_fmap, Hcs, Hce. split_and!; try done. by apply route_reset.
Qed.

Lemma static_reset c : static (resetCell c) = static c.
Proof. done. Qed.

Lemma nopath_static c c' : nopath c' = nopath c → static c' = static c.
Proof. intros E. by apply (f_equal (λ t, t.1.1.1)) in E. Qed.

Lemma nopath_distance c c' : nopath c' = nopath c → distance c' = distance c.
Proof. intros E. by apply (f_equal (λ t, t.1.2)) in E. Qed.

Lemma static_isEnd c c' : static c' = static c → isEnd c' = isEnd c.
Proof. intros E. by apply (f_equal (λ t, t.1.2)) in E. Qed.

Lemma static_isStart c c' : static c' = static c → isStart c' = isStart c.
Proof. intros E. by apply (f_equal (λ t, t.1.1.2)) in E. Qed.

Lemma static_weight c c' : static c' = static c → weight c' = weight c.
Proof. intros E. by apply (f_equal snd) in E. Qed.

(** What a run leaves behind, on a well-formed grid and with a budget above
    the number of cells. *)
Lemma runDijkstra_spec W H s fuel :
  wellFormed W H (grid s) → length (places (grid s)) < fuel →
  ∃ s', runDijkstra W H fuel s = Done s'
    ∧ (∀ q, static <$> cellAt (grid s') q = static <$> cellAt (grid s) q)
    ∧ ((gameCompleted s' = gameCompleted s ∧ pathLength s' = pathLength s
        ∧ totalDistance s' = totalDistance s ∧ ¬ connected (grid s))
       ∨ (∃ pe ce l d pl cl,
            gameCompleted s' = true ∧ isRunning s' = false
            ∧ cellAt (grid s') pe = Some ce ∧ isEnd ce = true
            ∧ chain (grid s') (Some pe) l
            ∧ pathLength s' = length l
            ∧ totalDistance s' = pathCost (grid s') l
            ∧ distance ce = Finite d
            ∧ last l = Some pl ∧ cellAt (grid s') pl = Some cl
            ∧ isStart cl = true
            ∧ pathCost (grid s') l = d + weight cl)).
Proof.
  intros Hwf Hfuel. unfold runDijkstra.
  set (g0 := map (map resetCell) (grid s)).
  pose proof (wellFormed_reset _ _ _ Hwf) as Hwf0. fold g0 in Hwf0.
  assert (Hstatic0 : ∀ q, static <$> cellAt g0 q = static <$> cellAt (grid s) q).
  { intros q. unfold g0. rewrite cellAt_fmap.
    by destruct (cellAt (grid s) q). }
  destruct (findStart_done g0 (scanOrder W H)) as (o & -> & Hsome).
  { intros p Hp. apply Hwf0. by apply elem_of_scanOrder. }
  cbn [mbind run_bind]. destruct o as [pstart|].
  2:{ eexists. split; [done |]. split; [done |]. left. simpl.
      split_and!; try done.
      intros Hconn%connected_reset. fold g0 in Hconn.
      destruct Hconn as (ps & pe & cs & ce & Hcs & Hs & _).
      destruct Hsome as [? ?]; [| done]. exists ps, cs. split_and!; try done.
      apply elem_of_scanOrder, Hwf0. eauto. }
  destruct (Core_start g0) as [HC0 HS0].
  { intros p c. unfold g0. rewrite cellAt_fmap.
    destruct (cellAt (grid s) p) as [c0|]; [| done]. intros [= <-]. simpl.
    split_and!; try done; by intros ->. }
  assert (Hlen0 : length (unvisited (loopStart g0)) ≤ length (places (grid s))).
  { unfold loopStart. simpl. rewrite <- (places_fmap resetCell (grid s)).
    apply List.filter_length_le. }
  destruct (loop_spec W H g0 Hwf0 _ (loopStart g0) _ (Nat.le_refl _) HC0 HS0)
    as (l' & found & Hloop & Hfound).
  rewrite (loop_mono W H _ fuel _ _ Hloop) by lia.
  cbn [mbind run_bind]. destruct found as [cur|].
  - destruct Hfound as ([rank' HC'] & (ce & Hce & Hve & Hee) & Hvis).
    destruct (chain_exists g0 _ _ _ _ HC' _ cur ce (Nat.le_refl _) Hce Hve)
      as (l & d & pl & cl & Hch & Hlen & Hd & Hlast & Hcl & Hscl & Hcost).
    destruct (core_visited _ _ _ _ _ HC' cur ce Hce Hve) as (_ & Hrank & _).
    destruct (reconstruct_spec l (newGrid l') (Some cur) 0 0 fuel Hch)
      as (g' & -> & Hsame); [simpl in *; lia |].
    cbn [mbind run_bind]. eexists. split; [done |]. simpl.
    assert (Hst : ∀ q, static <$> cellAt g' q = static <$> cellAt (newGrid l') q).
    { intros q. specialize (Hsame q).
      destruct (cellAt g' q), (cellAt (newGrid l') q); simpl in *; try done.
      f_equal. apply nopath_static. congruence. }
    split.
    { intros q. by rewrite Hst, (core_static _ _ _ _ _ HC'). }
    right.
    destruct (fmap_Some_eq nopath _ _ ce (Hsame cur) Hce) as (ce' & Hce' & Ece).
    destruct (fmap_Some_eq nopath _ _ cl (Hsame pl) Hcl) as (cl' & Hcl' & Ecl).
    exists cur, ce', l, d, pl, cl'. split_and!; try done.
    + by rewrite (static_isEnd _ _ (nopath_static _ _ Ece)).
    + by apply (chain_transfer (newGrid l')).
    + by rewrite (pathCost_transfer _ _ _ Hsame).
    + by rewrite (nopath_distance _ _ Ece).
    + by rewrite (static_isStart _ _ (nopath_static _ _ Ecl)).
    + rewrite (pathCost_transfer _ _ _ Hsame), Hcost.
      by rewrite (static_weight _ _ (nopath_static _ _ Ecl)).
  - destruct Hfound as (lp & rankp & HCp & HSp & Hg & Hv & Hinf).
    eexists. split; [done |]. simpl. split.
    { intros q. by rewrite Hg, (core_static _ _ _ _ _ HCp). }
    left. split_and!; try done.
    intros Hconn%connected_reset.
    by eapply (no_stop g0 lp rankp).
Qed.

Lemma pathCost_unit g o l :
  chain g o l → (∀ p c, cellAt g p = Some c → weight c = 1) →
  pathCost g l = length l.
Proof.
  intros Hch Hunit. unfold pathCost.
  induction Hch as [| p c l Hc _ IH]; [done |]. simpl. rewrite IH.
  unfold weightAt. rewrite Hc. by rewrite (Hunit p c Hc).
Qed.

(** C2, as the code computes the cost: on a well-formed grid whose cells all
    weigh 1 and whose start and end are connected, a run with a budget above
    the number of cells ends completed at an end cell; the reported path
    length is the number of cells on the back-pointer chain of that cell, the
    reported total cost is the sum of the cell weights along that chain, and
    so equals the path length itself (the start cell is counted), while the
    distance Dijkstra assigned to the end cell is one less. *)
Theorem dijkstra_unit_cost (W H : nat) (s : State) (fuel : nat) :
  wellFormed W H (grid s) →
  (∀ p c, cellAt (grid s) p = Some c → weight c = 1) →
  connected (grid s) →
  length (places (grid s)) < fuel →
  ∃ s' pe ce l,
    runDijkstra W H fuel s = Done s'
    ∧ gameCompleted s' = true
    ∧ cellAt (grid s') pe = Some ce ∧ isEnd ce = true
    ∧ chain (grid s') (Some pe) l
    ∧ pathLength s' = length l
    ∧ totalDistance s' = pathCost (grid s') l
    ∧ totalDistance s' = pathLength s'
    ∧ distance ce = Finite (pathLength s' - 1).
Proof.
  intros Hwf Hunit Hconn Hfuel.
  destruct (runDijkstra_spec W H s fuel Hwf Hfuel) as (s' & Hrun & Hst & Hres).
  destruct Hres as [(_ & _ & _ & Hn) | Hres]; [done |].
  destruct Hres as (pe & ce & l & d & pl & cl & Hgc & _ & Hce & He & Hch
                    & Hpl & Htd & Hd & _ & Hcl & _ & Hcost).
  assert (Hunit' : ∀ p c, cellAt (grid s') p = Some c → weight c = 1).
  { intros p c Hc.
    destruct (fmap_Some_eq static _ _ c (eq_sym (Hst p)) Hc) as (c0 & Hc0 & E).
    rewrite <- (static_weight _ _ E). by apply (Hunit p). }
  pose proof (pathCost_unit _ _ _ Hch Hunit') as Hlen.
  exists s', pe, ce, l. split_and!; try done.
  - congruence.
  - rewrite Hd. f_equal. rewrite (Hunit' pl cl Hcl) in Hcost. lia.
Qed.

Lemma cellAt_initializeGrid W H rw p :
  cellAt (initializeGrid W H rw) p =
  if decide (p.1 < W ∧ p.2 < H) then
    Some {| x := p.1; y := p.2; isWall := false;
            isStart := (p.1 =? 2) && (p.2 =? H / 2);
            isEnd := (Z.of_nat p.1 =? Z.of_nat W - 3)%Z && (p.2 =? H / 2);
            isVisited := false; isPath := false; distance := Infinity;
            weight := rw p.1 p.2; previous := None |}
  else None.
Proof.
  destruct p as [col row]. unfold cellAt, initializeGrid. simpl.
  change (map ?f ?l) with (f <$> l). rewrite list_lookup_fmap.
  destruct (decide (row < H)) as [Hr|Hr].
  - rewrite lookup_seq_lt by done. simpl.
    change (map ?f ?l) with (f <$> l). rewrite list_lookup_fmap.
    destruct (decide (col < W)) as [Hc|Hc].
    + rewrite lookup_seq_lt by done. simpl. by rewrite decide_True.
    + rewrite lookup_seq_ge by lia. simpl. rewrite decide_False; [done | lia].
  - rewrite lookup_seq_ge by lia. simpl. rewrite decide_False; [done | lia].
Qed.

Lemma wellFormed_initializeGrid W H rw : wellFormed W H (initializeGrid W H rw).
Proof.
  split.
  - intros p. rewrite cellAt_initializeGrid. case_decide as E.
    + split; [done | eauto].
    + split; [by intros [? ?] | done].
  - intros p c. rewrite cellAt_initializeGrid.
    case_decide; [| done]. by intros [= <-].
Qed.

Lemma unitGrid_weights p c : cellAt (grid unitGrid) p = Some c → weight c = 1.
Proof.
  unfold unitGrid, initial. cbn [grid]. rewrite cellAt_initializeGrid.
  case_decide; [| done]. by intros [= <-].
Qed.

Lemma runDijkstra_mono W H fuel fuel' s r :
  runDijkstra W H fuel s = Done r → fuel ≤ fuel' →
  runDijkstra W H fuel' s = Done r.
Proof.
  unfold runDijkstra. intros Hr Hle.
  destruct (findStart _ _) as [o | |]; [| done ..]. cbn [mbind run_bind] in *.
  destruct o; [| done].
  destruct (loop W H fuel _) as [[l found] | |] eqn:Hl; [| done ..].
  rewrite (loop_mono W H _ fuel' _ _ Hl Hle). cbn [mbind run_bind] in *.
  destruct found; [| done].
  destruct (reconstruct fuel _ _ _ _) as [[[g n] t] | |] eqn:Hrec; [| done ..].
  by rewrite (reconstruct_mono _ fuel' _ _ _ _ _ Hrec Hle).
Qed.

Lemma turns_Core W H g0 :
  wellFormed W H g0 →
  ∀ k l rank l',
    Core g0 (newGrid l) (unvisited l) (visited l) rank → Settled (newGrid l) →
    turns W H k l = Some l' →
    (∃ rank', Core g0 (newGrid l') (unvisited l') (visited l') rank')
    ∧ Settled (newGrid l').
Proof.
  intros Hwf. induction k as [|k IH]; intros l rank l' HC HS Ht.
  - simpl in Ht. simplify_eq. eauto.
  - cbn [turns] in Ht.
    destruct (turn_spec W H g0 Hwf l rank HC HS) as (t & Hturn & Hpost).
    rewrite Hturn in Ht. destruct t as [l1 | |]; [| done ..].
    destruct Hpost as ([rank1 HC1] & HS1 & _). by eapply IH.
Qed.

Lemma loopStart_rowMajor W H g :
  wellFormed W H g →
  StronglySorted (λ p q, rowMajor W p < rowMajor W q) (unvisited (loopStart g)).
Proof.
  intros [Hdim _]. unfold loopStart. simpl.
  pose proof (StronglySorted_filter lexlt
    (λ p, match cellAt g p with Some c => negb (isWall c) | None => false end)
    (places g) (places_sorted g)) as Hs.
  assert (Hin : Forall (λ p, p.1 < W) (List.filter
    (λ p, match cellAt g p with Some c => negb (isWall c) | None => false end)
    (places g))).
  { apply Forall_forall. intros p Hp%list_elem_of_In%filter_In.
    destruct Hp as [Hp _]. apply list_elem_of_In, elem_of_places in Hp.
    by apply Hdim. }
  induction Hs as [| p l Hs IH Hall]; [constructor |].
  apply Forall_cons in Hin as [Hp Hin]. constructor; [by apply IH |].
  apply Forall_forall. intros q Hq.
  pose proof (proj1 (Forall_forall _ _) Hall q Hq) as Hlt.
  pose proof (proj1 (Forall_forall _ _) Hin q Hq) as Hq1.
  unfold rowMajor, lexlt in *. nia.
Qed.

(** C3 as stated fails: on the all-ones grid the tenth turn shifts (1, 7)
    although (4, 6), with the smaller row-major index, is in the array at
    the same distance. *)
Lemma tie_broken_against_index :
  ∃ l rest,
    turns 20 12 9 (loopStart (map (map resetCell) (grid unitGrid))) = Some l
    ∧ sortByDistance (newGrid l) (unvisited l) = (1, 7) :: rest
    ∧ (4, 6) ∈ unvisited l
    ∧ distanceAt (newGrid l) (4, 6) = distanceAt (newGrid l) (1, 7)
    ∧ rowMajor 20 (4, 6) < rowMajor 20 (1, 7).
Proof.
  set (l := default (loopStart [])
              (turns 20 12 9 (loopStart (map (map resetCell) (grid unitGrid))))).
  exists l, (tail (sortByDistance (newGrid l) (unvisited l))).
  split_and!.
  - vm_compute; reflexivity.
  - vm_compute; reflexivity.
  - apply (bool_decide_unpack _). vm_compute. exact I.
  - vm_compute; reflexivity.
  - vm_compute. lia.
Qed.

(** C2 as stated fails: on the all-ones grid the run reports 16 cells and a
    total cost of 16, not 15. *)
Lemma unit_cost_counts_start :
  ∃ s', runDijkstra 20 12 241 unitGrid = Done s'
    ∧ gameCompleted s' = true
    ∧ pathLength s' = 16 ∧ totalDistance s' = 16
    ∧ totalDistance s' ≠ pathLength s' - 1.
Proof.
  set (r := runDijkstra 20 12 241 unitGrid).
  exists (match r with Done s' => s' | _ => unitGrid end).
  split_and!; [vm_compute; reflexivity .. |].
  vm_compute. lia.
Qed.

Lemma unitGrid_connected : connected (grid unitGrid).
Proof.
  exists (2, 6), (17, 6).
  assert (Hcell : ∀ p, p.1 < 20 → p.2 < 12 →
            ∃ c, cellAt (grid unitGrid) p = Some c ∧ isWall c = false
                 ∧ isStart c = (p.1 =? 2) && (p.2 =? 6)
                 ∧ isEnd c = (p.1 =? 17) && (p.2 =? 6)).
  { intros [col row] H1 H2. simpl in *.
    do 20 (destruct col as [|col]; [do 12 (destruct row as [|row]; [eexists; split_and!; reflexivity |]); lia |]).
    lia. }
  destruct (Hcell (2, 6)) as (cs & Hcs & _ & Hs & _); [simpl; lia .. |].
  destruct (Hcell (17, 6)) as (ce & Hce & Hwe & _ & He); [simpl; lia .. |].
  exists cs, ce. split_and!; try done.
  assert (Hgo : ∀ n col, col + n = 17 → route (grid unitGrid) (col, 6) (17, 6)).
  { induction n as [|n IH]; intros col Hcol.
    - assert (col = 17) as -> by lia. by apply (route_here _ _ ce).
    - destruct (Hcell (col, 6)) as (c & Hc & Hw & _); [simpl; lia .. |].
      apply (route_step _ _ (S col, 6) _ c); [done | done | |].
      + exists (1, 0)%Z. split; [set_solver |]. simpl. lia.
      + apply IH. lia. }
  apply (Hgo 15 2). lia.
Qed.

Lemma dijkstra_unit_cost_witness :
  ∃ s' pe ce l,
    runDijkstra 20 12 241 unitGrid = Done s'
    ∧ gameCompleted s' = true
    ∧ cellAt (grid s') pe = Some ce ∧ isEnd ce = true
    ∧ chain (grid s') (Some pe) l
    ∧ pathLength s' = length l
    ∧ totalDistance s' = pathCost (grid s') l
    ∧ totalDistance s' = pathLength s'
    ∧ distance ce = Finite (pathLength s' - 1).
Proof.
  apply dijkstra_unit_cost.
  - apply wellFormed_initializeGrid.
  - apply unitGrid_weights.
  - apply unitGrid_connected.
  - vm_compute. lia.
Defined.

End PathFinderSpec.

(** ** Graph colouring *)

Module GraphColoringSpec.
Import GraphColoring.

Lemma collect_spec ns ks : ∀ used,
  (∀ k, k ∈ ks → is_Some (ns !! k)) →
  ∃ used', foldl (collect ns) (Done used) ks = Done used'
    ∧ ∀ c, c ∈ used' ↔ c ∈ used ∨ (c ≠ (-1)%Z ∧ ∃ k, k ∈ ks ∧ colorAt ns k = c).
Proof.
  induction ks as [|k ks IH]; intros used Hks.
  - exists used. split; [done |]. intros c. split; [auto |].
    intros [? | (_ & k & Hk & _)]; [done | inversion Hk].
  - cbn [foldl]. unfold collect at 2. cbn [mbind run_bind].
    destruct (Hks k) as [nk Hnk]; [left |]. rewrite Hnk.
    cbn [mbind run_bind of_option].
    assert (Hks' : ∀ k', k' ∈ ks → is_Some (ns !! k')).
    { intros k' Hk'. apply Hks. by right. }
    assert (Hcol : colorAt ns k = color nk) by (unfold colorAt; by rewrite Hnk).
    destruct (Z.eqb_spec (color nk) (-1)) as [E | E].
    + destruct (IH used Hks') as (used' & -> & Hu). exists used'.
      split; [done |]. intros c. rewrite Hu. split.
      * intros [? | (? & k' & ? & ?)]; [by left | right].
        split; [done |]. exists k'. split; [by right | done].
      * intros [? | (Hc & k' & [-> | Hk']%elem_of_cons & Hk'c)]; [by left | | ].
        -- congruence.
        -- right. eauto.
    + destruct (IH ({[color nk]} ∪ used) Hks') as (used' & -> & Hu). exists used'.
      split; [done |]. intros c. rewrite Hu, elem_of_union, elem_of_singleton.
      split.
      * intros [[-> | ?] | (? & k' & ? & ?)].
        -- right. split; [done |]. exists k. split; [left | done].
        -- by left.
        -- right. split; [done |]. exists k'. split; [by right | done].
      * intros [? | (Hc & k' & [-> | Hk']%elem_of_cons & Hk'c)].
        -- left. by right.
        -- left. left. congruence.
        -- right. eauto.
Qed.

Lemma firstFree_Some used c :
  firstFree used = Some c → (c ∉ used) ∧ (0 ≤ c)%Z ∧ (c < 8)%Z.
Proof.
  unfold firstFree. intros Hf. apply find_some in Hf as [Hin Hc].
  apply bool_decide_eq_true in Hc. split; [done |].
  apply list_elem_of_In, list_elem_of_fmap in Hin as (n & -> & Hn).
  apply elem_of_seq in Hn. unfold paletteSize in Hn. lia.
Qed.

(** Fewer values than the palette has colours leave one colour free. *)
Lemma firstFree_exists used (l : list Z) :
  (∀ c, c ∈ used → c ∈ l) → length l < paletteSize →
  ∃ c, firstFree used = Some c.
Proof.
  intros Hsub Hlen. unfold firstFree.
  destruct (List.find _ _) as [c|] eqn:Hf; [eauto |]. exfalso.
  assert (Hall : ∀ c, c ∈ Z.of_nat <$> seq 0 paletteSize → c ∈ l).
  { intros c Hc. apply Hsub.
    pose proof (find_none _ _ Hf c (proj1 (list_elem_of_In _ _) Hc)) as Hn.
    apply bool_decide_eq_false in Hn. by apply dec_stable. }
  assert (Hnd : NoDup (Z.of_nat <$> seq 0 paletteSize)).
  { apply NoDup_fmap; [apply _ | apply NoDup_seq]. }
  pose proof (submseteq_length _ _ (NoDup_submseteq _ _ Hnd Hall)) as Hle.
  rewrite length_fmap, length_seq in Hle. lia.
Qed.

Lemma firstFree_least used c c' :
  firstFree used = Some c → (0 ≤ c')%Z → (c' < c)%Z → c' ∈ used.
Proof.
  unfold firstFree, paletteSize. simpl. intros Hf H0 Hlt.
  repeat (case_bool_decide;
          [ simplify_eq;
            repeat match goal with
                   | H : ?k ∈ used |- _ =>
                     destruct (decide (c' = k)) as [-> | ?];
                       [exact H | clear H]
                   end; lia
          | ]).
  done.
Qed.

(** The state of the pass when the nodes before index [i] are done. *)
Record Colored (n0 : list Node) (i : nat) (ns : list Node) : Prop := {
  col_neighbors : neighbors <$> ns = neighbors <$> n0;
  col_done : ∀ j, j < i → j < length ns →
    (0 ≤ colorAt ns j)%Z ∧ (colorAt ns j < 8)%Z;
  col_todo : ∀ j, i ≤ j → colorAt ns j = (-1)%Z;
  col_proper : ∀ j k nj, j < i → k < i → ns !! j = Some nj →
    k ∈ neighbors nj → colorAt ns j ≠ colorAt ns k;
  col_least : ∀ j nj c', j < i → ns !! j = Some nj →
    (0 ≤ c')%Z → (c' < color nj)%Z →
    ∃ k, k ∈ neighbors nj ∧ k < j ∧ colorAt ns k = c'
}.

Lemma colorAt_insert (ns : list Node) (i : nat) (node : Node) (j : nat) :
  i < length ns →
  colorAt (<[i := node]> ns) j = if decide (i = j) then color node else colorAt ns j.
Proof.
  intros Hi. unfold colorAt. case_decide as E.
  - subst j. by rewrite list_lookup_insert_eq.
  - by rewrite list_lookup_insert_ne.
Qed.

Lemma neighbors_lookup (n0 ns : list Node) (j : nat) (nj : Node) :
  neighbors <$> ns = neighbors <$> n0 → ns !! j = Some nj →
  ∃ n0j, n0 !! j = Some n0j ∧ neighbors n0j = neighbors nj.
Proof.
  intros E Hj. apply (f_equal (.!! j)) in E.
  rewrite !list_lookup_fmap, Hj in E. simpl in E.
  destruct (n0 !! j) as [n0j|]; simplify_eq/=. eauto.
Qed.

Lemma degree_le_max (n0 : list Node) j node :
  n0 !! j = Some node → length (neighbors node) ≤ maxDegree n0.
Proof.
  intros Hj. unfold maxDegree. apply max_list_elem_of_le.
  apply list_elem_of_fmap. exists node. split; [done |].
  apply list_elem_of_lookup. eauto.
Qed.

Lemma colorNode_step n0 i ns :
  isGraph n0 → maxDegree n0 + 1 ≤ paletteSize → i < length n0 →
  Colored n0 i ns →
  ∃ ns', colorNode (Done ns) i = Done ns' ∧ Colored n0 (S i) ns'.
Proof.
  intros Hg Hdeg Hi HC. unfold colorNode. cbn [mbind run_bind].
  pose proof (col_neighbors _ _ _ HC) as Hnb.
  assert (Hlen : length ns = length n0).
  { apply (f_equal length) in Hnb. by rewrite !length_fmap in Hnb. }
  destruct (lookup_lt_is_Some_2 ns i) as [node Hnode]; [lia |].
  rewrite Hnode. cbn [mbind run_bind of_option].
  destruct (neighbors_lookup _ _ _ _ Hnb Hnode) as (n0i & Hn0i & Hnbi).
  assert (Hvalid : ∀ k, k ∈ neighbors node →
            k ≠ i ∧ (∃ nk, ns !! k = Some nk ∧ i ∈ neighbors nk)).
  { intros k Hk. rewrite <- Hnbi in Hk.
    destruct (Hg i n0i k Hn0i Hk) as (Hne & other & Hother & Hsym).
    split; [done |].
    destruct (lookup_lt_is_Some_2 ns k) as [nk Hnk].
    { rewrite Hlen. by eapply lookup_lt_Some. }
    exists nk. split; [done |].
    destruct (neighbors_lookup _ _ _ _ Hnb Hnk) as (n0k & Hn0k & <-).
    by simplify_eq. }
  destruct (collect_spec ns (neighbors node) ∅) as (used & -> & Hused).
  { intros k Hk. destruct (Hvalid k Hk) as (_ & nk & Hnk & _). eauto. }
  cbn [mbind run_bind].
  destruct (firstFree_exists used (colorAt ns <$> neighbors node)) as [c Hc].
  { intros c' [? | (_ & k & Hk & <-)]%Hused; [set_solver |].
    apply list_elem_of_fmap. eauto. }
  { rewrite length_fmap, <- Hnbi.
    pose proof (degree_le_max n0 i n0i Hn0i). lia. }
  rewrite Hc. destruct (firstFree_Some _ _ Hc) as (Hfree & Hc0 & Hc8).
  eexists. split; [done |].
  assert (Hcolor : ∀ j, colorAt (<[i := setColor c node]> ns) j
                        = if decide (i = j) then c else colorAt ns j).
  { intros j. rewrite colorAt_insert by lia. done. }
  assert (Hdiff : ∀ k, k ∈ neighbors node → k < i → c ≠ colorAt ns k).
  { intros k Hk Hki ->. apply Hfree, Hused. right.
    destruct (col_done _ _ _ HC k Hki) as [? ?]; [lia |].
    split; [lia |]. eauto. }
  constructor.
  - rewrite list_fmap_insert. simpl. rewrite list_insert_id; [done |].
    by rewrite list_lookup_fmap, Hnode.
  - intros j Hj Hjl. rewrite Hcolor. case_decide; [lia |].
    apply (col_done _ _ _ HC); [lia |]. by rewrite length_insert in Hjl.
  - intros j Hj. rewrite Hcolor. rewrite decide_False by lia.
    apply (col_todo _ _ _ HC). lia.
  - intros j k nj Hj Hk Hnj Hkn. rewrite !Hcolor.
    destruct (decide (i = j)) as [<- | Eij].
    + rewrite list_lookup_insert_eq in Hnj by lia. simplify_eq. simpl in Hkn.
      destruct (Hvalid k Hkn) as [Hki _].
      rewrite decide_False by done. apply Hdiff; [done | lia].
    + rewrite list_lookup_insert_ne in Hnj by done.
      destruct (decide (i = k)) as [<- | Eik].
      * intros E. apply (Hdiff j); [| lia | done].
        destruct (neighbors_lookup _ _ _ _ Hnb Hnj) as (n0j & Hn0j & Hnbj).
        rewrite <- Hnbj in Hkn.
        destruct (Hg j n0j i Hn0j Hkn) as (_ & other & Hother & Hsym).
        rewrite <- Hnbi. by simplify_eq.
      * apply (col_proper _ _ _ HC j k nj); [lia | lia | done | done].
  - intros j nj c' Hj Hnj Hc'0 Hc'.
    destruct (decide (i = j)) as [<- | Eij].
    + rewrite list_lookup_insert_eq in Hnj by lia. simplify_eq. simpl in *.
      pose proof (firstFree_least _ _ c' Hc Hc'0 Hc') as Hin.
      apply Hused in Hin as [? | (_ & k & Hk & Hkc)]; [set_solver |].
      exists k. destruct (Hvalid k Hk) as [Hki _].
      assert (k < i).
      { destruct (decide (k < i)); [done |].
        rewrite (col_todo _ _ _ HC k) in Hkc by lia. lia. }
      split_and!; [done | done |]. rewrite Hcolor. by rewrite decide_False.
    + rewrite list_lookup_insert_ne in Hnj by done.
      destruct (col_least _ _ _ HC j nj c') as (k & Hk & Hkj & Hkc);
        [lia | done | done | done |].
      exists k. split_and!; [done | done |]. rewrite Hcolor.
      rewrite decide_False by lia. done.
Qed.

Lemma greedy_spec n0 :
  isGraph n0 → maxDegree n0 + 1 ≤ paletteSize →
  ∃ ns, greedy n0 = Done ns ∧ Colored n0 (length n0) ns.
Proof.
  intros Hg Hdeg. unfold greedy. rewrite length_fmap.
  assert (H0 : Colored n0 0 (setColor (-1) <$> n0)).
  { constructor; try (intros; lia).
    - rewrite <- list_fmap_compose. done.
    - intros j _. unfold colorAt. rewrite list_lookup_fmap.
      by destruct (n0 !! j). }
  assert (Hall : ∀ m, m ≤ length n0 →
            ∃ ns, foldl colorNode (Done (setColor (-1) <$> n0)) (seq 0 m) = Done ns
                  ∧ Colored n0 m ns).
  { induction m as [|m IH]; intros Hm; [eauto |].
    destruct IH as (ns & Hns & HC); [lia |].
    rewrite seq_S, foldl_app, Hns. simpl.
    apply colorNode_step; [done | done | lia | done]. }
  by apply Hall.
Qed.

Lemma clash_quiet ns node ks : ∀ acc,
  (∀ k, k ∈ ks → ∃ nk, ns !! k = Some nk ∧ color nk ≠ color node) →
  foldl (clash ns node) (Done acc) ks = Done acc.
Proof.
  induction ks as [|k ks IH]; intros acc Hks; [done |].
  cbn [foldl]. unfold clash at 2. cbn [mbind run_bind].
  destruct (Hks k) as (nk & Hnk & Hne); [left |]. rewrite Hnk.
  cbn [mbind run_bind of_option].
  destruct (Z.eqb_spec (color nk) (color node)); [done |].
  apply IH. intros k' Hk'. apply Hks. by right.
Qed.

Lemma conflictsOf_quiet ns l : ∀ acc,
  (∀ node k, node ∈ l → k ∈ neighbors node →
     ∃ nk, ns !! k = Some nk ∧ color nk ≠ color node) →
  foldl (λ newConflicts node,
           if (color node =? -1)%Z then newConflicts
           else foldl (clash ns node) newConflicts (neighbors node))
    (Done acc) l = Done acc.
Proof.
  induction l as [|node l IH]; intros acc Hl; [done |].
  cbn [foldl].
  assert (Hrest : ∀ node' k, node' ∈ l → k ∈ neighbors node' →
            ∃ nk, ns !! k = Some nk ∧ color nk ≠ color node').
  { intros node' k Hn. apply Hl. by right. }
  destruct (color node =? -1)%Z; [by apply IH |].
  rewrite clash_quiet; [by apply IH |].
  intros k Hk. apply (Hl node); [left | done].
Qed.

Lemma star_isGraph : isGraph star.
Proof.
  intros i node k Hi Hk.
  do 5 (destruct i as [|i];
        [ simplify_eq/=;
          repeat (apply elem_of_cons in Hk as [-> | Hk]);
          try (by inversion Hk);
          (split; [lia | eexists; split; [reflexivity | set_solver]])
        | ]).
  done.
Qed.

End GraphColoringSpec.

(** ** Network connector *)

Module NetworkConnectorSpec.
Import NetworkConnector GridSpec.

(** *** Joined nodes *)

Lemma joined_subset es es' x y :
  (∀ a b, (a, b) ∈ es → joined es' a b) → joined es x y → joined es' x y.
Proof.
  intros Hsub Hj. induction Hj.
  - apply joined_refl.
  - by apply Hsub.
  - by apply joined_sym.
  - by eapply joined_trans.
Qed.

Lemma joined_nil x y : joined [] x y → x = y.
Proof.
  induction 1 as [| a b Hin | |]; [done | | done | congruence].
  by apply elem_of_nil in Hin.
Qed.

Lemma joined_snoc es a b x y :
  joined (es ++ [(a, b)]) x y ↔
  joined es x y ∨ (joined es x a ∧ joined es b y) ∨ (joined es x b ∧ joined es a y).
Proof.
  split.
  - induction 1 as [x | c d Hin | x y _ IH | x y z _ IH1 _ IH2].
    + left. apply joined_refl.
    + apply elem_of_app in Hin as [Hin | Hin].
      * left. by apply joined_edge.
      * apply list_elem_of_singleton in Hin. simplify_eq.
        right. left. split; apply joined_refl.
    + destruct IH as [H | [[H1 H2] | [H1 H2]]].
      * left. by apply joined_sym.
      * right. right. split; by apply joined_sym.
      * right. left. split; by apply joined_sym.
    + destruct IH1 as [H | [[H1 H2] | [H1 H2]]],
               IH2 as [K | [[K1 K2] | [K1 K2]]];
        eauto 8 using joined_trans, joined_sym.
  - intros [H | [[H1 H2] | [H1 H2]]].
    + eapply joined_subset; [| done]. intros c d Hin.
      apply joined_edge, elem_of_app. by left.
    + assert (Hab : joined (es ++ [(a, b)]) a b).
      { apply joined_edge, elem_of_app. right. by apply list_elem_of_singleton. }
      assert (Hm : ∀ u v, joined es u v → joined (es ++ [(a, b)]) u v).
      { intros u v. apply joined_subset. intros c d Hin.
        apply joined_edge, elem_of_app. by left. }
      eauto using joined_trans.
    + assert (Hab : joined (es ++ [(a, b)]) b a).
      { apply joined_sym, joined_edge, elem_of_app. right.
        by apply list_elem_of_singleton. }
      assert (Hm : ∀ u v, joined es u v → joined (es ++ [(a, b)]) u v).
      { intros u v. apply joined_subset. intros c d Hin.
        apply joined_edge, elem_of_app. by left. }
      eauto using joined_trans.
Qed.

Lemma labels_snoc es e : labels (es ++ [e]) = relabel (labels es) e.
Proof. unfold labels. by rewrite foldl_app. Qed.

Lemma labels_joined es x y : labels es x = labels es y ↔ joined es x y.
Proof.
  revert x y. induction es as [| [a b] es IH] using rev_ind; intros x y.
  - unfold labels. simpl. split; [intros ->; apply joined_refl | apply joined_nil].
  - rewrite labels_snoc, joined_snoc, <- !IH. unfold relabel. simpl.
    repeat case_match; rewrite ?Nat.eqb_eq, ?Nat.eqb_neq in *; split;
      intros; destruct_or?; destruct_and?; try congruence;
      first [left; congruence | right; left; split; congruence
            | right; right; split; congruence].
Qed.

(** The least node of each set of joined nodes, and the number of sets among
    the nodes below [n]. *)
Definition least (es : list (nat * nat)) (i : nat) : bool :=
  forallb (fun j => negb (labels es j =? labels es i)) (seq 0 i).

Definition classes (n : nat) (es : list (nat * nat)) : nat :=
  length (List.filter (least es) (seq 0 n)).

Lemma least_true es i : least es i = true ↔ ∀ j, j < i → ¬ joined es j i.
Proof.
  unfold least. rewrite forallb_forall. split.
  - intros H j Hj Hji. specialize (H j).
    rewrite in_seq, negb_true_iff, Nat.eqb_neq, labels_joined in H.
    apply H; [lia | done].
  - intros H j Hj. apply in_seq in Hj.
    rewrite negb_true_iff, Nat.eqb_neq, labels_joined. apply H. lia.
Qed.

Lemma least_false es i : least es i = false → ∃ j, j < i ∧ joined es j i.
Proof.
  unfold least. intros H.
  assert (Hex : ∃ j, In j (seq 0 i) ∧ labels es j = labels es i).
  { induction (seq 0 i) as [| j l IH]; [done |]. simpl in H.
    destruct (labels es j =? labels es i) eqn:E.
    - apply Nat.eqb_eq in E. exists j. split; [by left | done].
    - destruct (IH H) as (k & Hk & Hl). exists k. split; [by right | done]. }
  destruct Hex as (j & Hj & Hl). apply in_seq in Hj.
  exists j. split; [lia | by apply labels_joined].
Qed.

Lemma least_exists es a :
  ∃ r, r ≤ a ∧ joined es r a ∧ least es r = true.
Proof.
  induction (lt_wf a) as [a _ IH].
  destruct (least es a) eqn:E.
  - exists a. split_and!; [lia | apply joined_refl | done].
  - apply least_false in E as (j & Hj & Hja).
    destruct (IH j Hj) as (r & Hr & Hrj & Hl).
    exists r. split_and!; [lia | by eapply joined_trans | done].
Qed.

Lemma least_unique es r r' :
  least es r = true → least es r' = true → joined es r r' → r = r'.
Proof.
  rewrite !least_true. intros H H' Hj.
  destruct (Nat.lt_trichotomy r r') as [Hlt | [-> | Hlt]]; [| done |].
  - by destruct (H' r Hlt).
  - destruct (H r' Hlt). by apply joined_sym.
Qed.

Lemma filter_length_le {A} (P P' : A → bool) (l : list A) :
  (∀ x, P' x = true → P x = true) →
  length (List.filter P' l) ≤ length (List.filter P l).
Proof.
  intros H. induction l as [| a l IH]; [done |]. simpl.
  destruct (P' a) eqn:E.
  - rewrite (H a E). simpl. lia.
  - destruct (P a); simpl; lia.
Qed.

Lemma classes_mono n es es' :
  (∀ x y, joined es x y → joined es' x y) → classes n es' ≤ classes n es.
Proof.
  intros H. apply filter_length_le. intros i. rewrite !least_true.
  intros Hi j Hj Hji. apply (Hi j Hj). by apply H.
Qed.

Lemma classes_nil n : classes n [] = n.
Proof.
  unfold classes. transitivity (length (seq 0 n)); [| apply length_seq]. f_equal.
  apply forallb_filter_id, forallb_forall. intros i _.
  apply least_true. intros j Hj Hji. apply joined_nil in Hji. lia.
Qed.

Lemma filter_none {A} (P : A → bool) (l : list A) :
  (∀ x, In x l → P x = false) → List.filter P l = [].
Proof.
  induction l as [| a l IH]; [done |]. intros H. simpl.
  rewrite (H a) by (by left). apply IH. intros x Hx. apply H. by right.
Qed.

Lemma classes_spans n es : 1 ≤ n → spans n es → classes n es = 1.
Proof.
  intros Hn Hs. unfold classes. destruct n as [| n]; [lia |].
  simpl. rewrite filter_none; [done |].
  intros i Hi. apply in_seq in Hi.
  destruct (least es i) eqn:E; [| done].
  rewrite least_true in E. destruct (E 0); [lia |]. apply Hs; lia.
Qed.

Lemma classes_snoc n es a b :
  a < n → b < n →
  classes n es =
  classes n (es ++ [(a, b)]) + (if labels es a =? labels es b then 0 else 1).
Proof.
  intros Ha Hb. destruct (labels es a =? labels es b) eqn:E.
  - apply Nat.eqb_eq, labels_joined in E.
    assert (classes n es ≤ classes n (es ++ [(a, b)])).
    { apply classes_mono. intros x y. rewrite joined_snoc.
      intros [H | [[H1 H2] | [H1 H2]]];
        eauto using joined_trans, joined_sym. }
    assert (classes n (es ++ [(a, b)]) ≤ classes n es).
    { apply classes_mono. intros x y Hxy. apply joined_snoc. by left. }
    lia.
  - apply Nat.eqb_neq in E. rewrite labels_joined in E.
    destruct (least_exists es a) as (ra & Hra & Hja & Hla).
    destruct (least_exists es b) as (rb & Hrb & Hjb & Hlb).
    assert (Hne : ra ≠ rb).
    { intros ->. apply E. eauto using joined_trans, joined_sym. }
    rewrite Nat.add_1_r. symmetry. unfold classes.
    apply (filter_flip_length _ _ _ (ra `max` rb)).
    + apply NoDup_seq.
    + apply list_elem_of_In, in_seq. lia.
    + destruct (Nat.max_spec ra rb) as [[_ ->] | [_ ->]]; done.
    + destruct (least (es ++ [(a, b)]) (ra `max` rb)) eqn:F; [| done].
      rewrite least_true in F.
      destruct (F (ra `min` rb)); [lia |].
      apply joined_snoc.
      destruct (Nat.max_spec ra rb) as [[? ->] | [? ->]].
      * rewrite Nat.min_l by lia. right. left.
        split; [done | by apply joined_sym].
      * rewrite Nat.min_r by lia. right. right.
        split; [done | by apply joined_sym].
    + intros q Hq.
      destruct (least es q) eqn:F.
      * apply least_true. intros j Hj Hjq.
        apply joined_snoc in Hjq as [H | [[H1 H2] | [H1 H2]]].
        -- rewrite least_true in F. by apply (F j).
        -- assert (q = rb).
           { apply (least_unique es); [done .. |].
             eauto using joined_trans, joined_sym. }
           assert (ra ≤ j).
           { apply Nat.nlt_ge. intros Hlt.
             rewrite least_true in Hla.
             destruct (Hla j); [lia |]; eauto using joined_trans, joined_sym. }
           lia.
        -- assert (q = ra).
           { apply (least_unique es); [done .. |].
             eauto using joined_trans, joined_sym. }
           assert (rb ≤ j).
           { apply Nat.nlt_ge. intros Hlt.
             rewrite least_true in Hlb.
             destruct (Hlb j); [lia |]; eauto using joined_trans, joined_sym. }
           lia.
      * apply least_false in F as (j & Hj & Hjq).
        destruct (least (es ++ [(a, b)]) q) eqn:G; [| done].
        rewrite least_true in G. destruct (G j Hj).
        apply joined_snoc. by left.
Qed.

Lemma classes_app_le n es es' :
  Forall (fun e => e.1 < n ∧ e.2 < n) es' →
  classes n es ≤ classes n (es ++ es') + length es'.
Proof.
  induction es' as [| [a b] es' IH] using rev_ind; intros Hall.
  - rewrite app_nil_r. lia.
  - apply Forall_app in Hall as [Hall Hab].
    apply Forall_singleton in Hab as [Ha Hb]. simpl in *.
    rewrite app_assoc, length_app. simpl.
    pose proof (classes_snoc n (es ++ es') a b Ha Hb).
    specialize (IH Hall). case_match; lia.
Qed.

Lemma classes_equiv n es es' :
  (∀ x y, joined es x y ↔ joined es' x y) → classes n es = classes n es'.
Proof.
  intros H. apply Nat.le_antisymm; apply classes_mono; intros x y; apply H.
Qed.

(** *** The edges Kruskal's rule keeps *)


Lemma keptAfter_app before l1 l2 :
  keptAfter before (l1 ++ l2) =
  keptAfter before l1 ++ keptAfter (before ++ map ends l1) l2.
Proof.
  revert before. induction l1 as [| e l1 IH]; intros before; simpl.
  - by rewrite app_nil_r.
  - rewrite IH, <- !app_assoc. done.
Qed.

Lemma keptAfter_sub before l e : e ∈ keptAfter before l → e ∈ l.
Proof.
  revert before. induction l as [| a l IH]; intros before; simpl; [done |].
  rewrite elem_of_app, elem_of_cons. intros [H | H].
  - case_match; [by apply elem_of_nil in H |].
    apply list_elem_of_singleton in H. by left.
  - right. by eapply IH.
Qed.

Lemma joined_same_members es es' x y :
  (∀ e, e ∈ es ↔ e ∈ es') → joined es x y ↔ joined es' x y.
Proof.
  intros H. split; apply joined_subset; intros a b Hab;
    apply joined_edge, H, Hab.
Qed.

Lemma joined_redundant es K a b x y :
  joined es a b → joined (es ++ (a, b) :: K) x y ↔ joined (es ++ K) x y.
Proof.
  intros Hab. split; apply joined_subset; intros c d Hin.
  - rewrite elem_of_app, elem_of_cons in Hin.
    destruct Hin as [Hin | [Hin | Hin]].
    + apply joined_edge, elem_of_app. by left.
    + simplify_eq. eapply joined_subset; [| exact Hab].
      intros c d Hin. apply joined_edge, elem_of_app. by left.
    + apply joined_edge, elem_of_app. by right.
  - apply joined_edge. rewrite elem_of_app, elem_of_cons.
    apply elem_of_app in Hin. tauto.
Qed.

Lemma keptAfter_joined before l x y :
  joined (before ++ map ends (keptAfter before l)) x y ↔
  joined (before ++ map ends l) x y.
Proof.
  revert before. induction l as [| e l IH]; intros before; simpl; [done |].
  specialize (IH (before ++ [ends e])). rewrite <- !app_assoc in IH. simpl in IH.
  rewrite <- IH. case_match eqn:E; simpl; [| done].
  apply Nat.eqb_eq, labels_joined in E.
  symmetry. by apply joined_redundant.
Qed.

Lemma keptAfter_count n before l :
  Forall (inRange n) l →
  length (keptAfter before l) + classes n (before ++ map ends l) =
  classes n before.
Proof.
  revert before. induction l as [| e l IH]; intros before Hall; simpl.
  - by rewrite app_nil_r.
  - apply Forall_cons in Hall as [[Ha Hb] Hall].
    specialize (IH (before ++ [ends e]) Hall).
    rewrite <- app_assoc in IH. simpl in IH.
    rewrite (classes_snoc n before _ _ Ha Hb), length_app.
    unfold ends in *. case_match; simpl; lia.
Qed.

Lemma kept_count n l :
  Forall (inRange n) l → length (kept l) + classes n (map ends l) = n.
Proof.
  intros Hall. rewrite <- (classes_nil n) at 2.
  apply (keptAfter_count n [] l Hall).
Qed.

Lemma kept_joined l x y :
  joined (map ends (kept l)) x y ↔ joined (map ends l) x y.
Proof. apply (keptAfter_joined [] l). Qed.

(** *** Weights *)


Definition upto (t : nat) (e : Edge) : bool := weight e <=? t.

Lemma sorted_split t l :
  StronglySorted byWeight l →
  l = List.filter (upto t) l ++ List.filter (fun e => negb (upto t e)) l.
Proof.
  induction 1 as [| a l Hs IH Hall]; [done |]. simpl.
  destruct (upto t a) eqn:E; simpl; [by rewrite <- IH |].
  apply Nat.leb_gt in E.
  rewrite filter_none.
  - simpl. f_equal. symmetry. apply forallb_filter_id, forallb_forall.
    intros b Hb. apply list_elem_of_In in Hb.
    rewrite Forall_forall in Hall. specialize (Hall b Hb).
    unfold byWeight, upto in *. apply negb_true_iff, Nat.leb_gt. lia.
  - intros b Hb. apply list_elem_of_In in Hb.
    rewrite Forall_forall in Hall. specialize (Hall b Hb).
    unfold byWeight, upto in *. apply Nat.leb_gt. lia.
Qed.

Lemma filter_all {A} (P : A → bool) (l : list A) :
  (∀ x, x ∈ l → P x = true) → List.filter P l = l.
Proof.
  intros H. apply forallb_filter_id, forallb_forall.
  intros x Hx. by apply H, list_elem_of_In.
Qed.

Lemma kept_upto t l :
  StronglySorted byWeight l →
  List.filter (upto t) (kept l) = kept (List.filter (upto t) l).
Proof.
  intros Hs. unfold kept. rewrite (sorted_split t l Hs) at 1.
  set (l1 := List.filter (upto t) l).
  set (l2 := List.filter (fun e => negb (upto t e)) l).
  rewrite keptAfter_app, List.filter_app.
  rewrite (filter_all _ (keptAfter [] l1)).
  - rewrite (filter_none _ (keptAfter ([] ++ map ends l1) l2)).
    + by rewrite app_nil_r.
    + intros e He. apply list_elem_of_In, keptAfter_sub in He.
      apply list_elem_of_In, filter_In in He as [_ He].
      by apply negb_true_iff.
  - intros e He. apply keptAfter_sub in He.
    apply list_elem_of_In, filter_In in He as [_ He]. done.
Qed.

Lemma filter_split_length {A} (P : A → bool) (l : list A) :
  length (List.filter P l) + length (List.filter (fun x => negb (P x)) l)
  = length l.
Proof.
  induction l as [| a l IH]; [done |]. simpl.
  destruct (P a); simpl; lia.
Qed.

Lemma joined_filter_split (P : Edge → bool) S x y :
  joined (map ends (List.filter P S)
          ++ map ends (List.filter (fun e => negb (P e)) S)) x y
  ↔ joined (map ends S) x y.
Proof.
  apply joined_same_members. intros e.
  rewrite elem_of_app, !list_elem_of_In, !in_map_iff.
  setoid_rewrite filter_In. split.
  - intros [(a & <- & Ha & _) | (a & <- & Ha & _)]; eauto.
  - intros (a & <- & Ha). destruct (P a) eqn:E; [left | right];
      exists a; rewrite ?E; done.
Qed.

(** Among the edges of weight at most [t], the rule keeps at least as many
    as any selection of [n - 1] edges that reaches every node. *)
Lemma kept_light n l S t :
  1 ≤ n → StronglySorted byWeight l → Forall (inRange n) l →
  (∀ e, e ∈ S → e ∈ l) → length S = n - 1 → spans n (map ends S) →
  length (List.filter (upto t) S) ≤ length (List.filter (upto t) (kept l)).
Proof.
  intros Hn Hs Hall Hsub Hlen Hspan.
  rewrite kept_upto by done.
  assert (Hall' : Forall (inRange n) (List.filter (upto t) l)).
  { apply Forall_forall. intros e He.
    apply list_elem_of_In, filter_In in He as [He _].
    rewrite Forall_forall in Hall. by apply Hall, list_elem_of_In. }
  pose proof (kept_count n _ Hall') as Hcount.
  set (S1 := List.filter (upto t) S).
  set (S2 := List.filter (fun e => negb (upto t e)) S).
  assert (H1 : classes n (map ends (List.filter (upto t) l))
               ≤ classes n (map ends S1)).
  { apply classes_mono. intros x y. apply joined_subset. intros a b Hab.
    apply joined_edge.
    apply list_elem_of_In, in_map_iff in Hab as (e & He & Hin).
    apply filter_In in Hin as [Hin Ht].
    apply list_elem_of_In, in_map_iff. exists e. split; [done |].
    apply filter_In. split; [| done]. by apply list_elem_of_In, Hsub, list_elem_of_In. }
  assert (H2 : classes n (map ends S1)
               ≤ classes n (map ends S1 ++ map ends S2) + length (map ends S2)).
  { apply classes_app_le. apply Forall_forall. intros p Hp.
    apply list_elem_of_In, in_map_iff in Hp as (e & <- & Hin).
    apply filter_In in Hin as [Hin _].
    rewrite Forall_forall in Hall.
    by apply Hall, Hsub, list_elem_of_In. }
  assert (H3 : classes n (map ends S1 ++ map ends S2) = 1).
  { apply classes_spans; [done |]. intros x y Hx Hy.
    apply joined_filter_split. by apply Hspan. }
  pose proof (filter_split_length (upto t) S) as H4.
  rewrite length_map in H2. fold S1 S2 in H4. lia.
Qed.

(** The total weight, counted layer by layer. *)
Definition above (t : nat) (X : list Edge) : nat :=
  length (List.filter (fun e => negb (upto t e)) X).

Lemma sum_indicator w M :
  sum_list_with (fun t => if w <=? t then 0 else 1) (seq 0 M) = w `min` M.
Proof.
  induction M as [| M IH]; [simpl; lia |].
  rewrite seq_S, sum_list_with_app, IH. simpl.
  destruct (w <=? M) eqn:E; [apply Nat.leb_le in E | apply Nat.leb_gt in E]; lia.
Qed.

Lemma sum_list_with_add {A} (f g : A → nat) (l : list A) :
  sum_list_with (fun x => f x + g x) l = sum_list_with f l + sum_list_with g l.
Proof. induction l as [| a l IH]; simpl; lia. Qed.

Lemma sum_list_with_le {A} (f g : A → nat) (l : list A) :
  (∀ x, f x ≤ g x) → sum_list_with f l ≤ sum_list_with g l.
Proof.
  intros H. induction l as [| a l IH]; simpl; [lia |].
  specialize (H a). lia.
Qed.

Lemma sum_list_with_eq {A} (f g : A → nat) (l : list A) :
  (∀ x, f x = g x) → sum_list_with f l = sum_list_with g l.
Proof.
  intros H. induction l as [| a l IH]; simpl; [done |]. by rewrite H, IH.
Qed.

Lemma totalWeight_layers M X :
  Forall (fun e => weight e ≤ M) X →
  totalWeight X = sum_list_with (fun t => above t X) (seq 0 M).
Proof.
  unfold totalWeight, above. induction 1 as [| e X He _ IH]; simpl.
  - induction (seq 0 M) as [| t l IHl]; simpl; lia.
  - rewrite IH.
    rewrite <- (Nat.min_l (weight e) M He) at 1.
    rewrite <- sum_indicator, <- sum_list_with_add.
    apply sum_list_with_eq. intros t. unfold upto.
    destruct (weight e <=? t); simpl; lia.
Qed.

(** No selection of [n - 1] edges that reaches every node weighs less than
    the edges the rule keeps. *)
Lemma kept_minimal n l S :
  1 ≤ n → StronglySorted byWeight l → Forall (inRange n) l →
  (∀ e, e ∈ S → e ∈ l) → length S = n - 1 → spans n (map ends S) →
  totalWeight (kept l) ≤ totalWeight S.
Proof.
  intros Hn Hs Hall Hsub Hlen Hspan.
  assert (Hl : spans n (map ends l)).
  { intros x y Hx Hy. eapply joined_subset; [| by apply Hspan].
    intros a b Hab. apply joined_edge.
    apply list_elem_of_In, in_map_iff in Hab as (e & He & Hin).
    apply list_elem_of_In, in_map_iff. exists e. split; [done |].
    by apply list_elem_of_In, Hsub, list_elem_of_In. }
  pose proof (kept_count n l Hall) as Hcount.
  rewrite (classes_spans n _ Hn Hl) in Hcount.
  set (M := totalWeight (kept l) + totalWeight S).
  assert (Hb : ∀ X e, e ∈ X → weight e ≤ totalWeight X).
  { intros X e. apply sum_list_with_in. }
  rewrite (totalWeight_layers M (kept l)), (totalWeight_layers M S).
  - apply sum_list_with_le. intros t.
    pose proof (kept_light n l S t Hn Hs Hall Hsub Hlen Hspan).
    pose proof (filter_split_length (upto t) S).
    pose proof (filter_split_length (upto t) (kept l)).
    unfold above. lia.
  - apply Forall_forall. intros e He. specialize (Hb S e He). lia.
  - apply Forall_forall. intros e He. specialize (Hb (kept l) e He). lia.
Qed.

(** *** The forest of [parent] *)

(** [rootIn parent k x r]: following [parent] from [x] reaches the root [r]
    after [k] steps. *)
Inductive rootIn (parent : list nat) : nat → nat → nat → Prop :=
  | rootIn_self r : parent !! r = Some r → rootIn parent 0 r r
  | rootIn_step k x p r :
      parent !! x = Some p → p ≠ x → rootIn parent k p r →
      rootIn parent (S k) x r.

Lemma rootIn_fun parent k k' x r r' :
  rootIn parent k x r → rootIn parent k' x r' → r = r' ∧ k = k'.
Proof.
  intros H. revert k' r'. induction H as [r Hr | k x p r Hx Hp _ IH];
    intros k' r' H'; inversion H' as [? Hr' | ? ? ? ? Hx' Hp' Hpr'];
    simplify_eq; [done |].
  destruct (IH _ _ Hpr') as [-> ->]. done.
Qed.

Lemma rootIn_root parent k x r : rootIn parent k x r → parent !! r = Some r.
Proof. induction 1; done. Qed.

Lemma rootIn_of_root parent k r x :
  parent !! r = Some r → rootIn parent k r x → x = r ∧ k = 0.
Proof.
  intros Hr H. destruct (rootIn_fun _ _ _ _ _ _ H (rootIn_self _ _ Hr)). done.
Qed.

Lemma rootIn_shortcut parent kx x r j y s :
  rootIn parent kx x r → rootIn parent j y s →
  ∃ j', j' ≤ j ∧ rootIn (<[x := r]> parent) j' y s.
Proof.
  intros Hx Hy. induction Hy as [s Hs | k y p s Hy Hp Hps IH].
  - exists 0. split; [lia |]. apply rootIn_self.
    destruct (decide (s = x)) as [-> | Hne].
    + destruct (rootIn_of_root _ _ _ _ Hs Hx) as [-> _].
      by rewrite list_insert_id.
    + by rewrite list_lookup_insert_ne.
  - destruct IH as (k' & Hk' & IH).
    destruct (decide (y = x)) as [-> | Hne].
    + destruct (rootIn_fun _ _ _ _ _ _ Hx (rootIn_step _ _ _ _ _ Hy Hp Hps))
        as [-> _].
      pose proof (rootIn_root _ _ _ _ Hps) as Hs.
      assert (s ≠ x) by (intros ->; simplify_eq).
      exists 1. split; [lia |].
      apply (rootIn_step _ 0 x s s).
      * apply list_lookup_insert_eq. by eapply lookup_lt_Some.
      * done.
      * apply rootIn_self. by rewrite list_lookup_insert_ne.
    + exists (S k'). split; [lia |].
      apply (rootIn_step _ _ _ p); [| done..].
      by rewrite list_lookup_insert_ne.
Qed.

Lemma find_spec fuel parent k x r :
  rootIn parent k x r → k < fuel →
  ∃ parent', find fuel parent x = Done (parent', r)
    ∧ length parent' = length parent
    ∧ ∀ j y s, rootIn parent j y s → ∃ j', j' ≤ j ∧ rootIn parent' j' y s.
Proof.
  intros H. revert fuel. induction H as [r Hr | k x p r Hx Hp Hpr IH];
    intros fuel Hfuel; (destruct fuel as [| fuel]; [lia |]); simpl.
  - rewrite Hr. simpl. rewrite Nat.eqb_refl. exists parent.
    split_and!; [done.. |]. intros j y s Hy. exists j. split; [lia | done].
  - rewrite Hx. simpl. rewrite (proj2 (Nat.eqb_neq p x) Hp).
    destruct (IH fuel ltac:(lia)) as (parent1 & -> & Hlen & Hkeep). simpl.
    exists (<[x := r]> parent1). split_and!; [done | |].
    + by rewrite length_insert.
    + intros j y s Hy.
      destruct (Hkeep _ _ _ Hy) as (j1 & Hj1 & Hy1).
      destruct (Hkeep _ _ _ (rootIn_step _ _ _ _ _ Hx Hp Hpr)) as (kx & _ & Hx1).
      destruct (rootIn_shortcut _ _ _ _ _ _ _ Hx1 Hy1) as (j' & Hj' & Hy').
      exists j'. split; [lia | done].
Qed.

Lemma rootIn_link parent rc rp k x r :
  parent !! rc = Some rc → parent !! rp = Some rp → rc ≠ rp →
  rootIn parent k x r →
  rootIn (<[rc := rp]> parent)
    (if decide (r = rc) then S k else k) x (if decide (r = rc) then rp else r).
Proof.
  intros Hc Hp Hne H. induction H as [r Hr | k x p r Hx Hpx _ IH].
  - case_decide as E.
    + subst r. apply (rootIn_step _ 0 rc rp rp).
      * apply list_lookup_insert_eq. by eapply lookup_lt_Some.
      * done.
      * apply rootIn_self. by rewrite list_lookup_insert_ne.
    + apply rootIn_self. by rewrite list_lookup_insert_ne.
  - assert (x ≠ rc) by (intros ->; simplify_eq).
    assert (Hx' : <[rc := rp]> parent !! x = Some p)
      by (by rewrite list_lookup_insert_ne).
    case_decide; by eapply rootIn_step.
Qed.

(** The arrays describe a forest over [n] nodes of depth at most [B]. *)
Definition Forest (n B : nat) (uf : UnionFind) : Prop :=
  length (parent uf) = n ∧ length (rank uf) = n
  ∧ ∀ x, x < n → ∃ k r, k ≤ B ∧ rootIn (parent uf) k x r.

(** Two nodes have the same root exactly when [es] joins them. *)
Definition Repr (n : nat) (es : list (nat * nat)) (parent : list nat) : Prop :=
  ∀ x y kx ky rx ry, x < n → y < n →
    rootIn parent kx x rx → rootIn parent ky y ry →
    rx = ry ↔ joined es x y.

Lemma Forest_singletons n : Forest n 0 (singletons n).
Proof.
  split_and!; simpl; [apply length_seq | apply length_replicate |].
  intros x Hx. exists 0, x. split; [lia |]. apply rootIn_self.
  by apply lookup_seq.
Qed.

Lemma Repr_singletons n : Repr n [] (parent (singletons n)).
Proof.
  intros x y kx ky rx ry Hx Hy Hrx Hry. simpl in *.
  assert (Hs : ∀ z, z < n → seq 0 n !! z = Some z)
    by (intros z Hz; by apply lookup_seq).
  destruct (rootIn_of_root _ _ _ _ (Hs x Hx) Hrx) as [-> _].
  destruct (rootIn_of_root _ _ _ _ (Hs y Hy) Hry) as [-> _].
  split; [intros ->; apply joined_refl | apply joined_nil].
Qed.

Lemma link_spec n B es p rk rk' a b ka kb ra rb rc rp :
  Forest n B {| parent := p; rank := rk |} → Repr n es p →
  a < n → b < n →
  rootIn p ka a ra → rootIn p kb b rb → ra ≠ rb →
  (rc = ra ∧ rp = rb) ∨ (rc = rb ∧ rp = ra) →
  length rk' = n →
  Forest n (S B) {| parent := <[rc := rp]> p; rank := rk' |}
  ∧ Repr n (es ++ [(a, b)]) (<[rc := rp]> p).
Proof.
  intros (Hlen & _ & Hroots) Hrepr Ha Hb Hra Hrb Hne Hc Hrk'. simpl in *.
  assert (Hrc : p !! rc = Some rc ∧ p !! rp = Some rp ∧ rc ≠ rp).
  { pose proof (rootIn_root _ _ _ _ Hra). pose proof (rootIn_root _ _ _ _ Hrb).
    destruct Hc as [[-> ->] | [-> ->]]; split_and!; done. }
  destruct Hrc as (Hrc & Hrp & Hcp).
  split.
  - split_and!; simpl; [by rewrite length_insert | done |].
    intros x Hx. destruct (Hroots x Hx) as (k & r & Hk & Hr).
    pose proof (rootIn_link _ _ _ _ _ _ Hrc Hrp Hcp Hr) as Hr'.
    eexists _, _. split; [| exact Hr']. case_decide; lia.
  - intros x y kx ky rx ry Hx Hy Hrx Hry.
    destruct (Hroots x Hx) as (kx0 & rx0 & _ & Hrx0).
    destruct (Hroots y Hy) as (ky0 & ry0 & _ & Hry0).
    pose proof (rootIn_link _ _ _ _ _ _ Hrc Hrp Hcp Hrx0) as Hrx'.
    pose proof (rootIn_link _ _ _ _ _ _ Hrc Hrp Hcp Hry0) as Hry'.
    destruct (rootIn_fun _ _ _ _ _ _ Hrx Hrx') as [-> _].
    destruct (rootIn_fun _ _ _ _ _ _ Hry Hry') as [-> _].
    rewrite joined_snoc.
    rewrite <- (Hrepr x y _ _ _ _ Hx Hy Hrx0 Hry0).
    rewrite <- (Hrepr x a _ _ _ _ Hx Ha Hrx0 Hra).
    rewrite <- (Hrepr x b _ _ _ _ Hx Hb Hrx0 Hrb).
    rewrite <- (Hrepr b y _ _ _ _ Hb Hy Hrb Hry0).
    rewrite <- (Hrepr a y _ _ _ _ Ha Hy Hra Hry0).
    destruct Hc as [[-> ->] | [-> ->]]; repeat case_decide; split;
      intros; destruct_or?; destruct_and?; try congruence;
      first [left; congruence | right; left; split; congruence
            | right; right; split; congruence].
Qed.

Lemma union_spec n B es fuel uf a b :
  Forest n B uf → Repr n es (parent uf) → a < n → b < n → B < fuel →
  ∃ p1 ra p2 rb uf',
    find fuel (parent uf) a = Done (p1, ra)
    ∧ find fuel p1 b = Done (p2, rb)
    ∧ union fuel uf a b = Done (uf', negb (ra =? rb))
    ∧ (ra =? rb) = (labels es a =? labels es b)
    ∧ Forest n (S B) uf' ∧ Repr n (es ++ [(a, b)]) (parent uf').
Proof.
  intros HF Hrepr Ha Hb Hfuel.
  pose proof HF as (Hlen & Hrk & Hroots).
  destruct (Hroots a Ha) as (ka & ra & Hka & Hra).
  destruct (find_spec fuel _ _ _ _ Hra ltac:(lia)) as (p1 & Hf1 & Hlen1 & Hkeep1).
  destruct (Hroots b Hb) as (kb & rb & Hkb & Hrb).
  destruct (Hkeep1 _ _ _ Hrb) as (kb1 & Hkb1 & Hrb1).
  destruct (find_spec fuel _ _ _ _ Hrb1 ltac:(lia)) as (p2 & Hf2 & Hlen2 & Hkeep2).
  assert (Hkeep : ∀ j y s, rootIn (parent uf) j y s →
                  ∃ j', j' ≤ j ∧ rootIn p2 j' y s).
  { intros j y s Hy. destruct (Hkeep1 _ _ _ Hy) as (j1 & ? & Hy1).
    destruct (Hkeep2 _ _ _ Hy1) as (j2 & ? & Hy2). exists j2. split; [lia | done]. }
  assert (HF2 : Forest n B {| parent := p2; rank := rank uf |}).
  { split_and!; simpl; [congruence | done |].
    intros x Hx. destruct (Hroots x Hx) as (k & r & Hk & Hr).
    destruct (Hkeep _ _ _ Hr) as (k' & ? & Hr'). exists k', r. split; [lia | done]. }
  assert (Hrepr2 : Repr n es p2).
  { intros x y kx ky rx ry Hx Hy Hrx Hry.
    destruct (Hroots x Hx) as (kx0 & rx0 & _ & Hrx0).
    destruct (Hroots y Hy) as (ky0 & ry0 & _ & Hry0).
    destruct (Hkeep _ _ _ Hrx0) as (? & _ & Hrx2).
    destruct (Hkeep _ _ _ Hry0) as (? & _ & Hry2).
    destruct (rootIn_fun _ _ _ _ _ _ Hrx Hrx2) as [-> _].
    destruct (rootIn_fun _ _ _ _ _ _ Hry Hry2) as [-> _].
    by apply (Hrepr x y _ _ _ _ Hx Hy Hrx0 Hry0). }
  destruct (Hkeep _ _ _ Hra) as (ka2 & _ & Hra2).
  destruct (Hkeep _ _ _ Hrb) as (kb2 & _ & Hrb2).
  pose proof (Hrepr2 a b _ _ _ _ Ha Hb Hra2 Hrb2) as Hab.
  assert (Hlab : (ra =? rb) = (labels es a =? labels es b)).
  { rewrite <- labels_joined in Hab.
    destruct (ra =? rb) eqn:E1, (labels es a =? labels es b) eqn:E2;
      rewrite ?Nat.eqb_eq, ?Nat.eqb_neq in *; tauto. }
  exists p1, ra, p2, rb. unfold union. rewrite Hf1. simpl. rewrite Hf2. simpl.
  destruct (ra =? rb) eqn:E; simpl.
  - apply Nat.eqb_eq in E. eexists. split_and!; try done.
    + destruct HF2 as (? & ? & Hr2). split_and!; simpl; [done.. |].
      intros x Hx. destruct (Hr2 x Hx) as (k & r & ? & ?).
      exists k, r. split; [lia | done].
    + simpl. intros x y kx ky rx ry Hx Hy Hrx Hry.
      rewrite (Hrepr2 x y _ _ _ _ Hx Hy Hrx Hry), joined_snoc.
      apply Hab in E. split; [by left |].
      intros [H | [[H1 H2] | [H1 H2]]];
        eauto using joined_trans, joined_sym.
  - apply Nat.eqb_neq in E.
    assert (Hra_lt : ra < n).
    { rewrite <- Hlen, <- Hlen1, <- Hlen2.
      eapply lookup_lt_Some, rootIn_root, Hra2. }
    assert (Hrb_lt : rb < n).
    { rewrite <- Hlen, <- Hlen1, <- Hlen2.
      eapply lookup_lt_Some, rootIn_root, Hrb2. }
    destruct (lookup_lt_is_Some_2 (rank uf) ra ltac:(lia)) as [rankX HrX].
    destruct (lookup_lt_is_Some_2 (rank uf) rb ltac:(lia)) as [rankY HrY].
    rewrite HrX, HrY. simpl.
    assert (Hlink : ∀ rc rp rk',
      (rc = ra ∧ rp = rb) ∨ (rc = rb ∧ rp = ra) → length rk' = n →
      Forest n (S B) {| parent := <[rc := rp]> p2; rank := rk' |}
      ∧ Repr n (es ++ [(a, b)]) (<[rc := rp]> p2)).
    { intros rc rp rk' Hc Hrk'.
      exact (link_spec n B es p2 (rank uf) rk' a b ka2 kb2 ra rb rc rp
               HF2 Hrepr2 Ha Hb Hra2 Hrb2 E Hc Hrk'). }
    destruct (rankX <? rankY); [| destruct (rankY <? rankX)].
    + destruct (Hlink ra rb (rank uf)) as [H1 H2]; [by left | done |].
      eexists. split_and!; [done.. | exact H1 | exact H2].
    + destruct (Hlink rb ra (rank uf)) as [H1 H2]; [by right | done |].
      eexists. split_and!; [done.. | exact H1 | exact H2].
    + destruct (Hlink rb ra (<[ra := S rankX]> (rank uf))) as [H1 H2];
        [by right | by rewrite length_insert |].
      eexists. split_and!; [done.. | exact H1 | exact H2].
Qed.

(** *** The sort *)

Lemma insertByWeight_perm a l : insertByWeight a l ≡ₚ a :: l.
Proof.
  induction l as [| b l IH]; simpl; [done |].
  case_match; [| done]. rewrite IH. apply Permutation_swap.
Qed.

Lemma sortByWeight_perm l : sortByWeight l ≡ₚ l.
Proof.
  induction l as [| a l IH]; simpl; [done |].
  unfold sortByWeight in *. simpl. by rewrite insertByWeight_perm, IH.
Qed.

Lemma insertByWeight_sorted a l :
  StronglySorted byWeight l → StronglySorted byWeight (insertByWeight a l).
Proof.
  induction 1 as [| b l Hs IH Hall]; simpl.
  - repeat constructor.
  - destruct (weight b <? weight a) eqn:E.
    + apply Nat.ltb_lt in E. constructor; [done |].
      rewrite insertByWeight_perm. constructor; [unfold byWeight; lia | done].
    + apply Nat.ltb_ge in E. constructor; [by constructor |].
      constructor; [done |].
      eapply Forall_impl; [exact Hall |]. unfold byWeight. intros; simpl in *; lia.
Qed.

Lemma sortByWeight_sorted l : StronglySorted byWeight (sortByWeight l).
Proof.
  induction l as [| a l IH]; [constructor |].
  by apply insertByWeight_sorted.
Qed.

(** Edges of one weight keep their order. *)
Lemma insertByWeight_stable w a l :
  StronglySorted byWeight l →
  List.filter (fun e => weight e =? w) (insertByWeight a l) =
  List.filter (fun e => weight e =? w) (a :: l).
Proof.
  induction 1 as [| b l Hs IH Hall]; [done |]. simpl in *.
  destruct (weight b <? weight a) eqn:E; [| done].
  apply Nat.ltb_lt in E. simpl. rewrite IH.
  destruct (weight a =? w) eqn:Ea, (weight b =? w) eqn:Eb; try done.
  apply Nat.eqb_eq in Ea, Eb. lia.
Qed.

Lemma sortByWeight_stable w l :
  List.filter (fun e => weight e =? w) (sortByWeight l) =
  List.filter (fun e => weight e =? w) l.
Proof.
  induction l as [| a l IH]; [done |].
  change (sortByWeight (a :: l)) with (insertByWeight a (sortByWeight l)).
  rewrite insertByWeight_stable by apply sortByWeight_sorted.
  simpl. by rewrite IH.
Qed.

(** *** [findIndex] *)

Lemma sameEdge_refl e : sameEdge e e = true.
Proof. unfold sameEdge. by rewrite !Nat.eqb_refl. Qed.

Lemma sameEdge_true e e' :
  sameEdge e e' = true → ends e' = ends e ∧ weight e' = weight e.
Proof.
  unfold sameEdge, ends. rewrite !andb_true_iff, !Nat.eqb_eq.
  intros [[-> ->] ->]. done.
Qed.

Lemma findIndexFrom_spec s e edges :
  e ∈ edges →
  ∃ i e', findIndexFrom s e edges = Z.of_nat (s + i)
    ∧ edges !! i = Some e' ∧ sameEdge e e' = true.
Proof.
  revert s. induction edges as [| a edges IH]; intros s Hin;
    [by apply elem_of_nil in Hin |].
  simpl. destruct (sameEdge e a) eqn:E.
  - exists 0, a. rewrite Nat.add_0_r. done.
  - apply elem_of_cons in Hin as [-> | Hin]; [by rewrite sameEdge_refl in E |].
    destruct (IH (S s) Hin) as (i & e' & -> & Hi & He').
    exists (S i), e'. split_and!; [f_equal; lia | done..].
Qed.

Lemma edgeAt_findIndex edges e :
  e ∈ edges →
  ∃ e', edgeAt edges (findIndex edges e) = Some e'
    ∧ ends e' = ends e ∧ weight e' = weight e.
Proof.
  intros Hin. destruct (findIndexFrom_spec 0 e edges Hin) as (i & e' & Hi & He' & Hs).
  exists e'. unfold findIndex, edgeAt. rewrite Hi. simpl.
  rewrite bool_decide_eq_true_2 by lia. rewrite Nat2Z.id.
  split; [done |]. by apply sameEdge_true.
Qed.

Lemma edgeAt_elem edges i e : edgeAt edges i = Some e → e ∈ edges.
Proof.
  unfold edgeAt. case_bool_decide; [| done]. apply list_elem_of_lookup_2.
Qed.

Lemma endsAt_findIndex edges K :
  (∀ e, e ∈ K → e ∈ edges) →
  endsAt edges (map (findIndex edges) K) = map ends K.
Proof.
  induction K as [| e K IH]; intros Hsub; [done |].
  destruct (edgeAt_findIndex edges e) as (e' & Hat & He & _).
  { apply Hsub. by left. }
  unfold endsAt. simpl. rewrite Hat. simpl. rewrite He. f_equal.
  apply IH. intros x Hx. apply Hsub. by right.
Qed.

Lemma calculateTotalCost_from edges sel (acc : nat) :
  foldl (fun sum edgeIndex =>
           sum ← sum; e ← of_option (edgeAt edges edgeIndex);
           Done (sum + weight e)) (Done acc) sel
  = match mapM (edgeAt edges) sel with
    | Some X => Done (acc + totalWeight X)
    | None => Thrown
    end.
Proof.
  revert acc. induction sel as [| i sel IH]; intros acc; simpl.
  - f_equal. unfold totalWeight. simpl. lia.
  - destruct (edgeAt edges i) as [e |]; simpl.
    + rewrite IH. destruct (mapM (edgeAt edges) sel); simpl; [| done].
      f_equal. unfold totalWeight. simpl. lia.
    + clear. induction sel as [| j sel IH]; [done |]. simpl. exact IH.
Qed.

Lemma calculateTotalCost_spec edges sel :
  calculateTotalCost edges sel
  = match mapM (edgeAt edges) sel with
    | Some X => Done (totalWeight X)
    | None => Thrown
    end.
Proof. apply (calculateTotalCost_from edges sel 0). Qed.

(** *** The loop *)

Lemma keptAfter_fresh before l :
  NoDup (map ends (keptAfter before l))
  ∧ ∀ e, e ∈ keptAfter before l → ends e ∉ before.
Proof.
  revert before. induction l as [| a l IH]; intros before; simpl.
  - split; [constructor | intros e He; by apply elem_of_nil in He].
  - destruct (IH (before ++ [ends a])) as [Hnd Hfresh].
    assert (Hrest : ∀ e, e ∈ keptAfter (before ++ [ends a]) l →
                    (ends e ∉ before) ∧ ends e ≠ ends a).
    { intros e He. specialize (Hfresh e He).
      rewrite elem_of_app, list_elem_of_singleton in Hfresh. tauto. }
    destruct (labels before (from a) =? labels before (to a)) eqn:E; simpl.
    + split; [done |]. intros e He. by apply Hrest.
    + apply Nat.eqb_neq in E. rewrite labels_joined in E. split.
      * constructor; [| done]. intros Hin.
        apply list_elem_of_In, in_map_iff in Hin as (e & He & Hin).
        apply list_elem_of_In, Hrest in Hin as [_ Hne]. done.
      * intros e He. apply elem_of_cons in He as [-> | He]; [| by apply Hrest].
        intros Hin. apply E. by apply joined_edge.
Qed.

Lemma findIndex_NoDup edges K :
  (∀ e, e ∈ K → e ∈ edges) → NoDup (map ends K) →
  NoDup (map (findIndex edges) K).
Proof.
  intros Hsub Hnd.
  apply (NoDup_fmap_1 (fun i => ends <$> edgeAt edges i)).
  replace ((fun i => ends <$> edgeAt edges i) <$> map (findIndex edges) K)
    with (Some <$> map ends K); [by apply (NoDup_fmap_2 _) |].
  clear Hnd. induction K as [| e K IH]; [done |]. simpl.
  destruct (edgeAt_findIndex edges e) as (e' & Hat & He & _).
  { apply Hsub. by left. }
  rewrite Hat. simpl. rewrite He. f_equal.
  apply IH. intros x Hx. apply Hsub. by right.
Qed.

Lemma add_all (g : Edge → Z) acc K :
  NoDup (acc ++ map g K) →
  foldl (fun set e => add (g e) set) acc K = acc ++ map g K.
Proof.
  revert acc. induction K as [| e K IH]; intros acc Hnd; simpl.
  - by rewrite app_nil_r.
  - unfold add at 2. rewrite bool_decide_eq_false_2.
    + rewrite IH; rewrite <- app_assoc; done.
    + apply NoDup_app in Hnd as (_ & Hnd & _). intros Hin.
      apply (Hnd _ Hin). by left.
Qed.

Lemma totalWeight_snoc l e : totalWeight (l ++ [e]) = totalWeight l + weight e.
Proof. unfold totalWeight. rewrite sum_list_with_app. simpl. lia. Qed.

Lemma kept_snoc P e :
  kept (P ++ [e]) =
  kept P ++ (if labels (map ends P) (from e) =? labels (map ends P) (to e)
             then [] else [e]).
Proof. unfold kept. rewrite keptAfter_app. simpl. by rewrite app_nil_r. Qed.

(** The state after the edges [P]: what [find] answers is what [P] joins,
    and the selection and its weight are those of the edges kept. *)
Record After (n : nat) (edges P : list Edge) (k : Kruskal) : Prop := {
  after_forest : Forest n (length P) (sets k);
  after_repr : Repr n (map ends P) (parent (sets k));
  after_indices :
    mstEdgeIndices k =
    foldl (fun set e => add (findIndex edges e) set) [] (kept P);
  after_weight : mstWeight k = totalWeight (kept P)
}.

Lemma visit_spec n fuel edges P k e :
  After n edges P k → inRange n e → length P < fuel →
  ∃ p1 ra p2 rb k',
    find fuel (parent (sets k)) (from e) = Done (p1, ra)
    ∧ find fuel p1 (to e) = Done (p2, rb)
    ∧ visit fuel edges (Done k) e = Done k'
    ∧ (ra =? rb) = (labels (map ends P) (from e) =? labels (map ends P) (to e))
    ∧ mstEdgeIndices k' =
        (if ra =? rb then mstEdgeIndices k
         else add (findIndex edges e) (mstEdgeIndices k))
    ∧ mstWeight k' =
        (if ra =? rb then mstWeight k else mstWeight k + weight e)
    ∧ After n edges (P ++ [e]) k'.
Proof.
  intros [HF HR Hi Hw] [Ha Hb] Hfuel.
  destruct (union_spec n _ _ fuel _ _ _ HF HR Ha Hb Hfuel)
    as (p1 & ra & p2 & rb & uf' & Hf1 & Hf2 & Hu & Hlab & HF' & HR').
  exists p1, ra, p2, rb. unfold visit. simpl. rewrite Hu. simpl.
  destruct (ra =? rb) eqn:E; simpl; eexists; (split_and!; [done.. |]);
    (split; simpl;
     [ by rewrite length_app, Nat.add_1_r
     | by rewrite map_app
     | rewrite kept_snoc, <- Hlab, foldl_app, <- Hi; done
     | rewrite kept_snoc, <- Hlab, ?app_nil_r, ?totalWeight_snoc, Hw; done ]).
Qed.

Lemma visitAll_spec n fuel edges P :
  Forall (inRange n) P → length P ≤ fuel →
  ∃ k, visitAll fuel n edges P = Done k ∧ After n edges P k.
Proof.
  induction P as [| e P IH] using rev_ind; intros Hall Hfuel.
  - exists (start n). split; [done |].
    split; simpl; [apply Forest_singletons | apply Repr_singletons | done..].
  - apply Forall_app in Hall as [Hall He]. rewrite Forall_singleton in He.
    rewrite length_app in Hfuel. simpl in Hfuel.
    destruct (IH Hall ltac:(lia)) as (k & Hk & Hafter).
    destruct (visit_spec n fuel edges P k e Hafter He ltac:(lia))
      as (_ & _ & _ & _ & k' & _ & _ & Hv & _ & _ & _ & Hafter').
    exists k'. unfold visitAll in *. rewrite foldl_app, Hk. done.
Qed.

Lemma After_indices n edges P k :
  After n edges P k → (∀ e, e ∈ P → e ∈ edges) →
  mstEdgeIndices k = map (findIndex edges) (kept P)
  ∧ NoDup (mstEdgeIndices k).
Proof.
  intros [_ _ Hi _] Hsub.
  assert (Hnd : NoDup (map (findIndex edges) (kept P))).
  { apply findIndex_NoDup.
    - intros e He. by apply Hsub, (keptAfter_sub []).
    - apply (keptAfter_fresh [] P). }
  rewrite Hi, add_all; simpl; done.
Qed.

Lemma selection_edges n edges sel :
  spanningSelection n edges sel →
  ∃ X, mapM (edgeAt edges) sel = Some X
    ∧ length X = n - 1 ∧ (∀ e, e ∈ X → e ∈ edges)
    ∧ endsAt edges sel = map ends X.
Proof.
  intros (_ & Hsome & Hlen & _).
  destruct (mapM_is_Some_2 (edgeAt edges) sel) as [X HX].
  { apply Forall_forall. intros i Hi. by apply Hsome. }
  exists X. split; [done |]. apply mapM_Some_1 in HX.
  split_and!.
  - rewrite <- Hlen. symmetry. by eapply Forall2_length.
  - intros e He. clear Hsome Hlen.
    induction HX as [| i e' sel X Hi _ IH]; [by apply elem_of_nil in He |].
    apply elem_of_cons in He as [-> | He]; [by eapply edgeAt_elem | by apply IH].
  - clear Hsome Hlen. unfold endsAt.
    induction HX as [| i e' sel X Hi _ IH]; [done |].
    simpl. rewrite Hi. simpl. f_equal. exact IH.
Qed.

(** C8: in a union-find structure started with one singleton set per node,
    for all nodes [a], [b], [c], after [union(a, b)] and then [union(b, c)]
    the calls [find(a)] and [find(c)] return the same root, whether
    [find(c)] runs on the array that [find(a)] has compressed or on the
    array as the unions left it. *)
Theorem union_chain_shares_root n a b c fuel :
  a < n → b < n → c < n → 2 < fuel →
  ∃ uf1 j1 uf2 j2 p r p' p'',
    union fuel (singletons n) a b = Done (uf1, j1)
    ∧ union fuel uf1 b c = Done (uf2, j2)
    ∧ find fuel (parent uf2) a = Done (p, r)
    ∧ find fuel p c = Done (p', r)
    ∧ find fuel (parent uf2) c = Done (p'', r).
Proof.
  intros Ha Hb Hc Hfuel.
  destruct (union_spec n 0 [] fuel (singletons n) a b
              (Forest_singletons n) (Repr_singletons n) Ha Hb ltac:(lia))
    as (_ & ra & _ & rb & uf1 & _ & _ & Hu1 & _ & HF1 & HR1).
  destruct (union_spec n 1 _ fuel uf1 b c HF1 HR1 Hb Hc ltac:(lia))
    as (_ & rb' & _ & rc' & uf2 & _ & _ & Hu2 & _ & HF2 & HR2).
  pose proof HF2 as (_ & _ & Hroots).
  destruct (Hroots a Ha) as (ka & r & Hka & Hr).
  destruct (Hroots c Hc) as (kc & r' & Hkc & Hr').
  assert (r = r') as <-.
  { apply (HR2 a c _ _ _ _ Ha Hc Hr Hr').
    apply (joined_trans _ a b c); apply joined_edge; set_solver. }
  destruct (find_spec fuel _ _ _ _ Hr ltac:(lia)) as (p & Hf & _ & Hkeep).
  destruct (Hkeep _ _ _ Hr') as (kc' & ? & Hr'').
  destruct (find_spec fuel _ _ _ _ Hr'' ltac:(lia)) as (p' & Hf' & _ & _).
  destruct (find_spec fuel _ _ _ _ Hr' ltac:(lia)) as (p'' & Hf'' & _ & _).
  eexists _, _, _, _, _, _, _, _. split_and!; done.
Qed.

Lemma union_chain_shares_root_witness :
  ∃ uf1 j1 uf2 j2 p r p' p'',
    union 3 (singletons 3) 0 1 = Done (uf1, j1)
    ∧ union 3 uf1 1 2 = Done (uf2, j2)
    ∧ find 3 (parent uf2) 0 = Done (p, r)
    ∧ find 3 p 2 = Done (p', r)
    ∧ find 3 (parent uf2) 2 = Done (p'', r).
Proof. apply (union_chain_shares_root 3 0 1 2 3); lia. Defined.

Lemma sorted_members edges e : e ∈ sortByWeight edges ↔ e ∈ edges.
Proof. by rewrite sortByWeight_perm. Qed.

Lemma sorted_inRange n edges :
  Forall (inRange n) edges → Forall (inRange n) (sortByWeight edges).
Proof. by rewrite sortByWeight_perm. Qed.

Lemma sorted_joined edges x y :
  joined (map ends (sortByWeight edges)) x y ↔ joined (map ends edges) x y.
Proof.
  apply joined_same_members. intros p.
  rewrite !list_elem_of_In, !in_map_iff.
  by setoid_rewrite <- list_elem_of_In; setoid_rewrite sorted_members.
Qed.

(** C6: [findMST] takes the edges in ascending order of weight, edges of
    one weight in their original order; at each edge it selects the edge
    exactly when [find(from)] and [find(to)] differ, then adds its weight to
    the running total, and afterwards both ends have one root; the result
    is the selection and weight of the edges the rule of Kruskal keeps; and
    when the edges of the graph reach every node, the selection is made of
    [n - 1] distinct edges that reach every node, and no selection of
    [n - 1] edges that reaches every node costs less. *)
Theorem kruskal_minimum_spanning_tree n edges fuel :
  Forall (inRange n) edges → length edges < fuel →
  let sorted := sortByWeight edges in
  (sorted ≡ₚ edges ∧ StronglySorted byWeight sorted
   ∧ ∀ w, List.filter (fun e => weight e =? w) sorted
          = List.filter (fun e => weight e =? w) edges)
  ∧ (∀ P e Q, sorted = P ++ e :: Q →
     ∃ k p1 ra p2 rb k' p3 r p4,
       visitAll fuel n edges P = Done k
       ∧ find fuel (parent (sets k)) (from e) = Done (p1, ra)
       ∧ find fuel p1 (to e) = Done (p2, rb)
       ∧ visitAll fuel n edges (P ++ [e]) = Done k'
       ∧ (if ra =? rb
          then mstEdgeIndices k' = mstEdgeIndices k
               ∧ mstWeight k' = mstWeight k
          else mstEdgeIndices k' = mstEdgeIndices k ++ [findIndex edges e]
               ∧ mstWeight k' = mstWeight k + weight e)
       ∧ find fuel (parent (sets k')) (from e) = Done (p3, r)
       ∧ find fuel p3 (to e) = Done (p4, r))
  ∧ ∃ mstEdges mstCost,
      findMST fuel n edges = Done (mstEdges, mstCost)
      ∧ mstEdges = map (findIndex edges) (kept sorted)
      ∧ mstCost = totalWeight (kept sorted)
      ∧ calculateTotalCost edges mstEdges = Done mstCost
      ∧ (spans n (map ends edges) →
         spanningSelection n edges mstEdges
         ∧ ∀ sel cost, spanningSelection n edges sel →
             calculateTotalCost edges sel = Done cost → mstCost ≤ cost).
Proof.
  intros Hall Hfuel sorted.
  pose proof (sortByWeight_perm edges) as Hperm. fold sorted in Hperm.
  pose proof (sortByWeight_sorted edges) as Hsorted. fold sorted in Hsorted.
  assert (Hall' : Forall (inRange n) sorted) by by apply sorted_inRange.
  assert (Hlen : length sorted = length edges) by by rewrite Hperm.
  split; [split_and!; [done.. | intros w; apply sortByWeight_stable] |].
  split.
  - intros P e Q Heq.
    assert (HallP : Forall (inRange n) (P ++ [e])).
    { rewrite Heq, (cons_middle e), app_assoc in Hall'.
      by apply Forall_app in Hall' as [? _]. }
    assert (HlenP : length (P ++ [e]) ≤ length edges).
    { rewrite <- Hlen, Heq, !length_app. simpl. lia. }
    assert (HsubP : ∀ x, x ∈ P ++ [e] → x ∈ edges).
    { intros x Hx. apply sorted_members. fold sorted.
      rewrite Heq, (cons_middle e), app_assoc. apply elem_of_app. by left. }
    pose proof HallP as HallP'. apply Forall_app in HallP' as [HP He].
    rewrite Forall_singleton in He.
    rewrite length_app in HlenP. simpl in HlenP.
    destruct (visitAll_spec n fuel edges P HP ltac:(lia)) as (k & Hk & Hafter).
    destruct (visit_spec n fuel edges P k e Hafter He ltac:(lia))
      as (p1 & ra & p2 & rb & k' & Hf1 & Hf2 & Hv & Hlab & Hi & Hw & Hafter').
    assert (Hk' : visitAll fuel n edges (P ++ [e]) = Done k').
    { unfold visitAll in *. by rewrite foldl_app, Hk. }
    destruct (After_indices _ _ _ _ Hafter) as [Hmap _].
    { intros x Hx. apply HsubP, elem_of_app. by left. }
    destruct (After_indices _ _ _ _ Hafter' HsubP) as [Hmap' _].
    pose proof Hafter' as [(_ & _ & Hroots) HR _ _].
    destruct He as [Ha Hb].
    destruct (Hroots _ Ha) as (ka & r & Hka & Hr).
    destruct (Hroots _ Hb) as (kb & r' & Hkb & Hr').
    assert (r = r') as <-.
    { apply (HR _ _ _ _ _ _ Ha Hb Hr Hr'). apply joined_edge.
      rewrite map_app. apply elem_of_app. right. by left. }
    rewrite length_app in Hka, Hkb. simpl in Hka, Hkb.
    destruct (find_spec fuel _ _ _ _ Hr ltac:(lia)) as (p3 & Hf3 & _ & Hkeep).
    destruct (Hkeep _ _ _ Hr') as (kb' & ? & Hr'').
    destruct (find_spec fuel _ _ _ _ Hr'' ltac:(lia)) as (p4 & Hf4 & _ & _).
    exists k, p1, ra, p2, rb, k', p3, r, p4.
    split_and!; [done.. | | done | done].
    rewrite Hw. destruct (ra =? rb) eqn:E; [split; [congruence | done] |].
    split; [| done].
    rewrite Hmap', kept_snoc, <- Hlab, map_app, <- Hmap. done.
  - destruct (visitAll_spec n fuel edges sorted Hall' ltac:(lia))
      as (k & Hk & Hafter).
    destruct (After_indices _ _ _ _ Hafter) as [Hmap Hnd].
    { intros e. apply sorted_members. }
    assert (Hsub : ∀ e, e ∈ kept sorted → e ∈ edges).
    { intros e He. by apply sorted_members, (keptAfter_sub []). }
    exists (mstEdgeIndices k), (mstWeight k).
    assert (Hcost : calculateTotalCost edges (mstEdgeIndices k)
                    = Done (mstWeight k)).
    { rewrite calculateTotalCost_spec, Hmap, (after_weight _ _ _ _ Hafter).
      clear -Hsub. induction (kept sorted) as [| e K IH]; [done |].
      destruct (edgeAt_findIndex edges e) as (e' & Hat & _ & Hw).
      { apply Hsub. by left. }
      simpl. rewrite Hat. simpl.
      destruct (mapM (edgeAt edges) (map (findIndex edges) K)) as [X |];
        simpl in *.
      - assert (HX : totalWeight X = totalWeight K).
        { assert (Done (totalWeight X) = Done (totalWeight K)) as [= ->]; [| done].
          apply IH. intros x Hx. apply Hsub. by right. }
        unfold totalWeight in *. simpl. by rewrite Hw, HX.
      - exfalso. assert (Hd : @Thrown nat = Done (totalWeight K)); [| done].
        apply IH. intros x Hx. apply Hsub. by right. }
    split_and!.
    + unfold findMST. fold sorted. rewrite Hk. done.
    + done.
    + apply (after_weight _ _ _ _ Hafter).
    + done.
    + intros Hspans.
      destruct (decide (n = 0)) as [-> | Hn].
      { pose proof (kept_count 0 sorted Hall') as Hc.
        assert (Hnil : kept sorted = []) by (apply length_zero_iff_nil; lia).
        rewrite Hmap, (after_weight _ _ _ _ Hafter), Hnil.
        split; [| intros; simpl; lia].
        split_and!; [constructor | by intros i Hi; apply elem_of_nil in Hi
                    | done | by intros x y Hx; lia]. }
      assert (Hspans' : spans n (map ends sorted)).
      { intros x y Hx Hy. apply sorted_joined. by apply Hspans. }
      split.
      * split_and!.
        -- done.
        -- intros i Hi. rewrite Hmap in Hi.
           apply list_elem_of_In, in_map_iff in Hi as (e & <- & He).
           destruct (edgeAt_findIndex edges e) as (e' & -> & _); [| done].
           by apply Hsub, list_elem_of_In.
        -- rewrite Hmap, length_map.
           pose proof (kept_count n sorted Hall') as Hc.
           rewrite (classes_spans n _ ltac:(lia) Hspans') in Hc. lia.
        -- rewrite Hmap, endsAt_findIndex by done.
           intros x y Hx Hy. apply kept_joined. by apply Hspans'.
      * intros sel cost Hsel Hc.
        pose proof Hsel as (_ & _ & _ & Hsp).
        destruct (selection_edges n edges sel Hsel)
          as (X & HX & HlenX & HsubX & Hends).
        rewrite calculateTotalCost_spec, HX in Hc. injection Hc as <-.
        rewrite (after_weight _ _ _ _ Hafter).
        apply (kept_minimal n sorted X); [lia | done | done | | done |].
        -- intros e He. by apply sorted_members, HsubX.
        -- by rewrite <- Hends.
Qed.

Lemma threeNodes_spans : spans 3 (map ends threeNodes).
Proof.
  intros x y Hx Hy. apply labels_joined.
  destruct x as [| [| [| x]]]; [| | | lia];
    (destruct y as [| [| [| y]]]; [| | | lia]); reflexivity.
Qed.

Lemma kruskal_minimum_spanning_tree_witness :
  findMST 4 3 threeNodes = Done ([0; 2]%Z, 3)
  ∧ spanningSelection 3 threeNodes [0; 2]%Z
  ∧ ∀ sel cost, spanningSelection 3 threeNodes sel →
      calculateTotalCost threeNodes sel = Done cost → 3 ≤ cost.
Proof.
  destruct (kruskal_minimum_spanning_tree 3 threeNodes 4)
    as (_ & _ & mstEdges & mstCost & Hf & Hm & Hc & _ & Hsp).
  - repeat constructor.
  - simpl. lia.
  - vm_compute in Hm, Hc. subst mstEdges mstCost.
    destruct (Hsp threeNodes_spans) as [Hsel Hmin].
    split; [exact Hf |]. split; [exact Hsel | exact Hmin].
Defined.

End NetworkConnectorSpec.

(** ** Runs that do not reach the end *)

Module RunsSpec.


End RunsSpec.

(** ** Network connector: the game *)

Module NetworkGameSpec.
Import NetworkConnector NetworkConnectorSpec NetworkGame GridSpec.

(** *** Runs of [union] *)

Lemma unions_spec n fuel calls :
  Forall (fun c => c.1 < n ∧ c.2 < n) calls → length calls ≤ fuel →
  ∃ uf, unions fuel (singletons n) calls = Done uf
    ∧ Forest n (length calls) uf ∧ Repr n calls (parent uf).
Proof.
  induction calls as [| [a b] calls IH] using rev_ind; intros Hall Hfuel.
  - exists (singletons n). split_and!;
      [done | apply Forest_singletons | apply Repr_singletons].
  - apply Forall_app in Hall as [Hall Hab]. rewrite Forall_singleton in Hab.
    rewrite length_app in *. simpl in *. destruct Hab as [Ha Hb].
    destruct (IH Hall ltac:(lia)) as (uf & Huf & HF & HR).
    destruct (union_spec n _ _ fuel uf a b HF HR Ha Hb ltac:(lia))
      as (_ & ra & _ & rb & uf' & _ & _ & Hu & _ & HF' & HR').
    exists uf'. unfold unions in *. rewrite foldl_app, Huf. simpl.
    rewrite Hu. simpl. split_and!; [done | | done].
    by rewrite Nat.add_1_r.
Qed.

Lemma find_compresses fuel parent k x r p' :
  rootIn parent k x r → k < fuel → find fuel parent x = Done (p', r) →
  ∃ k', k' ≤ 1 ∧ k' ≤ k ∧ rootIn p' k' x r.
Proof.
  intros Hx Hfuel Hf. destruct fuel as [| fuel]; [lia |].
  inversion Hx as [? Hr | k0 ? px ? Hpx Hne Hrest]; simplify_eq; simpl in Hf.
  - rewrite Hr in Hf. simpl in Hf. rewrite Nat.eqb_refl in Hf.
    simplify_eq. exists 0. split_and!; [lia | lia | done].
  - rewrite Hpx in Hf. simpl in Hf.
    rewrite (proj2 (Nat.eqb_neq _ _) Hne) in Hf.
    destruct (find_spec fuel _ _ _ _ Hrest ltac:(lia)) as (p1 & Hf1 & Hlen & Hkeep).
    rewrite Hf1 in Hf. simpl in Hf. simplify_eq.
    pose proof (rootIn_root _ _ _ _ Hrest) as Hr.
    destruct (Hkeep _ _ _ (rootIn_self _ _ Hr)) as (k1 & Hk1 & Hr1).
    assert (k1 = 0) as -> by lia.
    pose proof (rootIn_root _ _ _ _ Hr1) as Hr1'.
    assert (r ≠ x) by (intros ->; simplify_eq).
    exists 1. split_and!; [lia | lia |].
    apply (rootIn_step _ 0 x r r).
    + apply list_lookup_insert_eq. rewrite Hlen. by eapply lookup_lt_Some.
    + done.
    + apply rootIn_self. by rewrite list_lookup_insert_ne.
Qed.

Lemma find_settled fuel p k x r :
  rootIn p k x r → k ≤ 1 → k < fuel → find fuel p x = Done (p, r).
Proof.
  intros Hx Hk Hf. destruct fuel as [| fuel]; [lia |].
  inversion Hx as [? Hr | k0 ? px ? Hpx Hne Hrest]; simplify_eq; simpl.
  - rewrite Hr. simpl. by rewrite Nat.eqb_refl.
  - assert (k0 = 0) as -> by lia.
    inversion Hrest as [? Hr |]; simplify_eq.
    rewrite Hpx. simpl. rewrite (proj2 (Nat.eqb_neq _ _) Hne).
    destruct fuel as [| fuel]; [lia |]. simpl. rewrite Hr. simpl.
    rewrite Nat.eqb_refl. simpl. by rewrite list_insert_id.
Qed.

(** After any calls of [union] on the singletons, [find] answers the same
    root for two nodes exactly when the pairs of the calls join them; the
    root it answers is its own parent, and asking again answers the same
    and changes nothing; a further [union(a, b)] answers [false] exactly
    when [a] and [b] are joined already; and from every node the [parent]
    links reach a root in at most as many steps as there were calls. *)
Theorem unions_track_joined n fuel calls :
  Forall (fun c => c.1 < n ∧ c.2 < n) calls → length calls < fuel →
  ∃ uf, unions fuel (singletons n) calls = Done uf
    ∧ (∀ x y, x < n → y < n →
       ∃ p1 rx p2 ry,
         find fuel (parent uf) x = Done (p1, rx)
         ∧ find fuel p1 y = Done (p2, ry)
         ∧ (rx = ry ↔ joined calls x y)
         ∧ p1 !! rx = Some rx
         ∧ find fuel p1 x = Done (p1, rx))
    ∧ (∀ a b, a < n → b < n →
       ∃ uf' r, union fuel uf a b = Done (uf', r)
         ∧ (r = false ↔ joined calls a b))
    ∧ (∀ x, x < n → ∃ k r, k ≤ length calls ∧ rootIn (parent uf) k x r).
Proof.
  intros Hall Hfuel.
  destruct (unions_spec n fuel calls Hall ltac:(lia)) as (uf & Huf & HF & HR).
  exists uf. split; [done |].
  pose proof HF as (_ & _ & Hroots). split_and!.
  - intros x y Hx Hy.
    destruct (Hroots x Hx) as (kx & rx & Hkx & Hrx).
    destruct (Hroots y Hy) as (ky & ry & Hky & Hry).
    destruct (find_spec fuel _ _ _ _ Hrx ltac:(lia)) as (p1 & Hf1 & _ & Hkeep).
    destruct (Hkeep _ _ _ Hry) as (ky' & ? & Hry').
    destruct (find_spec fuel _ _ _ _ Hry' ltac:(lia)) as (p2 & Hf2 & _ & _).
    destruct (find_compresses fuel _ _ _ _ _ Hrx ltac:(lia) Hf1)
      as (kx' & ? & ? & Hrx').
    exists p1, rx, p2, ry. split_and!; [done | done | | |].
    + apply (HR x y _ _ _ _ Hx Hy Hrx Hry).
    + by eapply rootIn_root.
    + eapply find_settled; [done | done | lia].
  - intros a b Ha Hb.
    destruct (union_spec n _ _ fuel uf a b HF HR Ha Hb ltac:(lia))
      as (_ & ra & _ & rb & uf' & _ & _ & Hu & Hlab & _ & _).
    exists uf', (negb (ra =? rb)). split; [done |].
    rewrite Hlab, negb_false_iff, Nat.eqb_eq. apply labels_joined.
  - done.
Qed.

Lemma unions_track_joined_witness :
  ∃ uf, unions 4 (singletons 4) [(0, 1); (2, 3); (1, 0)] = Done uf
    ∧ (∀ x y, x < 4 → y < 4 →
       ∃ p1 rx p2 ry,
         find 4 (parent uf) x = Done (p1, rx)
         ∧ find 4 p1 y = Done (p2, ry)
         ∧ (rx = ry ↔ joined [(0, 1); (2, 3); (1, 0)] x y)
         ∧ p1 !! rx = Some rx
         ∧ find 4 p1 x = Done (p1, rx))
    ∧ (∀ a b, a < 4 → b < 4 →
       ∃ uf' r, union 4 uf a b = Done (uf', r)
         ∧ (r = false ↔ joined [(0, 1); (2, 3); (1, 0)] a b))
    ∧ (∀ x, x < 4 → ∃ k r, k ≤ 3 ∧ rootIn (parent uf) k x r).
Proof.
  apply (unions_track_joined 4 4 [(0, 1); (2, 3); (1, 0)]).
  - repeat constructor; simpl; lia.
  - simpl. lia.
Defined.

(** *** [checkSpanningTree] *)

(** [v] is in the adjacency list of [u]. *)
Definition arc (adj : list (list nat)) (u v : nat) : Prop :=
  ∃ l, adj !! u = Some l ∧ v ∈ l.

Definition closedAdj (adj : list (list nat)) : Prop :=
  ∀ u v, arc adj u v → v < length adj.

(** The nodes below [n] that [visited] does not hold. *)
Definition unvisited (n : nat) (visited : gset nat) : nat :=
  size (set_seq 0 n ∖ visited : gset nat).

Lemma unvisited_insert n x (V : gset nat) :
  x < n → x ∉ V → S (unvisited n ({[x]} ∪ V)) = unvisited n V.
Proof.
  intros Hx HV. unfold unvisited.
  assert (Heq : (set_seq 0 n ∖ V : gset nat)
                = {[x]} ∪ (set_seq 0 n ∖ ({[x]} ∪ V))).
  { apply set_eq. intros y.
    rewrite elem_of_union, !elem_of_difference, elem_of_union,
      elem_of_singleton, !elem_of_set_seq.
    destruct (decide (y = x)); [subst; intuition lia | intuition]. }
  rewrite Heq.
  rewrite (size_union (C := gset nat) {[x]} (set_seq 0 n ∖ ({[x]} ∪ V)))
    by set_solver.
  by rewrite size_singleton.
Qed.

Lemma unvisited_mono n (V V' : gset nat) :
  V ⊆ V' → unvisited n V' ≤ unvisited n V.
Proof. intros H. apply subseteq_size. set_solver. Qed.

(** What a call of [dfs] leaves in [visited]. *)
Record Explored (adj : list (list nat)) (node : nat) (V V' : gset nat) : Prop := {
  explored_keeps : V ⊆ V';
  explored_node : node ∈ V';
  explored_bound : ∀ u, u ∈ V' → u ∈ V ∨ u < length adj;
  explored_reached : ∀ u, u ∈ V' → u ∈ V ∨ rtc (arc adj) node u;
  explored_closed : ∀ u, u ∈ V' → u ∈ V ∨ ∀ v, arc adj u v → v ∈ V'
}.

Lemma dfs_spec adj fuel node (V : gset nat) :
  closedAdj adj → node < length adj → node ∉ V →
  unvisited (length adj) V ≤ fuel →
  ∃ V', dfs fuel adj node V = Done V' ∧ Explored adj node V V'.
Proof.
  intros Hadj. revert node V.
  induction fuel as [| fuel IH]; intros node V Hnode HV Hfuel.
  { pose proof (unvisited_insert _ _ _ Hnode HV). lia. }
  simpl. destruct (lookup_lt_is_Some_2 adj node Hnode) as [ns Hns].
  rewrite Hns. simpl.
  pose proof (unvisited_insert _ _ _ Hnode HV) as Hm.
  (* the loop over the neighbours *)
  assert (Hloop : ∀ done todo (W : gset nat),
    ns = done ++ todo →
    {[node]} ∪ V ⊆ W →
    (∀ u, u ∈ W → u ∈ V ∨ u < length adj) →
    (∀ u, u ∈ W → u ∈ V ∨ rtc (arc adj) node u) →
    (∀ u, u ∈ W → u ∈ V ∨ u = node ∨ ∀ v, arc adj u v → v ∈ W) →
    (∀ v, v ∈ done → v ∈ W) →
    ∃ V', foldl (fun visited neighbor =>
                   visited ← visited;
                   if decide (neighbor ∈ visited) then Done visited
                   else dfs fuel adj neighbor visited) (Done W) todo = Done V'
      ∧ W ⊆ V'
      ∧ (∀ u, u ∈ V' → u ∈ V ∨ u < length adj)
      ∧ (∀ u, u ∈ V' → u ∈ V ∨ rtc (arc adj) node u)
      ∧ (∀ u, u ∈ V' → u ∈ V ∨ u = node ∨ ∀ v, arc adj u v → v ∈ V')
      ∧ (∀ v, v ∈ ns → v ∈ V')).
  { intros done todo. revert done.
    induction todo as [| nb todo IHt]; intros done W Hsplit HW Hb Hr Hc Hd.
    - exists W. rewrite app_nil_r in Hsplit. subst done.
      simpl. split_and!; done.
    - simpl. destruct (decide (nb ∈ W)) as [Hin | Hnin].
      + apply (IHt (done ++ [nb])); [by rewrite <- app_assoc | done.. |].
        intros v Hv. apply elem_of_app in Hv as [Hv | Hv]; [by apply Hd |].
        apply list_elem_of_singleton in Hv. by subst.
      + assert (Harc : arc adj node nb).
        { exists ns. split; [done |]. rewrite Hsplit, elem_of_app. right. by left. }
        destruct (IH nb W) as (W' & -> & [K1 K2 K3 K4 K5]);
          [by apply Hadj in Harc | done | |].
        { pose proof (unvisited_mono (length adj) _ _ HW). lia. }
        destruct (IHt (done ++ [nb]) W') as (V' & Hfold & L1 & L2 & L3 & L4 & L5).
        * by rewrite <- app_assoc.
        * set_solver.
        * intros u Hu. destruct (K3 u Hu) as [HuW | ?]; [by apply Hb | by right].
        * intros u Hu. destruct (K4 u Hu) as [HuW | Hreach]; [by apply Hr |].
          right. eapply rtc_l; [exact Harc | done].
        * intros u Hu. destruct (K5 u Hu) as [HuW | Hcl]; [| by right; right].
          destruct (Hc u HuW) as [? | [? | Hcl]]; [by left | by right; left |].
          right. right. intros v Hv. apply K1. by apply Hcl.
        * intros v Hv. apply elem_of_app in Hv as [Hv | Hv]; [by apply K1, Hd |].
          apply list_elem_of_singleton in Hv. by subst.
        * exists V'. split; [exact Hfold |].
          split_and!; [set_solver | done..]. }
  destruct (Hloop [] ns ({[node]} ∪ V)) as (V' & Hfold & L1 & L2 & L3 & L4 & L5).
  - done.
  - done.
  - intros u Hu. apply elem_of_union in Hu as [Hu | Hu]; [| by left].
    apply elem_of_singleton in Hu. subst. by right.
  - intros u Hu. apply elem_of_union in Hu as [Hu | Hu]; [| by left].
    apply elem_of_singleton in Hu. subst. by right.
  - intros u Hu. apply elem_of_union in Hu as [Hu | Hu]; [| by left].
    apply elem_of_singleton in Hu. by right; left.
  - intros v Hv. by apply elem_of_nil in Hv.
  - exists V'. split; [exact Hfold |]. split.
    + set_solver.
    + set_solver.
    + done.
    + done.
    + intros u Hu. destruct (L4 u Hu) as [? | [-> | Hcl]]; [by left | | by right].
      right. intros v [l [Hl Hv]]. simplify_eq. by apply L5.
Qed.

Lemma arc_insert adj a l b u v :
  adj !! a = Some l →
  arc (<[a := l ++ [b]]> adj) u v ↔ arc adj u v ∨ (u = a ∧ v = b).
Proof.
  intros Ha. pose proof (lookup_lt_Some _ _ _ Ha) as Hlt. unfold arc.
  destruct (decide (u = a)) as [-> | Hne].
  - rewrite list_lookup_insert_eq by done. split.
    + intros (l' & [= <-] & Hv). apply elem_of_app in Hv as [Hv | Hv].
      * left. eauto.
      * apply list_elem_of_singleton in Hv. by right.
    + intros [(l' & Hl' & Hv) | [_ ->]]; eexists; (split; [done |]).
      * simplify_eq. apply elem_of_app. by left.
      * apply elem_of_app. right. by left.
  - rewrite list_lookup_insert_ne by done. split; [by left |].
    intros [? | [? _]]; done.
Qed.

Lemma connect_all n edges sel adj0 :
  Forall (inRange n) edges → length adj0 = n →
  (∀ i, i ∈ sel → is_Some (edgeAt edges i)) →
  ∃ adj, foldl (connect edges) (Done adj0) sel = Done adj
    ∧ length adj = n
    ∧ ∀ u v, arc adj u v ↔
        arc adj0 u v ∨ (u, v) ∈ endsAt edges sel ∨ (v, u) ∈ endsAt edges sel.
Proof.
  intros Hall. revert adj0. induction sel as [| i sel IH]; intros adj0 Hlen Hsome.
  - exists adj0. split_and!; [done.. |]. intros u v. unfold endsAt. simpl.
    rewrite !elem_of_nil. tauto.
  - destruct (Hsome i) as [e He]; [by left |].
    assert (Hr : inRange n e).
    { rewrite Forall_forall in Hall. by eapply Hall, edgeAt_elem. }
    destruct Hr as [Hf Ht].
    destruct (lookup_lt_is_Some_2 adj0 (from e)) as [lf Hlf]; [lia |].
    set (adj1 := <[from e := lf ++ [to e]]> adj0).
    destruct (lookup_lt_is_Some_2 adj1 (to e)) as [lt Hlt].
    { unfold adj1. rewrite length_insert. lia. }
    destruct (IH (<[to e := lt ++ [from e]]> adj1)) as (adj & Hfold & Hlen' & Harc).
    { unfold adj1. by rewrite !length_insert. }
    { intros j Hj. apply Hsome. by right. }
    exists adj. split_and!; [| done |].
    + simpl. rewrite He. simpl. rewrite Hlf. simpl. fold adj1.
      rewrite Hlt. simpl. exact Hfold.
    + intros u v. rewrite Harc, (arc_insert adj1 _ _ _ _ _ Hlt).
      unfold adj1. rewrite (arc_insert adj0 _ _ _ _ _ Hlf).
      unfold endsAt. simpl. rewrite He. simpl. rewrite !elem_of_cons.
      unfold ends. split; intros; destruct_or?; destruct_and?;
        simplify_eq; tauto.
Qed.

Lemma arc_replicate n u v : ¬ arc (replicate n []) u v.
Proof.
  intros (l & Hl & Hv). apply lookup_replicate in Hl as [-> _].
  by apply elem_of_nil in Hv.
Qed.

Lemma endsAt_inRange n edges sel a b :
  Forall (inRange n) edges → (a, b) ∈ endsAt edges sel → a < n ∧ b < n.
Proof.
  intros Hall Hin. unfold endsAt in Hin.
  apply list_elem_of_omap in Hin as (i & _ & Hi).
  destruct (edgeAt edges i) as [e |] eqn:He; [| done].
  simpl in Hi. injection Hi as <- <-.
  rewrite Forall_forall in Hall. by eapply Hall, edgeAt_elem.
Qed.

Lemma rtc_joined adj es x y :
  (∀ u v, arc adj u v ↔ (u, v) ∈ es ∨ (v, u) ∈ es) →
  rtc (arc adj) x y ↔ joined es x y.
Proof.
  intros Harc. split.
  - induction 1 as [| x y z Hxy _ IH]; [apply joined_refl |].
    eapply joined_trans; [| exact IH].
    apply Harc in Hxy as [? | ?];
      [by apply joined_edge | by apply joined_sym, joined_edge].
  - induction 1 as [x | a b Hab | x y _ IH | x y z _ IH1 _ IH2].
    + done.
    + apply rtc_once, Harc. by left.
    + clear -IH Harc. induction IH as [| x y z Hxy _ IH]; [done |].
      eapply rtc_r; [exact IH |]. apply Harc. apply Harc in Hxy. tauto.
    + by etrans.
Qed.

Lemma checkSpanningTree_correct fuel n edges sel :
  Forall (inRange n) edges →
  (∀ i, i ∈ sel → is_Some (edgeAt edges i)) →
  n ≤ fuel →
  ∃ b, checkSpanningTree fuel n edges sel = Done b
    ∧ (b = true ↔
       1 ≤ n ∧ length sel = n - 1 ∧ spans n (endsAt edges sel)).
Proof.
  intros Hall Hsome Hfuel. unfold checkSpanningTree.
  destruct (Z.of_nat (length sel) =? Z.of_nat n - 1)%Z eqn:E; simpl.
  2: { exists false. split; [done |]. apply Z.eqb_neq in E.
       split; [done |]. intros (? & ? & _). lia. }
  apply Z.eqb_eq in E.
  assert (Hn : 1 ≤ n) by lia. assert (Hlen : length sel = n - 1) by lia.
  destruct (connect_all n edges sel (replicate n []) Hall)
    as (adj & -> & Hadj & Harc); [apply length_replicate | done |]. simpl.
  assert (Harc' : ∀ u v, arc adj u v ↔
            (u, v) ∈ endsAt edges sel ∨ (v, u) ∈ endsAt edges sel).
  { intros u v. rewrite Harc. pose proof (arc_replicate n u v). tauto. }
  assert (Hclosed : closedAdj adj).
  { intros u v Huv. rewrite Hadj. apply Harc' in Huv as [H | H];
      eapply endsAt_inRange in H; [| done | | done]; tauto. }
  destruct (dfs_spec adj fuel 0 ∅ Hclosed) as (V & -> & [_ K2 K3 K4 K5]).
  { lia. } { set_solver. }
  { unfold unvisited. rewrite difference_empty_L, size_set_seq. lia. }
  simpl. eexists. split; [done |].
  assert (HV : ∀ u, u ∈ V ↔ rtc (arc adj) 0 u).
  { intros u. split.
    - intros Hu. destruct (K4 u Hu) as [? | ?]; [set_solver | done].
    - revert u. apply (rtc_ind_r (fun u => u ∈ V) 0); [done |].
      intros y z Hy Hyz IH.
      destruct (K5 y IH) as [? | Hcl]; [set_solver | by apply Hcl]. }
  assert (Hsub : V ⊆ set_seq 0 n).
  { intros u Hu. apply elem_of_set_seq.
    destruct (K3 u Hu) as [? | ?]; [set_solver | lia]. }
  rewrite Nat.eqb_eq. split.
  - intros Hsize. split_and!; [done.. |].
    assert (HVeq : V = set_seq 0 n).
    { apply set_eq. apply set_subseteq_size_equiv; [done |].
      rewrite size_set_seq. lia. }
    intros x y Hx Hy.
    assert (H0 : ∀ z, z < n → joined (endsAt edges sel) 0 z).
    { intros z Hz. apply (rtc_joined adj); [done |]. apply HV.
      rewrite HVeq. apply elem_of_set_seq. lia. }
    eapply joined_trans; [apply joined_sym, H0, Hx | apply H0, Hy].
  - intros (_ & _ & Hspan).
    assert (HVeq : V = set_seq 0 n).
    { apply set_eq. intros u. split; [apply Hsub |].
      intros Hu. apply elem_of_set_seq in Hu.
      apply HV, (rtc_joined adj _ _ _ Harc'), Hspan; lia. }
    rewrite HVeq. apply size_set_seq.
Qed.

(** What [findMST] stores, for the game. *)
Lemma findMST_stores n edges fuel :
  Forall (inRange n) edges → length edges < fuel →
  ∃ m c, findMST fuel n edges = Done (m, c)
    ∧ NoDup m
    ∧ (∀ i, i ∈ m → is_Some (edgeAt edges i))
    ∧ calculateTotalCost edges m = Done c
    ∧ (spans n (map ends edges) →
       length m = n - 1 ∧ spans n (endsAt edges m)
       ∧ ∀ sel cost, (∀ i, i ∈ sel → is_Some (edgeAt edges i)) →
           length sel = n - 1 → spans n (endsAt edges sel) →
           calculateTotalCost edges sel = Done cost → c ≤ cost).
Proof.
  intros Hall Hfuel. set (sorted := sortByWeight edges).
  assert (Hall' : Forall (inRange n) sorted) by by apply sorted_inRange.
  assert (Hlen : length sorted = length edges).
  { unfold sorted. by rewrite sortByWeight_perm. }
  destruct (visitAll_spec n fuel edges sorted Hall' ltac:(lia))
    as (k & Hk & Hafter).
  destruct (After_indices _ _ _ _ Hafter) as [Hmap Hnd].
  { intros e. apply sorted_members. }
  assert (Hsub : ∀ e, e ∈ kept sorted → e ∈ edges).
  { intros e He. by apply sorted_members, (keptAfter_sub []). }
  pose proof (after_weight _ _ _ _ Hafter) as Hw.
  exists (mstEdgeIndices k), (mstWeight k).
  assert (Hvalid : ∀ i, i ∈ mstEdgeIndices k → is_Some (edgeAt edges i)).
  { intros i Hi. rewrite Hmap in Hi.
    apply list_elem_of_In, in_map_iff in Hi as (e & <- & He).
    destruct (edgeAt_findIndex edges e) as (e' & -> & _); [| done].
    by apply Hsub, list_elem_of_In. }
  assert (Hends : endsAt edges (mstEdgeIndices k) = map ends (kept sorted)).
  { rewrite Hmap. by apply endsAt_findIndex. }
  assert (Hcost : calculateTotalCost edges (mstEdgeIndices k)
                  = Done (mstWeight k)).
  { rewrite calculateTotalCost_spec.
    destruct (mapM_is_Some_2 (edgeAt edges) (mstEdgeIndices k)) as [X HX].
    { apply Forall_forall. intros i Hi. by apply Hvalid. }
    rewrite HX. f_equal. rewrite Hw. apply mapM_Some_1 in HX.
    rewrite Hmap in HX. clear -HX Hsub.
    revert X HX. induction (kept sorted) as [| e K IH]; intros X HX.
    - by inversion HX.
    - inversion HX as [| i e1 sel X' Hi HX']; simplify_eq.
      destruct (edgeAt_findIndex edges e) as (e' & Hat & _ & Hwe).
      { apply Hsub. by left. }
      rewrite Hat in Hi. injection Hi as <-.
      unfold totalWeight in *. simpl. rewrite Hwe. f_equal.
      apply IH; [| done]. intros x Hx. apply Hsub. by right. }
  split_and!; [| done | done | done |].
  { unfold findMST. fold sorted. by rewrite Hk. }
  intros Hspans.
  assert (Hspans' : spans n (map ends sorted)).
  { intros x y Hx Hy. apply sorted_joined. by apply Hspans. }
  pose proof (kept_count n sorted Hall') as Hc.
  destruct (decide (n = 0)) as [-> | Hn].
  { assert (Hnil : kept sorted = []) by (apply length_zero_iff_nil; lia).
    rewrite Hmap, Hw, Hnil. split_and!; [done | intros x y Hx; lia |].
    intros; simpl; lia. }
  rewrite (classes_spans n _ ltac:(lia) Hspans') in Hc.
  split_and!.
  - rewrite Hmap, length_map. lia.
  - rewrite Hends. intros x y Hx Hy. apply kept_joined. by apply Hspans'.
  - intros sel cost Hsome Hlensel Hsp Hcalc.
    destruct (mapM_is_Some_2 (edgeAt edges) sel) as [X HX].
    { apply Forall_forall. intros i Hi. by apply Hsome. }
    rewrite calculateTotalCost_spec, HX in Hcalc. injection Hcalc as <-.
    apply mapM_Some_1 in HX. rewrite Hw.
    apply (kept_minimal n sorted X); [lia | apply sortByWeight_sorted | done | | |].
    + intros e He. apply sorted_members. clear -HX He.
      induction HX as [| i e' sel X Hi _ IH]; [by apply elem_of_nil in He |].
      apply elem_of_cons in He as [-> | He]; [by eapply edgeAt_elem | by apply IH].
    + rewrite <- Hlensel. symmetry. by eapply Forall2_length.
    + replace (map ends X) with (endsAt edges sel); [done |].
      clear -HX. unfold endsAt.
      induction HX as [| i e' sel X Hi _ IH]; [done |].
      simpl. rewrite Hi. simpl. f_equal. exact IH.
Qed.

(** *** The generated network *)

Lemma elem_of_pairsOf n cost e :
  e ∈ pairsOf n cost ↔
  ∃ i j, i < j ∧ j < n
    ∧ e = {| from := i; to := j; weight := cost i j + 1;
             isSelected := false; isInMST := false |}.
Proof.
  unfold pairsOf. rewrite list_elem_of_bind. split.
  - intros (i & He & Hi). apply list_elem_of_fmap in He as (j & -> & Hj).
    apply elem_of_seq in Hi, Hj. exists i, j. split_and!; [lia | lia | done].
  - intros (i & j & Hij & Hj & ->). exists i. split.
    + apply list_elem_of_fmap. exists j. split; [done |].
      apply elem_of_seq. lia.
    + apply elem_of_seq. lia.
Qed.

Lemma pairsOf_inRange n cost : Forall (inRange n) (pairsOf n cost).
Proof.
  apply Forall_forall. intros e He.
  apply elem_of_pairsOf in He as (i & j & Hij & Hj & ->).
  split; simpl; lia.
Qed.

Lemma pairsOf_ends n cost a b :
  (a, b) ∈ map ends (pairsOf n cost) ↔ a < b ∧ b < n.
Proof.
  rewrite list_elem_of_In, in_map_iff. split.
  - intros (e & He & Hin). apply list_elem_of_In, elem_of_pairsOf in Hin
      as (i & j & Hij & Hj & ->). unfold ends in He. simpl in He.
    by simplify_eq.
  - intros [Hab Hb]. eexists. split; [| apply list_elem_of_In, elem_of_pairsOf;
      exists a, b; split_and!; done]. done.
Qed.

Lemma pairsOf_spans n cost : spans n (map ends (pairsOf n cost)).
Proof.
  intros x y Hx Hy.
  destruct (Nat.lt_trichotomy x y) as [Hlt | [-> | Hlt]].
  - apply joined_edge, pairsOf_ends. lia.
  - apply joined_refl.
  - apply joined_sym, joined_edge, pairsOf_ends. lia.
Qed.

Lemma pairsOf_NoDup n cost : NoDup (map ends (pairsOf n cost)).
Proof.
  apply (NoDup_fmap_2_strong ends).
  - intros e1 e2 H1 H2 He.
    apply elem_of_pairsOf in H1 as (i1 & j1 & _ & _ & ->).
    apply elem_of_pairsOf in H2 as (i2 & j2 & _ & _ & ->).
    unfold ends in He. simpl in He. by simplify_eq.
  - unfold pairsOf. apply NoDup_bind.
    + intros i1 i2 e _ _ H1 H2.
      apply list_elem_of_fmap in H1 as (j1 & -> & _).
      apply list_elem_of_fmap in H2 as (j2 & He & _). by simplify_eq.
    + intros i _. apply NoDup_fmap_2; [| apply NoDup_seq].
      intros j1 j2 He. by simplify_eq.
    + apply NoDup_seq.
Qed.

(** *** Selections *)

Lemma elem_of_toggle i j sel :
  j ∈ toggle i sel ↔ (j ≠ i ∧ j ∈ sel) ∨ (j = i ∧ i ∉ sel).
Proof.
  unfold toggle. case_bool_decide as Hin.
  - rewrite list_elem_of_In, filter_In, <- list_elem_of_In, negb_true_iff,
      Z.eqb_neq. split; [intros [? ?]; by left |].
    intros [[? ?] | [_ ?]]; done.
  - rewrite elem_of_app, list_elem_of_singleton. split.
    + intros [? | ->]; [left | right]; [| done]. split; [| done]. by intros ->.
    + intros [[? ?] | [? ?]]; [by left | by right].
Qed.

Lemma NoDup_filter_bool {A} (f : A → bool) (l : list A) :
  NoDup l → NoDup (List.filter f l).
Proof.
  induction 1 as [| a l Ha _ IH]; simpl; [constructor |].
  destruct (f a); [| done]. constructor; [| done].
  intros Hin. apply Ha. by apply list_elem_of_In, filter_In in Hin
    as [?%list_elem_of_In _].
Qed.

Lemma toggle_NoDup i sel : NoDup sel → NoDup (toggle i sel).
Proof.
  intros Hnd. unfold toggle. case_bool_decide as Hin.
  - by apply NoDup_filter_bool.
  - apply NoDup_app. split_and!; [done | | apply NoDup_singleton].
    intros j Hj Hi. apply list_elem_of_singleton in Hi. by subst.
Qed.

Lemma toggle_twice i sel : NoDup sel → toggle i (toggle i sel) ≡ₚ sel.
Proof.
  intros Hnd. unfold toggle at 2. case_bool_decide as Hin.
  - unfold toggle. rewrite bool_decide_eq_false_2.
    2: { rewrite list_elem_of_In, filter_In, negb_true_iff, Z.eqb_neq.
         intros [_ ?]. done. }
    clear -Hnd Hin. induction Hnd as [| a l Ha Hnd IH]; [by apply elem_of_nil in Hin |].
    simpl. apply elem_of_cons in Hin as [<- | Hin].
    + rewrite Z.eqb_refl. simpl. rewrite filter_all.
      * by rewrite Permutation_app_comm.
      * intros j Hj. apply negb_true_iff, Z.eqb_neq. by intros ->.
    + destruct (a =? i)%Z eqn:E; [apply Z.eqb_eq in E; by subst |].
      simpl. by rewrite IH.
  - unfold toggle. rewrite bool_decide_eq_true_2 by (apply elem_of_app; right; by left).
    rewrite List.filter_app. simpl. rewrite Z.eqb_refl. simpl.
    rewrite app_nil_r, filter_all; [done |].
    intros j Hj. apply negb_true_iff, Z.eqb_neq. by intros ->.
Qed.

Definition weightAt (edges : list Edge) (i : Z) : nat :=
  from_option weight 0 (edgeAt edges i).

Lemma calculateTotalCost_valid edges sel :
  (∀ i, i ∈ sel → is_Some (edgeAt edges i)) →
  calculateTotalCost edges sel = Done (sum_list_with (weightAt edges) sel).
Proof.
  intros Hsome. rewrite calculateTotalCost_spec.
  induction sel as [| i sel IH]; [done |].
  destruct (Hsome i) as [e He]; [by left |].
  simpl. rewrite He. simpl.
  destruct (mapM (edgeAt edges) sel) as [X |] eqn:HX; simpl.
  - f_equal. unfold weightAt at 1. rewrite He. simpl.
    assert (Done (totalWeight X) = Done (sum_list_with (weightAt edges) sel))
      as [= <-]; [| done].
    apply IH. intros j Hj. apply Hsome. by right.
  - exfalso. assert (H : @Thrown nat = Done (sum_list_with (weightAt edges) sel));
      [| done]. apply IH. intros j Hj. apply Hsome. by right.
Qed.

Lemma calculateTotalCost_invalid edges sel :
  ¬ (∀ i, i ∈ sel → is_Some (edgeAt edges i)) →
  calculateTotalCost edges sel = Thrown.
Proof.
  intros Hno. rewrite calculateTotalCost_spec.
  destruct (mapM (edgeAt edges) sel) as [X |] eqn:HX; [| done].
  destruct Hno. intros i Hi.
  assert (Hall : Forall (is_Some ∘ edgeAt edges) sel).
  { apply mapM_is_Some_1. by exists X. }
  rewrite Forall_forall in Hall. by apply Hall.
Qed.

Lemma endsAt_elem edges sel p :
  p ∈ endsAt edges sel ↔ ∃ i e, i ∈ sel ∧ edgeAt edges i = Some e ∧ ends e = p.
Proof.
  unfold endsAt. rewrite list_elem_of_omap. split.
  - intros (i & Hi & He). destruct (edgeAt edges i) as [e |] eqn:E; [| done].
    simpl in He. injection He as <-. eauto.
  - intros (i & e & Hi & He & <-). exists i. by rewrite He.
Qed.

Lemma spanningSelection_perm n edges sel sel' :
  sel ≡ₚ sel' → spanningSelection n edges sel → spanningSelection n edges sel'.
Proof.
  intros Hp (Hnd & Hsome & Hlen & Hsp). split_and!.
  - by rewrite <- Hp.
  - intros i Hi. apply Hsome. by rewrite Hp.
  - by rewrite <- Hp.
  - intros x y Hx Hy. eapply joined_same_members; [| by apply Hsp].
    intros p. rewrite !endsAt_elem. by setoid_rewrite Hp.
Qed.

(** *** The game *)

(** What every state of the game satisfies. *)
Record Sound (fuel : nat) (s : State) : Prop := {
  sound_nodes : nodeCount s = 5 ∨ nodeCount s = 6;
  sound_edges : ∃ cost, edges s = pairsOf (nodeCount s) cost;
  sound_distinct : NoDup (selectedEdges s);
  sound_valid : ∀ i, i ∈ selectedEdges s → is_Some (edgeAt (edges s) i);
  sound_cost :
    totalCost s = sum_list_with (weightAt (edges s)) (selectedEdges s);
  sound_complete :
    isComplete s = true ↔
    spanningSelection (nodeCount s) (edges s) (selectedEdges s);
  sound_mst :
    findMST fuel (nodeCount s) (edges s) = Done (mstEdges s, mstCost s)
}.

Lemma sound_small fuel s : Sound fuel s → length (edges s) ≤ 15.
Proof.
  intros [Hn [cost He] _ _ _ _ _]. rewrite He.
  destruct Hn as [-> | ->]; vm_compute; lia.
Qed.

Lemma sound_inRange fuel s : Sound fuel s → Forall (inRange (nodeCount s)) (edges s).
Proof. intros [_ [cost ->] _ _ _ _ _]. apply pairsOf_inRange. Qed.

Lemma sound_spans fuel s :
  Sound fuel s → spans (nodeCount s) (map ends (edges s)).
Proof. intros [_ [cost ->] _ _ _ _ _]. apply pairsOf_spans. Qed.

Lemma edgeAt_is_Some edges i :
  is_Some (edgeAt edges i) ↔ (0 ≤ i < Z.of_nat (length edges))%Z.
Proof.
  unfold edgeAt. case_bool_decide as H.
  - rewrite lookup_lt_is_Some. lia.
  - split; [by intros [? ?] | lia].
Qed.

Lemma first_sound fuel isMobile cost :
  15 < fuel →
  ∃ s, whenEdgesChange fuel (generateNetwork isMobile cost) = Done s
    ∧ Sound fuel s.
Proof.
  intros Hfuel. set (g := generateNetwork isMobile cost).
  assert (Hlen : length (edges g) = 10 ∨ length (edges g) = 15).
  { destruct isMobile; [left | right]; reflexivity. }
  destruct (findMST_stores (nodeCount g) (edges g) fuel)
    as (m & c & Hf & _); [apply pairsOf_inRange | lia |].
  unfold whenEdgesChange, storeMST.
  replace (length (edges g) =? 0) with false
    by (destruct Hlen as [-> | ->]; done).
  rewrite Hf. simpl. eexists. split; [done |].
  split; simpl.
  - destruct isMobile; [by left | by right].
  - by exists cost.
  - constructor.
  - intros i Hi. by apply elem_of_nil in Hi.
  - done.
  - split; [done |]. intros (_ & _ & Hl & _). destruct isMobile; done.
  - done.
Qed.

Lemma step_sound fuel s a :
  15 < fuel → Sound fuel s → hits s a →
  ∃ s', step fuel s a = Done s' ∧ Sound fuel s'.
Proof.
  intros Hfuel HS Hhit.
  pose proof (sound_small _ _ HS) as Hsmall.
  pose proof (sound_inRange _ _ HS) as Hrange.
  destruct a as [isMobile cost | i | |]; simpl.
  - by apply first_sound.
  - unfold handleCanvasClick. destruct (i =? -1)%Z eqn:E; [by exists s |].
    apply Z.eqb_neq in E. simpl in Hhit.
    set (sel := toggle i (selectedEdges s)).
    assert (Hvalid : ∀ j, j ∈ sel → is_Some (edgeAt (edges s) j)).
    { intros j Hj. apply elem_of_toggle in Hj as [[_ Hj] | [-> _]].
      - by apply (sound_valid _ _ HS).
      - apply edgeAt_is_Some. lia. }
    rewrite (calculateTotalCost_valid _ _ Hvalid). simpl.
    destruct (checkSpanningTree_correct fuel (nodeCount s) (edges s) sel)
      as (b & -> & Hb); [done | done | |].
    { destruct (sound_nodes _ _ HS) as [-> | ->]; lia. }
    simpl. eexists. split; [done |].
    destruct HS as [Hn He Hnd _ _ _ Hm]. split; simpl; try done.
    + by apply toggle_NoDup.
    + rewrite Hb. unfold spanningSelection.
      pose proof (toggle_NoDup i _ Hnd). fold sel in H.
      split; [intros (? & ? & ?); done |].
      intros (? & ? & ? & ?). split_and!; [| done..].
      destruct Hn as [-> | ->]; lia.
  - unfold showMSTSolution, storeMST. rewrite (sound_mst _ _ HS). simpl.
    eexists. split; [done |]. destruct HS. split; done.
  - eexists. split; [done |]. destruct HS as [Hn He _ _ _ _ Hm].
    split; simpl; try done.
    + constructor.
    + intros i Hi. by apply elem_of_nil in Hi.
    + split; [done |]. intros (_ & _ & Hl & _). simpl in Hl.
      destruct Hn as [Hn | Hn]; rewrite Hn in Hl; done.
Qed.

Lemma reachable_sound fuel s : 15 < fuel → reachable fuel s → Sound fuel s.
Proof.
  intros Hfuel. induction 1 as [isMobile cost s Hs | s a s' _ IH Hhit Hstep].
  - destruct (first_sound fuel isMobile cost Hfuel) as (s0 & Hs0 & HS).
    rewrite Hs in Hs0. by simplify_eq.
  - destruct (step_sound fuel s a Hfuel IH Hhit) as (s0 & Hs0 & HS).
    rewrite Hstep in Hs0. by simplify_eq.
Qed.

(** A first network of five nodes, the weight of the edge [i]-[j] being
    [i * j + 1], with the solution stored. *)
Definition fiveNodes : State :=
  match whenEdgesChange 16 (generateNetwork true Nat.mul) with
  | Done s => s
  | _ => generateNetwork true Nat.mul
  end.

Lemma fiveNodes_reachable : reachable 16 fiveNodes.
Proof. by apply (reachable_first 16 true Nat.mul). Qed.

(** [checkSpanningTree] answers [true] exactly for a selection of
    [nodes.length - 1] edges that reaches every node, whatever the order of
    the selection; with a selected index that is no edge it throws, unless
    the size is wrong, which it tests first. *)
Theorem spanning_check_decides fuel n edges sel :
  Forall (inRange n) edges → n ≤ fuel →
  (length sel ≠ n - 1 ∨ n = 0 → checkSpanningTree fuel n edges sel = Done false)
  ∧ ((∀ i, i ∈ sel → is_Some (edgeAt edges i)) →
     ∃ b, checkSpanningTree fuel n edges sel = Done b
       ∧ (b = true ↔ 1 ≤ n ∧ length sel = n - 1 ∧ spans n (endsAt edges sel))
       ∧ ∀ sel', sel ≡ₚ sel' → checkSpanningTree fuel n edges sel' = Done b)
  ∧ (1 ≤ n → length sel = n - 1 →
     ¬ (∀ i, i ∈ sel → is_Some (edgeAt edges i)) →
     checkSpanningTree fuel n edges sel = Thrown).
Proof.
  intros Hall Hfuel. split_and!.
  - intros Hsize. unfold checkSpanningTree.
    replace (Z.of_nat (length sel) =? Z.of_nat n - 1)%Z with false; [done |].
    symmetry. apply Z.eqb_neq. lia.
  - intros Hsome.
    destruct (checkSpanningTree_correct fuel n edges sel Hall Hsome Hfuel)
      as (b & Hb & Hiff).
    exists b. split_and!; [done.. |]. intros sel' Hp.
    destruct (checkSpanningTree_correct fuel n edges sel' Hall) as (b' & Hb' & Hiff');
      [intros i Hi; apply Hsome; by rewrite Hp | done |].
    rewrite Hb'. f_equal.
    assert (Hsame : b' = true ↔ b = true).
    { rewrite Hiff, Hiff'.
      assert (Hl : length sel' = length sel) by by rewrite Hp.
      assert (Hsp : spans n (endsAt edges sel') ↔ spans n (endsAt edges sel)).
      { split; intros Hs x y Hx Hy; (eapply joined_same_members; [| by apply Hs]);
          intros p; rewrite !endsAt_elem; by setoid_rewrite Hp. }
      rewrite Hsp, Hl. done. }
    destruct b, b'; intuition congruence.
  - intros Hn Hlen Hno. unfold checkSpanningTree.
    replace (Z.of_nat (length sel) =? Z.of_nat n - 1)%Z with true
      by (symmetry; apply Z.eqb_eq; lia).
    simpl.
    assert (Hthrow : ∀ l adj0,
      ¬ (∀ i, i ∈ l → is_Some (edgeAt edges i)) → length adj0 = n →
      foldl (connect edges) (Done adj0) l = Thrown).
    { clear -Hall. induction l as [| i l IH]; intros adj0 Hno Hlen.
      - destruct Hno. intros i Hi. by apply elem_of_nil in Hi.
      - simpl. destruct (edgeAt edges i) as [e |] eqn:He; simpl.
        + assert (Hr : inRange n e).
          { rewrite Forall_forall in Hall. by eapply Hall, edgeAt_elem. }
          destruct Hr as [Hf Ht].
          destruct (lookup_lt_is_Some_2 adj0 (from e)) as [lf ->]; [lia |].
          simpl.
          destruct (lookup_lt_is_Some_2 (<[from e := lf ++ [to e]]> adj0) (to e))
            as [lt ->]; [rewrite length_insert; lia |].
          simpl. apply IH; [| by rewrite !length_insert].
          intros Hl. apply Hno. intros j Hj.
          apply elem_of_cons in Hj as [-> | Hj]; [by rewrite He | by apply Hl].
        + clear. induction l as [| j l IH]; [done | exact IH]. }
    rewrite (Hthrow sel (replicate n [])); [done | done | apply length_replicate].
Qed.

Lemma spanning_check_decides_witness :
  checkSpanningTree 3 3 threeNodes [0; 2]%Z = Done true
  ∧ checkSpanningTree 3 3 threeNodes [2; 0]%Z = Done true
  ∧ checkSpanningTree 3 3 threeNodes [0]%Z = Done false
  ∧ checkSpanningTree 3 3 threeNodes [0; 7]%Z = Thrown.
Proof.
  destruct (spanning_check_decides 3 3 threeNodes [0; 2]%Z)
    as (_ & H2 & _); [repeat constructor | lia |].
  destruct (spanning_check_decides 3 3 threeNodes [0]%Z)
    as (H1 & _ & _); [repeat constructor | lia |].
  destruct (spanning_check_decides 3 3 threeNodes [0; 7]%Z)
    as (_ & _ & H3); [repeat constructor | lia |].
  destruct H2 as (b & Hb & _ & Hperm).
  { intros i Hi. apply edgeAt_is_Some. simpl.
    repeat (apply elem_of_cons in Hi as [-> | Hi]; [lia |]).
    by apply elem_of_nil in Hi. }
  assert (b = true) as ->.
  { vm_compute in Hb. by injection Hb as <-. }
  split_and!.
  - exact Hb.
  - apply Hperm. apply Permutation_swap.
  - apply H1. left. simpl. lia.
  - apply H3; [lia | done |]. intros Hall.
    destruct (Hall 7%Z) as [e He]; [by right; left | done].
Defined.

(** No action of the game faults: from the first network on, a new
    network, a click on an edge or beside all of them, and the two buttons
    return normally. *)
Theorem game_never_faults fuel :
  15 < fuel →
  (∀ isMobile cost,
     ∃ s, whenEdgesChange fuel (generateNetwork isMobile cost) = Done s)
  ∧ ∀ s a, reachable fuel s → hits s a → ∃ s', step fuel s a = Done s'.
Proof.
  intros Hfuel. split.
  - intros isMobile cost.
    destruct (first_sound fuel isMobile cost Hfuel) as (s & Hs & _). eauto.
  - intros s a Hr Hhit.
    destruct (step_sound fuel s a Hfuel (reachable_sound _ _ Hfuel Hr) Hhit)
      as (s' & Hs' & _). eauto.
Qed.

Lemma game_never_faults_witness :
  ∃ s', step 16 fiveNodes (Click 3) = Done s'.
Proof.
  destruct (game_never_faults 16) as [_ H]; [lia |].
  apply H; [apply fiveNodes_reachable | simpl; lia].
Defined.

(** In every state of the game the displayed cost is the cost of the
    selection, and the game reports completion exactly when the selection is
    made of [nodes.length - 1] distinct edges that reach every node. *)
Theorem complete_means_spanning_tree fuel s :
  15 < fuel → reachable fuel s →
  calculateTotalCost (edges s) (selectedEdges s) = Done (totalCost s)
  ∧ (isComplete s = true ↔
     spanningSelection (nodeCount s) (edges s) (selectedEdges s)).
Proof.
  intros Hfuel Hr. pose proof (reachable_sound _ _ Hfuel Hr) as HS.
  split.
  - rewrite (calculateTotalCost_valid _ _ (sound_valid _ _ HS)).
    by rewrite (sound_cost _ _ HS).
  - apply (sound_complete _ _ HS).
Qed.

(** The states after clicks on the listed edges, one after the other. *)
Definition clickAll (fuel : nat) (s : State) (indices : list Z) : State :=
  foldl (λ s i, match handleCanvasClick fuel i s with
                | Done s' => s'
                | _ => s
                end) s indices.

(** [fiveNodes] after clicks on the four edges at node 0. *)
Definition fiveNodesTree : State := clickAll 16 fiveNodes [0; 1; 2; 3]%Z.

Lemma reachable_click fuel s i s' :
  reachable fuel s → (-1 ≤ i < Z.of_nat (length (edges s)))%Z →
  handleCanvasClick fuel i s = Done s' → reachable fuel s'.
Proof. intros Hr Hi Hs. by apply (reachable_step fuel s (Click i)). Qed.

Lemma fiveNodesTree_reachable : reachable 16 fiveNodesTree.
Proof.
  apply (reachable_click 16 (clickAll 16 fiveNodes [0; 1; 2]%Z) 3);
    [| split; [lia | vm_compute; reflexivity] | vm_compute; reflexivity].
  apply (reachable_click 16 (clickAll 16 fiveNodes [0; 1]%Z) 2);
    [| split; [lia | vm_compute; reflexivity] | vm_compute; reflexivity].
  apply (reachable_click 16 (clickAll 16 fiveNodes [0]%Z) 1);
    [| split; [lia | vm_compute; reflexivity] | vm_compute; reflexivity].
  apply (reachable_click 16 fiveNodes 0);
    [| split; [lia | vm_compute; reflexivity] | vm_compute; reflexivity].
  apply fiveNodes_reachable.
Qed.

Lemma complete_means_spanning_tree_witness :
  selectedEdges fiveNodesTree = [0; 1; 2; 3]%Z
  ∧ totalCost fiveNodesTree = 4 ∧ isComplete fiveNodesTree = true
  ∧ calculateTotalCost (edges fiveNodesTree) [0; 1; 2; 3]%Z = Done 4
  ∧ spanningSelection 5 (edges fiveNodesTree) [0; 1; 2; 3]%Z.
Proof.
  destruct (complete_means_spanning_tree 16 fiveNodesTree)
    as [Hcost Hiff]; [lia | apply fiveNodesTree_reachable |].
  split; [reflexivity |]. split; [reflexivity |]. split; [reflexivity |].
  split; [exact Hcost |]. apply Hiff. reflexivity.
Defined.

(** In every state of the game the stored solution is a selection the
    game's own check accepts, the optimal cost shown is its cost, and a
    completed selection never costs less. *)
Theorem optimal_cost_is_lower_bound fuel s :
  15 < fuel → reachable fuel s →
  spanningSelection (nodeCount s) (edges s) (mstEdges s)
  ∧ calculateTotalCost (edges s) (mstEdges s) = Done (mstCost s)
  ∧ checkSpanningTree fuel (nodeCount s) (edges s) (mstEdges s) = Done true
  ∧ (isComplete s = true → mstCost s ≤ totalCost s).
Proof.
  intros Hfuel Hr. pose proof (reachable_sound _ _ Hfuel Hr) as HS.
  pose proof (sound_small _ _ HS) as Hsmall.
  pose proof (sound_inRange _ _ HS) as Hrange.
  destruct (findMST_stores (nodeCount s) (edges s) fuel Hrange)
    as (m & c & Hf & Hnd & Hvalid & Hcost & Hmin); [lia |].
  rewrite (sound_mst _ _ HS) in Hf. injection Hf as <- <-.
  destruct (Hmin (sound_spans _ _ HS)) as (Hlen & Hsp & Hleast).
  assert (Hn : 1 ≤ nodeCount s ≤ 6).
  { destruct (sound_nodes _ _ HS) as [-> | ->]; lia. }
  split_and!.
  - split_and!; done.
  - done.
  - destruct (checkSpanningTree_correct fuel (nodeCount s) (edges s) (mstEdges s))
      as (b & -> & Hb); [done | done | lia |].
    f_equal. apply Hb. split_and!; [lia | done..].
  - intros Hc. apply (sound_complete _ _ HS) in Hc as (_ & Hv & Hl & Hs).
    apply (Hleast (selectedEdges s)); [done.. |].
    rewrite (calculateTotalCost_valid _ _ Hv). by rewrite (sound_cost _ _ HS).
Qed.

Lemma optimal_cost_is_lower_bound_witness :
  spanningSelection 5 (edges fiveNodes) (mstEdges fiveNodes)
  ∧ calculateTotalCost (edges fiveNodes) (mstEdges fiveNodes)
    = Done (mstCost fiveNodes)
  ∧ checkSpanningTree 16 5 (edges fiveNodes) (mstEdges fiveNodes) = Done true
  ∧ (isComplete fiveNodes = true → mstCost fiveNodes ≤ totalCost fiveNodes).
Proof.
  apply (optimal_cost_is_lower_bound 16 fiveNodes);
    [lia | apply fiveNodes_reachable].
Defined.

(** Clicking one edge twice gives back the selection (as a set: a
    re-selected edge moves to the end), the displayed cost and the
    completion flag; the first click selects the edge exactly when it was
    not selected. *)
Theorem click_twice_restores fuel s i :
  15 < fuel → reachable fuel s →
  (0 ≤ i < Z.of_nat (length (edges s)))%Z →
  ∃ s1 s2,
    handleCanvasClick fuel i s = Done s1
    ∧ handleCanvasClick fuel i s1 = Done s2
    ∧ (i ∈ selectedEdges s1 ↔ i ∉ selectedEdges s)
    ∧ selectedEdges s2 ≡ₚ selectedEdges s
    ∧ totalCost s2 = totalCost s
    ∧ isComplete s2 = isComplete s
    ∧ edges s2 = edges s ∧ mstEdges s2 = mstEdges s ∧ mstCost s2 = mstCost s.
Proof.
  intros Hfuel Hr Hi. pose proof (reachable_sound _ _ Hfuel Hr) as HS.
  destruct (step_sound fuel s (Click i) Hfuel HS) as (s1 & Hs1 & HS1);
    [simpl; lia |].
  assert (He1 : edges s1 = edges s ∧ selectedEdges s1 = toggle i (selectedEdges s)
                ∧ mstEdges s1 = mstEdges s ∧ mstCost s1 = mstCost s
                ∧ nodeCount s1 = nodeCount s).
  { simpl in Hs1. unfold handleCanvasClick in Hs1.
    replace (i =? -1)%Z with false in Hs1 by (symmetry; apply Z.eqb_neq; lia).
    destruct (calculateTotalCost _ _); simpl in Hs1; try done.
    destruct (checkSpanningTree _ _ _ _); simpl in Hs1; try done.
    by injection Hs1 as <-. }
  destruct He1 as (He1 & Hsel1 & Hm1 & Hc1 & Hn1).
  destruct (step_sound fuel s1 (Click i) Hfuel HS1) as (s2 & Hs2 & HS2);
    [simpl; rewrite He1; lia |].
  assert (He2 : edges s2 = edges s1 ∧ selectedEdges s2 = toggle i (selectedEdges s1)
                ∧ mstEdges s2 = mstEdges s1 ∧ mstCost s2 = mstCost s1
                ∧ nodeCount s2 = nodeCount s1).
  { simpl in Hs2. unfold handleCanvasClick in Hs2.
    replace (i =? -1)%Z with false in Hs2 by (symmetry; apply Z.eqb_neq; lia).
    destruct (calculateTotalCost _ _); simpl in Hs2; try done.
    destruct (checkSpanningTree _ _ _ _); simpl in Hs2; try done.
    by injection Hs2 as <-. }
  destruct He2 as (He2 & Hsel2 & Hm2 & Hc2 & Hn2).
  assert (Hperm : selectedEdges s2 ≡ₚ selectedEdges s).
  { rewrite Hsel2, Hsel1. apply toggle_twice, (sound_distinct _ _ HS). }
  exists s1, s2. split_and!; [done | done | | done | | | congruence..].
  - rewrite Hsel1, elem_of_toggle. split; [intros [[? _] | [_ ?]]; done |].
    intros ?. by right.
  - rewrite (sound_cost _ _ HS2), (sound_cost _ _ HS), He2, He1.
    by rewrite Hperm.
  - assert (Hiff : isComplete s2 = true ↔ isComplete s = true).
    { rewrite (sound_complete _ _ HS2), (sound_complete _ _ HS), He2, He1, Hn2, Hn1.
      split; apply spanningSelection_perm; done. }
    destruct (isComplete s2), (isComplete s); intuition congruence.
Qed.

Lemma click_twice_restores_witness :
  ∃ s1 s2,
    handleCanvasClick 16 3 fiveNodes = Done s1
    ∧ handleCanvasClick 16 3 s1 = Done s2
    ∧ (3%Z ∈ selectedEdges s1 ↔ 3%Z ∉ selectedEdges fiveNodes)
    ∧ selectedEdges s2 ≡ₚ selectedEdges fiveNodes
    ∧ totalCost s2 = totalCost fiveNodes
    ∧ isComplete s2 = isComplete fiveNodes
    ∧ edges s2 = edges fiveNodes ∧ mstEdges s2 = mstEdges fiveNodes
    ∧ mstCost s2 = mstCost fiveNodes.
Proof.
  apply (click_twice_restores 16 fiveNodes 3);
    [lia | apply fiveNodes_reachable | simpl; lia].
Defined.

(** [generateNetwork] builds the complete graph on five or six nodes: every
    pair [a < b] of nodes is joined by exactly one edge, stored from [a] to
    [b]; every weight is at least 1; nothing is selected. *)
Theorem generated_network_is_complete isMobile cost :
  let s := generateNetwork isMobile cost in
  nodeCount s = (if isMobile then 5 else 6)
  ∧ length (edges s) = nodeCount s * (nodeCount s - 1) / 2
  ∧ NoDup (map ends (edges s))
  ∧ (∀ a b, (a, b) ∈ map ends (edges s) ↔ a < b ∧ b < nodeCount s)
  ∧ (∀ e, e ∈ edges s → 1 ≤ weight e ∧ weight e = cost (from e) (to e) + 1)
  ∧ selectedEdges s = [] ∧ isComplete s = false ∧ totalCost s = 0.
Proof.
  intros s. split_and!; try done.
  - by destruct isMobile.
  - apply pairsOf_NoDup.
  - intros a b. apply pairsOf_ends.
  - intros e He. apply elem_of_pairsOf in He as (i & j & _ & _ & ->).
    simpl. lia.
Qed.

End NetworkGameSpec.

(** ** Graph colouring: the game *)

Module ColoringGameSpec.
Import GraphColoring GraphColoringSpec ColoringGame.

(** *** [generateGraph] *)

Definition key (a b : nat) : nat * nat := (a `min` b, a `max` b).

Lemma key_eq a b c d :
  key a b = key c d ↔ (a = c ∧ b = d) ∨ (a = d ∧ b = c).
Proof. unfold key. split; [intros [= ? ?] | intros [[-> ->] | [-> ->]]; f_equal]; lia. Qed.

(** What the loops of [generateGraph] keep true of their variables. *)
Record Built (n : nat) (b : Build) : Prop := {
  built_length : length (newNodes b) = n;
  built_blank : ∀ i node, newNodes b !! i = Some node →
    id node = i ∧ color node = (-1)%Z;
  built_keys : ∀ a c, (a, c) ∈ edgeSet b → a < c ∧ c < n;
  built_neighbors : ∀ i node k, newNodes b !! i = Some node →
    k ∈ neighbors node ↔ k ≠ i ∧ key i k ∈ edgeSet b;
  built_distinct : ∀ i node, newNodes b !! i = Some node →
    NoDup (neighbors node);
  built_edges : ∀ a c,
    (a, c) ∈ newEdges b ∨ (c, a) ∈ newEdges b ↔ a ≠ c ∧ key a c ∈ edgeSet b
}.

Lemma addEdge_Built n b from to :
  Built n b → from < n → to < n → from ≠ to →
  ∃ b', addEdge (Done b) from to = Done b' ∧ Built n b'
    ∧ (key from to ∈ edgeSet b') ∧ edgeSet b ⊆ edgeSet b'.
Proof.
  intros [Hlen Hblank Hkeys Hnb Hnd Hed] Hf Ht Hne. unfold addEdge. simpl.
  fold (key from to). case_decide as Hin.
  { exists b. split_and!; done. }
  destruct (lookup_lt_is_Some_2 (newNodes b) from) as [nf Hnf]; [lia |].
  rewrite Hnf. simpl.
  destruct (lookup_lt_is_Some_2 (newNodes b) to) as [nt Hnt]; [lia |].
  rewrite list_lookup_insert_ne by done. rewrite Hnt. simpl.
  eexists. split; [done |]. split_and!; [| set_solver | set_solver].
  assert (Hlook : ∀ i node,
    <[to := pushNeighbor from nt]> (<[from := pushNeighbor to nf]> (newNodes b)) !! i
      = Some node →
    ∃ old, newNodes b !! i = Some old ∧ id node = id old ∧ color node = color old
      ∧ neighbors node =
          neighbors old ++ (if decide (i = from) then [to]
                            else if decide (i = to) then [from] else [])).
  { intros i node Hi. destruct (decide (i = to)) as [-> | Hit].
    - rewrite list_lookup_insert_eq in Hi by (rewrite length_insert; lia).
      simplify_eq. exists nt. case_decide; [congruence | done].
    - rewrite list_lookup_insert_ne in Hi by done.
      destruct (decide (i = from)) as [-> | Hif].
      + rewrite list_lookup_insert_eq in Hi by lia. simplify_eq.
        exists nf. done.
      + rewrite list_lookup_insert_ne in Hi by done.
        exists node. by rewrite app_nil_r. }
  split; simpl.
  - by rewrite !length_insert.
  - intros i node Hi. destruct (Hlook i node Hi) as (old & Hold & -> & -> & _).
    by apply Hblank.
  - intros a c Hac. apply elem_of_union in Hac as [Hac | Hac]; [| by apply Hkeys].
    apply elem_of_singleton in Hac. unfold key in Hac. simplify_eq. lia.
  - intros i node k Hi. destruct (Hlook i node Hi) as (old & Hold & _ & _ & ->).
    rewrite elem_of_app, (Hnb i old k Hold), elem_of_union, elem_of_singleton,
      key_eq.
    repeat case_decide; subst; rewrite ?list_elem_of_singleton, ?elem_of_nil;
      naive_solver.
  - intros i node Hi. destruct (Hlook i node Hi) as (old & Hold & _ & _ & ->).
    pose proof (Hnd i old Hold) as Hndo.
    repeat case_decide; subst; rewrite ?app_nil_r; try done;
      (apply NoDup_app; split_and!; [done | | apply NoDup_singleton]);
      intros k Hk Hk'; apply list_elem_of_singleton in Hk'; subst;
      apply (Hnb _ _ _ Hold) in Hk as [_ Hk]; apply Hin.
    + done.
    + replace (key from to) with (key to from); [done |].
      apply key_eq. by right.
  - intros a c. rewrite !elem_of_app, !list_elem_of_singleton, elem_of_union,
      elem_of_singleton, key_eq.
    specialize (Hed a c). split.
    + intros [[H | H] | [H | H]]; simplify_eq; try (split; [done | left; tauto]);
        try (split; [done | left; tauto]).
      * split; [tauto | right; tauto].
      * split; [tauto | right; tauto].
    + intros [Hac [[[-> ->] | [-> ->]] | H]]; [tauto | tauto |].
      destruct (proj2 Hed (conj Hac H)); tauto.
Qed.

Lemma ring_next n i j :
  3 ≤ n → i < n → j = 1 ∨ j = 2 →
  (i + j) `mod` n < n ∧ (i + j) `mod` n ≠ i.
Proof.
  intros Hn Hi Hj. split; [apply Nat.mod_upper_bound; lia |].
  destruct (decide (i + j < n)) as [Hlt | Hge].
  - rewrite Nat.mod_small by done. lia.
  - replace (i + j) with ((i + j - n) + 1 * n) by lia.
    rewrite Nat.Div0.mod_add, Nat.mod_small by lia. lia.
Qed.

Lemma ring_Built n b :
  3 ≤ n → Built n b →
  ∃ b', ring n (Done b) = Done b' ∧ Built n b' ∧ edgeSet b ⊆ edgeSet b'
    ∧ ∀ i j, i < n → j = 1 ∨ j = 2 → key i ((i + j) `mod` n) ∈ edgeSet b'.
Proof.
  intros Hn. unfold ring.
  assert (Hgen : ∀ l b, Built n b → (∀ i, i ∈ l → i < n) →
    ∃ b', foldl (fun b i =>
             foldl (fun b j => addEdge b i ((i + j) `mod` n)) b [1; 2])
           (Done b) l = Done b'
      ∧ Built n b' ∧ edgeSet b ⊆ edgeSet b'
      ∧ ∀ i j, i ∈ l → j = 1 ∨ j = 2 → key i ((i + j) `mod` n) ∈ edgeSet b').
  { clear b. induction l as [| i l IH]; intros b Hb Hl.
    - exists b. split_and!; [done.. |]. intros i j Hi. by apply elem_of_nil in Hi.
    - assert (Hi : i < n) by (apply Hl; by left).
      destruct (ring_next n i 1 Hn Hi) as [H1 H1']; [by left |].
      destruct (ring_next n i 2 Hn Hi) as [H2 H2']; [by right |].
      destruct (addEdge_Built n b i ((i + 1) `mod` n) Hb Hi H1)
        as (b1 & Hb1 & HB1 & Hk1 & Hs1); [done |].
      destruct (addEdge_Built n b1 i ((i + 2) `mod` n) HB1 Hi H2)
        as (b2 & Hb2 & HB2 & Hk2 & Hs2); [done |].
      destruct (IH b2 HB2) as (b' & Hb' & HB' & Hs' & Hk').
      { intros k Hk. apply Hl. by right. }
      exists b'. split_and!; [| done | set_solver |].
      + cbn [foldl]. rewrite Hb1, Hb2. exact Hb'.
      + intros k j Hk Hj. apply elem_of_cons in Hk as [-> | Hk]; [| by apply Hk'].
        destruct Hj as [-> | ->]; set_solver. }
  intros Hb. destruct (Hgen (seq 0 n) b Hb) as (b' & Hb' & HB' & Hs & Hk).
  { intros i Hi. apply elem_of_seq in Hi. lia. }
  exists b'. split_and!; [done.. |]. intros i j Hi Hj. apply Hk; [| done].
  apply elem_of_seq. lia.
Qed.

Lemma randomEdges_Built n count draw b :
  (∀ i, (draw i).1 < n ∧ (draw i).2 < n) → Built n b →
  ∃ b', randomEdges count draw (Done b) = Done b' ∧ Built n b'
    ∧ edgeSet b ⊆ edgeSet b'.
Proof.
  intros Hdraw. unfold randomEdges. revert b.
  induction (seq 0 count) as [| i l IH]; intros b Hb.
  - exists b. split_and!; done.
  - cbn [foldl]. destruct (Hdraw i) as [Hf Ht].
    destruct (draw i) as [from to] eqn:Hd. cbn [fst snd] in Hf, Ht.
    case_decide as E.
    + apply IH, Hb.
    + destruct (addEdge_Built n b from to Hb Hf Ht E) as (b1 & Hb1 & HB1 & _ & Hs1).
      destruct (IH b1 HB1) as (b' & Hb' & HB' & Hs').
      exists b'. rewrite Hb1. split_and!; [done | done | set_solver].
Qed.

Lemma start_Built n : Built n (blank n).
Proof.
  split; simpl.
  - by rewrite length_fmap, length_seq.
  - intros i node Hi. rewrite list_lookup_fmap in Hi.
    destruct (seq 0 n !! i) as [k |] eqn:Hk; [| done].
    apply lookup_seq in Hk as [-> _]. simpl in Hi. by simplify_eq.
  - intros a c Hac. set_solver.
  - intros i node k Hi. rewrite list_lookup_fmap in Hi.
    destruct (seq 0 n !! i) as [k' |]; [| done]. simpl in Hi. simplify_eq.
    simpl. rewrite elem_of_nil. set_solver.
  - intros i node Hi. rewrite list_lookup_fmap in Hi.
    destruct (seq 0 n !! i) as [k' |]; [| done]. simpl in Hi. simplify_eq.
    constructor.
  - intros a c. rewrite !elem_of_nil. set_solver.
Qed.

(** A generated graph: what [Built] means for the nodes alone. *)
Record Generated (n : nat) (ns : list Node) : Prop := {
  gen_length : length ns = n;
  gen_ids : ∀ i node, ns !! i = Some node → id node = i;
  gen_graph : isGraph ns;
  gen_distinct : ∀ i node, ns !! i = Some node → NoDup (neighbors node);
}.

Lemma Built_Generated n b : Built n b → Generated n (newNodes b).
Proof.
  intros [Hlen Hblank Hkeys Hnb Hnd Hed]. split; [done | | | done].
  - intros i node Hi. by apply Hblank.
  - intros i node k Hi Hk. apply (Hnb _ _ _ Hi) in Hk as [Hne Hk].
    split; [done |].
    assert (Hkn : k < n).
    { apply Hkeys in Hk. lia. }
    destruct (lookup_lt_is_Some_2 (newNodes b) k) as [other Ho]; [lia |].
    exists other. split; [done |]. apply (Hnb _ _ _ Ho). split; [done |].
    replace (key k i) with (key i k); [done |]. apply key_eq. by right.
Qed.

Lemma Generated_degree n ns :
  Generated n ns → maxDegree ns + 1 ≤ n ∨ ns = [].
Proof.
  intros [Hlen Hids Hg Hnd]. destruct ns as [| n0 ns']; [by right |]. left.
  set (ns := n0 :: ns') in *.
  assert (Hall : ∀ d, d ∈ (fun node => length (neighbors node)) <$> ns → d + 1 ≤ n).
  { intros d Hd. apply list_elem_of_fmap in Hd as (node & -> & Hin).
    apply list_elem_of_lookup in Hin as [i Hi].
    assert (Hsub : i :: neighbors node ⊆+ seq 0 n).
    { apply NoDup_submseteq.
      - constructor; [| by eapply Hnd].
        intros Hin. by destruct (Hg i node i Hi Hin).
      - intros k Hk. apply elem_of_seq.
        apply elem_of_cons in Hk as [-> | Hk].
        + apply lookup_lt_Some in Hi. lia.
        + destruct (Hg i node k Hi Hk) as (_ & other & Ho & _).
          apply lookup_lt_Some in Ho. lia. }
    apply submseteq_length in Hsub. rewrite length_seq in Hsub. simpl in Hsub. lia. }
  unfold maxDegree.
  assert (Hmax : ∀ l, l ≠ [] → (∀ d, d ∈ l → d + 1 ≤ n) → max_list l + 1 ≤ n).
  { clear. induction l as [| d l IH]; [done |]. intros _ Hl. simpl.
    destruct l as [| d' l'].
    - simpl. specialize (Hl d ltac:(left)). lia.
    - assert (max_list (d' :: l') + 1 ≤ n).
      { apply IH; [done |]. intros x Hx. apply Hl. by right. }
      specialize (Hl d ltac:(left)). lia. }
  apply Hmax; [done | done].
Qed.

(** *** [checkConflicts] *)

Lemma colorAt_Some ns k nk : ns !! k = Some nk → colorAt ns k = color nk.
Proof. intros H. unfold colorAt. by rewrite H. Qed.

Lemma clash_spec ns node ks : ∀ acc,
  (∀ k, k ∈ ks → is_Some (ns !! k)) →
  ∃ C, foldl (clash ns node) (Done acc) ks = Done C
    ∧ ∀ i, i ∈ C ↔
        i ∈ acc ∨ ∃ k, k ∈ ks ∧ colorAt ns k = color node
                       ∧ (i = id node ∨ i = k).
Proof.
  induction ks as [| k ks IH]; intros acc Hks.
  - exists acc. split; [done |]. intros i. split; [by left |].
    intros [? | (k & Hk & _)]; [done | by apply elem_of_nil in Hk].
  - cbn [foldl]. unfold clash at 2. cbn [mbind run_bind].
    destruct (Hks k) as [nk Hnk]; [by left |]. rewrite Hnk.
    cbn [mbind run_bind of_option].
    assert (Hks' : ∀ k', k' ∈ ks → is_Some (ns !! k'))
      by (intros k' Hk'; apply Hks; by right).
    rewrite <- (colorAt_Some _ _ _ Hnk).
    destruct (Z.eqb_spec (colorAt ns k) (color node)) as [E | E].
    + destruct (IH ({[id node]} ∪ ({[k]} ∪ acc)) Hks') as (C & -> & HC).
      exists C. split; [done |]. intros i.
      rewrite HC, !elem_of_union, !elem_of_singleton. split.
      * intros [[-> | [-> | ?]] | (k' & Hk' & ? & ?)].
        -- right. exists k. split_and!; [by left | done | by left].
        -- right. exists k. split_and!; [by left | done | by right].
        -- by left.
        -- right. exists k'. split_and!; [by right | done..].
      * intros [? | (k' & Hk' & Hc & Hi)]; [left; by right; right |].
        apply elem_of_cons in Hk' as [-> | Hk'].
        -- left. destruct Hi as [-> | ->]; [by left | by right; left].
        -- right. eauto.
    + destruct (IH acc Hks') as (C & -> & HC). exists C. split; [done |].
      intros i. rewrite HC. split.
      * intros [? | (k' & Hk' & ? & ?)]; [by left |].
        right. exists k'. split_and!; [by right | done..].
      * intros [? | (k' & Hk' & Hc & Hi)]; [by left |].
        apply elem_of_cons in Hk' as [-> | Hk']; [done |]. right. eauto.
Qed.

Lemma conflictsOf_spec ns l : ∀ acc,
  (∀ node k, node ∈ l → color node ≠ (-1)%Z → k ∈ neighbors node →
     is_Some (ns !! k)) →
  ∃ C, foldl (λ newConflicts node,
                if (color node =? -1)%Z then newConflicts
                else foldl (clash ns node) newConflicts (neighbors node))
         (Done acc) l = Done C
    ∧ ∀ i, i ∈ C ↔
        i ∈ acc ∨ ∃ node k, node ∈ l ∧ color node ≠ (-1)%Z
                    ∧ k ∈ neighbors node ∧ colorAt ns k = color node
                    ∧ (i = id node ∨ i = k).
Proof.
  induction l as [| node l IH]; intros acc Hl.
  - exists acc. split; [done |]. intros i. split; [by left |].
    intros [? | (node & k & Hn & _)]; [done | by apply elem_of_nil in Hn].
  - cbn [foldl].
    assert (Hl' : ∀ node' k, node' ∈ l → color node' ≠ (-1)%Z →
              k ∈ neighbors node' → is_Some (ns !! k)).
    { intros node' k Hn. apply Hl. by right. }
    destruct (Z.eqb_spec (color node) (-1)) as [E | E].
    + destruct (IH acc Hl') as (C & -> & HC). exists C. split; [done |].
      intros i. rewrite HC. split.
      * intros [? | (node' & k & Hn & ?)]; [by left |].
        right. exists node', k. split; [by right | done].
      * intros [? | (node' & k & Hn & Hc & ?)]; [by left |].
        apply elem_of_cons in Hn as [-> | Hn]; [done |]. right. eauto.
    + destruct (clash_spec ns node (neighbors node) acc) as (C1 & -> & HC1).
      { intros k Hk. apply (Hl node); [by left | done | done]. }
      destruct (IH C1 Hl') as (C & -> & HC). exists C. split; [done |].
      intros i. rewrite HC, HC1. split.
      * intros [[? | (k & Hk & ? & ?)] | (node' & k & Hn & ?)].
        -- by left.
        -- right. exists node, k. split_and!; [by left | done..].
        -- right. exists node', k. split; [by right | done].
      * intros [? | (node' & k & Hn & Hc & Hk & ?)]; [by left; left |].
        apply elem_of_cons in Hn as [-> | Hn].
        -- left. right. exists k. done.
        -- right. exists node', k. done.
Qed.

(** The node list of a game: ids are indices, neighbours are mutual and
    never the node itself. *)
Definition wellFormed (ns : list Node) : Prop :=
  (∀ i node, ns !! i = Some node → id node = i) ∧ isGraph ns.

Lemma conflictsOf_wellFormed ns :
  wellFormed ns →
  ∃ C, conflictsOf ns = Done C ∧ ∀ i, i ∈ C ↔ inConflict ns i.
Proof.
  intros [Hids Hg]. unfold conflictsOf.
  destruct (conflictsOf_spec ns ns ∅) as (C & -> & HC).
  { intros node k Hn _ Hk. apply list_elem_of_lookup in Hn as [j Hj].
    destruct (Hg j node k Hj Hk) as (_ & other & -> & _). done. }
  exists C. split; [done |]. intros i. rewrite HC. split.
  - intros [? | (node & k & Hn & Hc & Hk & Hcol & Hi)]; [set_solver |].
    apply list_elem_of_lookup in Hn as [j Hj].
    pose proof (Hids j node Hj) as Hid.
    pose proof (colorAt_Some _ _ _ Hj) as Hcj.
    destruct (Hg j node k Hj Hk) as (_ & other & Ho & Hsym).
    destruct Hi as [-> | ->].
    + rewrite Hid. split; [by rewrite Hcj |].
      exists node, k. split_and!; [done | done | congruence].
    + split; [congruence |]. exists other, j. split_and!; [done | done | congruence].
  - intros (Hc & node & k & Hi & Hk & Hcol). right.
    exists node, k. pose proof (colorAt_Some _ _ _ Hi) as Hci.
    split_and!; [by eapply list_elem_of_lookup_2 | congruence | done | congruence |].
    left. symmetry. by apply Hids.
Qed.

Lemma checkConflicts_spec ns s :
  wellFormed ns →
  ∃ s', checkConflicts ns s = Done s'
    ∧ nodes s' = nodes s
    ∧ (∀ i, i ∈ conflicts s' ↔ inConflict ns i)
    ∧ (isComplete s' = true ↔ properColoring ns)
    ∧ colorsUsed s' =
        (if isComplete s' then size (list_to_set (color <$> ns) : gset Z)
         else colorsUsed s).
Proof.
  intros Hwf. unfold checkConflicts.
  destruct (conflictsOf_wellFormed ns Hwf) as (C & -> & HC).
  cbn [mbind run_bind].
  assert (Hall : forallb (fun node => negb (color node =? -1)%Z) ns = true ↔
                 ∀ i, i < length ns → colorAt ns i ≠ (-1)%Z).
  { rewrite forallb_forall. split.
    - intros H i Hi. destruct (lookup_lt_is_Some_2 ns i Hi) as [node Hn].
      rewrite (colorAt_Some _ _ _ Hn).
      specialize (H node). rewrite negb_true_iff, Z.eqb_neq in H.
      apply H, list_elem_of_In. by eapply list_elem_of_lookup_2.
    - intros H node Hn. apply list_elem_of_In, list_elem_of_lookup in Hn as [i Hi].
      rewrite negb_true_iff, Z.eqb_neq, <- (colorAt_Some _ _ _ Hi).
      apply H. by eapply lookup_lt_Some. }
  assert (Hnone : bool_decide (size C = 0) = true ↔ ∀ i, ¬ inConflict ns i).
  { rewrite bool_decide_eq_true, size_empty_iff. split.
    - intros HE i Hi. apply HC in Hi. set_solver.
    - intros H. apply set_equiv. intros i. rewrite HC. set_solver. }
  destruct (forallb _ ns && bool_decide (size C = 0)) eqn:E.
  - eexists. split; [done |]. simpl. split_and!; [done | done | | done].
    split; [| done]. intros _. apply andb_true_iff in E as [E1 E2].
    split; [by apply Hall | by apply Hnone].
  - eexists. split; [done |]. simpl. split_and!; [done | done | | done].
    split; [done |]. intros [H1 H2].
    apply Hall in H1. apply Hnone in H2. rewrite H1, H2 in E. done.
Qed.

(** *** The game *)

Lemma Generated_recolor n ns ns' :
  Generated n ns → id <$> ns' = id <$> ns → neighbors <$> ns' = neighbors <$> ns →
  Generated n ns'.
Proof.
  intros [Hlen Hids Hg Hnd] Hid Hnb.
  assert (Hsame : ∀ i node', ns' !! i = Some node' →
            ∃ node, ns !! i = Some node ∧ id node' = id node
                    ∧ neighbors node' = neighbors node).
  { intros i node' Hi.
    pose proof (f_equal (.!! i) Hid) as H1.
    pose proof (f_equal (.!! i) Hnb) as H2.
    rewrite !list_lookup_fmap, Hi in H1. rewrite !list_lookup_fmap, Hi in H2.
    simpl in *.
    destruct (ns !! i) as [node |]; [| done]. simpl in *. simplify_eq. eauto. }
  assert (Hback : ∀ i node, ns !! i = Some node → is_Some (ns' !! i)).
  { intros i node Hi. apply lookup_lt_is_Some.
    apply (f_equal length) in Hid. rewrite !length_fmap in Hid. rewrite Hid.
    by eapply lookup_lt_Some. }
  split.
  - apply (f_equal length) in Hid. rewrite !length_fmap in Hid. lia.
  - intros i node' Hi. destruct (Hsame i node' Hi) as (node & Hn & -> & _).
    by apply Hids.
  - intros i node' k Hi Hk. destruct (Hsame i node' Hi) as (node & Hn & _ & Hnbs).
    rewrite Hnbs in Hk. destruct (Hg i node k Hn Hk) as (Hne & other & Ho & Hsym).
    split; [done |]. destruct (Hback k other Ho) as [other' Ho'].
    exists other'. split; [done |].
    destruct (Hsame k other' Ho') as (o & Ho2 & _ & ->). by simplify_eq.
  - intros i node' Hi. destruct (Hsame i node' Hi) as (node & Hn & _ & ->).
    by eapply Hnd.
Qed.

Lemma Generated_wellFormed n ns : Generated n ns → wellFormed ns.
Proof. intros [? ? ? ?]. by split. Qed.

Lemma colorNode_ids ns i ns' :
  colorNode (Done ns) i = Done ns' → id <$> ns' = id <$> ns.
Proof.
  unfold colorNode. cbn [mbind run_bind].
  destruct (ns !! i) as [node |] eqn:Hi; [| done]. cbn [mbind run_bind of_option].
  destruct (foldl _ _ _) as [used | |]; [| done..]. cbn [mbind run_bind].
  destruct (firstFree used) as [c |]; intros [= <-]; [| done].
  rewrite list_fmap_insert. simpl. apply list_insert_id.
  by rewrite list_lookup_fmap, Hi.
Qed.

Lemma greedy_ids n0 ns : greedy n0 = Done ns → id <$> ns = id <$> n0.
Proof.
  unfold greedy.
  assert (Hgen : ∀ l ns0, foldl colorNode (Done ns0) l = Done ns →
            id <$> ns = id <$> ns0).
  { induction l as [| i l IH]; intros ns0 H; [by injection H as -> |].
    cbn [foldl] in H. destruct (colorNode (Done ns0) i) as [ns1 | |] eqn:E.
    - rewrite (IH _ H). by eapply colorNode_ids.
    - exfalso. clear -H. induction l as [| j l IH]; [done | by apply IH].
    - exfalso. clear -H. induction l as [| j l IH]; [done | by apply IH]. }
  intros H. rewrite (Hgen _ _ H), <- list_fmap_compose. done.
Qed.

(** What every state of the game satisfies. *)
Record Fair (g : Game) : Prop := {
  fair_nodes : ∃ n, (n = 6 ∨ n = 8) ∧ Generated n (nodes (board g));
  fair_palette : ∀ i,
    colorAt (nodes (board g)) i = (-1)%Z
    ∨ (0 ≤ colorAt (nodes (board g)) i < 8)%Z;
  fair_pick : selectedColor g < paletteSize;
  fair_conflicts : ∀ i,
    i ∈ conflicts (board g) ↔ inConflict (nodes (board g)) i;
  fair_complete :
    isComplete (board g) = true ↔ properColoring (nodes (board g))
}.

Lemma generateGraph_spec (isMobile : bool) draw g :
  (∀ i, (draw i).1 < (if isMobile then 6 else 8)
        ∧ (draw i).2 < (if isMobile then 6 else 8)) →
  ∃ b, build isMobile draw = Done b
    ∧ Built (if isMobile then 6 else 8) b
    ∧ (∀ i j, i < (if isMobile then 6 else 8) → j = 1 ∨ j = 2 →
         key i ((i + j) `mod` (if isMobile then 6 else 8)) ∈ edgeSet b)
    ∧ generateGraph isMobile draw g =
        Done {| board := {| nodes := newNodes b; conflicts := ∅;
                            isComplete := false; colorsUsed := 0 |};
                edges := newEdges b; selectedColor := selectedColor g;
                gameStarted := false |}.
Proof.
  intros Hdraw. unfold generateGraph, build.
  set (n := if isMobile then 6 else 8) in *.
  assert (Hn : 3 ≤ n) by (unfold n; destruct isMobile; lia).
  destruct (ring_Built n _ Hn (start_Built n)) as (b1 & Hb1 & HB1 & _ & Hring).
  destruct (randomEdges_Built n (if isMobile then 2 else 3) draw b1 Hdraw HB1)
    as (b & Hb & HB & Hsub).
  exists b. rewrite Hb1, Hb. split_and!; [done | done | | done].
  intros i j Hi Hj. by apply Hsub, Hring.
Qed.

Lemma colorAt_blank ns i :
  (∀ j node, ns !! j = Some node → color node = (-1)%Z) → colorAt ns i = (-1)%Z.
Proof.
  intros H. unfold colorAt. destruct (ns !! i) as [node |] eqn:E; [| done].
  by eapply H.
Qed.

Lemma blank_Fair n ns pick :
  (n = 6 ∨ n = 8) → Generated n ns → pick < paletteSize →
  (∀ j node, ns !! j = Some node → color node = (-1)%Z) →
  Fair {| board := {| nodes := ns; conflicts := ∅; isComplete := false;
                      colorsUsed := 0 |};
          edges := []; selectedColor := pick; gameStarted := false |}
  ∧ ∀ es started,
      Fair {| board := {| nodes := ns; conflicts := ∅; isComplete := false;
                          colorsUsed := 0 |};
              edges := es; selectedColor := pick; gameStarted := started |}.
Proof.
  intros Hn HG Hpick Hblank.
  assert (H : ∀ es started,
      Fair {| board := {| nodes := ns; conflicts := ∅; isComplete := false;
                          colorsUsed := 0 |};
              edges := es; selectedColor := pick; gameStarted := started |}).
  { intros es started. split; simpl.
    - eauto.
    - intros i. left. by apply colorAt_blank.
    - done.
    - intros i. split; [set_solver |]. intros [Hc _].
      by rewrite colorAt_blank in Hc.
    - split; [done |]. intros [Hall _]. destruct (Hall 0).
      + rewrite (gen_length _ _ HG). lia.
      + by apply colorAt_blank. }
  split; apply H.
Qed.

Lemma step_Fair g a :
  Fair g → offered g a → ∃ g', step g a = Done g' ∧ Fair g'.
Proof.
  intros HF Hoff. pose proof HF as [(n & Hn & HG) Hpal Hpick Hconf Hcomp].
  destruct a as [isMobile draw | [clicked |] | index | |]; simpl in *.
  - destruct (generateGraph_spec isMobile draw g Hoff) as (b & _ & HB & _ & ->).
    eexists. split; [done |].
    apply (blank_Fair (if isMobile then 6 else 8)); [| by apply Built_Generated | done |].
    + destruct isMobile; [by left | by right].
    + intros j node Hj. by apply (built_blank _ _ HB j).
  - apply list_elem_of_lookup in Hoff as [j Hj].
    pose proof (gen_ids _ _ HG j clicked Hj) as Hid.
    unfold handleCanvasClick. rewrite Hid, Hj. cbn [mbind run_bind of_option].
    set (ns' := <[j := setColor (Z.of_nat (selectedColor g)) clicked]> (nodes (board g))).
    assert (HG' : Generated n ns').
    { apply (Generated_recolor n (nodes (board g))); [done | |]; unfold ns';
        rewrite list_fmap_insert; simpl; apply list_insert_id;
        by rewrite list_lookup_fmap, Hj. }
    destruct (checkConflicts_spec ns'
                {| nodes := ns'; conflicts := conflicts (board g);
                   isComplete := isComplete (board g);
                   colorsUsed := colorsUsed (board g) |})
      as (st & -> & Hnodes & Hc & Hcpl & _); [by eapply Generated_wellFormed |].
    cbn [mbind run_bind]. eexists. split; [done |]. simpl in Hnodes.
    split; simpl; rewrite ?Hnodes; [by exists n | | done | done | done].
    intros i. unfold ns'. rewrite colorAt_insert by (by eapply lookup_lt_Some).
    case_decide; [| apply Hpal]. right. simpl. unfold paletteSize in Hpick. lia.
  - by exists g.
  - eexists. split; [done |]. split; simpl; [by exists n | done..].
  - unfold pressAutoSolve, autoSolve.
    destruct (Generated_degree n _ HG) as [Hdeg | Hnil].
    2: { pose proof (gen_length _ _ HG) as Hl. rewrite Hnil in Hl. simpl in Hl. lia. }
    destruct (greedy_spec (nodes (board g))) as (ns' & Hgr & HC);
      [apply (gen_graph _ _ HG) | unfold paletteSize; lia |].
    rewrite Hgr. cbn [mbind run_bind].
    assert (HG' : Generated n ns').
    { apply (Generated_recolor n (nodes (board g)));
        [done | by apply greedy_ids | apply (col_neighbors _ _ _ HC)]. }
    destruct (checkConflicts_spec ns'
                {| nodes := ns'; conflicts := conflicts (board g);
                   isComplete := isComplete (board g);
                   colorsUsed := colorsUsed (board g) |})
      as (st & -> & Hnodes & Hc & Hcpl & _); [by eapply Generated_wellFormed |].
    cbn [mbind run_bind]. eexists. split; [done |]. simpl in Hnodes.
    split; simpl; rewrite ?Hnodes; [by exists n | | done | done | done].
    intros i. destruct (decide (i < length ns')) as [Hi | Hi].
    + right. apply (col_done _ _ _ HC); [| done].
      rewrite (gen_length _ _ HG'), <- (gen_length _ _ HG) in Hi. done.
    + left. unfold colorAt. rewrite lookup_ge_None_2; [done | lia].
  - eexists. split; [done |].
    assert (HG' : Generated n (setColor (-1) <$> nodes (board g))).
    { apply (Generated_recolor n (nodes (board g))); [done | |];
        by rewrite <- list_fmap_compose. }
    apply (blank_Fair n); [done | done | done |].
    intros j node Hj. rewrite list_lookup_fmap in Hj.
    destruct (nodes (board g) !! j); [| done]. simpl in Hj. by simplify_eq.
Qed.

Lemma first_Fair isMobile draw g :
  offered initial (NewGraph isMobile draw) →
  generateGraph isMobile draw initial = Done g → Fair g.
Proof.
  intros Hoff Hg. simpl in Hoff.
  destruct (generateGraph_spec isMobile draw initial Hoff) as (b & _ & HB & _ & Hgen).
  rewrite Hgen in Hg. injection Hg as <-.
  apply (blank_Fair (if isMobile then 6 else 8));
    [| by apply Built_Generated | simpl; unfold paletteSize; lia |].
  - destruct isMobile; [by left | by right].
  - intros j node Hj. by apply (built_blank _ _ HB j).
Qed.

Lemma reachable_Fair g : reachable g → Fair g.
Proof.
  induction 1 as [isMobile draw g Hoff Hg | g a g' _ IH Hoff Hstep].
  - by eapply first_Fair.
  - destruct (step_Fair g a IH Hoff) as (g0 & Hg0 & HF).
    rewrite Hstep in Hg0. by simplify_eq.
Qed.

(** [generateGraph] returns normally, whatever the random draws below the
    node count.  The graph has six or eight nodes, whose ids are their
    indices, all uncoloured; the neighbour lists are without repetition,
    mutual and free of the node itself, and list exactly the nodes an edge
    of [edges] joins to the node, among them the next two nodes of the
    ring; the largest degree plus one is at most the palette size. *)
Theorem generated_graph_is_colourable (isMobile : bool) draw g :
  (∀ i, (draw i).1 < (if isMobile then 6 else 8)
        ∧ (draw i).2 < (if isMobile then 6 else 8)) →
  let n := if isMobile then 6 else 8 in
  ∃ g', generateGraph isMobile draw g = Done g'
    ∧ length (nodes (board g')) = n
    ∧ (∀ i node, nodes (board g') !! i = Some node →
         id node = i ∧ color node = (-1)%Z ∧ NoDup (neighbors node)
         ∧ (∀ k, k ∈ neighbors node ↔ (i, k) ∈ edges g' ∨ (k, i) ∈ edges g')
         ∧ (i + 1) `mod` n ∈ neighbors node
         ∧ (i + 2) `mod` n ∈ neighbors node)
    ∧ isGraph (nodes (board g'))
    ∧ maxDegree (nodes (board g')) + 1 ≤ paletteSize
    ∧ conflicts (board g') = ∅ ∧ isComplete (board g') = false
    ∧ selectedColor g' = selectedColor g.
Proof.
  intros Hdraw n.
  destruct (generateGraph_spec isMobile draw g Hdraw) as (b & _ & HB & Hring & ->).
  fold n in HB, Hring. eexists. split; [done |]. simpl.
  pose proof (Built_Generated _ _ HB) as HG.
  assert (Hn : 3 ≤ n ≤ 8) by (unfold n; destruct isMobile; lia).
  split_and!; try done.
  - apply (built_length _ _ HB).
  - intros i node Hi. pose proof (lookup_lt_Some _ _ _ Hi) as Hlt.
    rewrite (built_length _ _ HB) in Hlt.
    destruct (built_blank _ _ HB i node Hi) as [-> ->].
    split_and!; [done | done | by eapply (built_distinct _ _ HB) | | |].
    + intros k. rewrite (built_neighbors _ _ HB _ _ k Hi), (built_edges _ _ HB).
      intuition congruence.
    + apply (built_neighbors _ _ HB _ _ _ Hi).
      destruct (ring_next n i 1) as [_ ?]; [lia | done | by left |].
      split; [done |]. apply Hring; [done | by left].
    + apply (built_neighbors _ _ HB _ _ _ Hi).
      destruct (ring_next n i 2) as [_ ?]; [lia | done | by right |].
      split; [done |]. apply Hring; [done | by right].
  - apply (gen_graph _ _ HG).
  - destruct (Generated_degree _ _ HG) as [Hd | Hnil].
    + unfold paletteSize. lia.
    + pose proof (built_length _ _ HB) as Hl. rewrite Hnil in Hl. simpl in Hl. lia.
Qed.

Lemma generated_graph_is_colourable_witness :
  ∃ g', generateGraph true (fun i => (i `mod` 6, 3)) initial = Done g'
    ∧ length (nodes (board g')) = 6
    ∧ (∀ i node, nodes (board g') !! i = Some node →
         id node = i ∧ color node = (-1)%Z ∧ NoDup (neighbors node)
         ∧ (∀ k, k ∈ neighbors node ↔ (i, k) ∈ edges g' ∨ (k, i) ∈ edges g')
         ∧ (i + 1) `mod` 6 ∈ neighbors node
         ∧ (i + 2) `mod` 6 ∈ neighbors node)
    ∧ isGraph (nodes (board g'))
    ∧ maxDegree (nodes (board g')) + 1 ≤ paletteSize
    ∧ conflicts (board g') = ∅ ∧ isComplete (board g') = false
    ∧ selectedColor g' = selectedColor initial.
Proof.
  apply (generated_graph_is_colourable true (fun i => (i `mod` 6, 3)) initial).
  intros i. split; [apply Nat.mod_upper_bound; lia | simpl; lia].
Defined.

Lemma fold_thrown {A B} (f : run A → B → run A) (l : list B) :
  (∀ b, f Thrown b = Thrown) → foldl f Thrown l = Thrown.
Proof. intros H. induction l as [| b l IH]; [done |]. simpl. by rewrite H. Qed.

Lemma clash_never_timeout ns node ks acc :
  acc ≠ Timeout → foldl (clash ns node) acc ks ≠ Timeout.
Proof.
  revert acc. induction ks as [| k ks IH]; intros acc Hacc; [done |].
  cbn [foldl]. apply IH. unfold clash. destruct acc as [a | |]; [| done..].
  cbn [mbind run_bind]. destruct (ns !! k); [| done]. cbn [mbind run_bind of_option].
  by destruct (_ =? _)%Z.
Qed.

Lemma clash_thrown ns node ks acc k :
  k ∈ ks → ns !! k = None → acc ≠ Timeout →
  foldl (clash ns node) acc ks = Thrown.
Proof.
  revert acc. induction ks as [| k' ks IH]; intros acc Hk Hnone Hacc;
    [by apply elem_of_nil in Hk |].
  cbn [foldl]. apply elem_of_cons in Hk as [<- | Hk].
  - unfold clash at 2. destruct acc as [a | |]; [| | done].
    + cbn [mbind run_bind]. rewrite Hnone. cbn [mbind run_bind of_option].
      by apply fold_thrown.
    + by apply fold_thrown.
  - apply IH; [done | done |]. unfold clash. destruct acc as [a | |]; [| done..].
    cbn [mbind run_bind]. destruct (ns !! k'); [| done].
    cbn [mbind run_bind of_option]. by destruct (_ =? _)%Z.
Qed.

(** [checkConflicts] on a node list whose ids are the indices and whose
    neighbour lists are mutual and never hold the node itself: the new
    conflict set holds exactly the coloured nodes that have a neighbour of
    their colour; completion is reported exactly when every node is
    coloured and no node is in conflict, and only then is the number of
    colours counted again.  On any node list, a coloured node that lists a
    neighbour beyond the array makes it throw. *)
Theorem conflicts_are_reported ns s :
  (wellFormed ns →
   ∃ s', checkConflicts ns s = Done s'
     ∧ nodes s' = nodes s
     ∧ (∀ i, i ∈ conflicts s' ↔ inConflict ns i)
     ∧ (isComplete s' = true ↔ properColoring ns)
     ∧ colorsUsed s' =
         (if isComplete s' then size (list_to_set (color <$> ns) : gset Z)
          else colorsUsed s))
  ∧ (∀ node k, node ∈ ns → color node ≠ (-1)%Z → k ∈ neighbors node →
       ns !! k = None → checkConflicts ns s = Thrown).
Proof.
  split; [apply checkConflicts_spec |].
  intros node k Hn Hc Hk Hnone. unfold checkConflicts, conflictsOf.
  assert (Hgen : ∀ l acc, node ∈ l → acc ≠ Timeout →
    foldl (λ newConflicts node,
             if (color node =? -1)%Z then newConflicts
             else foldl (clash ns node) newConflicts (neighbors node))
      acc l = Thrown).
  { induction l as [| node' l IH]; intros acc Hin Hacc;
      [by apply elem_of_nil in Hin |].
    cbn [foldl]. apply elem_of_cons in Hin as [<- | Hin].
    - rewrite (proj2 (Z.eqb_neq _ _) Hc).
      rewrite (clash_thrown ns node (neighbors node) acc k Hk Hnone Hacc).
      apply fold_thrown. intros b. destruct (_ =? _)%Z; [done |].
      by apply fold_thrown.
    - apply IH; [done |]. destruct (_ =? _)%Z; [done |].
      by apply clash_never_timeout. }
  rewrite Hgen; done.
Qed.

(** The star with its centre and one leaf in colour 0, two leaves in
    colour 1 and one leaf uncoloured. *)
Definition clashingStar : list Node :=
  [ {| id := 0; color := 0; neighbors := [1; 2; 3; 4] |};
    {| id := 1; color := 0; neighbors := [0] |};
    {| id := 2; color := 1; neighbors := [0] |};
    {| id := 3; color := 1; neighbors := [0] |};
    {| id := 4; color := -1; neighbors := [0] |} ].

(** A coloured node that lists a neighbour the array does not hold. *)
Definition dangling : list Node :=
  [ {| id := 0; color := 0; neighbors := [3] |} ].

Lemma clashingStar_wellFormed : wellFormed clashingStar.
Proof.
  split.
  - intros i node Hi.
    do 5 (destruct i as [| i]; [by simplify_eq/= |]). done.
  - intros i node k Hi Hk.
    do 5 (destruct i as [|i];
          [ simplify_eq/=;
            repeat (apply elem_of_cons in Hk as [-> | Hk]);
            try (by inversion Hk);
            (split; [lia | eexists; split; [reflexivity | set_solver]])
          | ]).
    done.
Qed.

Lemma conflicts_are_reported_witness :
  (∃ s', checkConflicts clashingStar
           {| nodes := clashingStar; conflicts := ∅; isComplete := false;
              colorsUsed := 0 |} = Done s'
     ∧ (∀ i, i ∈ conflicts s' ↔ inConflict clashingStar i)
     ∧ 0 ∈ conflicts s' ∧ 1 ∈ conflicts s'
     ∧ 2 ∉ conflicts s' ∧ 4 ∉ conflicts s'
     ∧ isComplete s' = false)
  ∧ checkConflicts dangling
      {| nodes := dangling; conflicts := ∅; isComplete := false;
         colorsUsed := 0 |} = Thrown.
Proof.
  split.
  - destruct (conflicts_are_reported clashingStar
                {| nodes := clashingStar; conflicts := ∅; isComplete := false;
                   colorsUsed := 0 |}) as [H _].
    destruct (H clashingStar_wellFormed) as (s' & Hs' & _ & Hc & Hp & _).
    exists s'. split; [done |]. split; [done |].
    assert (H0 : inConflict clashingStar 0).
    { split; [done |]. eexists _, 1. split; [reflexivity |].
      split; [set_solver | reflexivity]. }
    assert (H1 : inConflict clashingStar 1).
    { split; [done |]. eexists _, 0. split; [reflexivity |].
      split; [set_solver | reflexivity]. }
    split_and!.
    + by apply Hc.
    + by apply Hc.
    + rewrite Hc. intros (_ & node & k & Hn & Hk & Hcol).
      simpl in Hn. injection Hn as <-. simpl in Hk.
      apply list_elem_of_singleton in Hk as ->. done.
    + rewrite Hc. by intros [Hcol _].
    + destruct (isComplete s') eqn:E; [| done].
      destruct (proj1 Hp eq_refl) as [_ Hno]. by destruct (Hno 0).
  - destruct (conflicts_are_reported dangling
                {| nodes := dangling; conflicts := ∅; isComplete := false;
                   colorsUsed := 0 |}) as [_ H].
    apply (H {| id := 0; color := 0; neighbors := [3] |} 3);
      [by left | done | by left | done].
Defined.

(** In every state of the game, whatever the page hands to a handler, the
    handler returns normally; the conflict set shown holds exactly the
    coloured nodes with a neighbour of their colour; "Perfect Coloring" is
    reported exactly when every node is coloured and no two neighbours share
    a colour; and every colour is [-1] or an index of the palette. *)
Theorem coloring_game_is_sound g :
  reachable g →
  (∀ a, offered g a → ∃ g', step g a = Done g')
  ∧ (∀ i, i ∈ conflicts (board g) ↔ inConflict (nodes (board g)) i)
  ∧ (isComplete (board g) = true ↔ properColoring (nodes (board g)))
  ∧ (∀ i, colorAt (nodes (board g)) i = (-1)%Z
          ∨ (0 ≤ colorAt (nodes (board g)) i < Z.of_nat paletteSize)%Z).
Proof.
  intros Hr. pose proof (reachable_Fair g Hr) as HF. split_and!.
  - intros a Ha. destruct (step_Fair g a HF Ha) as (g' & Hg' & _). eauto.
  - apply (fair_conflicts _ HF).
  - apply (fair_complete _ HF).
  - apply (fair_palette _ HF).
Qed.

(** A first graph of six nodes. *)
Definition sixNodes : Game :=
  match generateGraph true (fun i => (i `mod` 6, 3)) initial with
  | Done g => g
  | _ => initial
  end.

Lemma sixNodes_reachable : reachable sixNodes.
Proof.
  apply (reachable_first true (fun i => (i `mod` 6, 3))); [| done].
  intros i. split; [apply Nat.mod_upper_bound; lia | simpl; lia].
Qed.

Lemma coloring_game_is_sound_witness :
  (∀ a, offered sixNodes a → ∃ g', step sixNodes a = Done g')
  ∧ (∀ i, i ∈ conflicts (board sixNodes) ↔ inConflict (nodes (board sixNodes)) i)
  ∧ (isComplete (board sixNodes) = true
     ↔ properColoring (nodes (board sixNodes)))
  ∧ (∀ i, colorAt (nodes (board sixNodes)) i = (-1)%Z
          ∨ (0 ≤ colorAt (nodes (board sixNodes)) i < Z.of_nat paletteSize)%Z).
Proof. apply (coloring_game_is_sound sixNodes), sixNodes_reachable. Defined.

Lemma greedy_color_le_degree n0 ns j nj :
  Colored n0 (length n0) ns → ns !! j = Some nj →
  (0 ≤ color nj ≤ Z.of_nat (length (neighbors nj)))%Z.
Proof.
  intros HC Hj.
  assert (Hlen : length ns = length n0).
  { pose proof (f_equal length (col_neighbors _ _ _ HC)) as H.
    by rewrite !length_fmap in H. }
  pose proof (lookup_lt_Some _ _ _ Hj) as Hlt.
  destruct (col_done _ _ _ HC j) as [H0 _]; [lia | lia |].
  rewrite (colorAt_Some _ _ _ Hj) in H0. split; [done |].
  assert (Hsub : Z.of_nat <$> seq 0 (Z.to_nat (color nj))
                 ⊆+ colorAt ns <$> neighbors nj).
  { apply NoDup_submseteq.
    - apply NoDup_fmap; [apply _ | apply NoDup_seq].
    - intros c Hc. apply list_elem_of_fmap in Hc as (m & -> & Hm).
      apply elem_of_seq in Hm.
      destruct (col_least _ _ _ HC j nj (Z.of_nat m)) as (k & Hk & _ & Hkc);
        [lia | done | lia | lia |].
      apply list_elem_of_fmap. eauto. }
  apply submseteq_length in Hsub.
  rewrite !length_fmap, length_seq in Hsub. lia.
Qed.

(** From every state of the game [autoSolve] returns a perfect colouring:
    completion is reported, no node is in conflict, ids and neighbour lists
    are as before, and the number of colours used is at most the largest
    degree plus one.  The colours painted before do not matter: the result
    is the one [autoSolve] gives after [clearColors]. *)
Theorem auto_solve_is_perfect g :
  reachable g →
  ∃ g', pressAutoSolve g = Done g'
    ∧ isComplete (board g') = true
    ∧ conflicts (board g') = ∅
    ∧ properColoring (nodes (board g'))
    ∧ id <$> nodes (board g') = id <$> nodes (board g)
    ∧ neighbors <$> nodes (board g') = neighbors <$> nodes (board g)
    ∧ colorsUsed (board g') ≤ maxDegree (nodes (board g)) + 1
    ∧ colorsUsed (board g') ≤ paletteSize
    ∧ ∃ g'', pressAutoSolve (clearColors g) = Done g'' ∧ board g'' = board g'.
Proof.
  intros Hr. pose proof (reachable_Fair g Hr) as HF.
  pose proof HF as [(n & Hn & HG) _ _ _ _].
  destruct (Generated_degree n _ HG) as [Hdeg | Hnil].
  2: { pose proof (gen_length _ _ HG) as Hl. rewrite Hnil in Hl. simpl in Hl. lia. }
  assert (Hn8 : n ≤ 8) by lia.
  destruct (greedy_spec (nodes (board g))) as (ns' & Hgr & HC);
    [apply (gen_graph _ _ HG) | unfold paletteSize; lia |].
  pose proof (greedy_ids _ _ Hgr) as Hids.
  pose proof (col_neighbors _ _ _ HC) as Hnbs.
  assert (HG' : Generated n ns') by by eapply Generated_recolor.
  assert (Hlen : length ns' = length (nodes (board g))).
  { by rewrite (gen_length _ _ HG'), (gen_length _ _ HG). }
  assert (Hproper : properColoring ns').
  { split.
    - intros i Hi. destruct (col_done _ _ _ HC i) as [H0 _]; [lia | done | lia].
    - intros i (_ & node & k & Hi & Hk & Hcol).
      destruct (gen_graph _ _ HG' i node k Hi Hk) as (_ & other & Ho & _).
      apply (col_proper _ _ _ HC i k node); [| | done | done | done].
      + rewrite <- Hlen. by eapply lookup_lt_Some.
      + rewrite <- Hlen. by eapply lookup_lt_Some. }
  assert (Hsolve : ∀ st0, nodes st0 = ns' →
    ∃ st, checkConflicts ns' st0 = Done st
      ∧ st = {| nodes := ns'; conflicts := ∅; isComplete := true;
                colorsUsed := size (list_to_set (color <$> ns') : gset Z) |}).
  { intros st0 Hst0.
    destruct (checkConflicts_spec ns' st0) as (st & Hst & Hnodes & Hc & Hcpl & Hused);
      [by eapply Generated_wellFormed |].
    exists st. split; [done |].
    assert (Hcomplete : isComplete st = true) by by apply Hcpl.
    rewrite Hcomplete in Hused.
    assert (Hempty : conflicts st = ∅).
    { apply set_eq. intros i. rewrite Hc. destruct Hproper as [_ Hp].
      split; [intros Hi; by destruct (Hp i) | set_solver]. }
    destruct st; simpl in *. congruence. }
  unfold pressAutoSolve, autoSolve. rewrite Hgr. cbn [mbind run_bind].
  destruct (Hsolve {| nodes := ns'; conflicts := conflicts (board g);
                      isComplete := isComplete (board g);
                      colorsUsed := colorsUsed (board g) |} eq_refl)
    as (st & -> & ->).
  cbn [mbind run_bind]. eexists. split; [done |]. simpl.
  assert (Hused : size (list_to_set (color <$> ns') : gset Z)
                  ≤ maxDegree (nodes (board g)) + 1).
  { set (m := maxDegree (nodes (board g))).
    assert (Hsub : (list_to_set (color <$> ns') : gset Z)
                   ⊆ list_to_set (Z.of_nat <$> seq 0 (S m))).
    { intros c Hc. apply elem_of_list_to_set in Hc.
      apply list_elem_of_fmap in Hc as (node & -> & Hin).
      apply list_elem_of_lookup in Hin as [j Hj].
      pose proof (greedy_color_le_degree _ _ _ _ HC Hj) as Hle.
      destruct (neighbors_lookup _ _ _ _ Hnbs Hj) as (n0j & Hn0j & Hnbj).
      pose proof (degree_le_max _ _ _ Hn0j) as Hd. rewrite Hnbj in Hd.
      apply elem_of_list_to_set, list_elem_of_fmap.
      exists (Z.to_nat (color node)). split; [lia |]. apply elem_of_seq. lia. }
    apply subseteq_size in Hsub.
    assert (Hl : size (list_to_set (Z.of_nat <$> seq 0 (S m)) : gset Z) = S m).
    { rewrite size_list_to_set.
      - by rewrite length_fmap, length_seq.
      - apply NoDup_fmap; [apply _ | apply NoDup_seq]. }
    lia. }
  split_and!; [done | done | done | done | done | done | unfold paletteSize; lia |].
  simpl.
  assert (Hgr' : greedy (setColor (-1) <$> nodes (board g)) = Done ns').
  { unfold greedy in *. rewrite <- list_fmap_compose, length_fmap.
    rewrite length_fmap in Hgr. exact Hgr. }
  rewrite Hgr'. cbn [mbind run_bind].
  destruct (Hsolve {| nodes := ns'; conflicts := ∅; isComplete := false;
                      colorsUsed := 0 |} eq_refl) as (st & -> & ->).
  eexists. split; done.
Qed.

Lemma auto_solve_is_perfect_witness :
  ∃ g', pressAutoSolve sixNodes = Done g'
    ∧ isComplete (board g') = true
    ∧ conflicts (board g') = ∅
    ∧ properColoring (nodes (board g'))
    ∧ id <$> nodes (board g') = id <$> nodes (board sixNodes)
    ∧ neighbors <$> nodes (board g') = neighbors <$> nodes (board sixNodes)
    ∧ colorsUsed (board g') ≤ maxDegree (nodes (board sixNodes)) + 1
    ∧ colorsUsed (board g') ≤ paletteSize
    ∧ ∃ g'', pressAutoSolve (clearColors sixNodes) = Done g''
             ∧ board g'' = board g'.
Proof. apply (auto_solve_is_perfect sixNodes), sixNodes_reachable. Defined.

Lemma checkConflicts_again ns s s' :
  nodes s = ns → checkConflicts ns s = Done s' →
  checkConflicts ns
    {| nodes := ns; conflicts := conflicts s'; isComplete := isComplete s';
       colorsUsed := colorsUsed s' |} = Done s'.
Proof.
  intros Hns. unfold checkConflicts.
  destruct (conflictsOf ns) as [C | |]; [| done..]. cbn [mbind run_bind].
  destruct (_ && _); intros [= <-]; simpl; by rewrite Hns.
Qed.

(** Painting a node changes the colour of that node alone.  If no
    neighbour of the node has the selected colour, the node is not in
    conflict afterwards; a node that is neither the painted one nor a
    neighbour of it is in conflict afterwards exactly when it was before;
    and painting the node again with the same colour changes nothing. *)
Theorem painting_is_local g clicked :
  reachable g → clicked ∈ nodes (board g) →
  let c := Z.of_nat (selectedColor g) in
  ∃ g', handleCanvasClick (Some clicked) g = Done g'
    ∧ nodes (board g') = <[id clicked := setColor c clicked]> (nodes (board g))
    ∧ selectedColor g' = selectedColor g ∧ edges g' = edges g
    ∧ ((∀ k, k ∈ neighbors clicked → colorAt (nodes (board g)) k ≠ c) →
       id clicked ∉ conflicts (board g'))
    ∧ (∀ i node, nodes (board g) !! i = Some node →
         i ≠ id clicked → id clicked ∉ neighbors node →
         i ∈ conflicts (board g') ↔ i ∈ conflicts (board g))
    ∧ ∃ g'', handleCanvasClick (Some (setColor c clicked)) g' = Done g''
             ∧ board g'' = board g'.
Proof.
  intros Hr Hin c. pose proof (reachable_Fair g Hr) as HF.
  pose proof HF as [(n & Hn & HG) _ _ Hconf _].
  apply list_elem_of_lookup in Hin as [j Hj].
  pose proof (gen_ids _ _ HG j clicked Hj) as Hid. rewrite Hid.
  pose proof (lookup_lt_Some _ _ _ Hj) as Hlt.
  set (ns := nodes (board g)) in *.
  set (ns' := <[j := setColor c clicked]> ns).
  assert (HG' : Generated n ns').
  { apply (Generated_recolor n ns); [done | |]; unfold ns';
      rewrite list_fmap_insert; simpl; apply list_insert_id;
      by rewrite list_lookup_fmap, Hj. }
  set (st0 := {| nodes := ns'; conflicts := conflicts (board g);
                 isComplete := isComplete (board g);
                 colorsUsed := colorsUsed (board g) |}).
  destruct (checkConflicts_spec ns' st0)
    as (st & Hst & Hnodes & Hc & _); [by eapply Generated_wellFormed |].
  simpl in Hnodes.
  assert (Hcol : ∀ k, colorAt ns' k = if decide (j = k) then c else colorAt ns k).
  { intros k. unfold ns'. by rewrite colorAt_insert. }
  exists {| board := st; edges := edges g; selectedColor := selectedColor g;
            gameStarted := true |}.
  split_and!; simpl; try done.
  - unfold handleCanvasClick. rewrite Hid. fold ns. rewrite Hj.
    cbn [mbind run_bind of_option]. fold c. fold ns'. fold st0.
    rewrite Hst. reflexivity.
  - intros Hfree. rewrite Hc. intros (_ & node & k & Hi & Hk & Hsame).
    unfold ns' in Hi. rewrite list_lookup_insert_eq in Hi by done.
    injection Hi as <-. simpl in Hk.
    destruct (gen_graph _ _ HG j clicked k Hj Hk) as (Hne & _).
    rewrite (Hcol k), (Hcol j) in Hsame.
    repeat case_decide; try congruence. by apply (Hfree k).
  - intros i node Hi Hne Hnot. rewrite Hc. unfold ns in Hconf. rewrite Hconf.
    fold ns. unfold inConflict. rewrite (Hcol i).
    destruct (decide (j = i)) as [? | _]; [congruence |].
    unfold ns'. rewrite list_lookup_insert_ne by done.
    split; intros (Hcl & node' & k & Hi' & Hk & Hsame);
      (split; [done |]); exists node', k; (split_and!; [done | done |]);
      assert (j ≠ k) by (intros ->; simplify_eq; done).
    + fold ns' in Hsame. rewrite (Hcol k) in Hsame. by case_decide.
    + fold ns'. rewrite (Hcol k). by case_decide.
  - unfold handleCanvasClick. simpl. rewrite Hid, Hnodes.
    unfold ns'. rewrite list_lookup_insert_eq by done.
    cbn [mbind run_bind of_option]. fold ns'.
    replace (<[j := setColor (Z.of_nat (selectedColor g)) (setColor c clicked)]> ns')
      with ns'.
    2: { unfold ns'. by rewrite list_insert_insert_eq. }
    rewrite (checkConflicts_again ns' st0 st eq_refl Hst).
    cbn [mbind run_bind]. eexists. split; done.
Qed.

Lemma painting_is_local_witness :
  let clicked := {| id := 2; color := -1; neighbors := [0; 1; 3; 4] |} in
  ∃ g', handleCanvasClick (Some clicked) sixNodes = Done g'
    ∧ nodes (board g') = <[2 := setColor 0 clicked]> (nodes (board sixNodes)).
Proof.
  intros clicked.
  destruct (painting_is_local sixNodes clicked) as (g' & H1 & H2 & _).
  - apply sixNodes_reachable.
  - apply list_elem_of_lookup. exists 2. reflexivity.
  - exists g'. split; [exact H1 | exact H2].
Defined.

End ColoringGameSpec.

(** ** Dijkstra's run finds a cheapest path *)

Module DijkstraSpec.
Import PathFinder GridSpec PathFinderSpec.

(** A walk: a list of places, each a cell that is no wall and each next to
    the one before it. *)
Inductive walk (g : Grid) : list (nat * nat) → Prop :=
  | walk_one p c :
      cellAt g p = Some c → isWall c = false → walk g [p]
  | walk_cons p q l c :
      cellAt g p = Some c → isWall c = false → adjacent p q →
      walk g (q :: l) → walk g (p :: q :: l).

(** A walk that leaves a start cell and arrives at an end cell. *)
Definition joins (g : Grid) (w : list (nat * nat)) : Prop :=
  walk g w
  ∧ (∃ ps cs, head w = Some ps ∧ cellAt g ps = Some cs ∧ isStart cs = true)
  ∧ (∃ pe ce, last w = Some pe ∧ cellAt g pe = Some ce ∧ isEnd ce = true).

(** What one relaxation may do to the cell at [p]: leave it, or lower the
    distance of an unvisited neighbour of [cur] to [d + weight]. *)
Definition relaxed (cur : nat * nat) (d : nat) (p : nat * nat)
    (n n' : GridCell) : Prop :=
  n' = n
  ∨ (isVisited n = false ∧ isWall n = false ∧ adjacent cur p
     ∧ n' = setDistance (d + weight n) cur n
     ∧ dist_ltb (Finite (d + weight n)) (distance n) = true).

Definition lowered (cur : nat * nat) (d : nat) (g g' : Grid) : Prop :=
  ∀ p n', cellAt g' p = Some n' →
    ∃ n, cellAt g p = Some n ∧ relaxed cur d p n n'.

(** The distances of the loop are tight: a visited cell is no farther than
    an unvisited one, every edge out of a visited cell is relaxed, and a back
    pointer leads to a neighbour. *)
Record Tight (g : Grid) : Prop := {
  tight_order : ∀ p c q cq, cellAt g p = Some c → isVisited c = true →
    cellAt g q = Some cq → isWall cq = false → isVisited cq = false →
    dist_ltb (distance cq) (distance c) = false;
  tight_edge : ∀ p c d q cq, cellAt g p = Some c → isVisited c = true →
    distance c = Finite d → adjacent p q → cellAt g q = Some cq →
    isWall cq = false →
    ∃ dq, distance cq = Finite dq ∧ dq ≤ d + weight cq;
  tight_previous : ∀ p c q, cellAt g p = Some c → previous c = Some q →
    adjacent q p;
  tight_nopath : ∀ p c, cellAt g p = Some c → isPath c = false
}.

Lemma static_isWall c c' : static c' = static c → isWall c' = isWall c.
Proof. unfold static. intros E. by simplify_eq. Qed.

Lemma walk_head g p l :
  walk g (p :: l) → ∃ c, cellAt g p = Some c ∧ isWall c = false.
Proof. inversion 1; eauto. Qed.

Lemma walk_snoc g w q p c :
  walk g w → last w = Some q → adjacent q p →
  cellAt g p = Some c → isWall c = false → walk g (w ++ [p]).
Proof.
  intros Hw. revert q. induction Hw as [p0 c0 Hc0 Hw0 | p0 q0 l c0 Hc0 Hw0 Hadj Hw IH];
    intros q Hlast Hq Hc Hwall.
  - simpl in Hlast. simplify_eq. simpl.
    apply (walk_cons _ _ _ _ c0); [done .. |]. by apply (walk_one _ _ c).
  - simpl. apply (walk_cons _ _ _ _ c0); [done .. |].
    apply (IH q); try done.
Qed.

Lemma walk_static g g' w :
  (∀ p, static <$> cellAt g' p = static <$> cellAt g p) →
  walk g w → walk g' w.
Proof.
  intros Hs. induction 1 as [p c Hc Hw | p q l c Hc Hw Hadj _ IH].
  - destruct (fmap_Some_eq static _ _ c (Hs p) Hc) as (c' & Hc' & E).
    apply (walk_one _ _ c'); [done |]. by rewrite (static_isWall _ _ E).
  - destruct (fmap_Some_eq static _ _ c (Hs p) Hc) as (c' & Hc' & E).
    apply (walk_cons _ _ _ _ c'); [done | | done | done].
    by rewrite (static_isWall _ _ E).
Qed.

Lemma weightAt_static g g' p :
  static <$> cellAt g' p = static <$> cellAt g p →
  weightAt g' p = weightAt g p.
Proof.
  unfold weightAt. intros E.
  destruct (cellAt g' p) as [c'|], (cellAt g p) as [c|]; simplify_eq/=; try done.
Qed.

Lemma pathCost_static g g' l :
  (∀ p, static <$> cellAt g' p = static <$> cellAt g p) →
  pathCost g' l = pathCost g l.
Proof.
  intros Hs. unfold pathCost. induction l as [|p l IH]; [done |].
  simpl. by rewrite IH, (weightAt_static g g' p).
Qed.

Lemma pathCost_reverse g l : pathCost g (reverse l) = pathCost g l.
Proof.
  unfold pathCost. induction l as [|p l IH]; [done |].
  rewrite reverse_cons, sum_list_with_app, IH. simpl. lia.
Qed.

Lemma relaxed_trans cur d p n n' n'' :
  relaxed cur d p n n' → relaxed cur d p n' n'' → relaxed cur d p n n''.
Proof.
  intros [-> | H1] [-> | H2]; [by left | by right | by right |].
  exfalso. destruct H1 as (_ & _ & _ & -> & _).
  destruct H2 as (_ & _ & _ & _ & Hlt). simpl in Hlt.
  apply Nat.ltb_lt in Hlt. lia.
Qed.

Lemma lowered_refl cur d g : lowered cur d g g.
Proof. intros p n Hn. exists n. split; [done | by left]. Qed.

Lemma lowered_trans cur d g g' g'' :
  lowered cur d g g' → lowered cur d g' g'' → lowered cur d g g''.
Proof.
  intros H1 H2 p n'' Hn''.
  destruct (H2 p n'' Hn'') as (n' & Hn' & Hr2).
  destruct (H1 p n' Hn') as (n & Hn & Hr1).
  exists n. split; [done |]. by eapply relaxed_trans.
Qed.

(** A bound [d + weight] on the distance of an unvisited cell survives
    further relaxations from the same cell. *)
Lemma bound_lowered cur d g g' q n' :
  lowered cur d g g' →
  (∀ n, cellAt g q = Some n → isWall n = false → isVisited n = false →
     ∃ dq, distance n = Finite dq ∧ dq ≤ d + weight n) →
  cellAt g' q = Some n' → isWall n' = false → isVisited n' = false →
  ∃ dq, distance n' = Finite dq ∧ dq ≤ d + weight n'.
Proof.
  intros Hl Hb Hn' Hw Hv.
  destruct (Hl q n' Hn') as (n & Hn & [-> | (_ & _ & _ & -> & _)]).
  - by apply Hb.
  - simpl. eauto.
Qed.

Section Run.
Variables W H : nat.
Variable g0 : Grid.
Hypothesis wf0 : wellFormed W H g0.

Lemma core_back g unv v rank p c :
  Core g0 g unv v rank → cellAt g p = Some c →
  ∃ c0, cellAt g0 p = Some c0 ∧ static c0 = static c.
Proof.
  intros HC Hc.
  apply (fmap_Some_eq static _ (cellAt g p)); [| done].
  by rewrite (core_static _ _ _ _ _ HC).
Qed.

Lemma core_forth g unv v rank p c0 :
  Core g0 g unv v rank → cellAt g0 p = Some c0 →
  ∃ c, cellAt g p = Some c ∧ static c = static c0.
Proof.
  intros HC Hc.
  apply (fmap_Some_eq static _ (cellAt g0 p)); [| done].
  by rewrite (core_static _ _ _ _ _ HC).
Qed.

(** One direction of the relaxation, as a change of the grid. *)
Lemma relax_lower g unv v rank cur c d dir :
  Core g0 g unv v rank →
  cellAt g cur = Some (markVisited c) → distance c = Finite d →
  dir ∈ directions →
  ∃ g', relax W H cur c d (Done g) dir = Done g'
    ∧ lowered cur d g g'
    ∧ (∀ q cq, Z.of_nat q.1 = (Z.of_nat cur.1 + dir.1)%Z →
         Z.of_nat q.2 = (Z.of_nat cur.2 + dir.2)%Z →
         cellAt g' q = Some cq → isWall cq = false → isVisited cq = false →
         ∃ dq, distance cq = Finite dq ∧ dq ≤ d + weight cq).
Proof.
  intros HC Hcur Hd Hdir. unfold relax. simpl.
  destruct (core_place _ _ _ wf0 _ _ _ _ _ _ HC Hcur) as (Hx & Hy & _ & _).
  simpl in Hx, Hy. rewrite Hx, Hy.
  set (newX := (Z.of_nat cur.1 + dir.1)%Z).
  set (newY := (Z.of_nat cur.2 + dir.2)%Z).
  destruct ((0 <=? newX)%Z && (newX <? Z.of_nat W)%Z && (0 <=? newY)%Z
            && (newY <? Z.of_nat H)%Z) eqn:Hb.
  - apply andb_true_iff in Hb as [Hb Hb4]. apply andb_true_iff in Hb as [Hb Hb3].
    apply andb_true_iff in Hb as [Hb1 Hb2].
    apply Z.leb_le in Hb1, Hb3. apply Z.ltb_lt in Hb2, Hb4.
    set (q0 := (Z.to_nat newX, Z.to_nat newY)).
    destruct (core_exists _ _ _ wf0 _ _ _ _ q0 HC) as [n Hn]; [simpl; lia .. |].
    rewrite Hn. simpl.
    assert (Htarget : ∀ q, Z.of_nat q.1 = newX → Z.of_nat q.2 = newY → q = q0).
    { intros [q1 q2] ? ?. unfold q0. simpl in *. f_equal; lia. }
    assert (Hadj : adjacent cur q0).
    { exists dir. split; [done |]. unfold q0. simpl. lia. }
    destruct (negb (isWall n) && negb (isVisited n)) eqn:Hnv.
    + apply andb_true_iff in Hnv as [Hnw Hnv].
      apply negb_true_iff in Hnw, Hnv.
      destruct (dist_ltb (Finite (d + weight n)) (distance n)) eqn:Hlt.
      * pose proof Hlt as Hlt'. simpl in Hlt'. rewrite Hlt'.
        eexists. split; [reflexivity |]. split.
        { intros p n'. rewrite (cellAt_setCell _ _ n) by done.
          case_decide as E.
          - intros [= <-]. subst p. exists n. split; [done |]. right. done.
          - intros Hp. exists n'. split; [done | by left]. }
        intros q cq Hq1 Hq2. rewrite (Htarget q Hq1 Hq2).
        rewrite (cellAt_setCell_eq _ _ n) by done. intros [= <-] _ _.
        simpl. eauto.
      * pose proof Hlt as Hlt'. simpl in Hlt'. rewrite Hlt'.
        exists g. split; [done |]. split; [apply lowered_refl |].
        intros q cq Hq1 Hq2. rewrite (Htarget q Hq1 Hq2), Hn.
        intros [= <-] _ _.
        destruct (distance n) as [dn|]; [| done]. exists dn. split; [done |].
        simpl in Hlt. apply Nat.ltb_ge in Hlt. lia.
    + exists g. split; [done |]. split; [apply lowered_refl |].
      intros q cq Hq1 Hq2. rewrite (Htarget q Hq1 Hq2), Hn.
      intros [= <-] Hw Hv. rewrite Hw, Hv in Hnv. done.
  - exists g. split; [done |]. split; [apply lowered_refl |].
    intros q cq Hq1 Hq2 Hcq _ _. exfalso.
    destruct (core_place _ _ _ wf0 _ _ _ _ _ _ HC Hcq) as (_ & _ & ? & ?).
    apply andb_false_iff in Hb as [Hb | Hb]; [| apply Z.ltb_ge in Hb; lia].
    apply andb_false_iff in Hb as [Hb | Hb]; [| apply Z.leb_gt in Hb; lia].
    apply andb_false_iff in Hb as [Hb | Hb]; [apply Z.leb_gt in Hb; lia |].
    apply Z.ltb_ge in Hb; lia.
Qed.

(** The relaxation of a list of directions. *)
Lemma relax_fold cur c d dirs : ∀ g unv v rank,
  Core g0 g unv v rank →
  cellAt g cur = Some (markVisited c) → distance c = Finite d →
  dirs ⊆ directions →
  ∃ g', foldl (relax W H cur c d) (Done g) dirs = Done g'
    ∧ Core g0 g' unv v rank
    ∧ lowered cur d g g'
    ∧ (∀ dir q cq, dir ∈ dirs →
         Z.of_nat q.1 = (Z.of_nat cur.1 + dir.1)%Z →
         Z.of_nat q.2 = (Z.of_nat cur.2 + dir.2)%Z →
         cellAt g' q = Some cq → isWall cq = false → isVisited cq = false →
         ∃ dq, distance cq = Finite dq ∧ dq ≤ d + weight cq).
Proof.
  induction dirs as [|dir dirs IH]; intros g unv v rank HC Hcur Hd Hsub.
  - exists g. split; [done |]. split; [done |]. split; [apply lowered_refl |].
    intros dir q cq Hin. inversion Hin.
  - cbn [foldl].
    destruct (relax_step _ _ _ wf0 _ _ _ _ _ _ d dir HC Hcur Hd)
      as (g2 & Hg2 & HC2 & Hcur2 & _).
    destruct (relax_lower _ _ _ _ _ _ d dir HC Hcur Hd)
      as (g2' & Hg2' & Hlow2 & Hb2); [apply Hsub; by left |].
    assert (g2' = g2) as -> by congruence.
    rewrite Hg2.
    destruct (IH g2 unv v rank HC2 Hcur2 Hd) as (g' & Hg' & HC' & Hlow & Hb).
    { intros a Ha. apply Hsub. by right. }
    exists g'. split; [done |]. split; [done |].
    split; [by eapply lowered_trans |].
    intros dir' q cq [-> | Hin]%elem_of_cons Hq1 Hq2 Hcq Hw Hv.
    + apply (bound_lowered cur d g2 g' q cq Hlow); try done.
      intros n Hn Hwn Hvn. by apply (Hb2 q n).
    + by apply (Hb dir' q cq).
Qed.

(** The least cost over the walks from a visited cell bounds the distance
    of the first cell of the walk that is not visited, or of its last. *)
Lemma walk_bound g unv v rank :
  Core g0 g unv v rank → Tight g →
  ∀ w, walk g0 w → ∀ p cp dp,
    head w = Some p → cellAt g p = Some cp → isVisited cp = true →
    distance cp = Finite dp →
    ∃ q cq dq, cellAt g q = Some cq ∧ isWall cq = false
      ∧ distance cq = Finite dq ∧ dq ≤ dp + pathCost g0 (tail w)
      ∧ (isVisited cq = false ∨ last w = Some q).
Proof.
  intros HC HT w Hw.
  induction Hw as [p0 c0 Hc0 Hw0 | p0 q l c0 Hc0 Hw0 Hadj Hw IH];
    intros p cp dp Hhead Hcp Hvp Hdp; simpl in Hhead; simplify_eq.
  - exists p, cp, dp.
    destruct (core_visited _ _ _ _ _ HC p cp Hcp Hvp) as (_ & _ & Hwp).
    split_and!; try done; [lia | by right].
  - destruct (walk_head _ _ _ Hw) as (cq0 & Hcq0 & Hwq0).
    destruct (core_forth _ _ _ _ _ _ HC Hcq0) as (cq & Hcq & Esq).
    assert (Hwq : isWall cq = false) by (by rewrite (static_isWall _ _ Esq)).
    destruct (tight_edge _ HT p cp dp q cq Hcp Hvp Hdp Hadj Hcq Hwq)
      as (dq & Hdq & Hle).
    assert (Hcost : pathCost g0 (q :: l) = weight cq + pathCost g0 l).
    { unfold pathCost. simpl. unfold weightAt at 1. rewrite Hcq0.
      by rewrite (static_weight _ _ Esq). }
    cbn [tail]. rewrite Hcost.
    destruct (isVisited cq) eqn:Hvq.
    + destruct (IH q cq dq eq_refl Hcq Hvq Hdq)
        as (q' & cq' & dq' & Hcq' & Hwq' & Hdq' & Hle' & Hend).
      exists q', cq', dq'. split_and!; try done.
      cbn [tail] in Hle'. lia.
    + exists q, cq, dq. split_and!; try done; [lia | by left].
Qed.

(** What the loop hands over when it has shifted the end cell. *)
Definition Final (l : Loop) (cur : nat * nat) : Prop :=
  (∀ p c q, cellAt (newGrid l) p = Some c → previous c = Some q →
     adjacent q p)
  ∧ (∀ p c, cellAt (newGrid l) p = Some c → isPath c = false)
  ∧ ∃ c d, cellAt (newGrid l) cur = Some c ∧ distance c = Finite d
      ∧ ∀ w, joins g0 w → d ≤ pathCost g0 (tail w).

Lemma turn_tight l rank t :
  Core g0 (newGrid l) (unvisited l) (visited l) rank →
  Settled (newGrid l) → Tight (newGrid l) →
  turn W H l = Done t →
  match t with
  | Again l' => Tight (newGrid l')
  | AtEnd l' cur => Final l' cur
  | Stop _ => True
  end.
Proof.
  intros HC [Hnoend _] HT. unfold turn.
  pose proof (sortByDistance_perm (newGrid l) (unvisited l)) as Hperm.
  destruct (sortByDistance (newGrid l) (unvisited l)) as [|cur rest] eqn:Hs.
  { by intros [= <-]. }
  apply (Core_perm _ _ _ _ _ _ (symmetry Hperm)) in HC as HC'.
  destruct (proj1 (core_unvisited _ _ _ _ _ HC' cur)) as (c & Hc & Hw & Hv);
    [left |].
  rewrite Hc. cbn [mbind run_bind of_option].
  destruct (distance c) as [d|] eqn:Hd; [| by intros [= <-]].
  assert (Hmin : ∀ a ca, cellAt (newGrid l) a = Some ca → isWall ca = false →
            isVisited ca = false → dist_ltb (distance ca) (Finite d) = false).
  { intros a ca Hca Hwa Hva.
    assert (Ha : a ∈ unvisited l) by (apply (core_unvisited _ _ _ _ _ HC); eauto).
    destruct (sortByDistance_head _ _ _ _ Hs) as (l1 & l2 & E & H1 & H2).
    assert (Hcur : distanceAt (newGrid l) cur = Finite d).
    { unfold distanceAt. by rewrite Hc. }
    assert (Hda : distanceAt (newGrid l) a = distance ca).
    { unfold distanceAt. by rewrite Hca. }
    rewrite Hcur in H1, H2. rewrite E in Ha.
    apply elem_of_app in Ha as [Ha | [-> | Ha]%elem_of_cons].
    - apply H1 in Ha. rewrite Hda in Ha.
      destruct (distance ca); simpl in *; [| done].
      apply Nat.ltb_lt in Ha. apply Nat.ltb_ge. lia.
    - simplify_eq. rewrite Hd. simpl. apply Nat.ltb_irrefl.
    - apply H2 in Ha. by rewrite Hda in Ha. }
  pose proof (Core_markVisited _ _ _ _ _ _ _ d HC' Hc Hd) as HC1.
  set (g1 := setCell (newGrid l) cur (markVisited c)) in *.
  set (rank1 := λ p, if decide (p = cur) then visited l else rank p) in *.
  assert (Hcur1 : cellAt g1 cur = Some (markVisited c)).
  { by apply (cellAt_setCell_eq _ _ c). }
  destruct (isEnd c) eqn:Hend.
  { intros [= <-]. split; [| split].
    - simpl. fold g1. intros p c' q. unfold g1.
      rewrite (cellAt_setCell _ _ c) by done. case_decide.
      + intros [= <-]. simpl. subst p. by apply (tight_previous _ HT).
      + by apply (tight_previous _ HT).
    - simpl. fold g1. intros p c'. unfold g1.
      rewrite (cellAt_setCell _ _ c) by done. case_decide.
      + intros [= <-]. simpl. by apply (tight_nopath _ HT cur).
      + by apply (tight_nopath _ HT).
    - exists (markVisited c), d. simpl. fold g1. split; [done |].
      split; [done |].
      intros w (Hwalk & (ps & cs0 & Hhead & Hcs0 & Hss0) & (pe & ce0 & Hlast & Hce0 & Hee0)).
      destruct (core_forth _ _ _ _ _ _ HC Hcs0) as (cs & Hcs & Ess).
      assert (isStart cs = true) as Hss
          by (by rewrite (static_isStart _ _ Ess)).
      pose proof (core_start _ _ _ _ _ HC ps cs Hcs Hss) as Hds.
      assert (∃ q cq dq, cellAt (newGrid l) q = Some cq ∧ isWall cq = false
                ∧ distance cq = Finite dq ∧ dq ≤ pathCost g0 (tail w)
                ∧ (isVisited cq = false ∨ last w = Some q))
        as (q & cq & dq & Hcq & Hwq & Hdq & Hle & Hcase).
      { destruct (isVisited cs) eqn:Hvs.
        - destruct (walk_bound _ _ _ _ HC HT w Hwalk ps cs 0 Hhead Hcs Hvs Hds)
            as (q & cq & dq & ? & ? & ? & ? & ?).
          exists q, cq, dq. split_and!; try done.
        - exists ps, cs, 0. split_and!; try done; [| lia | by left].
          destruct w as [|p0 w]; [done |]. simpl in Hhead.
          injection Hhead as ->.
          destruct (walk_head _ _ _ Hwalk) as (c0 & Hc0 & Hw0).
          rewrite Hcs0 in Hc0. injection Hc0 as <-.
          by rewrite (static_isWall _ _ Ess). }
      destruct (isVisited cq) eqn:Hvq.
      + destruct Hcase as [? | Hq]; [done |]. exfalso.
        rewrite Hlast in Hq. injection Hq as <-.
        destruct (core_forth _ _ _ _ _ _ HC Hce0) as (ce & Hce & Ese).
        rewrite Hcq in Hce. injection Hce as <-.
        pose proof (Hnoend pe cq Hcq Hvq) as Hne.
        rewrite (static_isEnd _ _ Ese) in Hne. congruence.
      + pose proof (Hmin q cq Hcq Hwq Hvq) as Hge. rewrite Hdq in Hge.
        simpl in Hge. apply Nat.ltb_ge in Hge. lia. }
  destruct (relax_fold cur c d directions g1 rest (S (visited l)) rank1
              HC1 Hcur1 Hd) as (g5 & -> & HC5 & Hlow & Hb); [done |].
  cbn [mbind run_bind]. intros [= <-]. simpl.
  (* every cell of the new grid, against the grid of the turn's start *)
  assert (Hcell : ∀ p n', cellAt g5 p = Some n' →
            (p = cur ∧ n' = markVisited c)
            ∨ (p ≠ cur ∧ ∃ n, cellAt (newGrid l) p = Some n
                 ∧ relaxed cur d p n n')).
  { intros p n' Hn'. destruct (Hlow p n' Hn') as (n & Hn & Hr).
    unfold g1 in Hn. rewrite (cellAt_setCell _ _ c) in Hn by done.
    case_decide as E.
    - left. split; [done |]. simplify_eq.
      destruct Hr as [-> | (Hv' & _)]; [done | done].
    - right. split; [done |]. eauto. }
  assert (Hvis : ∀ p n', cellAt g5 p = Some n' → isVisited n' = true →
            p ≠ cur → cellAt (newGrid l) p = Some n').
  { intros p n' Hn' Hv' Hne.
    destruct (Hcell p n' Hn') as [[? _] | (_ & n & Hn & Hr)]; [done |].
    destruct Hr as [-> | (Hvn & _ & _ & -> & _)]; [done |]. simpl in Hv'.
    congruence. }
  assert (Hdcur : ∀ p n', cellAt g5 p = Some n' → isVisited n' = true →
            ∃ dp, distance n' = Finite dp ∧ dp ≤ d).
  { intros p n' Hn' Hv'. destruct (decide (p = cur)) as [-> | Hne].
    - destruct (Hcell cur n' Hn') as [[_ ->] | [? _]]; [| done].
      simpl. eauto.
    - pose proof (Hvis p n' Hn' Hv' Hne) as Hold.
      destruct (core_visited _ _ _ _ _ HC p n' Hold Hv') as ([dp Hdp] & _).
      pose proof (tight_order _ HT p n' cur c Hold Hv' Hc Hw Hv) as Hge.
      rewrite Hd, Hdp in Hge. simpl in Hge. apply Nat.ltb_ge in Hge. eauto. }
  constructor.
  - intros p n' q cq' Hn' Hv' Hcq' Hwq' Hvq'.
    destruct (Hdcur p n' Hn' Hv') as (dp & Hdp & Hle). rewrite Hdp.
    destruct (Hcell q cq' Hcq') as [[_ ->] | (Hne & cq & Hcq & Hr)]; [done |].
    destruct Hr as [-> | (_ & _ & _ & -> & _)].
    + destruct (decide (p = cur)) as [-> | Hnp].
      * pose proof (Hmin q cq Hcq Hwq' Hvq') as Hge.
        destruct (distance cq); simpl in *; [| done].
        apply Nat.ltb_ge in Hge. apply Nat.ltb_ge. lia.
      * pose proof (Hvis p n' Hn' Hv' Hnp) as Hold.
        pose proof (tight_order _ HT p n' q cq Hold Hv' Hcq Hwq' Hvq') as Hge.
        by rewrite Hdp in Hge.
    + simpl. apply Nat.ltb_ge. lia.
  - intros p n' dp q cq' Hn' Hv' Hdp Hadj Hcq' Hwq'.
    destruct (decide (p = cur)) as [-> | Hnp].
    + destruct (Hcell cur n' Hn') as [[_ ->] | [? _]]; [| done].
      simpl in Hdp. rewrite Hd in Hdp. injection Hdp as <-.
      destruct (isVisited cq') eqn:Hvq'.
      * destruct (Hdcur q cq' Hcq' Hvq') as (dq & Hdq & Hle).
        exists dq. split; [done | lia].
      * destruct Hadj as (dir & Hdir & Hq1 & Hq2).
        by apply (Hb dir q cq').
    + pose proof (Hvis p n' Hn' Hv' Hnp) as Hold.
      destruct (Hcell q cq' Hcq') as [[-> ->] | (Hne & cq & Hcq & Hr)].
      * simpl.
        destruct (tight_edge _ HT p n' dp cur c Hold Hv' Hdp Hadj Hc Hw)
          as (dq & Hdq & Hle). eauto.
      * destruct Hr as [-> | (_ & Hwq & _ & -> & Hlt)].
        -- by apply (tight_edge _ HT p n' dp q cq).
        -- destruct (tight_edge _ HT p n' dp q cq Hold Hv' Hdp Hadj Hcq Hwq)
             as (dq & Hdq & Hle).
           rewrite Hdq in Hlt. simpl in Hlt. apply Nat.ltb_lt in Hlt.
           simpl. eexists. split; [done |]. lia.
  - intros p n' q Hn' Hp.
    destruct (Hcell p n' Hn') as [[-> ->] | (Hne & n & Hn & Hr)].
    + by apply (tight_previous _ HT cur c).
    + destruct Hr as [-> | (_ & _ & Hadj & -> & _)].
      * by apply (tight_previous _ HT p n).
      * simpl in Hp. by simplify_eq.
  - intros p n' Hn'.
    destruct (Hcell p n' Hn') as [[-> ->] | (Hne & n & Hn & Hr)].
    + simpl. by apply (tight_nopath _ HT cur).
    + destruct Hr as [-> | (_ & _ & _ & -> & _)].
      * by apply (tight_nopath _ HT p).
      * simpl. by apply (tight_nopath _ HT p).
Qed.

Lemma loop_tight n : ∀ l rank l' cur,
  Core g0 (newGrid l) (unvisited l) (visited l) rank →
  Settled (newGrid l) → Tight (newGrid l) →
  loop W H n l = Done (l', Some cur) → Final l' cur.
Proof.
  induction n as [|n IH]; intros l rank l' cur HC HS HT; [done |].
  rewrite loop_S.
  destruct (turn_spec _ _ _ wf0 l rank HC HS) as (t & Ht & Hpost).
  pose proof (turn_tight l rank t HC HS HT Ht) as Hpost'.
  rewrite Ht. cbn [mbind run_bind].
  destruct t as [l1 | l1 | l1 cur1].
  - destruct Hpost as ([rank1 HC1] & HS1 & _). by apply (IH l1 rank1).
  - done.
  - by intros [= <- <-].
Qed.

(** The back-pointer chain of a visited cell, read backwards, is a walk. *)
Lemma chain_walk g unv v rank :
  Core g0 g unv v rank →
  (∀ p c q, cellAt g p = Some c → previous c = Some q → adjacent q p) →
  ∀ l p c, chain g (Some p) l → cellAt g p = Some c → isVisited c = true →
    walk g0 (reverse l) ∧ head l = Some p.
Proof.
  intros HC Hprev l. induction l as [|p' l IH]; intros p c Hch Hc Hv.
  { inversion Hch. }
  assert (p' = p ∧ chain g (previous c) l) as [-> Hch1].
  { inversion Hch as [|p1 c1 l1 Hc1 Hch1]. split; [done |]. congruence. }
  split; [| done].
  destruct (core_visited _ _ _ _ _ HC p c Hc Hv) as (_ & _ & Hw).
  destruct (core_back _ _ _ _ _ _ HC Hc) as (c0 & Hc0 & Es).
  assert (Hw0 : isWall c0 = false) by (by rewrite (static_isWall _ _ Es)).
  destruct (previous c) as [q|] eqn:Hp.
  - destruct (core_previous _ _ _ _ _ HC p c q Hc Hp)
      as (cq & dq & Hcq & Hvq & _).
    destruct (IH q cq Hch1 Hcq Hvq) as [Hwalk Hhead].
    rewrite reverse_cons.
    apply (walk_snoc _ _ q p c0); try done.
    + by rewrite last_reverse.
    + by apply (Hprev p c q).
  - inversion Hch1; subst. by apply (walk_one _ _ c0).
Qed.

End Run.


Lemma joins_static g g' w :
  (∀ p, static <$> cellAt g' p = static <$> cellAt g p) →
  joins g w → joins g' w.
Proof.
  intros Hs (Hw & (ps & cs & Hh & Hcs & Hss) & (pe & ce & Hl & Hce & Hee)).
  split; [by apply (walk_static g) |]. split.
  - destruct (fmap_Some_eq static _ _ cs (Hs ps) Hcs) as (cs' & Hcs' & E).
    exists ps, cs'. split_and!; try done. by rewrite (static_isStart _ _ E).
  - destruct (fmap_Some_eq static _ _ ce (Hs pe) Hce) as (ce' & Hce' & E).
    exists pe, ce'. split_and!; try done. by rewrite (static_isEnd _ _ E).
Qed.

(** [reconstruct] marks the cells of the chain, and no other. *)
Lemma reconstruct_marks l : ∀ g o n t fuel g' n' t',
  chain g o l → reconstruct fuel g o n t = Done (g', n', t') →
  ∀ q c', cellAt g' q = Some c' →
    ∃ c, cellAt g q = Some c ∧ isPath c' = isPath c || bool_decide (q ∈ l).
Proof.
  induction l as [|p l IH]; intros g o n t fuel g' n' t' Hch Hrun q c' Hc'.
  - inversion Hch; subst. destruct fuel; simpl in Hrun; simplify_eq;
      exists c'; by rewrite orb_false_r.
  - inversion Hch as [|p1 c l1 Hc Hch1]; subst.
    destruct fuel as [|fuel]; [done |]. cbn [reconstruct] in Hrun.
    rewrite Hc in Hrun. cbn [mbind run_bind of_option] in Hrun.
    assert (Hsame : ∀ q, nopath <$> cellAt (setCell g p (markPath c)) q
                         = nopath <$> cellAt g q).
    { intros q'. by apply (cellAt_setCell_proj nopath g p c). }
    destruct (IH _ _ _ _ _ _ _ _ (chain_transfer _ _ _ _ Hsame Hch1) Hrun q c' Hc')
      as (c1 & Hc1 & Hp1).
    rewrite (cellAt_setCell _ _ c) in Hc1 by done. case_decide as E.
    + subst q. injection Hc1 as <-. exists c. split; [done |].
      rewrite Hp1. simpl. rewrite bool_decide_eq_true_2 by (by left).
      by rewrite orb_true_r.
    + exists c1. split; [done |]. rewrite Hp1. f_equal.
      apply bool_decide_ext. rewrite elem_of_cons. naive_solver.
Qed.

(** A grid with one cell that satisfies [f] has it at one place. *)
Lemma filter_positive {A} (f : A → bool) (l : list A) a :
  a ∈ l → f a = true → 0 < length (List.filter f l).
Proof.
  intros Ha Hf.
  assert (Hin : In a (List.filter f l)).
  { apply filter_In. split; [by apply list_elem_of_In | done]. }
  destruct (List.filter f l); [done | simpl; lia].
Qed.

Lemma filter_single {A} (f : A → bool) (l : list A) : ∀ i j a b,
  length (List.filter f l) ≤ 1 →
  l !! i = Some a → f a = true → l !! j = Some b → f b = true → i = j.
Proof.
  induction l as [|x l IH]; intros i j a b Hlen Hi Ha Hj Hb; [done |].
  simpl in Hlen. destruct i as [|i], j as [|j]; simpl in *; simplify_eq.
  - done.
  - rewrite Ha in Hlen. simpl in Hlen.
    pose proof (filter_positive f l b (list_elem_of_lookup_2 _ _ _ Hj) Hb). lia.
  - rewrite Hb in Hlen. simpl in Hlen.
    pose proof (filter_positive f l a (list_elem_of_lookup_2 _ _ _ Hi) Ha). lia.
  - f_equal. apply (IH i j a b); try done.
    destruct (f x); simpl in Hlen; lia.
Qed.

Lemma countCells_single (f : GridCell → bool) (g : Grid) : ∀ p p' c c',
  countCells f g ≤ 1 →
  cellAt g p = Some c → f c = true → cellAt g p' = Some c' → f c' = true →
  p = p'.
Proof.
  unfold countCells.
  induction g as [|r g IH]; intros [col row] [col' row'] c c' Hlen Hc Hf Hc' Hf'.
  { by rewrite cellAt_Some in Hc; destruct Hc as (? & ? & _). }
  simpl in Hlen. rewrite List.filter_app, length_app in Hlen.
  assert (Hrest : ∀ k co cc, cellAt g (co, k) = Some cc → f cc = true →
            0 < length (List.filter f (concat g))).
  { intros k co cc Hcc Hfc. apply (filter_positive f _ cc); [| done].
    apply cellAt_Some in Hcc as (r' & Hr' & Hcc). simpl in *.
    apply list_elem_of_In, in_concat. exists r'.
    split; apply list_elem_of_In; by eapply list_elem_of_lookup_2. }
  assert (Hrow : ∀ co cc, r !! co = Some cc → f cc = true →
            0 < length (List.filter f r)).
  { intros co cc Hcc Hfc. apply (filter_positive f _ cc); [| done].
    by eapply list_elem_of_lookup_2. }
  destruct row as [|row], row' as [|row'].
  - unfold cellAt in Hc, Hc'. simpl in Hc, Hc'. f_equal.
    apply (filter_single f r col col' c c'); try done. lia.
  - unfold cellAt in Hc. simpl in Hc.
    pose proof (Hrow _ _ Hc Hf). pose proof (Hrest row' col' c' Hc' Hf'). lia.
  - unfold cellAt in Hc'. simpl in Hc'.
    pose proof (Hrow _ _ Hc' Hf'). pose proof (Hrest row col c Hc Hf). lia.
  - assert ((col, row) = (col', row')) as E.
    { apply (IH (col, row) (col', row') c c'); try done. lia. }
    by simplify_eq.
Qed.

(** Dijkstra's run finds a cheapest path: on a well-formed grid with one
    start cell, whose start and end are connected, a run with a budget above
    the number of cells ends completed; the cells it marks as the path are
    those of a list that, read backwards, is a walk over cells that are no
    walls from the start cell to an end cell; the path length is the number
    of these cells and the total distance the sum of their weights; and no
    walk from the start cell to an end cell has a smaller sum of weights. *)
Theorem dijkstra_finds_cheapest_path (W H : nat) (s : State) (fuel : nat) :
  wellFormed W H (grid s) →
  countCells isStart (grid s) = 1 →
  connected (grid s) →
  length (places (grid s)) < fuel →
  ∃ s' l,
    runDijkstra W H fuel s = Done s'
    ∧ gameCompleted s' = true
    ∧ joins (grid s) (reverse l)
    ∧ (∀ p c, cellAt (grid s') p = Some c → isPath c = true ↔ p ∈ l)
    ∧ pathLength s' = length l
    ∧ totalDistance s' = pathCost (grid s) l
    ∧ ∀ w, joins (grid s) w → totalDistance s' ≤ pathCost (grid s) w.
Proof.
  intros Hwf Hone Hconn Hfuel. unfold runDijkstra.
  set (g0 := map (map resetCell) (grid s)).
  pose proof (wellFormed_reset _ _ _ Hwf) as Hwf0. fold g0 in Hwf0.
  assert (Hstatic0 : ∀ q, static <$> cellAt g0 q = static <$> cellAt (grid s) q).
  { intros q. unfold g0. rewrite cellAt_fmap.
    by destruct (cellAt (grid s) q). }
  assert (Hreset : ∀ p c, cellAt g0 p = Some c →
            isVisited c = false ∧ previous c = None ∧ isPath c = false
            ∧ (isStart c = true → distance c = Finite 0)
            ∧ (isStart c = false → distance c = Infinity)).
  { intros p c. unfold g0. rewrite cellAt_fmap.
    destruct (cellAt (grid s) p) as [c0|]; [| done]. intros [= <-]. simpl.
    split_and!; try done; by intros ->. }
  pose proof (connected_reset _ Hconn) as Hconn0. fold g0 in Hconn0.
  destruct (findStart_done g0 (scanOrder W H)) as (o & -> & Hsome).
  { intros p Hp. apply Hwf0. by apply elem_of_scanOrder. }
  cbn [mbind run_bind]. destruct o as [pstart|].
  2:{ exfalso. destruct Hconn0 as (ps & pe & cs & ce & Hcs & Hs & _).
      destruct Hsome as [? ?]; [| done]. exists ps, cs. split_and!; try done.
      apply elem_of_scanOrder, Hwf0. eauto. }
  destruct (Core_start g0) as [HC0 HS0].
  { intros p c Hc. destruct (Hreset p c Hc) as (? & ? & ? & ? & ?). done. }
  assert (HT0 : Tight g0).
  { constructor.
    - intros p c q cq Hc Hv. destruct (Hreset p c Hc) as (? & _). congruence.
    - intros p c d q cq Hc Hv. destruct (Hreset p c Hc) as (? & _). congruence.
    - intros p c q Hc Hp. destruct (Hreset p c Hc) as (_ & ? & _). congruence.
    - intros p c Hc. by destruct (Hreset p c Hc) as (_ & _ & ? & _). }
  assert (Hlen0 : length (unvisited (loopStart g0)) ≤ length (places (grid s))).
  { unfold loopStart. simpl. rewrite <- (places_fmap resetCell (grid s)).
    apply List.filter_length_le. }
  destruct (loop_spec W H g0 Hwf0 _ (loopStart g0) _ (Nat.le_refl _) HC0 HS0)
    as (l' & found & Hloop & Hfound).
  rewrite (loop_mono W H _ fuel _ _ Hloop) by lia.
  cbn [mbind run_bind]. destruct found as [cur|].
  2:{ exfalso. destruct Hfound as (lp & rankp & HCp & HSp & Hg & Hv & Hinf).
      by eapply (no_stop g0 lp rankp). }
  pose proof (loop_tight W H g0 Hwf0 _ (loopStart g0) _ _ _ HC0 HS0 HT0 Hloop)
    as (Hprev & Hnopath & cfin & dfin & Hcfin & Hdfin & Hbest).
  destruct Hfound as ([rank' HC'] & (ce & Hce & Hve & Hee) & Hvis).
  destruct (chain_exists g0 _ _ _ _ HC' _ cur ce (Nat.le_refl _) Hce Hve)
    as (l & d & pl & cl & Hch & Hlen & Hd & Hlast & Hcl & Hscl & Hcost).
  destruct (core_visited _ _ _ _ _ HC' cur ce Hce Hve) as (_ & Hrank & _).
  destruct (reconstruct_spec l (newGrid l') (Some cur) 0 0 fuel Hch)
    as (g' & Hrec & Hsame); [simpl in *; lia |].
  rewrite Hrec. cbn [mbind run_bind].
  exists {| grid := g'; isRunning := false; drawMode := drawMode s;
            visitedCount := visited l'; pathLength := 0 + length l;
            totalDistance := 0 + pathCost (newGrid l') l;
            gameCompleted := true |}, l.
  split; [done |]. simpl.
  assert (Hst' : ∀ q, static <$> cellAt (newGrid l') q
                      = static <$> cellAt (grid s) q).
  { intros q. by rewrite (core_static _ _ _ _ _ HC'). }
  assert (Hback : ∀ q, static <$> cellAt (grid s) q
                       = static <$> cellAt (newGrid l') q) by done.
  destruct (chain_walk g0 _ _ _ _ HC' Hprev l cur ce Hch Hce Hve)
    as [Hwalk Hhead].
  assert (Hcfin' : cfin = ce) by congruence. subst cfin.
  assert (d = dfin) as -> by congruence.
  destruct (fmap_Some_eq static _ _ cl (Hback pl) Hcl) as (cl0 & Hcl0 & Escl).
  destruct (fmap_Some_eq static _ _ ce (Hback cur) Hce) as (ce0 & Hce0 & Esce).
  assert (Hcostl : pathCost (newGrid l') l = pathCost (grid s) l).
  { by apply pathCost_static. }
  split; [done |]. split.
  { split; [| split].
    - apply (walk_static g0); [| done]. intros q. by rewrite Hstatic0.
    - exists pl, cl0. rewrite head_reverse. split_and!; try done.
      by rewrite (static_isStart _ _ Escl).
    - exists cur, ce0. rewrite last_reverse. split_and!; try done.
      by rewrite (static_isEnd _ _ Esce). }
  split.
  { intros p c Hc.
    destruct (reconstruct_marks l _ _ _ _ _ _ _ _ Hch Hrec p c Hc)
      as (c1 & Hc1 & ->).
    rewrite (Hnopath p c1 Hc1). simpl. by rewrite bool_decide_eq_true. }
  split; [done |]. split; [by rewrite <- Hcostl |].
  intros w Hw. rewrite Hcostl in Hcost |- *. rewrite Hcost.
  pose proof (Hbest w (joins_static _ g0 _ (λ q, Hstatic0 q) Hw)) as Hle.
  destruct Hw as (Hwalkw & (ps & cs & Hh & Hcs & Hss) & _).
  assert (ps = pl) as ->.
  { apply (countCells_single isStart (grid s) ps pl cs cl0); try done; [lia |].
    by rewrite (static_isStart _ _ Escl). }
  destruct w as [|p0 w]; [done |]. simpl in Hh. injection Hh as ->.
  cbn [tail] in Hle.
  rewrite (pathCost_static (grid s) g0 w) in Hle by done.
  assert (pathCost (grid s) (pl :: w) = weight cl0 + pathCost (grid s) w) as ->.
  { unfold pathCost. simpl. unfold weightAt at 1. by rewrite Hcl0. }
  rewrite <- (static_weight _ _ Escl). lia.
Qed.

(** The fresh grid joins its start to its end along their row. *)
Lemma initializeGrid_connected W H rw :
  5 ≤ W → 1 ≤ H → connected (initializeGrid W H rw).
Proof.
  intros HW HH.
  assert (Hrow : H / 2 < H) by (apply Nat.div_lt; lia).
  assert (Hcell : ∀ col, col < W →
            ∃ c, cellAt (initializeGrid W H rw) (col, H / 2) = Some c
                 ∧ isWall c = false
                 ∧ isStart c = (col =? 2)
                 ∧ isEnd c = (Z.of_nat col =? Z.of_nat W - 3)%Z).
  { intros col Hcol. rewrite cellAt_initializeGrid. cbn [fst snd].
    rewrite decide_True by done. eexists. split; [done |]. cbn.
    by rewrite Nat.eqb_refl, !andb_true_r. }
  destruct (Hcell 2) as (cs & Hcs & _ & Hs & _); [lia |].
  destruct (Hcell (W - 3)) as (ce & Hce & Hwe & _ & He); [lia |].
  exists (2, H / 2), (W - 3, H / 2), cs, ce. split_and!; try done.
  { rewrite He. apply Z.eqb_eq. lia. }
  assert (Hgo : ∀ n col, col + n = W - 3 →
            route (initializeGrid W H rw) (col, H / 2) (W - 3, H / 2)).
  { induction n as [|n IH]; intros col Hcol.
    - assert (col = W - 3) as -> by lia. by apply (route_here _ _ ce).
    - destruct (Hcell col) as (c & Hc & Hw & _); [lia |].
      apply (route_step _ _ (S col, H / 2) _ c); [done | done | |].
      + exists (1, 0)%Z. split; [set_solver |]. cbn [fst snd]. lia.
      + apply IH. lia. }
  apply (Hgo (W - 5) 2). lia.
Qed.

(** A 20 x 12 grid with a column of heavy cells between start and end. *)
Definition heavyColumn : State :=
  initial 20 12 (fun x y => if (x =? 9) && (5 <=? y) then 6 else 1).

Lemma dijkstra_finds_cheapest_path_witness :
  ∃ s' l,
    runDijkstra 20 12 241 heavyColumn = Done s'
    ∧ gameCompleted s' = true
    ∧ joins (grid heavyColumn) (reverse l)
    ∧ (∀ p c, cellAt (grid s') p = Some c → isPath c = true ↔ p ∈ l)
    ∧ pathLength s' = length l
    ∧ totalDistance s' = pathCost (grid heavyColumn) l
    ∧ ∀ w, joins (grid heavyColumn) w →
        totalDistance s' ≤ pathCost (grid heavyColumn) w.
Proof.
  apply dijkstra_finds_cheapest_path.
  - apply wellFormed_initializeGrid.
  - apply initializeGrid_one_start; lia.
  - apply initializeGrid_connected; lia.
  - vm_compute. lia.
Defined.

End DijkstraSpec.

(** ** The path finder's session *)

Module PathFinderGameSpec.
Import PathFinder GridSpec PathFinderSpec PathFinderGame DijkstraSpec.


(** A view of a cell that the marks of a run do not change. *)
Definition blind {B} (f : GridCell → B) : Prop :=
  (∀ c, f (markVisited c) = f c)
  ∧ (∀ t prev c, f (setDistance t prev c) = f c)
  ∧ (∀ c, f (markPath c) = f c).

Lemma blind_static : blind static.
Proof. done. Qed.

Lemma blind_resetCell : blind resetCell.
Proof. done. Qed.

Section Flags.
Context {B : Type} (f : GridCell → B) (Hf : blind f).
Variables W H : nat.

Lemma relax_flags cur c d g dir g' :
  relax W H cur c d (Done g) dir = Done g' →
  map (map f) g' = map (map f) g.
Proof.
  unfold relax. cbn [mbind run_bind]. destruct (_ && _); [| by intros [= <-]].
  destruct (cellAt g _) as [n|] eqn:Hn; [| done].
  cbn [mbind run_bind of_option].
  destruct (_ && _); [| by intros [= <-]].
  destruct (dist_ltb _ _); intros [= <-]; [| done].
  apply (setCell_flags f _ _ n); [done |]. apply Hf.
Qed.

Lemma relax_fold_flags cur c d dirs : ∀ g g',
  foldl (relax W H cur c d) (Done g) dirs = Done g' →
  map (map f) g' = map (map f) g.
Proof.
  induction dirs as [|dir dirs IH]; intros g g'; [by intros [= <-] |].
  cbn [foldl]. destruct (relax W H cur c d (Done g) dir) as [g2| |] eqn:Hg2.
  - intros Hg'. rewrite (IH _ _ Hg'). by eapply relax_flags.
  - assert (foldl (relax W H cur c d) Thrown dirs = Thrown) as ->; [| done].
    clear. induction dirs; [done | done].
  - assert (foldl (relax W H cur c d) Timeout dirs = Timeout) as ->; [| done].
    clear. induction dirs; [done | done].
Qed.

Definition gridOf (t : Turn) : Grid :=
  match t with
  | Again l | Stop l | AtEnd l _ => newGrid l
  end.

Lemma turn_flags l t :
  turn W H l = Done t → map (map f) (gridOf t) = map (map f) (newGrid l).
Proof.
  unfold turn. destruct (sortByDistance _ _) as [|cur rest]; [by intros [= <-] |].
  destruct (cellAt _ cur) as [c|] eqn:Hc; [| done].
  cbn [mbind run_bind of_option].
  destruct (distance c) as [d|]; [| by intros [= <-]].
  assert (Hmark : map (map f) (setCell (newGrid l) cur (markVisited c))
                  = map (map f) (newGrid l)).
  { apply (setCell_flags f _ _ c); [done |]. apply Hf. }
  destruct (isEnd c); [by intros [= <-] |].
  destruct (foldl _ _ _) as [g| |] eqn:Hg; [| done ..].
  cbn [mbind run_bind]. intros [= <-]. simpl.
  by rewrite (relax_fold_flags _ _ _ _ _ _ Hg).
Qed.

Lemma loop_flags fuel : ∀ l l' found,
  loop W H fuel l = Done (l', found) →
  map (map f) (newGrid l') = map (map f) (newGrid l).
Proof.
  induction fuel as [|fuel IH]; intros l l' found; [done |].
  rewrite loop_S. destruct (turn W H l) as [t| |] eqn:Ht; [| done ..].
  cbn [mbind run_bind]. pose proof (turn_flags l t Ht) as Hturn.
  destruct t as [l1 | l1 | l1 cur]; simpl in Hturn.
  - intros Hl. by rewrite (IH _ _ _ Hl).
  - by intros [= <- <-].
  - by intros [= <- <-].
Qed.

Lemma reconstruct_flags fuel : ∀ g o n t g' n' t',
  reconstruct fuel g o n t = Done (g', n', t') →
  map (map f) g' = map (map f) g.
Proof.
  induction fuel as [|fuel IH]; intros g o n t g' n' t';
    destruct o as [p|]; try done; try by intros [= <- <- <-].
  cbn [reconstruct]. destruct (cellAt g p) as [c|] eqn:Hc; [| done].
  cbn [mbind run_bind of_option]. intros Hr. rewrite (IH _ _ _ _ _ _ _ Hr).
  apply (setCell_flags f _ _ c); [done |]. apply Hf.
Qed.

End Flags.

Lemma resetCell_idem g :
  map (map resetCell) (map (map resetCell) g) = map (map resetCell) g.
Proof.
  rewrite map_map. apply map_ext. intros row. rewrite map_map.
  apply map_ext. by intros c.
Qed.

Lemma static_resetCell g :
  map (map static) (map (map resetCell) g) = map (map static) g.
Proof.
  rewrite map_map. apply map_ext. intros row. rewrite map_map.
  apply map_ext. by intros c.
Qed.

(** A run changes no wall, weight, start or end of the grid. *)
Lemma runDijkstra_flags {B} (f : GridCell → B) W H fuel s s' :
  blind f → runDijkstra W H fuel s = Done s' →
  map (map f) (grid s') = map (map f) (map (map resetCell) (grid s)).
Proof.
  intros Hf. unfold runDijkstra.
  destruct (findStart _ _) as [o| |]; [| done ..]. cbn [mbind run_bind].
  destruct o as [pstart|]; [| by intros [= <-]].
  destruct (loop W H fuel _) as [[l found]| |] eqn:Hloop; [| done ..].
  cbn [mbind run_bind].
  pose proof (loop_flags f Hf W H _ _ _ _ Hloop) as Hl. simpl in Hl.
  destruct found as [cur|]; [| by intros [= <-]].
  destruct (reconstruct fuel _ _ _ _) as [[[g n] t]| |] eqn:Hrec; [| done ..].
  cbn [mbind run_bind]. intros [= <-]. simpl.
  by rewrite (reconstruct_flags f Hf _ _ _ _ _ _ _ _ Hrec).
Qed.

(** A second press of [Find Shortest Path] changes nothing: the run that
    follows a run, with no edit in between, ends in the state the first one
    left, grid, marks and counters alike. *)
Theorem second_run_repeats (W H fuel : nat) (s s' : State) :
  startAlgorithm W H fuel s = Done s' →
  startAlgorithm W H fuel s' = Done s'.
Proof.
  unfold startAlgorithm at 1. destruct (isRunning s) eqn:Hr.
  { intros [= <-]. unfold startAlgorithm. by rewrite Hr. }
  unfold runDijkstra. cbn [grid].
  set (R := map (map resetCell) (grid s)).
  destruct (findStart R (scanOrder W H)) as [o| |] eqn:Hstart; [| done ..].
  cbn [mbind run_bind]. destruct o as [pstart|].
  2:{ intros [= <-]. done. }
  destruct (loop W H fuel (loopStart R)) as [[l found]| |] eqn:Hloop;
    [| done ..].
  cbn [mbind run_bind].
  assert (Hl : map (map resetCell) (newGrid l) = R).
  { rewrite (loop_flags resetCell blind_resetCell W H _ _ _ _ Hloop).
    apply resetCell_idem. }
  destruct found as [cur|].
  - destruct (reconstruct fuel _ _ _ _) as [[[g n] t]| |] eqn:Hrec;
      [| done ..].
    cbn [mbind run_bind]. intros [= <-].
    pose proof (reconstruct_flags resetCell blind_resetCell _ _ _ _ _ _ _ _ Hrec)
      as Hg. rewrite Hl in Hg.
    unfold startAlgorithm, runDijkstra. cbn [isRunning grid].
    rewrite Hg, Hstart. cbn [mbind run_bind]. rewrite Hloop.
    cbn [mbind run_bind]. rewrite Hrec. done.
  - intros [= <-].
    unfold startAlgorithm, runDijkstra. cbn [isRunning grid].
    rewrite Hl, Hstart. cbn [mbind run_bind]. rewrite Hloop.
    cbn [mbind run_bind]. simpl. by destruct (visited l).
Qed.

Definition solved : State :=
  match startAlgorithm 20 12 241 heavyColumn with
  | Done s => s
  | _ => heavyColumn
  end.

Lemma second_run_repeats_witness :
  startAlgorithm 20 12 241 heavyColumn = Done solved
  ∧ startAlgorithm 20 12 241 solved = Done solved.
Proof.
  assert (Hrun : startAlgorithm 20 12 241 heavyColumn = Done solved)
    by (vm_compute; reflexivity).
  split; [exact Hrun | exact (second_run_repeats 20 12 241 _ _ Hrun)].
Defined.

(** What every state of a session satisfies: the grid keeps its dimensions,
    the start and the end cell stay where [initializeGrid] put them, neither
    is a wall, and no run is left active. *)
Record Steady (W H : nat) (s : State) : Prop := {
  steady_grid : wellFormed W H (grid s);
  steady_size : length (places (grid s)) = H * W;
  steady_start : ∀ p c, cellAt (grid s) p = Some c →
    isStart c = (p.1 =? 2) && (p.2 =? H / 2);
  steady_end : ∀ p c, cellAt (grid s) p = Some c →
    isEnd c = (Z.of_nat p.1 =? Z.of_nat W - 3)%Z && (p.2 =? H / 2);
  steady_open : ∀ p c, cellAt (grid s) p = Some c →
    isStart c = true ∨ isEnd c = true → isWall c = false;
  steady_idle : isRunning s = false
}.

Lemma cellAt_flags {B} (f : GridCell → B) (g g' : Grid) p :
  map (map f) g' = map (map f) g → f <$> cellAt g' p = f <$> cellAt g p.
Proof. intros E. by rewrite <- !cellAt_fmap, E. Qed.

Lemma places_flags {B} (f : GridCell → B) (g g' : Grid) :
  map (map f) g' = map (map f) g → places g' = places g.
Proof.
  intros E. by rewrite <- (places_fmap f g'), E, places_fmap.
Qed.

Lemma places_length {A} (g : list (list A)) :
  length (places g) = length (concat g).
Proof.
  unfold places.
  assert (Hgen : ∀ (h : nat → nat → nat * nat),
            length (concat (imap (λ row r, imap (λ col _, h col row) r) g))
            = length (concat g)).
  { induction g as [|r g IH]; intros h; [done |]. simpl.
    rewrite !length_app, length_imap. f_equal.
    apply (IH (λ col row, h col (S row))). }
  apply (Hgen (λ col row, (col, row))).
Qed.

Lemma initializeGrid_size W H rw :
  length (places (initializeGrid W H rw)) = H * W.
Proof.
  rewrite places_length. unfold initializeGrid.
  assert (Hgen : ∀ (mk : nat → list GridCell) rows,
            (∀ y, length (mk y) = W) →
            length (concat (map mk rows)) = length rows * W).
  { intros mk rows Hmk. induction rows as [|r rows IH]; [done |]. simpl.
    by rewrite length_app, IH, Hmk. }
  rewrite Hgen, length_seq; [done |].
  intros y. by rewrite length_map, length_seq.
Qed.

Lemma Steady_transfer W H s s' :
  map (map static) (grid s') = map (map static) (grid s) →
  isRunning s' = false → Steady W H s → Steady W H s'.
Proof.
  intros E Hr HS.
  assert (Hcell : ∀ p c', cellAt (grid s') p = Some c' →
            ∃ c, cellAt (grid s) p = Some c ∧ static c = static c').
  { intros p c' Hc'. apply (fmap_Some_eq static _ (cellAt (grid s') p)); [| done].
    symmetry. by apply cellAt_flags. }
  constructor.
  - destruct (steady_grid _ _ _ HS) as [Hdim Hxy]. split.
    + intros p. rewrite <- Hdim.
      rewrite <- !(fmap_is_Some static). by rewrite (cellAt_flags static _ _ p E).
    + intros p c' Hc'. destruct (Hcell p c' Hc') as (c & Hc & Es).
      unfold static in Es. destruct (Hxy p c Hc). split; congruence.
  - rewrite (places_flags static _ _ E). apply (steady_size _ _ _ HS).
  - intros p c' Hc'. destruct (Hcell p c' Hc') as (c & Hc & Es).
    rewrite <- (steady_start _ _ _ HS p c Hc). symmetry.
    by apply static_isStart.
  - intros p c' Hc'. destruct (Hcell p c' Hc') as (c & Hc & Es).
    rewrite <- (steady_end _ _ _ HS p c Hc). symmetry.
    by apply static_isEnd.
  - intros p c' Hc'. destruct (Hcell p c' Hc') as (c & Hc & Es).
    unfold static in Es. intros Hse.
    assert (isWall c' = isWall c) as -> by congruence.
    apply (steady_open _ _ _ HS p c Hc).
    destruct Hse; [left | right]; congruence.
  - done.
Qed.

Lemma Steady_initial W H rw s :
  grid s = initializeGrid W H rw → isRunning s = false → Steady W H s.
Proof.
  intros Hg Hr. constructor; rewrite ?Hg.
  - apply wellFormed_initializeGrid.
  - apply initializeGrid_size.
  - intros p c. rewrite cellAt_initializeGrid. case_decide; [| done].
    by intros [= <-].
  - intros p c. rewrite cellAt_initializeGrid. case_decide; [| done].
    by intros [= <-].
  - intros p c. rewrite cellAt_initializeGrid. case_decide; [| done].
    by intros [= <-].
  - done.
Qed.

Lemma Steady_click W H cx cy s :
  Steady W H s → Steady W H (handleCanvasClick W H cx cy s).
Proof.
  intros HS. unfold handleCanvasClick.
  destruct (isRunning s) eqn:Hr; [done |]. destruct (_ && _); [| done].
  set (p0 := (Z.to_nat cx, Z.to_nat cy)).
  destruct (cellAt (grid s) p0) as [cell|] eqn:Hcell; [| done].
  assert (Hat : ∀ p c', cellAt (setCell (grid s) p0 (editCell (drawMode s) cell)) p
                        = Some c' →
            ∃ c, cellAt (grid s) p = Some c
              ∧ (c' = c ∨ c' = editCell (drawMode s) c)).
  { intros p c'. rewrite (cellAt_setCell _ _ cell) by done. case_decide.
    - intros [= <-]. subst p. eauto.
    - eauto. }
  assert (Hxy : ∀ m c, x (editCell m c) = x c ∧ y (editCell m c) = y c).
  { intros m c. unfold editCell. destruct (_ && _), m; try done.
    by destruct (negb _). }
  constructor; cbn [grid isRunning].
  - destruct (steady_grid _ _ _ HS) as [Hdim Hplace]. split.
    + intros p. rewrite <- Hdim. rewrite (cellAt_setCell _ _ cell) by done.
      case_decide; [subst p; rewrite Hcell; split; eauto | done].
    + intros p c' Hc'. destruct (Hat p c' Hc') as (c & Hc & [-> | ->]).
      * by apply Hplace.
      * destruct (Hxy (drawMode s) c) as [-> ->]. by apply Hplace.
  - rewrite <- (steady_size _ _ _ HS).
    f_equal. apply (places_flags (λ _, tt)).
    by apply (setCell_flags _ _ _ cell).
  - intros p c' Hc'. destruct (Hat p c' Hc') as (c & Hc & [-> | ->]);
      rewrite ?editCell_isStart; by apply (steady_start _ _ _ HS).
  - intros p c' Hc'. destruct (Hat p c' Hc') as (c & Hc & [-> | ->]);
      rewrite ?editCell_isEnd; by apply (steady_end _ _ _ HS).
  - intros p c' Hc'. destruct (Hat p c' Hc') as (c & Hc & [-> | ->]).
    + by apply (steady_open _ _ _ HS p).
    + rewrite editCell_isStart, editCell_isEnd. intros Hse.
      pose proof (steady_open _ _ _ HS p c Hc Hse) as Hw.
      unfold editCell. destruct Hse as [-> | ->]; simpl; [done |].
      by rewrite andb_false_r.
  - done.
Qed.

(** A run on a steady state returns and leaves a steady state. *)
Lemma Steady_start W H fuel s :
  3 ≤ W → 1 ≤ H → H * W < fuel → Steady W H s →
  ∃ s', startAlgorithm W H fuel s = Done s' ∧ Steady W H s'.
Proof.
  intros HW HH Hfuel HS. unfold startAlgorithm.
  rewrite (steady_idle _ _ _ HS).
  set (s1 := {| grid := grid s; isRunning := true |}).
  destruct (runDijkstra_spec W H s1 fuel) as (s' & Hrun & _).
  { apply (steady_grid _ _ _ HS). }
  { cbn [grid s1]. rewrite (steady_size _ _ _ HS). done. }
  exists s'. split; [done |].
  pose proof (runDijkstra_flags static W H fuel s1 s' blind_static Hrun) as E.
  rewrite static_resetCell in E. cbn [grid s1] in E.
  apply (Steady_transfer W H s); [done | | done].
  (* the start cell is found, so the run ends with [isRunning] cleared *)
  revert Hrun. unfold runDijkstra. cbn [grid s1].
  set (R := map (map resetCell) (grid s)).
  destruct (findStart_done R (scanOrder W H)) as (o & -> & Hsome).
  { intros p Hp. apply elem_of_scanOrder in Hp. unfold R.
    rewrite cellAt_fmap, fmap_is_Some.
    by apply (steady_grid _ _ _ HS). }
  cbn [mbind run_bind]. destruct o as [pstart|].
  - destruct (loop W H fuel _) as [[l found]| |]; [| done ..].
    cbn [mbind run_bind]. destruct found; [| by intros [= <-]].
    destruct (reconstruct _ _ _ _ _) as [[[g n] t]| |]; [| done ..].
    by intros [= <-].
  - exfalso. destruct Hsome as [? ?]; [| done].
    assert (Hin : (2, H / 2).1 < W ∧ (2, H / 2).2 < H).
    { cbn [fst snd]. split; [lia | apply Nat.div_lt; lia]. }
    destruct (proj2 (proj1 (steady_grid _ _ _ HS) (2, H / 2)) Hin) as [c Hc].
    exists (2, H / 2), (resetCell c). split; [by apply elem_of_scanOrder |].
    split; [unfold R; by rewrite cellAt_fmap, Hc |].
    simpl. rewrite (steady_start _ _ _ HS _ c Hc). simpl.
    by rewrite !Nat.eqb_refl.
Qed.

(** No action of a session faults, and the grid stays sound: from the grid
    drawn on mount (at least 3 cells wide and 1 high), after any clicks,
    mode changes, runs and resets, the grid has its [gridHeight] rows of
    [gridWidth] cells, the start and the end cell are where they were first
    put and are no walls, no run is left active (so no button stays
    disabled), and whatever the player does next returns normally. *)
Theorem session_never_faults (W H fuel : nat) (s : State) :
  3 ≤ W → 1 ≤ H → H * W < fuel →
  reachable W H fuel s →
  Steady W H s ∧ ∀ a, ∃ s', act W H fuel s a = Done s' ∧ Steady W H s'.
Proof.
  intros HW HH Hfuel Hreach.
  assert (Hact : ∀ s a, Steady W H s →
            ∃ s', act W H fuel s a = Done s' ∧ Steady W H s').
  { intros s0 a HS. destruct a as [x y | m | | rw]; simpl.
    - eexists. split; [done |]. by apply Steady_click.
    - eexists. split; [done |]. by destruct HS.
    - by apply Steady_start.
    - eexists. split; [done |]. unfold resetGrid.
      rewrite (steady_idle _ _ _ HS).
      by apply (Steady_initial W H rw). }
  assert (HS : Steady W H s).
  { induction Hreach as [rw | s a s' _ IH Ha].
    - by apply (Steady_initial W H rw).
    - destruct (Hact s a IH) as (s'' & Ha' & HS'). congruence. }
  split; [done |]. intros a. by apply Hact.
Qed.

Lemma reachable_play W H fuel acts : ∀ s s',
  reachable W H fuel s → play W H fuel s acts = Done s' →
  reachable W H fuel s'.
Proof.
  induction acts as [|a acts IH]; intros s s' Hs; [by intros [= <-] |].
  cbn [play]. destruct (act W H fuel s a) as [s1| |] eqn:Ha; [| done ..].
  cbn [mbind run_bind]. apply IH. by apply (reach_act _ _ _ s a).
Qed.

(** A session: a wall on the straight way, a run, a weight on the detour,
    another run. *)
Definition played : State :=
  match play 20 12 241 heavyColumn
          [Click 5 6; Start; Mode weightMode; Click 5 5; Start] with
  | Done s => s
  | _ => heavyColumn
  end.

Lemma played_reachable : reachable 20 12 241 played.
Proof.
  apply (reachable_play 20 12 241
           [Click 5 6; Start; Mode weightMode; Click 5 5; Start] heavyColumn).
  - apply reach_mount.
  - vm_compute. reflexivity.
Qed.

Lemma session_never_faults_witness :
  Steady 20 12 played
  ∧ ∀ a, ∃ s', act 20 12 241 played a = Done s' ∧ Steady 20 12 s'.
Proof.
  apply (session_never_faults 20 12 241 played); [lia | lia | lia |].
  apply played_reachable.
Defined.

End PathFinderGameSpec.

(** ** The maze solver: what a run finds *)

Module MazeRunSpec.
Import MazeSolver GridSpec MazeSolverSpec.

(** A trail: a list of places, each a cell that is no wall and each next to
    the one before it. *)
Inductive trail (m : Maze) : list (nat * nat) → Prop :=
  | trail_one p c :
      cellAt m p = Some c → isWall c = false → trail m [p]
  | trail_cons p q l c :
      cellAt m p = Some c → isWall c = false → adjacent p q →
      trail m (q :: l) → trail m (p :: q :: l).

(** [getNeighbors] lets the place [q] pass: it is no wall and carries no
    visited mark in the maze of the render. *)
Definition passable (maze : Maze) (q : nat * nat) : bool :=
  match cellAt maze q with
  | Some c => negb (isWall c) && negb (isVisited c)
  | None => false
  end.

(** What one direction adds to the neighbours of the cell at [cur]. *)
Definition look (W H : nat) (maze : Maze) (cur : nat * nat) (dir : Z * Z)
    : list (nat * nat) :=
  let newX := (Z.of_nat cur.1 + dir.1)%Z in
  let newY := (Z.of_nat cur.2 + dir.2)%Z in
  if ((0 <=? newX) && (newX <? Z.of_nat W)
      && (0 <=? newY) && (newY <? Z.of_nat H))%Z
  then
    let q := (Z.to_nat newX, Z.to_nat newY) in
    if passable maze q then [q] else []
  else [].

Definition neighborsOf (W H : nat) (maze : Maze) (cur : nat * nat)
    : list (nat * nat) :=
  directions ≫= look W H maze cur.

Definition adopt (cur : nat * nat) (par : gmap (nat * nat) (nat * nat))
    (new : list (nat * nat)) : gmap (nat * nat) (nat * nat) :=
  foldl (λ par q, <[q := cur]> par) par new.

(** One turn of the loop in closed form. *)
Definition turnOf (W H : nat) (maze : Maze) (a : Algorithm) (s : Search)
    : Turn :=
  match take a (frontier s) with
  | None => Stop s
  | Some (cur, rest) =>
    match cellAt (newMaze s) cur with
    | None => Stop s
    | Some c =>
      if isVisited c then
        Again {| newMaze := newMaze s; frontier := rest; parent := parent s;
                 visited := visited s; shown := shown s |}
      else
        let m := setCell (newMaze s) cur (markVisited c) in
        if isEnd c then
          AtEnd {| newMaze := m; frontier := rest; parent := parent s;
                   visited := S (visited s); shown := shown s |} cur
        else
          let new := List.filter (unvisitedAt m) (neighborsOf W H maze cur) in
          Again {| newMaze := m; frontier := rest ++ new;
                   parent := adopt cur (parent s) new;
                   visited := S (visited s); shown := true |}
    end
  end.

Lemma take_perm a l cur rest :
  take a l = Some (cur, rest) → l ≡ₚ cur :: rest.
Proof.
  destruct a; simpl.
  - destruct l as [|c l]; [done |]. by intros [= <- <-].
  - unfold pop. destruct (reverse l) as [|c r] eqn:E; [done |].
    intros [= <- <-]. rewrite <- (reverse_involutive l), E, reverse_cons.
    by rewrite Permutation_app_comm.
Qed.

Lemma adopt_lookup cur new : ∀ par n,
  adopt cur par new !! n = if decide (n ∈ new) then Some cur else par !! n.
Proof.
  unfold adopt. induction new as [|q new IH]; intros par n; cbn [foldl].
  - case_decide as Hin; [by apply elem_of_nil in Hin | done].
  - rewrite IH. case_decide as Hin.
    + case_decide as Hin'; [done |]. exfalso. apply Hin'. by right.
    + destruct (decide (n = q)) as [-> | Hne].
      * rewrite lookup_insert_eq. case_decide as Hin'; [done |].
        exfalso. apply Hin'. by left.
      * rewrite lookup_insert_ne by done.
        case_decide as Hin'; [| done].
        by apply elem_of_cons in Hin' as [? | ?].
Qed.

Lemma adjacent_parity p q :
  adjacent p q → Nat.even (q.1 + q.2) = negb (Nat.even (p.1 + p.2)).
Proof.
  intros (dir & Hdir & H1 & H2). unfold directions in Hdir.
  assert (q.1 + q.2 = S (p.1 + p.2) ∨ S (q.1 + q.2) = p.1 + p.2) as [-> | <-].
  { repeat (apply elem_of_cons in Hdir as [-> | Hdir]); simpl in *;
      [lia .. |]. inversion Hdir. }
  - by rewrite Nat.even_succ, <- Nat.negb_even.
  - rewrite Nat.even_succ, <- Nat.negb_even. by rewrite negb_involutive.
Qed.

Section Run.
Variables W H : nat.
Variable maze : Maze.
Variable m0 : Maze.
Hypothesis wfs : wellFormed W H maze.
Hypothesis wf0 : wellFormed W H m0.
Hypothesis same : ∀ p, static <$> cellAt m0 p = static <$> cellAt maze p.

Lemma elem_of_neighborsOf cur q :
  q ∈ neighborsOf W H maze cur ↔
  adjacent cur q ∧ q.1 < W ∧ q.2 < H ∧ passable maze q = true.
Proof.
  unfold neighborsOf. rewrite list_elem_of_bind. split.
  - intros (dir & Hq & Hdir). unfold look in Hq.
    destruct (_ && _) eqn:Hb; [| by apply elem_of_nil in Hq].
    apply andb_true_iff in Hb as [Hb Hb4]. apply andb_true_iff in Hb as [Hb Hb3].
    apply andb_true_iff in Hb as [Hb1 Hb2].
    apply Z.leb_le in Hb1, Hb3. apply Z.ltb_lt in Hb2, Hb4.
    destruct (passable maze _) eqn:Ha; [| by apply elem_of_nil in Hq].
    apply list_elem_of_singleton in Hq as ->. cbn [fst snd].
    split_and!; [| lia | lia | done].
    exists dir. split; [done |]. cbn [fst snd]. lia.
  - intros ((dir & Hdir & H1 & H2) & Hx & Hy & Ha). exists dir.
    split; [| done]. unfold look. rewrite <- H1, <- H2.
    assert (((0 <=? Z.of_nat q.1) && (Z.of_nat q.1 <? Z.of_nat W)
             && (0 <=? Z.of_nat q.2) && (Z.of_nat q.2 <? Z.of_nat H))%Z = true)
      as ->.
    { rewrite !andb_true_iff, !Z.leb_le, !Z.ltb_lt. lia. }
    rewrite !Nat2Z.id. destruct q as [q1 q2]. cbn [fst snd] in *.
    rewrite Ha. by left.
Qed.

Lemma lookAt_eq cell ns dir :
  lookAt W H maze cell (Done ns) dir
  = Done (ns ++ look W H maze (x cell, y cell) dir).
Proof.
  unfold lookAt, look. cbn [mbind run_bind fst snd].
  destruct (_ && _) eqn:Hb; [| by rewrite app_nil_r].
  apply andb_true_iff in Hb as [Hb Hb4]. apply andb_true_iff in Hb as [Hb Hb3].
  apply andb_true_iff in Hb as [Hb1 Hb2].
  apply Z.leb_le in Hb1, Hb3. apply Z.ltb_lt in Hb2, Hb4.
  destruct wfs as [Hdim _].
  destruct (proj2 (Hdim (Z.to_nat (Z.of_nat (x cell) + dir.1),
                         Z.to_nat (Z.of_nat (y cell) + dir.2)))) as [c Hc];
    [simpl; lia |].
  unfold passable. rewrite Hc. cbn [mbind run_bind of_option].
  destruct (_ && _); [done | by rewrite app_nil_r].
Qed.

Lemma getNeighbors_eq cell :
  getNeighbors W H maze cell = Done (neighborsOf W H maze (x cell, y cell)).
Proof.
  unfold getNeighbors, neighborsOf, directions. cbn [foldl].
  rewrite !lookAt_eq. f_equal. simpl. by rewrite app_nil_r, <- !app_assoc.
Qed.

Lemma discover_eq m cur ns : ∀ par fr,
  (∀ q, q ∈ ns → is_Some (cellAt m q)) →
  foldl (discover m cur) (Done (par, fr)) ns
  = Done (adopt cur par (List.filter (unvisitedAt m) ns),
          fr ++ List.filter (unvisitedAt m) ns).
Proof.
  induction ns as [|n ns IH]; intros par fr Hns.
  - simpl. by rewrite app_nil_r.
  - cbn [foldl]. unfold discover at 2. cbn [mbind run_bind].
    destruct (Hns n) as [c Hc]; [left |]. rewrite Hc.
    cbn [mbind run_bind of_option].
    assert (Hu : unvisitedAt m n = negb (isVisited c)).
    { unfold unvisitedAt. by rewrite Hc. }
    cbn [List.filter]. rewrite Hu.
    assert (Hns' : ∀ q, q ∈ ns → is_Some (cellAt m q)).
    { intros q Hq. apply Hns. by right. }
    destruct (isVisited c); cbn [negb].
    + by apply IH.
    + rewrite IH by done. by rewrite <- app_assoc.
Qed.

Lemma turn_eq a s rank :
  Inv W H m0 s rank → turn W H maze a s = Done (turnOf W H maze a s).
Proof.
  intros HI. unfold turn, turnOf.
  pose proof (take_spec a (frontier s)) as Htake.
  destruct (take a (frontier s)) as [[cur rest]|]; [| done].
  destruct Htake as (_ & Hcur & _).
  destruct (inv_exists W H m0 wf0 s rank cur HI) as [c Hc];
    [by apply (inv_frontier _ _ _ _ _ HI) .. |].
  rewrite Hc. cbn [mbind run_bind of_option].
  destruct (isVisited c) eqn:Hv; [done |].
  destruct (isEnd c); [done |].
  destruct (inv_place W H m0 wf0 s rank cur c HI Hc) as [Hx Hy].
  rewrite getNeighbors_eq, Hx, Hy. cbn [mbind run_bind].
  assert ((cur.1, cur.2) = cur) as -> by (by destruct cur).
  rewrite discover_eq; [done |].
  intros q [_ [Hq1 [Hq2 _]]]%elem_of_neighborsOf.
  rewrite <- (fmap_is_Some static).
  rewrite (cellAt_setCell_proj static _ _ c) by done.
  rewrite fmap_is_Some. by apply (inv_exists W H m0 wf0 s rank q HI).
Qed.

(** The parent map is a tree rooted at the start cell: what the frontier
    and the visited cells have in common on any maze whose cell (1, 1) is no
    wall. *)
Record Tree (s : Search) : Prop := {
  tree_frontier : ∀ q, q ∈ frontier s →
    (∃ c, cellAt m0 q = Some c ∧ isWall c = false)
    ∧ (q = (1, 1) ∨ is_Some (parent s !! q));
  tree_visited : ∀ p c, cellAt (newMaze s) p = Some c → isVisited c = true →
    isWall c = false ∧ (p = (1, 1) ∨ is_Some (parent s !! p));
  tree_parent : ∀ n p, parent s !! n = Some p → adjacent p n;
  tree_root : parent s !! (1, 1) = None;
  tree_start :
    (∃ c, cellAt (newMaze s) (1, 1) = Some c ∧ isVisited c = true)
    ∨ frontier s = [(1, 1)];
  tree_nopath : ∀ p c, cellAt (newMaze s) p = Some c → isPath c = false
}.

Definition stateOf (t : Turn) : Search :=
  match t with
  | Again s | Stop s | AtEnd s _ => s
  end.

Lemma static_at (m m' : Maze) p c c' :
  static <$> cellAt m p = static <$> cellAt m' p →
  cellAt m p = Some c → cellAt m' p = Some c' → static c = static c'.
Proof. intros E Hc Hc'. rewrite Hc, Hc' in E. simpl in E. congruence. Qed.

Lemma static_wall c c' : static c' = static c → isWall c' = isWall c.
Proof. unfold static. intros E. by simplify_eq. Qed.

Lemma static_end c c' : static c' = static c → isEnd c' = isEnd c.
Proof. unfold static. intros E. by simplify_eq. Qed.

Lemma Tree_turn a s rank :
  Inv W H m0 s rank → Tree s → Tree (stateOf (turnOf W H maze a s)).
Proof.
  intros HI HT. unfold turnOf.
  destruct (take a (frontier s)) as [[cur rest]|] eqn:Htake; [| done].
  pose proof (take_perm _ _ _ _ Htake) as Hperm.
  assert (Hfr : ∀ q, q ∈ frontier s ↔ q = cur ∨ q ∈ rest).
  { intros q. by rewrite Hperm, elem_of_cons. }
  destruct (cellAt (newMaze s) cur) as [c|] eqn:Hc; [| done].
  destruct (tree_frontier _ HT cur) as [(c0 & Hc0 & Hw0) Hpar]; [apply Hfr; by left |].
  assert (Hwc : isWall c = false).
  { pose proof (static_at _ _ _ _ _ (inv_static _ _ _ _ _ HI cur) Hc Hc0) as Es.
    by rewrite (static_wall _ _ Es). }
  assert (Hstart : frontier s = [(1, 1)] → cur = (1, 1) ∧ rest = []).
  { intros E. rewrite E in Hperm.
    apply Permutation_singleton_l in Hperm. by simplify_eq. }
  destruct (isVisited c) eqn:Hv.
  { simpl. destruct HT as [T1 T2 T3 T4 T5 T6]. constructor; simpl; try done.
    - intros q Hq. apply T1, Hfr. by right.
    - destruct T5 as [? | E]; [by left |]. left.
      destruct (Hstart E) as [-> _]. eauto. }
  set (m := setCell (newMaze s) cur (markVisited c)).
  assert (Hm : ∀ p c', cellAt m p = Some c' →
            (p = cur ∧ c' = markVisited c)
            ∨ (p ≠ cur ∧ cellAt (newMaze s) p = Some c')).
  { intros p c'. unfold m. rewrite (cellAt_setCell _ _ c) by done.
    case_decide; [intros [= <-]; by left | by right]. }
  assert (Hroot : ∃ c1, cellAt m (1, 1) = Some c1 ∧ isVisited c1 = true).
  { destruct (tree_start _ HT) as [(c1 & Hc1 & Hv1) | E].
    - exists c1. unfold m. rewrite cellAt_setCell_ne; [done |].
      intros ->. congruence.
    - destruct (Hstart E) as [-> _]. exists (markVisited c).
      split; [by apply (cellAt_setCell_eq _ _ c) | done]. }
  destruct (isEnd c) eqn:Hend.
  { simpl. fold m. destruct HT as [T1 T2 T3 T4 T5 T6].
    constructor; simpl; try done.
    - intros q Hq. apply T1, Hfr. by right.
    - intros p c' Hc' Hv'. destruct (Hm p c' Hc') as [[-> ->] | [_ Hold]].
      + done.
      + by apply (T2 p c').
    - by left.
    - intros p c' Hc'. destruct (Hm p c' Hc') as [[-> ->] | [_ Hold]].
      + simpl. by apply (T6 cur).
      + by apply (T6 p). }
  simpl. fold m.
  set (new := List.filter (unvisitedAt m) (neighborsOf W H maze cur)).
  assert (Hnew : ∀ q, q ∈ new → adjacent cur q ∧ unvisitedAt m q = true
                   ∧ ∃ cq, cellAt m0 q = Some cq ∧ isWall cq = false).
  { intros q Hq. unfold new in Hq.
    apply list_elem_of_In, filter_In in Hq as [Hq Hu].
    apply list_elem_of_In, elem_of_neighborsOf in Hq as (Hadj & _ & _ & Ha).
    split_and!; [done | done |]. unfold passable in Ha.
    destruct (cellAt maze q) as [cq|] eqn:Hcq; [| done].
    apply andb_true_iff in Ha as [Ha _]. apply negb_true_iff in Ha.
    destruct (fmap_Some_eq static _ _ cq (same q) Hcq) as (cq0 & Hcq0 & Es).
    exists cq0. split; [done |]. by rewrite (static_wall _ _ Es). }
  destruct HT as [T1 T2 T3 T4 T5 T6]. constructor; simpl.
  - intros q [Hq | Hq]%elem_of_app.
    + destruct (T1 q) as [Hw Hp]; [apply Hfr; by right |].
      split; [done |]. destruct Hp as [-> | Hp]; [by left | right].
      rewrite adopt_lookup. by case_decide.
    + destruct (Hnew q Hq) as (_ & _ & Hw). split; [done |]. right.
      rewrite adopt_lookup. rewrite decide_True by done. eauto.
  - intros p c' Hc' Hv'. rewrite adopt_lookup.
    destruct (Hm p c' Hc') as [[-> ->] | [_ Hold]].
    + split; [done |]. destruct Hpar as [-> | Hp]; [by left | right].
      by case_decide.
    + destruct (T2 p c' Hold Hv') as [Hw Hp]. split; [done |].
      destruct Hp as [-> | Hp]; [by left | right]. by case_decide.
  - intros n p. rewrite adopt_lookup. case_decide as Hin.
    + intros [= <-]. by destruct (Hnew n Hin) as (? & _).
    + apply T3.
  - rewrite adopt_lookup. case_decide as Hin; [| done]. exfalso.
    destruct (Hnew _ Hin) as (_ & Hu & _). destruct Hroot as (c1 & Hc1 & Hv1).
    unfold unvisitedAt in Hu. rewrite Hc1, Hv1 in Hu. done.
  - by left.
  - intros p c' Hc'. destruct (Hm p c' Hc') as [[-> ->] | [_ Hold]].
    + simpl. by apply (T6 cur).
    + by apply (T6 p).
Qed.

(** The chain of parents of a visited cell, read backwards, is a trail from
    the start cell, and no place occurs twice on it. *)
Lemma pchain_trail s rank :
  Inv W H m0 s rank → Tree s →
  ∀ l p c, pchain (parent s) (Some p) l →
    cellAt (newMaze s) p = Some c → isVisited c = true →
    trail m0 (reverse l) ∧ head l = Some p ∧ last l = Some (1, 1)
    ∧ (∀ q, q ∈ l → rank q ≤ rank p)
    ∧ NoDup l.
Proof.
  intros HI HT l. induction l as [|p' l IH]; intros p c Hch Hc Hv.
  { inversion Hch. }
  assert (p' = p ∧ pchain (parent s) (parent s !! p) l) as [-> Hch1].
  { inversion Hch as [|p1 l1 Hch1]. done. }
  destruct (tree_visited _ HT p c Hc Hv) as [Hw Hroot].
  destruct (fmap_Some_eq static _ _ c (eq_sym (inv_static _ _ _ _ _ HI p)) Hc)
    as (c0 & Hc0 & Es).
  assert (Hw0 : isWall c0 = false) by (by rewrite (static_wall _ _ Es)).
  destruct (parent s !! p) as [q|] eqn:Hp.
  - destruct (inv_parent _ _ _ _ _ HI p q Hp) as [(cq & Hcq & Hvq) Hrk].
    specialize (Hrk c Hc Hv).
    destruct (IH q cq Hch1 Hcq Hvq) as (Htr & Hhead & Hlast & Hranks & Hnd).
    split_and!.
    + rewrite reverse_cons.
      clear IH Hch Hch1. revert Htr. rewrite <- (last_reverse l) in Hhead.
      generalize (reverse l) Hhead. clear Hhead Hlast Hranks Hnd.
      intros w Hlastw Htr. revert Hlastw.
      induction Htr as [p1 c1 Hc1 Hw1 | p1 q1 l1 c1 Hc1 Hw1 Hadj Htr IHt];
        intros Hlastw.
      * simpl in Hlastw. injection Hlastw as ->. simpl.
        apply (trail_cons _ _ _ _ c1); [done .. | |].
        -- by apply (tree_parent _ HT p q).
        -- by apply (trail_one _ _ c0).
      * simpl. apply (trail_cons _ _ _ _ c1); [done .. |].
        apply IHt. by destruct l1.
    + done.
    + rewrite last_cons, Hlast. done.
    + intros q' [-> | Hq']%elem_of_cons; [done |].
      pose proof (Hranks q' Hq'). lia.
    + constructor; [| done]. intros Hin. pose proof (Hranks p Hin). lia.
  - inversion Hch1; subst. destruct Hroot as [-> | [? ?]]; [| done].
    split_and!; try done.
    + by apply (trail_one _ _ c0).
    + intros q ->%list_elem_of_singleton. done.
    + apply NoDup_singleton.
Qed.

End Run.

Definition visitedAt (m : Maze) (p : nat * nat) : bool :=
  match cellAt m p with
  | Some c => isVisited c
  | None => false
  end.

(** A cell the search has met: it waits on the work list or is visited. *)
Definition met (s : Search) (q : nat * nat) : Prop :=
  q ∈ frontier s ∨ visitedAt (newMaze s) q = true.

(** Every way out of a visited cell has been met. *)
Definition Closed (s : Search) : Prop :=
  ∀ p q cq, visitedAt (newMaze s) p = true → adjacent p q →
    cellAt (newMaze s) q = Some cq → isWall cq = false → met s q.

(** The levels of breadth-first search: [lev] counts the moves from the
    start cell, the queue holds level [L] and then level [L + 1]. *)
Record Level (maze : Maze) (s : Search) (lev : nat * nat → nat) (L : nat)
    : Prop := {
  lev_root : lev (1, 1) = 0;
  lev_parent : ∀ n p, parent s !! n = Some p → lev n = S (lev p);
  lev_visited : ∀ p, visitedAt (newMaze s) p = true → lev p ≤ L;
  lev_queue : ∃ A B, frontier s = A ++ B
    ∧ (∀ q, q ∈ A → lev q = L) ∧ (∀ q, q ∈ B → lev q = S L);
  lev_walk : ∀ q, met s q → walk maze (lev q) (1, 1) q;
  lev_edge : ∀ p q cq, visitedAt (newMaze s) p = true → adjacent p q →
    cellAt (newMaze s) q = Some cq → isWall cq = false →
    met s q ∧ lev q ≤ S (lev p);
  lev_parity : ∀ q, met s q → Nat.even (lev q) = Nat.even (q.1 + q.2)
}.

Lemma maze_walk_snoc m n a p q c :
  walk m n a p → adjacent p q → cellAt m q = Some c → isWall c = false →
  walk m (S n) a q.
Proof.
  intros Hw Hadj Hc Hwall.
  induction Hw as [p c0 Hc0 Hw0 | n p p' r c0 Hc0 Hw0 Hadj0 _ IH].
  - apply (walk_step _ _ _ q _ c0); [done .. |]. by apply (walk_here _ _ c).
  - apply (walk_step _ _ _ p' _ c0); [done .. |]. by apply IH.
Qed.

Lemma walk_last m n a b :
  walk m n a b → ∃ c, cellAt m b = Some c ∧ isWall c = false.
Proof. induction 1; eauto. Qed.

Lemma maze_walk_static m m' n a b :
  (∀ p, static <$> cellAt m' p = static <$> cellAt m p) →
  walk m n a b → walk m' n a b.
Proof.
  intros Hs. induction 1 as [p c Hc Hw | n p q r c Hc Hw Hadj _ IH].
  - destruct (fmap_Some_eq static _ _ c (Hs p) Hc) as (c' & Hc' & E).
    apply (walk_here _ _ c'); [done |]. by rewrite (static_wall _ _ E).
  - destruct (fmap_Some_eq static _ _ c (Hs p) Hc) as (c' & Hc' & E).
    apply (walk_step _ _ _ q _ c'); [done | | done | done].
    by rewrite (static_wall _ _ E).
Qed.

Lemma trail_static m m' l :
  (∀ p, static <$> cellAt m' p = static <$> cellAt m p) →
  trail m l → trail m' l.
Proof.
  intros Hs. induction 1 as [p c Hc Hw | p q l c Hc Hw Hadj _ IH].
  - destruct (fmap_Some_eq static _ _ c (Hs p) Hc) as (c' & Hc' & E).
    apply (trail_one _ _ c'); [done |]. by rewrite (static_wall _ _ E).
  - destruct (fmap_Some_eq static _ _ c (Hs p) Hc) as (c' & Hc' & E).
    apply (trail_cons _ _ _ _ c'); [done | | done | done].
    by rewrite (static_wall _ _ E).
Qed.

(** A trail is a walk of one move less than it has cells. *)
Lemma trail_walk m l :
  trail m l → ∀ a b, head l = Some a → last l = Some b →
  walk m (length l - 1) a b.
Proof.
  induction 1 as [p c Hc Hw | p q l c Hc Hw Hadj Htr IH]; intros a b Ha Hb;
    simpl in Ha; injection Ha as <-.
  - simpl in Hb. injection Hb as <-. by apply (walk_here _ _ c).
  - cbn [length]. replace (S (S (length l)) - 1) with (S (length l)) by lia.
    apply (walk_step _ _ _ q _ c); [done .. |].
    specialize (IH q b eq_refl). cbn [length] in IH.
    replace (S (length l) - 1) with (length l) in IH by lia.
    apply IH. by rewrite last_cons_cons in Hb.
Qed.

(** And a walk runs along a trail. *)
Lemma walk_trail m n a b :
  walk m n a b →
  ∃ l, trail m l ∧ head l = Some a ∧ last l = Some b ∧ length l = S n.
Proof.
  induction 1 as [p c Hc Hw | n p q r c Hc Hw Hadj _ (l & Htr & Hh & Hl & Hlen)].
  - exists [p]. split_and!; try done. by apply (trail_one _ _ c).
  - destruct l as [|q' l]; [done |]. simpl in Hh. injection Hh as ->.
    exists (p :: q :: l). split_and!; try done.
    + by apply (trail_cons _ _ _ _ c).
    + simpl in *. lia.
Qed.

(** The cells [reconstruct] marks are those of the chain of parents. *)
Lemma reconstruct_chain par fuel : ∀ m o n m' n',
  reconstruct fuel m par o n = Done (m', n') →
  ∃ l, pchain par o l ∧ n' = n + length l
    ∧ ∀ q c', cellAt m' q = Some c' →
        ∃ c, cellAt m q = Some c ∧ static c' = static c
          ∧ isPath c' = isPath c || bool_decide (q ∈ l).
Proof.
  induction fuel as [|fuel IH]; intros m o n m' n' Hrun;
    destruct o as [p|]; try done.
  - simpl in Hrun. injection Hrun as <- <-. exists []. split_and!.
    + constructor.
    + simpl. lia.
    + intros q c' Hc'. exists c'. by rewrite orb_false_r.
  - cbn [reconstruct] in Hrun. destruct (cellAt m p) as [c|] eqn:Hc; [| done].
    cbn [mbind run_bind of_option] in Hrun.
    destruct (IH _ _ _ _ _ Hrun) as (l & Hch & -> & Hmarks).
    exists (p :: l). split_and!.
    + by constructor.
    + simpl. lia.
    + intros q c' Hc'. destruct (Hmarks q c' Hc') as (c1 & Hc1 & Es & Hp).
      rewrite (cellAt_setCell _ _ c) in Hc1 by done. case_decide as E.
      * subst q. injection Hc1 as <-. exists c. split_and!; try done.
        rewrite Hp. simpl. rewrite bool_decide_eq_true_2 by (by left).
        by rewrite orb_true_r.
      * exists c1. split_and!; try done. rewrite Hp. f_equal.
        apply bool_decide_ext. rewrite elem_of_cons. naive_solver.
  - simpl in Hrun. injection Hrun as <- <-. exists []. split_and!.
    + constructor.
    + simpl. lia.
    + intros q c' Hc'. exists c'. by rewrite orb_false_r.
Qed.

Section Run.
Variables W H : nat.
Variable maze : Maze.
Variable m0 : Maze.
Hypothesis wfs : wellFormed W H maze.
Hypothesis wf0 : wellFormed W H m0.
Hypothesis same : ∀ p, static <$> cellAt m0 p = static <$> cellAt maze p.

(** Induction over the turns of the loop. *)
Lemma loop_ind (P : Search → Prop) (Q : Search → option (nat * nat) → Prop) a :
  (∀ s rank s', Inv W H m0 s rank → Quiet s → P s →
     turnOf W H maze a s = Again s' → P s') →
  (∀ s rank s' cur rank', Inv W H m0 s rank → Quiet s → P s →
     turnOf W H maze a s = AtEnd s' cur → Inv W H m0 s' rank' →
     Q s' (Some cur)) →
  (∀ s rank s', Inv W H m0 s rank → Quiet s → P s →
     turnOf W H maze a s = Stop s' → Q s' None) →
  ∀ fuel s rank r found, Inv W H m0 s rank → Quiet s → P s →
    loop W H maze a fuel s = Done (r, found) → Q r found.
Proof.
  intros Hagain Hend Hstop.
  induction fuel as [|fuel IH]; intros s rank r found HI HQ HP; [done |].
  rewrite search_loop_S.
  destruct (search_turn_spec W H maze m0 wfs wf0 a s rank HI HQ)
    as (t & Ht & Hpost).
  rewrite Ht. cbn [mbind run_bind].
  rewrite (turn_eq W H maze m0 wfs wf0 a s rank HI) in Ht.
  injection Ht as Ht.
  destruct t as [s' | s' | s' cur].
  - destruct Hpost as ([rank' HI'] & HQ' & _).
    apply (IH s' rank'); try done. by apply (Hagain s rank).
  - intros [= <- <-]. by apply (Hstop s rank).
  - destruct Hpost as ([rank' HI'] & _).
    intros [= <- <-]. by apply (Hend s rank s' cur rank').
Qed.

Lemma visitedAt_setCell m cur c p :
  cellAt m cur = Some c →
  visitedAt (setCell m cur (markVisited c)) p
  = bool_decide (p = cur) || visitedAt m p.
Proof.
  intros Hc. unfold visitedAt. rewrite (cellAt_setCell _ _ c) by done.
  case_decide as E.
  - subst p. by rewrite bool_decide_eq_true_2.
  - rewrite bool_decide_eq_false_2; [done | congruence].
Qed.

Lemma newMaze_wall s rank q cq :
  Inv W H m0 s rank → cellAt (newMaze s) q = Some cq → isWall cq = false →
  q.1 < W ∧ q.2 < H
  ∧ ∃ c, cellAt maze q = Some c ∧ isWall c = false.
Proof.
  intros HI Hcq Hw.
  destruct (fmap_Some_eq static _ _ cq (eq_sym (inv_static _ _ _ _ _ HI q)) Hcq)
    as (c0 & Hc0 & E0).
  destruct (fmap_Some_eq static _ _ c0 (eq_sym (same q)) Hc0) as (c & Hc & E).
  destruct wf0 as [Hdim _].
  destruct (proj1 (Hdim q)) as [? ?]; [eauto |].
  split_and!; [done | done |]. exists c. split; [done |].
  by rewrite (static_wall _ _ E), (static_wall _ _ E0).
Qed.

(** On a maze without visited marks, [getNeighbors] lists every neighbour
    that is no wall. *)
Section Fresh.
Hypothesis fresh : ∀ p c, cellAt maze p = Some c → isVisited c = false.

Lemma fresh_new s rank cur c q cq :
  Inv W H m0 s rank → cellAt (newMaze s) cur = Some c →
  adjacent cur q → cellAt (newMaze s) q = Some cq → isWall cq = false →
  visitedAt (setCell (newMaze s) cur (markVisited c)) q = false →
  q ∈ List.filter (unvisitedAt (setCell (newMaze s) cur (markVisited c)))
        (neighborsOf W H maze cur).
Proof.
  intros HI Hc Hadj Hcq Hw Hv.
  destruct (newMaze_wall s rank q cq HI Hcq Hw) as (Hx & Hy & cm & Hcm & Hwm).
  apply list_elem_of_In, filter_In. split.
  - apply list_elem_of_In, (elem_of_neighborsOf W H maze).
    split_and!; try done. unfold passable.
    by rewrite Hcm, Hwm, (fresh q cm Hcm).
  - unfold unvisitedAt. unfold visitedAt in Hv.
    destruct (cellAt (setCell _ _ _) q) as [c'|] eqn:Hc'.
    + by rewrite Hv.
    + rewrite (cellAt_setCell _ _ c) in Hc' by done.
      case_decide; [done | congruence].
Qed.

Lemma Closed_turn a s rank s' :
  Inv W H m0 s rank → Closed s →
  turnOf W H maze a s = Again s' → Closed s'.
Proof.
  intros HI HC. unfold turnOf.
  destruct (take a (frontier s)) as [[cur rest]|] eqn:Htake; [| done].
  pose proof (take_perm _ _ _ _ Htake) as Hperm.
  assert (Hfr : ∀ q, q ∈ frontier s ↔ q = cur ∨ q ∈ rest).
  { intros q. by rewrite Hperm, elem_of_cons. }
  destruct (cellAt (newMaze s) cur) as [c|] eqn:Hc; [| done].
  destruct (isVisited c) eqn:Hv.
  { intros [= <-]. intros p q cq Hp Hadj Hcq Hw. simpl in *.
    destruct (HC p q cq Hp Hadj Hcq Hw) as [Hq | Hq]; [| by right].
    apply Hfr in Hq as [-> | Hq]; [right | by left].
    unfold visitedAt. cbn [newMaze]. by rewrite Hc. }
  destruct (isEnd c); [done |]. intros [= <-].
  intros p q cq. cbn [newMaze frontier]. unfold met. cbn [newMaze frontier].
  rewrite !(visitedAt_setCell _ _ c) by done.
  rewrite (cellAt_setCell _ _ c) by done.
  intros Hp Hadj Hcq Hw.
  assert (∃ cq0, cellAt (newMaze s) q = Some cq0 ∧ isWall cq0 = false)
    as (cq0 & Hcq0 & Hw0).
  { case_decide; [| eauto]. injection Hcq as <-. subst q. eauto. }
  destruct (bool_decide (q = cur) || visitedAt (newMaze s) q) eqn:Hvq;
    [by right | left].
  apply orb_true_iff in Hp as [Hp | Hp].
  - apply bool_decide_eq_true in Hp as ->. apply elem_of_app. right.
    apply (fresh_new s rank cur c q cq0 HI Hc Hadj Hcq0 Hw0).
    by rewrite (visitedAt_setCell _ _ c).
  - apply orb_false_iff in Hvq as [Hne Hvq]. apply bool_decide_eq_false in Hne.
    destruct (HC p q cq0 Hp Hadj Hcq0 Hw0) as [Hq | Hq]; [| congruence].
    apply Hfr in Hq as [-> | Hq]; [done |]. apply elem_of_app. by left.
Qed.

(** When the work list is empty, every cell a walk reaches from a visited
    cell is visited. *)
Lemma Closed_walk s rank :
  Inv W H m0 s rank → Closed s → frontier s = [] →
  ∀ n p r, walk maze n p r → visitedAt (newMaze s) p = true →
  visitedAt (newMaze s) r = true.
Proof.
  intros HI HC Hempty n p r Hwalk.
  induction Hwalk as [p c Hc Hw | n p q r c Hc Hw Hadj Hwalk IH]; [done |].
  intros Hp. apply IH.
  assert (∃ cm, cellAt maze q = Some cm ∧ isWall cm = false)
    as (cm & Hcm & Hwm).
  { inversion Hwalk; eauto. }
  destruct (fmap_Some_eq static _ _ cm (same q) Hcm) as (c0 & Hc0 & E0).
  destruct (fmap_Some_eq static _ _ c0 (inv_static _ _ _ _ _ HI q) Hc0)
    as (cq & Hcq & Eq).
  assert (Hwq : isWall cq = false).
  { by rewrite (static_wall _ _ Eq), (static_wall _ _ E0). }
  destruct (HC p q cq Hp Hadj Hcq Hwq) as [Hq | Hq]; [| done].
  rewrite Hempty in Hq. by apply elem_of_nil in Hq.
Qed.

End Fresh.

End Run.

Lemma initializeMaze_cell W H rw p :
  cellAt (initializeMaze W H rw) p =
  if decide (p.1 < W ∧ p.2 < H) then
    let corner1 := (p.1 =? 1) && (p.2 =? 1) in
    let corner2 := (Z.of_nat p.1 =? Z.of_nat W - 2)%Z
                   && (Z.of_nat p.2 =? Z.of_nat H - 2)%Z in
    let border := (p.1 =? 0) || (p.2 =? 0)
                  || (Z.of_nat p.1 =? Z.of_nat W - 1)%Z
                  || (Z.of_nat p.2 =? Z.of_nat H - 1)%Z in
    Some {| x := p.1; y := p.2;
            isWall := (rw p.1 p.2 && negb corner1 && negb corner2) || border;
            isVisited := false; isPath := false;
            isStart := corner1; isEnd := corner2 |}
  else None.
Proof.
  destruct p as [col row]. unfold cellAt, initializeMaze. cbn [fst snd].
  change (map ?f ?l) with (f <$> l). rewrite list_lookup_fmap.
  destruct (decide (row < H)) as [Hr|Hr].
  - rewrite lookup_seq_lt by done. cbn [fmap option_fmap option_map mbind option_bind].
    change (map ?f ?l) with (f <$> l). rewrite list_lookup_fmap.
    destruct (decide (col < W)) as [Hc|Hc].
    + rewrite lookup_seq_lt by done. by rewrite decide_True.
    + rewrite lookup_seq_ge by lia. rewrite decide_False; [done | lia].
  - rewrite lookup_seq_ge by lia. rewrite decide_False; [done | lia].
Qed.

Lemma initializeMaze_unmarked W H rw p c :
  cellAt (initializeMaze W H rw) p = Some c → isVisited c = false.
Proof.
  rewrite initializeMaze_cell. case_decide; [| done]. by intros [= <-].
Qed.

Lemma reset_same (maze : Maze) p :
  static <$> cellAt (map (map resetCell) maze) p = static <$> cellAt maze p.
Proof. rewrite cellAt_fmap. by destruct (cellAt maze p). Qed.

Lemma reset_unvisited (maze : Maze) p :
  visitedAt (map (map resetCell) maze) p = false.
Proof.
  unfold visitedAt. rewrite cellAt_fmap. by destruct (cellAt maze p).
Qed.

Lemma Tree_searchStart (maze : Maze) c0 :
  cellAt maze (1, 1) = Some c0 → isWall c0 = false →
  Tree (map (map resetCell) maze) (searchStart maze).
Proof.
  intros Hc0 Hw0. constructor; simpl.
  - intros q ->%list_elem_of_singleton. split; [| by left].
    exists (resetCell c0). by rewrite cellAt_fmap, Hc0.
  - intros p c. rewrite cellAt_fmap.
    destruct (cellAt maze p); [| done]. by intros [= <-].
  - intros n p Hn. by rewrite lookup_empty in Hn.
  - apply lookup_empty.
  - by right.
  - intros p c. rewrite cellAt_fmap.
    destruct (cellAt maze p); [| done]. by intros [= <-].
Qed.

(** What the loop of a run hands over, on a maze whose cell (1, 1) is no
    wall. *)
Definition Outcome (W H : nat) (maze : Maze) (c0 : MazeCell)
    (fresh : Prop) (r : Search) (found : option (nat * nat)) : Prop :=
  (∃ rank, Inv W H (map (map resetCell) maze) r rank)
  ∧ Tree (map (map resetCell) maze) r
  ∧ match found with
    | Some cur =>
      ∃ c, cellAt (newMaze r) cur = Some c ∧ isVisited c = true
        ∧ isEnd c = true ∧ (isEnd c0 = false → shown r = true)
    | None =>
      frontier r = [] ∧ Quiet r
      ∧ visitedAt (newMaze r) (1, 1) = true
      ∧ (fresh → Closed r)
    end.

Lemma search_outcome W H maze c0 a fuel r found :
  wellFormed W H maze →
  cellAt maze (1, 1) = Some c0 → isWall c0 = false →
  loop W H maze a fuel (searchStart maze) = Done (r, found) →
  Outcome W H maze c0
    (∀ p c, cellAt maze p = Some c → isVisited c = false) r found.
Proof.
  intros Hwf Hc0 Hw0 Hloop.
  set (m0 := map (map resetCell) maze).
  set (fresh := ∀ p c, cellAt maze p = Some c → isVisited c = false).
  pose proof (maze_wellFormed_reset _ _ _ Hwf) as Hwf0. fold m0 in Hwf0.
  assert (HW : 2 ≤ W ∧ 2 ≤ H).
  { destruct Hwf as [Hdim _]. destruct (proj1 (Hdim (1, 1))); [eauto |].
    simpl in *. lia. }
  destruct (searchStart_Inv W H maze Hwf) as (HI0 & HQ0 & _); [lia .. |].
  fold m0 in HI0.
  assert (Hstart0 : ∃ c, cellAt m0 (1, 1) = Some c ∧ isWall c = false
                         ∧ isEnd c = isEnd c0).
  { exists (resetCell c0). unfold m0. rewrite cellAt_fmap, Hc0. done. }
  destruct Hstart0 as (c1 & Hc1 & Hw1 & He1).
  apply (loop_ind W H maze m0 Hwf Hwf0
           (λ s, Tree m0 s ∧ (fresh → Closed s))
           (λ r found, Outcome W H maze c0 fresh r found)
           a) with (fuel := fuel) (s := searchStart maze) (rank := λ _, 0);
    try done.
  - (* a further turn *)
    intros s rank s' HI HQ [HT HC] Ht. split.
    + pose proof (Tree_turn W H maze m0 (reset_same maze) a s rank HI HT) as HT'.
      by rewrite Ht in HT'.
    + intros Hfresh.
      apply (Closed_turn W H maze m0 Hwf0 (reset_same maze) Hfresh a s rank);
        auto.
  - (* the end cell is shifted *)
    intros s rank s' cur rank' HI HQ [HT HC] Ht HI'.
    pose proof (Tree_turn W H maze m0 (reset_same maze) a s rank HI HT) as HT'.
    rewrite Ht in HT'. simpl in HT'.
    split; [by exists rank' |]. split; [done |].
    revert Ht. unfold turnOf.
    destruct (take a (frontier s)) as [[cur' rest]|] eqn:Htake; [| done].
    destruct (cellAt (newMaze s) cur') as [c|] eqn:Hc; [| done].
    destruct (isVisited c) eqn:Hv; [done |].
    destruct (isEnd c) eqn:He; [| done]. intros [= <- <-].
    exists (markVisited c). cbn [newMaze shown].
    split; [by apply (cellAt_setCell_eq _ _ c) |]. split_and!; [done | done |].
    intros Hne. destruct HQ as [_ [Hs | [_ Hz]]]; [done |]. exfalso.
    destruct (tree_start _ _ HT) as [(c' & Hc' & Hv') | E].
    + pose proof (inv_visited _ _ _ _ _ HI _ _ Hc' Hv'). lia.
    + rewrite E in Htake. pose proof (take_perm _ _ _ _ Htake) as Hperm.
      apply Permutation_singleton_l in Hperm. injection Hperm as <- _.
      pose proof (static_at _ _ _ _ _ (inv_static _ _ _ _ _ HI (1, 1)) Hc Hc1)
        as Es.
      rewrite (static_end _ _ Es) in He. congruence.
  - (* the work list is empty *)
    intros s rank s' HI HQ [HT HC] Ht.
    assert (s' = s ∧ frontier s = []) as [-> Hempty].
    { revert Ht. unfold turnOf.
      pose proof (take_spec a (frontier s)) as Htake.
      destruct (take a (frontier s)) as [[cur rest]|].
      - destruct Htake as (_ & Hcur & _).
        destruct (inv_exists W H m0 Hwf0 s rank cur HI) as [c Hc];
          [by apply (inv_frontier _ _ _ _ _ HI) .. |].
        rewrite Hc. destruct (isVisited c); [done |]. by destruct (isEnd c).
      - by intros [= <-]. }
    split; [by exists rank |]. split; [done |]. split_and!; try done.
    destruct (tree_start _ _ HT) as [(c' & Hc' & Hv') | E].
    + unfold visitedAt. by rewrite Hc'.
    + by rewrite Hempty in E.
  - (* on entry *)
    split; [by apply (Tree_searchStart maze c0) |].
    intros _ p q cq Hp. simpl in Hp.
    by rewrite (reset_unvisited maze p) in Hp.
Qed.

(** A place with an end cell that a walk reaches from the start cell. *)
Definition reachableEnd (m : Maze) (n : nat) : Prop :=
  ∃ pe ce, walk m n (1, 1) pe ∧ cellAt m pe = Some ce ∧ isEnd ce = true.

(** On a maze without visited marks, as [initializeMaze] draws it, either
    algorithm finds the end exactly when there is a way to it: with a budget
    above five times the number of cells the run returns; if some walk over
    cells that are no walls leads from (1, 1) to an end cell, the run turns
    [gameCompleted] on and reports a path of at least one cell; if there is
    none, it leaves [gameCompleted] and [pathLength] as they were. *)
Theorem search_finds_end_iff_reachable (W H : nat) (s : State) (fuel : nat)
    (c0 : MazeCell) :
  wellFormed W H (maze s) →
  cellAt (maze s) (1, 1) = Some c0 → isWall c0 = false →
  (∀ p c, cellAt (maze s) p = Some c → isVisited c = false) →
  isRunning s = false →
  5 * length (places (maze s)) + 1 < fuel →
  ∃ s', startAlgorithm W H fuel s = Done s' ∧ isRunning s' = false
    ∧ ((∃ n, reachableEnd (maze s) n) →
         gameCompleted s' = true ∧ 1 ≤ pathLength s'
         ∧ reachableEnd (maze s) (pathLength s' - 1))
    ∧ (¬ (∃ n, reachableEnd (maze s) n) →
         gameCompleted s' = gameCompleted s ∧ pathLength s' = pathLength s).
Proof.
  intros Hwf Hc0 Hw0 Hfresh Hidle Hfuel.
  assert (HW : 2 ≤ W ∧ 2 ≤ H).
  { destruct Hwf as [Hdim _]. destruct (proj1 (Hdim (1, 1))); [eauto |].
    simpl in *. lia. }
  destruct (runSearch_spec W H s fuel Hwf) as (s' & Hrun & Hidle' & _);
    [lia | lia | done |].
  exists s'. unfold startAlgorithm. rewrite Hidle. split; [done |].
  split; [done |].
  unfold runSearch in Hrun.
  destruct (loop W H (maze s) (algorithm s) fuel (searchStart (maze s)))
    as [[r found]| |] eqn:Hloop; [| done ..].
  cbn [mbind run_bind] in Hrun.
  destruct (search_outcome W H (maze s) c0 _ _ _ _ Hwf Hc0 Hw0 Hloop)
    as ([rank HI] & HT & Hfound).
  pose proof (maze_wellFormed_reset _ _ _ Hwf) as Hwf0.
  destruct found as [cur|].
  - destruct Hfound as (c & Hc & Hv & He & _).
    destruct (reconstruct fuel _ _ _ _) as [[m n]| |] eqn:Hrec; [| done ..].
    cbn [mbind run_bind] in Hrun. injection Hrun as <-.
    cbn [pathLength gameCompleted].
    destruct (reconstruct_chain _ _ _ _ _ _ _ Hrec) as (l & Hch & -> & _).
    destruct (pchain_trail W H (map (map resetCell) (maze s)) r rank HI HT l cur c
                Hch Hc Hv) as (Htr & Hhead & Hlast & _ & _).
    destruct (fmap_Some_eq static _ _ c
                (eq_sym (inv_static _ _ _ _ _ HI cur)) Hc) as (c1 & Hc1 & E1).
    destruct (fmap_Some_eq static _ _ c1 (eq_sym (reset_same (maze s) cur)) Hc1)
      as (ce & Hce & E2).
    assert (Hlen : 1 ≤ length l) by (destruct l; [done | simpl; lia]).
    assert (Hreach : reachableEnd (maze s) (length l - 1)).
    { exists cur, ce. split_and!; [| done |].
      - apply (maze_walk_static (map (map resetCell) (maze s)));
          [intros p; by rewrite reset_same |].
        rewrite <- (length_reverse l).
        apply trail_walk; [done | by rewrite head_reverse
                          | by rewrite last_reverse].
      - by rewrite (static_end _ _ E2), (static_end _ _ E1). }
    split.
    + intros _. simpl. split_and!; [done | lia | done].
    + intros Hno. exfalso. apply Hno. eauto.
  - destruct Hfound as (Hempty & [Hnoend _] & Hroot & HC).
    injection Hrun as <-. cbn [pathLength gameCompleted]. split; [| done].
    intros (n & pe & ce & Hwalk & Hce & He). exfalso.
    pose proof (Closed_walk W H (maze s) _ (reset_same (maze s)) r rank HI
                  (HC Hfresh) Hempty n (1, 1) pe Hwalk Hroot) as Hvis.
    unfold visitedAt in Hvis.
    destruct (cellAt (newMaze r) pe) as [c|] eqn:Hc; [| done].
    pose proof (Hnoend pe c Hc Hvis) as Hne.
    pose proof (static_at _ _ _ _ _ (inv_static _ _ _ _ _ HI pe) Hc
                  (eq_trans (cellAt_fmap resetCell (maze s) pe)
                     (f_equal (fmap resetCell) Hce))) as Es.
    rewrite (static_end _ _ Es) in Hne. simpl in Hne. congruence.
Qed.

Lemma twoCorridors_reachable : ∃ n, reachableEnd (maze twoCorridors) n.
Proof.
  exists 26. eexists (18, 10), _.
  split; [apply twoCorridors_short_walk |]. split; reflexivity.
Qed.

(** The state of the maze after a depth-first run and a second run on
    [twoCorridors], with breadth-first search chosen. *)
Definition marked : State :=
  match startAlgorithm 20 12 1202 (setAlgorithm DFS twoCorridors) with
  | Done s1 =>
    match startAlgorithm 20 12 1202 s1 with
    | Done s2 => setAlgorithm BFS s2
    | _ => twoCorridors
    end
  | _ => twoCorridors
  end.

Definition markedRun : State :=
  match startAlgorithm 20 12 1202 marked with
  | Done s => s
  | _ => twoCorridors
  end.

Lemma search_finds_end_iff_reachable_witness :
  ∃ s', startAlgorithm 20 12 1202 (setAlgorithm DFS twoCorridors) = Done s'
    ∧ isRunning s' = false
    ∧ ((∃ n, reachableEnd (maze twoCorridors) n) →
         gameCompleted s' = true ∧ 1 ≤ pathLength s'
         ∧ reachableEnd (maze twoCorridors) (pathLength s' - 1))
    ∧ (¬ (∃ n, reachableEnd (maze twoCorridors) n) →
         gameCompleted s' = false ∧ pathLength s' = 0).
Proof.
  eapply (search_finds_end_iff_reachable 20 12
            (setAlgorithm DFS twoCorridors) 1202).
  - apply wellFormed_initializeMaze.
  - reflexivity.
  - reflexivity.
  - intros p c. apply initializeMaze_unmarked.
  - reflexivity.
  - vm_compute. lia.
Defined.

Lemma queue_head (lev : nat * nat → nat) L A B cur rest :
  A ++ B = cur :: rest →
  (∀ q, q ∈ A → lev q = L) → (∀ q, q ∈ B → lev q = S L) →
  ∃ L' A1 B', rest = A1 ++ B' ∧ lev cur = L' ∧ L ≤ L'
    ∧ (∀ q, q ∈ A1 → lev q = L') ∧ (∀ q, q ∈ B' → lev q = S L').
Proof.
  intros E HA HB. destruct A as [|a A1].
  - simpl in E. subst B. exists (S L), rest, []. split_and!.
    + by rewrite app_nil_r.
    + apply HB. by left.
    + lia.
    + intros q Hq. apply HB. by right.
    + intros q Hq. by apply elem_of_nil in Hq.
  - simpl in E. injection E as -> <-. exists L, A1, B. split_and!; try done.
    + apply HA. by left.
    + intros q Hq. apply HA. by right.
Qed.

Lemma unvisited_not_visited m q :
  unvisitedAt m q = true → visitedAt m q = false.
Proof.
  unfold unvisitedAt, visitedAt. destruct (cellAt m q) as [c|]; [| done].
  by intros ->%negb_true_iff.
Qed.

Lemma pchain_level (lev : nat * nat → nat) par l : ∀ p,
  lev (1, 1) = 0 → (∀ n q, par !! n = Some q → lev n = S (lev q)) →
  pchain par (Some p) l → last l = Some (1, 1) → length l = S (lev p).
Proof.
  induction l as [|p' l IH]; intros p H0 Hpar Hch Hlast; [inversion Hch |].
  assert (p' = p ∧ pchain par (par !! p) l) as [-> Hch1].
  { inversion Hch as [|p1 l1 Hch1]. done. }
  destruct (par !! p) as [q|] eqn:Hp.
  - rewrite (Hpar p q Hp). simpl. f_equal. apply IH; try done.
    destruct l; [inversion Hch1 | done].
  - inversion Hch1; subst. simpl in Hlast. injection Hlast as ->.
    by rewrite H0.
Qed.

Section Run.
Variables W H : nat.
Variable maze : Maze.
Variable m0 : Maze.
Hypothesis wfs : wellFormed W H maze.
Hypothesis wf0 : wellFormed W H m0.
Hypothesis same : ∀ p, static <$> cellAt m0 p = static <$> cellAt maze p.
Hypothesis fresh : ∀ p c, cellAt maze p = Some c → isVisited c = false.

(** A walk from a visited cell stays among the visited cells or meets the
    queue, no later than its moves allow. *)
Lemma walk_level s rank lev L :
  Inv W H m0 s rank → Level maze s lev L →
  ∀ n p r, walk maze n p r → visitedAt (newMaze s) p = true →
  ∃ q, lev q ≤ lev p + n
    ∧ ((q ∈ frontier s ∧ visitedAt (newMaze s) q = false)
       ∨ (q = r ∧ visitedAt (newMaze s) r = true)).
Proof.
  intros HI HL n p r Hwalk.
  induction Hwalk as [p c Hc Hw | n p q r c Hc Hw Hadj Hwalk IH]; intros Hp.
  - exists p. split; [lia | by right].
  - assert (∃ cm, cellAt maze q = Some cm ∧ isWall cm = false)
      as (cm & Hcm & Hwm).
    { inversion Hwalk; eauto. }
    destruct (fmap_Some_eq static _ _ cm (same q) Hcm) as (c0 & Hc0 & E0).
    destruct (fmap_Some_eq static _ _ c0 (inv_static _ _ _ _ _ HI q) Hc0)
      as (cq & Hcq & Eq).
    assert (Hwq : isWall cq = false).
    { by rewrite (static_wall _ _ Eq), (static_wall _ _ E0). }
    destruct (lev_edge _ _ _ _ HL p q cq Hp Hadj Hcq Hwq) as [Hmet Hle].
    destruct (visitedAt (newMaze s) q) eqn:Hvq.
    + destruct (IH eq_refl) as (q' & Hle' & Hcase).
      exists q'. split; [lia | done].
    + exists q. split; [lia |]. left. destruct Hmet as [? | ?]; [done |].
      congruence.
Qed.

Lemma Level_turn s rank lev L s' :
  Inv W H m0 s rank → Tree m0 s → Level maze s lev L →
  turnOf W H maze BFS s = Again s' →
  ∃ lev' L', Level maze s' lev' L'.
Proof.
  intros HI HT HL. unfold turnOf. simpl.
  destruct (frontier s) as [|cur rest] eqn:Hfr; [done |]. simpl.
  destruct (cellAt (newMaze s) cur) as [c|] eqn:Hc; [| done].
  destruct (lev_queue _ _ _ _ HL) as (A & B & HAB & HA & HB).
  rewrite Hfr in HAB. symmetry in HAB.
  destruct (queue_head lev L A B cur rest HAB HA HB)
    as (L' & A1 & B' & Hrest & Hcur & HLL & HA1 & HB').
  assert (Hmetcur : met s cur) by (left; rewrite Hfr; by left).
  assert (Hmetrest : ∀ q, q ∈ rest → met s q).
  { intros q Hq. left. rewrite Hfr. by right. }
  destruct (isVisited c) eqn:Hv.
  { intros [= <-]. exists lev, L'. destruct HL as [L1 L2 L3 L4 L5 L6 L7].
    constructor; cbn [newMaze frontier parent]; unfold met;
      cbn [newMaze frontier].
    - done.
    - done.
    - intros p Hp. pose proof (L3 p Hp). lia.
    - exists A1, B'. done.
    - intros q [Hq | Hq]; apply L5; [by apply Hmetrest | by right].
    - intros p q cq Hp Hadj Hcq Hw.
      destruct (L6 p q cq Hp Hadj Hcq Hw) as [Hmet Hle]. split; [| done].
      destruct Hmet as [Hq | Hq]; [| by right].
      rewrite Hfr in Hq. apply elem_of_cons in Hq as [-> | Hq]; [right | by left].
      unfold visitedAt. by rewrite Hc.
    - intros q [Hq | Hq]; apply L7; [by apply Hmetrest | by right]. }
  destruct (isEnd c); [done |]. intros [= <-].
  set (m := setCell (newMaze s) cur (markVisited c)).
  set (new := List.filter (unvisitedAt m) (neighborsOf W H maze cur)).
  assert (Hnew : ∀ q, q ∈ new → adjacent cur q ∧ visitedAt m q = false
                   ∧ ∃ cm, cellAt maze q = Some cm ∧ isWall cm = false).
  { intros q Hq. unfold new in Hq.
    apply list_elem_of_In, filter_In in Hq as [Hq Hu].
    apply list_elem_of_In, elem_of_neighborsOf in Hq as (Hadj & _ & _ & Ha).
    split_and!; [done | by apply unvisited_not_visited |]. unfold passable in Ha.
    destruct (cellAt maze q) as [cq|] eqn:Hcq; [| done].
    apply andb_true_iff in Ha as [Ha _]. apply negb_true_iff in Ha. eauto. }
  assert (Hvm : ∀ p, visitedAt m p = bool_decide (p = cur) || visitedAt (newMaze s) p).
  { intros p. by apply visitedAt_setCell. }
  assert (Hparity : ∀ q, adjacent cur q → met s q → lev q ≠ L').
  { intros q Hadj Hmet E.
    pose proof (lev_parity _ _ _ _ HL q Hmet) as P1.
    pose proof (lev_parity _ _ _ _ HL cur Hmetcur) as P2.
    rewrite (adjacent_parity _ _ Hadj), <- P2, E, Hcur in P1.
    by destruct (Nat.even L'). }
  set (lev' := λ q, if decide (q ∈ new) then S L' else lev q).
  assert (Hkeep : ∀ q, met s q → lev' q = lev q).
  { intros q Hmet. unfold lev'. case_decide as Hin; [| done].
    destruct (Hnew q Hin) as (Hadj & Hvq & _). rewrite Hvm in Hvq.
    apply orb_false_iff in Hvq as [Hne Hvq]. apply bool_decide_eq_false in Hne.
    pose proof (Hparity q Hadj Hmet) as Hodd.
    destruct Hmet as [Hq | Hq]; [| congruence].
    rewrite Hfr in Hq. apply elem_of_cons in Hq as [-> | Hq]; [done |].
    rewrite Hrest in Hq. apply elem_of_app in Hq as [Hq | Hq].
    - by apply HA1 in Hq.
    - symmetry. by apply HB'. }
  assert (Hmet' : ∀ q, q ∈ rest ++ new ∨ visitedAt m q = true →
                       met s q ∨ q ∈ new).
  { intros q [[Hq | Hq]%elem_of_app | Hq].
    - left. by apply Hmetrest.
    - by right.
    - left. rewrite Hvm in Hq. apply orb_true_iff in Hq as [Hq | Hq].
      + by apply bool_decide_eq_true in Hq as ->.
      + by right. }
  assert (Hlevcur : lev' cur = L') by (rewrite Hkeep; done).
  assert (Hlevnew : ∀ q, q ∈ new → lev' q = S L').
  { intros q Hq. unfold lev'. by rewrite decide_True. }
  assert (Hlevvis : ∀ p, visitedAt m p = true → lev' p ≤ L').
  { intros p Hp. rewrite Hvm in Hp. apply orb_true_iff in Hp as [Hp | Hp].
    - apply bool_decide_eq_true in Hp as ->. lia.
    - rewrite Hkeep by (by right). pose proof (lev_visited _ _ _ _ HL p Hp). lia. }
  exists lev', L'. destruct HL as [L1 L2 L3 L4 L5 L6 L7].
  constructor; cbn [newMaze frontier parent]; unfold met;
    cbn [newMaze frontier]; fold m; fold new.
  - rewrite Hkeep; [done |].
    destruct (tree_start _ _ HT) as [(c1 & Hc1 & Hv1) | E].
    + right. unfold visitedAt. by rewrite Hc1.
    + left. rewrite E. by left.
  - intros n p. rewrite adopt_lookup. case_decide as Hin.
    + intros [= <-]. by rewrite Hlevnew, Hlevcur.
    + intros Hn. unfold lev' at 1. rewrite decide_False by done.
      rewrite (L2 n p Hn). f_equal. symmetry. apply Hkeep. right.
      destruct (inv_parent _ _ _ _ _ HI n p Hn) as [(cp & Hcp & Hvp) _].
      unfold visitedAt. by rewrite Hcp.
  - done.
  - exists A1, (B' ++ new). split_and!.
    + by rewrite Hrest, app_assoc.
    + intros q Hq. rewrite Hkeep; [by apply HA1 |].
      apply Hmetrest. rewrite Hrest. apply elem_of_app. by left.
    + intros q [Hq | Hq]%elem_of_app; [| by apply Hlevnew].
      rewrite Hkeep; [by apply HB' |].
      apply Hmetrest. rewrite Hrest. apply elem_of_app. by right.
  - intros q Hq. destruct (Hmet' q Hq) as [Hold | Hin].
    + rewrite Hkeep by done. by apply L5.
    + rewrite Hlevnew by done. destruct (Hnew q Hin) as (Hadj & _ & cm & Hcm & Hwm).
      apply (maze_walk_snoc _ _ _ cur q cm); try done.
      rewrite <- Hcur. by apply L5.
  - intros p q cq Hp Hadj Hcq Hw.
    assert (∃ cq0, cellAt (newMaze s) q = Some cq0 ∧ isWall cq0 = false)
      as (cq0 & Hcq0 & Hw0).
    { unfold m in Hcq. rewrite (cellAt_setCell _ _ c) in Hcq by done.
      case_decide; [| eauto]. injection Hcq as <-. subst q.
      exists c. split; [done |]. done. }
    rewrite Hvm in Hp. apply orb_true_iff in Hp as [Hp | Hp].
    + apply bool_decide_eq_true in Hp as ->. rewrite Hlevcur.
      destruct (visitedAt m q) eqn:Hvq.
      * split; [by right |]. pose proof (Hlevvis q Hvq). lia.
      * assert (Hin : q ∈ new).
        { apply (fresh_new W H maze m0 wf0 same fresh s rank cur c q cq0); done. }
        split; [left; apply elem_of_app; by right |].
        rewrite Hlevnew by done. lia.
    + destruct (L6 p q cq0 Hp Hadj Hcq0 Hw0) as [Hmet Hle].
      rewrite (Hkeep q Hmet), (Hkeep p) by (by right). split; [| done].
      destruct Hmet as [Hq | Hq].
      * rewrite Hfr in Hq. apply elem_of_cons in Hq as [-> | Hq].
        -- right. rewrite Hvm. by rewrite bool_decide_eq_true_2.
        -- left. apply elem_of_app. by left.
      * right. rewrite Hvm, Hq. apply orb_true_r.
  - intros q Hq. destruct (Hmet' q Hq) as [Hold | Hin].
    + rewrite Hkeep by done. by apply L7.
    + rewrite Hlevnew by done. destruct (Hnew q Hin) as (Hadj & _).
      rewrite (adjacent_parity _ _ Hadj), <- (L7 cur Hmetcur), Hcur.
      by rewrite Nat.even_succ, <- Nat.negb_even.
Qed.

(** When breadth-first search shifts the end cell, no end cell is nearer. *)
Lemma Level_end s rank lev L s' cur :
  Inv W H m0 s rank → Quiet s → Tree m0 s → Level maze s lev L →
  turnOf W H maze BFS s = AtEnd s' cur →
  lev (1, 1) = 0
  ∧ (∀ n p, parent s' !! n = Some p → lev n = S (lev p))
  ∧ ∀ k, reachableEnd maze k → lev cur ≤ k.
Proof.
  intros HI [Hnoend _] HT HL. unfold turnOf. simpl.
  destruct (frontier s) as [|cur' rest] eqn:Hfr; [done |]. simpl.
  destruct (cellAt (newMaze s) cur') as [c|] eqn:Hc; [| done].
  destruct (isVisited c) eqn:Hv; [done |].
  destruct (isEnd c); [| done]. intros [= <- <-]. cbn [parent].
  split; [apply (lev_root _ _ _ _ HL) |].
  split; [apply (lev_parent _ _ _ _ HL) |].
  intros k (pe & ce & Hwalk & Hce & He).
  destruct (lev_queue _ _ _ _ HL) as (A & B & HAB & HA & HB).
  rewrite Hfr in HAB. symmetry in HAB.
  destruct (queue_head lev L A B cur' rest HAB HA HB)
    as (L' & A1 & B' & Hrest & Hcur & HLL & HA1 & HB').
  destruct (visitedAt (newMaze s) (1, 1)) eqn:Hroot.
  - destruct (walk_level s rank lev L HI HL k (1, 1) pe Hwalk Hroot)
      as (q & Hle & [[Hq _] | [-> Hvis]]).
    + rewrite (lev_root _ _ _ _ HL) in Hle.
      rewrite Hfr in Hq. apply elem_of_cons in Hq as [-> | Hq]; [lia |].
      rewrite Hrest in Hq. apply elem_of_app in Hq as [Hq | Hq].
      * apply HA1 in Hq. lia.
      * apply HB' in Hq. lia.
    + exfalso. unfold visitedAt in Hvis.
      destruct (cellAt (newMaze s) pe) as [c'|] eqn:Hc'; [| done].
      pose proof (Hnoend pe c' Hc' Hvis) as Hne.
      destruct (fmap_Some_eq static _ _ ce (same pe) Hce) as (c0 & Hc0 & E0).
      pose proof (static_at _ _ _ _ _ (inv_static _ _ _ _ _ HI pe) Hc' Hc0) as Es.
      rewrite (static_end _ _ Es), (static_end _ _ E0) in Hne. congruence.
  - destruct (tree_start _ _ HT) as [(c1 & Hc1 & Hv1) | E].
    + unfold visitedAt in Hroot. rewrite Hc1 in Hroot. congruence.
    + rewrite E in Hfr. injection Hfr as <- _.
      rewrite (lev_root _ _ _ _ HL). lia.
Qed.

End Run.

(** On a maze without visited marks, as [initializeMaze] draws it,
    breadth-first search reports a shortest path: if some walk over cells
    that are no walls leads from (1, 1) to an end cell, the run (with a
    budget above five times the number of cells) turns [gameCompleted] on,
    a walk of [pathLength - 1] moves leads from (1, 1) to an end cell, and
    no walk from (1, 1) to an end cell has fewer moves. *)
Theorem bfs_path_is_shortest (W H : nat) (s : State) (fuel : nat)
    (c0 : MazeCell) :
  wellFormed W H (maze s) →
  cellAt (maze s) (1, 1) = Some c0 → isWall c0 = false →
  (∀ p c, cellAt (maze s) p = Some c → isVisited c = false) →
  isRunning s = false → algorithm s = BFS →
  5 * length (places (maze s)) + 1 < fuel →
  (∃ n, reachableEnd (maze s) n) →
  ∃ s', startAlgorithm W H fuel s = Done s'
    ∧ gameCompleted s' = true
    ∧ reachableEnd (maze s) (pathLength s' - 1)
    ∧ ∀ n, reachableEnd (maze s) n → pathLength s' - 1 ≤ n.
Proof.
  intros Hwf Hc0 Hw0 Hfresh Hidle Hbfs Hfuel Hreach.
  assert (HW : 2 ≤ W ∧ 2 ≤ H).
  { destruct Hwf as [Hdim _]. destruct (proj1 (Hdim (1, 1))); [eauto |].
    simpl in *. lia. }
  destruct (runSearch_spec W H s fuel Hwf) as (s' & Hrun & _);
    [lia | lia | done |].
  exists s'. unfold startAlgorithm. rewrite Hidle. split; [done |].
  unfold runSearch in Hrun. rewrite Hbfs in Hrun.
  destruct (loop W H (maze s) BFS fuel (searchStart (maze s)))
    as [[r found]| |] eqn:Hloop; [| done ..].
  cbn [mbind run_bind] in Hrun.
  destruct (search_outcome W H (maze s) c0 _ _ _ _ Hwf Hc0 Hw0 Hloop)
    as ([rank HI] & HT & Hfound).
  pose proof (maze_wellFormed_reset _ _ _ Hwf) as Hwf0.
  set (m0 := map (map resetCell) (maze s)) in *.
  destruct found as [cur|].
  2:{ exfalso. destruct Hfound as (Hempty & [Hnoend _] & Hroot & HC).
      destruct Hreach as (n & pe & ce & Hwalk & Hce & He).
      pose proof (Closed_walk W H (maze s) _ (reset_same (maze s)) r rank HI
                    (HC Hfresh) Hempty n (1, 1) pe Hwalk Hroot) as Hvis.
      unfold visitedAt in Hvis.
      destruct (cellAt (newMaze r) pe) as [c|] eqn:Hc; [| done].
      pose proof (Hnoend pe c Hc Hvis) as Hne.
      destruct (fmap_Some_eq static _ _ ce (reset_same (maze s) pe) Hce)
        as (c1 & Hc1 & E1).
      pose proof (static_at _ _ _ _ _ (inv_static _ _ _ _ _ HI pe) Hc Hc1) as Es.
      rewrite (static_end _ _ Es), (static_end _ _ E1) in Hne. congruence. }
  destruct Hfound as (c & Hc & Hv & He & _).
  destruct (reconstruct fuel _ _ _ _) as [[m n]| |] eqn:Hrec; [| done ..].
  cbn [mbind run_bind] in Hrun. injection Hrun as <-.
  cbn [pathLength gameCompleted]. split; [done |].
  destruct (reconstruct_chain _ _ _ _ _ _ _ Hrec) as (l & Hch & -> & _).
  destruct (pchain_trail W H m0 r rank HI HT l cur c Hch Hc Hv)
    as (Htr & Hhead & Hlast & _ & _).
  (* the levels of the search *)
  assert (Hlev : ∃ lev, lev (1, 1) = 0
            ∧ (∀ n p, parent r !! n = Some p → lev n = S (lev p))
            ∧ ∀ k, reachableEnd (maze s) k → lev cur ≤ k).
  { destruct (searchStart_Inv W H (maze s) Hwf) as (HI0 & HQ0 & _); [lia .. |].
    fold m0 in HI0.
    set (P := λ st : Search, Tree m0 st ∧ ∃ lev L, Level (maze s) st lev L).
    set (Q := λ (r' : Search) (found : option (nat * nat)),
           match found with
           | Some cur' => ∃ lev : nat * nat → nat, lev (1, 1) = 0
               ∧ (∀ n p, parent r' !! n = Some p → lev n = S (lev p))
               ∧ ∀ k, reachableEnd (maze s) k → lev cur' ≤ k
           | None => True
           end).
    assert (Hagain : ∀ s1 rank1 s1', Inv W H m0 s1 rank1 → Quiet s1 → P s1 →
              turnOf W H (maze s) BFS s1 = Again s1' → P s1').
    { intros s1 rank1 s1' HI1 HQ1 [HT1 (lev & L & HL1)] Ht. split.
      - pose proof (Tree_turn W H (maze s) m0 (reset_same (maze s)) BFS s1 rank1
                      HI1 HT1) as HT'.
        by rewrite Ht in HT'.
      - by apply (Level_turn W H (maze s) m0 Hwf0 (reset_same (maze s)) Hfresh
                    s1 rank1 lev L). }
    assert (Hend : ∀ s1 rank1 s1' cur1 rank1', Inv W H m0 s1 rank1 → Quiet s1 →
              P s1 → turnOf W H (maze s) BFS s1 = AtEnd s1' cur1 →
              Inv W H m0 s1' rank1' → Q s1' (Some cur1)).
    { intros s1 rank1 s1' cur1 rank1' HI1 HQ1 [HT1 (lev & L & HL1)] Ht _.
      exists lev.
      by apply (Level_end W H (maze s) m0 (reset_same (maze s))
                  s1 rank1 lev L s1' cur1). }
    assert (Hstop : ∀ s1 rank1 s1', Inv W H m0 s1 rank1 → Quiet s1 → P s1 →
              turnOf W H (maze s) BFS s1 = Stop s1' → Q s1' None) by done.
    assert (HP0 : P (searchStart (maze s))).
    { split; [by apply (Tree_searchStart (maze s) c0) |].
      exists (λ _, 0), 0. constructor; simpl; unfold met; simpl.
      - done.
      - intros n p Hn. by rewrite lookup_empty in Hn.
      - intros p Hp. by rewrite (reset_unvisited (maze s) p) in Hp.
      - exists [(1, 1)], []. split_and!; [done | done |].
        intros q Hq. by apply elem_of_nil in Hq.
      - intros q [->%list_elem_of_singleton | Hq].
        + by apply (walk_here _ _ c0).
        + by rewrite (reset_unvisited (maze s) q) in Hq.
      - intros p q cq Hp. by rewrite (reset_unvisited (maze s) p) in Hp.
      - intros q [->%list_elem_of_singleton | Hq]; [done |].
        by rewrite (reset_unvisited (maze s) q) in Hq. }
    exact (loop_ind W H (maze s) m0 Hwf Hwf0 P Q BFS Hagain Hend Hstop
             fuel (searchStart (maze s)) (λ _, 0) r (Some cur) HI0 HQ0 HP0 Hloop). }
  destruct Hlev as (lev & Hl0 & Hlpar & Hmin).
  pose proof (pchain_level lev (parent r) l cur Hl0 Hlpar Hch Hlast) as Hlen.
  destruct (fmap_Some_eq static _ _ c
              (eq_sym (inv_static _ _ _ _ _ HI cur)) Hc) as (c1 & Hc1 & E1).
  destruct (fmap_Some_eq static _ _ c1 (eq_sym (reset_same (maze s) cur)) Hc1)
    as (ce & Hce & E2).
  cbn [Nat.add]. split.
  - exists cur, ce. split_and!; [| done |].
    + apply (maze_walk_static m0); [intros p; unfold m0; by rewrite reset_same |].
      rewrite <- (length_reverse l).
      apply trail_walk; [done | by rewrite head_reverse
                        | by rewrite last_reverse].
    + by rewrite (static_end _ _ E2), (static_end _ _ E1).
  - intros k Hk. pose proof (Hmin k Hk). lia.
Qed.

Lemma bfs_path_is_shortest_witness :
  ∃ s', startAlgorithm 20 12 1202 twoCorridors = Done s'
    ∧ gameCompleted s' = true
    ∧ reachableEnd (maze twoCorridors) (pathLength s' - 1)
    ∧ ∀ n, reachableEnd (maze twoCorridors) n → pathLength s' - 1 ≤ n.
Proof.
  eapply (bfs_path_is_shortest 20 12 twoCorridors 1202).
  - apply wellFormed_initializeMaze.
  - reflexivity.
  - reflexivity.
  - intros p c. apply initializeMaze_unmarked.
  - reflexivity.
  - reflexivity.
  - vm_compute. lia.
  - apply twoCorridors_reachable.
Defined.

End MazeRunSpec.

(** ** The maze solver's session *)

Module MazeGameSpec.
Import MazeSolver GridSpec MazeSolverSpec MazeRunSpec MazeGame.


(** What every state of a session satisfies: the maze keeps its dimensions,
    its border is walled, the start and the end cell stay where
    [initializeMaze] put them and are no walls, and no run is left active. *)
Record Kept (W H : nat) (s : State) : Prop := {
  kept_grid : wellFormed W H (maze s);
  kept_size : length (places (maze s)) = H * W;
  kept_start : ∀ p c, cellAt (maze s) p = Some c →
    isStart c = (p.1 =? 1) && (p.2 =? 1);
  kept_end : ∀ p c, cellAt (maze s) p = Some c →
    isEnd c = (Z.of_nat p.1 =? Z.of_nat W - 2)%Z
              && (Z.of_nat p.2 =? Z.of_nat H - 2)%Z;
  kept_border : ∀ p c, cellAt (maze s) p = Some c →
    p.1 = 0 ∨ p.2 = 0 ∨ p.1 = W - 1 ∨ p.2 = H - 1 → isWall c = true;
  kept_open : ∀ p c, cellAt (maze s) p = Some c →
    isStart c = true ∨ isEnd c = true → isWall c = false;
  kept_idle : isRunning s = false
}.

Lemma maze_places_length {A} (g : list (list A)) :
  length (places g) = length (concat g).
Proof.
  unfold places.
  assert (Hgen : ∀ (h : nat → nat → nat * nat),
            length (concat (imap (λ row r, imap (λ col _, h col row) r) g))
            = length (concat g)).
  { induction g as [|r g IH]; intros h; [done |]. simpl.
    rewrite !length_app, length_imap. f_equal.
    apply (IH (λ col row, h col (S row))). }
  apply (Hgen (λ col row, (col, row))).
Qed.

Lemma initializeMaze_size W H rw :
  length (places (initializeMaze W H rw)) = H * W.
Proof.
  rewrite maze_places_length. unfold initializeMaze.
  assert (Hgen : ∀ (mk : nat → list MazeCell) rows,
            (∀ y, length (mk y) = W) →
            length (concat (map mk rows)) = length rows * W).
  { intros mk rows Hmk. induction rows as [|r rows IH]; [done |]. simpl.
    by rewrite length_app, IH, Hmk. }
  rewrite Hgen, length_seq; [done |].
  intros y. by rewrite length_map, length_seq.
Qed.

Lemma Kept_fresh W H rw s :
  3 ≤ W → 3 ≤ H →
  maze s = initializeMaze W H rw → isRunning s = false → Kept W H s.
Proof.
  intros HW HH Hm Hr. constructor; rewrite ?Hm.
  - apply wellFormed_initializeMaze.
  - apply initializeMaze_size.
  - intros p c. rewrite initializeMaze_cell. case_decide; [| done].
    by intros [= <-].
  - intros p c. rewrite initializeMaze_cell. case_decide; [| done].
    by intros [= <-].
  - intros p c. rewrite initializeMaze_cell. case_decide as Hin; [| done].
    intros [= <-] Hb. cbn [isWall]. apply orb_true_iff. right.
    rewrite !orb_true_iff, !Nat.eqb_eq, !Z.eqb_eq. lia.
  - intros p c. rewrite initializeMaze_cell. case_decide as Hin; [| done].
    intros [= <-]. cbn [isWall isStart isEnd]. intros Hse.
    assert (Hb : (p.1 =? 0) || (p.2 =? 0)
                 || (Z.of_nat p.1 =? Z.of_nat W - 1)%Z
                 || (Z.of_nat p.2 =? Z.of_nat H - 1)%Z = false).
    { rewrite !orb_false_iff, !Nat.eqb_neq, !Z.eqb_neq.
      destruct Hse as [Hs | He].
      - apply andb_true_iff in Hs as [H1 H2]. apply Nat.eqb_eq in H1, H2. lia.
      - apply andb_true_iff in He as [H1 H2]. apply Z.eqb_eq in H1, H2. lia. }
    rewrite Hb, orb_false_r.
    destruct Hse as [-> | ->]; simpl; [by rewrite andb_false_r |].
    by rewrite andb_false_r.
  - done.
Qed.

Lemma reconstruct_static par fuel : ∀ m o n m' n',
  reconstruct fuel m par o n = Done (m', n') →
  (∀ q, static <$> cellAt m' q = static <$> cellAt m q)
  ∧ places m' = places m.
Proof.
  induction fuel as [|fuel IH]; intros m o n m' n' Hrun;
    destruct o as [p|]; try done;
    try (simpl in Hrun; injection Hrun as <- <-; done).
  cbn [reconstruct] in Hrun. destruct (cellAt m p) as [c|] eqn:Hc; [| done].
  cbn [mbind run_bind of_option] in Hrun.
  destruct (IH _ _ _ _ _ Hrun) as [Hs Hp]. split.
  - intros q. rewrite Hs. by apply (cellAt_setCell_proj static m p c).
  - by rewrite Hp, places_setCell.
Qed.

(** A run changes no wall, start or end of the maze, and not its shape. *)
Lemma runSearch_static W H fuel s s' c0 :
  wellFormed W H (maze s) →
  cellAt (maze s) (1, 1) = Some c0 → isWall c0 = false →
  runSearch W H fuel s = Done s' →
  (∀ q, static <$> cellAt (maze s') q = static <$> cellAt (maze s) q)
  ∧ places (maze s') = places (maze s).
Proof.
  intros Hwf Hc0 Hw0 Hrun. unfold runSearch in Hrun.
  destruct (loop W H (maze s) (algorithm s) fuel (searchStart (maze s)))
    as [[r found]| |] eqn:Hloop; [| done ..].
  cbn [mbind run_bind] in Hrun.
  destruct (search_outcome W H (maze s) c0 _ _ _ _ Hwf Hc0 Hw0 Hloop)
    as ([rank HI] & HT & Hfound).
  pose proof (maze_wellFormed_reset _ _ _ Hwf) as Hwf0.
  set (m0 := map (map resetCell) (maze s)) in *.
  assert (Hsr : ∀ q, static <$> cellAt (newMaze r) q
                     = static <$> cellAt (maze s) q).
  { intros q. rewrite (inv_static _ _ _ _ _ HI q). apply reset_same. }
  assert (Hpr : places (newMaze r) = places (maze s)).
  { destruct (searchStart_Inv W H (maze s) Hwf) as (HI0 & HQ0 & _).
    { destruct Hwf as [Hdim _]. destruct (proj1 (Hdim (1, 1))); [eauto |].
      simpl in *. lia. }
    { destruct Hwf as [Hdim _]. destruct (proj1 (Hdim (1, 1))); [eauto |].
      simpl in *. lia. }
    fold m0 in HI0.
    set (P := λ st : Search, places (newMaze st) = places (maze s)).
    assert (Hturn : ∀ s1 rank1, Inv W H m0 s1 rank1 → P s1 →
              P (stateOf (turnOf W H (maze s) (algorithm s) s1))).
    { intros s1 rank1 HI1 HP1. unfold turnOf.
      destruct (take _ _) as [[cur rest]|]; [| done].
      destruct (cellAt (newMaze s1) cur) as [c|]; [| done].
      destruct (isVisited c); [done |].
      destruct (isEnd c); unfold P; simpl; by rewrite places_setCell. }
    apply (loop_ind W H (maze s) m0 Hwf Hwf0 P (λ r' _, P r') (algorithm s))
      with (fuel := fuel) (s := searchStart (maze s)) (rank := λ _, 0)
           (found := found); try done.
    - intros s1 rank1 s1' HI1 _ HP1 Ht.
      pose proof (Hturn s1 rank1 HI1 HP1) as HP'. by rewrite Ht in HP'.
    - intros s1 rank1 s1' cur1 rank1' HI1 _ HP1 Ht _.
      pose proof (Hturn s1 rank1 HI1 HP1) as HP'. by rewrite Ht in HP'.
    - intros s1 rank1 s1' HI1 _ HP1 Ht.
      pose proof (Hturn s1 rank1 HI1 HP1) as HP'. by rewrite Ht in HP'.
    - unfold P. simpl. apply places_fmap. }
  destruct found as [cur|].
  - destruct (reconstruct fuel _ _ _ _) as [[m n]| |] eqn:Hrec; [| done ..].
    cbn [mbind run_bind] in Hrun. injection Hrun as <-. cbn [maze].
    destruct (reconstruct_static _ _ _ _ _ _ _ Hrec) as [Hs Hp].
    destruct (shown r); [| done]. split.
    + intros q. by rewrite Hs.
    + by rewrite Hp.
  - injection Hrun as <-. cbn [maze]. by destruct (shown r).
Qed.

Lemma Kept_run W H fuel s :
  3 ≤ W → 3 ≤ H → 5 * (H * W) + 1 < fuel → Kept W H s →
  ∃ s', startAlgorithm W H fuel s = Done s' ∧ Kept W H s'.
Proof.
  intros HW HH Hfuel HK. unfold startAlgorithm. rewrite (kept_idle _ _ _ HK).
  destruct (runSearch_spec W H s fuel (kept_grid _ _ _ HK))
    as (s' & Hrun & Hidle & _); [lia | lia | |].
  { rewrite (kept_size _ _ _ HK). lia. }
  exists s'. split; [done |].
  destruct (proj2 (proj1 (kept_grid _ _ _ HK) (1, 1))) as [c0 Hc0];
    [simpl; lia |].
  assert (Hw0 : isWall c0 = false).
  { apply (kept_open _ _ _ HK (1, 1) c0 Hc0). left.
    by rewrite (kept_start _ _ _ HK (1, 1) c0 Hc0). }
  destruct (runSearch_static W H fuel s s' c0 (kept_grid _ _ _ HK) Hc0 Hw0 Hrun)
    as [Hs Hp].
  assert (Hcell : ∀ p c', cellAt (maze s') p = Some c' →
            ∃ c, cellAt (maze s) p = Some c ∧ static c = static c').
  { intros p c' Hc'. apply (fmap_Some_eq static _ (cellAt (maze s') p)); [| done].
    symmetry. apply Hs. }
  constructor.
  - destruct (kept_grid _ _ _ HK) as [Hdim Hxy]. split.
    + intros p. rewrite <- Hdim.
      rewrite <- !(fmap_is_Some static). by rewrite Hs.
    + intros p c' Hc'. destruct (Hcell p c' Hc') as (c & Hc & Es).
      unfold static in Es. destruct (Hxy p c Hc). split; congruence.
  - rewrite Hp. apply (kept_size _ _ _ HK).
  - intros p c' Hc'. destruct (Hcell p c' Hc') as (c & Hc & Es).
    rewrite <- (kept_start _ _ _ HK p c Hc). unfold static in Es. congruence.
  - intros p c' Hc'. destruct (Hcell p c' Hc') as (c & Hc & Es).
    rewrite <- (kept_end _ _ _ HK p c Hc). by apply static_end.
  - intros p c' Hc'. destruct (Hcell p c' Hc') as (c & Hc & Es).
    rewrite <- (static_wall _ _ Es). by apply (kept_border _ _ _ HK p).
  - intros p c' Hc'. destruct (Hcell p c' Hc') as (c & Hc & Es).
    rewrite <- (static_wall _ _ Es). unfold static in Es. intros Hse.
    apply (kept_open _ _ _ HK p c Hc). destruct Hse; [left | right]; congruence.
  - done.
Qed.

(** No action of a maze session faults, and the maze stays sound: from the
    maze drawn on mount (at least 3 x 3), after any choice of algorithm, any
    runs and any new mazes, the maze has its [mazeHeight] rows of
    [mazeWidth] cells, every border cell is a wall, the start cell is at
    (1, 1) and the end cell at (mazeWidth - 2, mazeHeight - 2), neither is a
    wall, no run is left active, and whatever the player does next returns
    normally. *)
Theorem maze_session_never_faults (W H fuel : nat) (s : State) :
  3 ≤ W → 3 ≤ H → 5 * (H * W) + 1 < fuel →
  reachable W H fuel s →
  Kept W H s ∧ ∀ a, ∃ s', act W H fuel s a = Done s' ∧ Kept W H s'.
Proof.
  intros HW HH Hfuel Hreach.
  assert (Hact : ∀ s a, Kept W H s →
            ∃ s', act W H fuel s a = Done s' ∧ Kept W H s').
  { intros s0 a HK. destruct a as [a | | rw]; simpl.
    - eexists. split; [done |]. unfold chooseAlgorithm.
      rewrite (kept_idle _ _ _ HK). by destruct HK.
    - by apply Kept_run.
    - eexists. split; [done |]. unfold newMazeButton.
      rewrite (kept_idle _ _ _ HK). by apply (Kept_fresh W H rw). }
  assert (HK : Kept W H s).
  { induction Hreach as [rw | s a s' _ IH Ha].
    - by apply (Kept_fresh W H rw).
    - destruct (Hact s a IH) as (s'' & Ha' & HK'). congruence. }
  split; [done |]. intros a. by apply Hact.
Qed.

(** A session on the 20 x 12 maze: a run, depth-first search chosen, a
    second run on the marked maze, a new maze without inner walls, a run. *)
Definition mazePlayed : State :=
  match play 20 12 1202 twoCorridors
          [Start; Choose DFS; Start; NewMaze (fun _ _ => false); Start] with
  | Done s => s
  | _ => twoCorridors
  end.

Lemma maze_reachable_play W H fuel acts : ∀ s s',
  reachable W H fuel s → play W H fuel s acts = Done s' →
  reachable W H fuel s'.
Proof.
  induction acts as [|a acts IH]; intros s s' Hs; [by intros [= <-] |].
  cbn [play]. destruct (act W H fuel s a) as [s1| |] eqn:Ha; [| done ..].
  cbn [mbind run_bind]. apply IH. by apply (reach_act _ _ _ s a).
Qed.

Lemma mazePlayed_reachable : reachable 20 12 1202 mazePlayed.
Proof.
  apply (maze_reachable_play 20 12 1202
           [Start; Choose DFS; Start; NewMaze (fun _ _ => false); Start]
           twoCorridors).
  - apply reach_mount.
  - vm_compute. reflexivity.
Qed.

Lemma maze_session_never_faults_witness :
  Kept 20 12 mazePlayed
  ∧ ∀ a, ∃ s', act 20 12 1202 mazePlayed a = Done s' ∧ Kept 20 12 s'.
Proof.
  apply (maze_session_never_faults 20 12 1202 mazePlayed); [lia | lia | lia |].
  apply mazePlayed_reachable.
Defined.

End MazeGameSpec.

(** ** The cycle detector: what a run reports *)

Module CycleRunSpec.
Import CycleDetector CycleDetectorSpec.

(** [v] is on the adjacency list of [u]. *)
Definition nbr (adj : list (list nat)) (u v : nat) : Prop :=
  ∃ l, adj !! u = Some l ∧ v ∈ l.

(** Some edge leads from [u] to [v]; with [d = false] (undirected) also one
    from [v] to [u]. *)
Definition nb (d : bool) (es : list Edge) (u v : nat) : Prop :=
  ∃ e, e ∈ es
    ∧ ((from e = u ∧ to e = v) ∨ (d = false ∧ from e = v ∧ to e = u)).

(** The key [u-v] of the edge map names an edge between [u] and [v]. *)
Definition keyed (d : bool) (es : list Edge) (em : gmap (nat * nat) nat)
    : Prop :=
  (∀ u v, nb d es u v → is_Some (em !! (u, v)))
  ∧ (∀ u v i, em !! (u, v) = Some i →
       ∃ e, es !! i = Some e
         ∧ ((from e = u ∧ to e = v) ∨ (d = false ∧ from e = v ∧ to e = u))).

Definition cyc_unvisited (n : nat) (V : gset nat) : nat :=
  size (set_seq 0 n ∖ V : gset nat).

Lemma cyc_unvisited_insert n x (V : gset nat) :
  x < n → x ∉ V → S (cyc_unvisited n ({[x]} ∪ V)) = cyc_unvisited n V.
Proof.
  intros Hx HV. unfold cyc_unvisited.
  assert (Heq : (set_seq 0 n ∖ V : gset nat)
                = {[x]} ∪ (set_seq 0 n ∖ ({[x]} ∪ V))).
  { apply set_eq. intros y.
    rewrite elem_of_union, !elem_of_difference, elem_of_union,
      elem_of_singleton, !elem_of_set_seq.
    destruct (decide (y = x)); [subst; intuition lia | intuition]. }
  rewrite Heq.
  rewrite (size_union (C := gset nat) {[x]} (set_seq 0 n ∖ ({[x]} ∪ V)))
    by set_solver.
  by rewrite size_singleton.
Qed.

Lemma cyc_unvisited_mono n (V V' : gset nat) :
  V ⊆ V' → cyc_unvisited n V' ≤ cyc_unvisited n V.
Proof. intros HV. apply subseteq_size. set_solver. Qed.

(** *** The adjacency lists and the edge map *)

Lemma imap_pair_snoc {A} (l : list A) (a : A) :
  imap pair (l ++ [a]) = imap pair l ++ [(length l, a)].
Proof.
  rewrite imap_app. simpl. by rewrite Nat.add_0_r.
Qed.

Lemma nbr_insert adj u l a x y :
  adj !! u = Some l →
  nbr (<[u := l ++ [a]]> adj) x y ↔ nbr adj x y ∨ (x = u ∧ y = a).
Proof.
  intros Hu. unfold nbr. destruct (decide (x = u)) as [-> | Hne].
  - rewrite list_lookup_insert_eq by (by eapply lookup_lt_Some). split.
    + intros (l' & [= <-] & [Hy | Hy%list_elem_of_singleton]%elem_of_app).
      * left. eauto.
      * right. done.
    + intros [(l' & Hl' & Hy) | [_ ->]]; eexists; (split; [done |]).
      * simplify_eq. apply elem_of_app. by left.
      * apply elem_of_app. right. by left.
  - rewrite list_lookup_insert_ne by done. split; [by left |].
    intros [? | [? _]]; done.
Qed.

Lemma nb_snoc d es e u v :
  nb d (es ++ [e]) u v ↔
  nb d es u v ∨ (from e = u ∧ to e = v) ∨ (d = false ∧ from e = v ∧ to e = u).
Proof.
  unfold nb. split.
  - intros (e' & [Hin | ->%list_elem_of_singleton]%elem_of_app & H); eauto.
  - intros [(e' & Hin & H) | H].
    + exists e'. split; [apply elem_of_app; by left | done].
    + exists e. split; [apply elem_of_app; right; by left | done].
Qed.

Lemma buildAdjacency_spec n d es :
  (∀ e, e ∈ es → from e < n ∧ to e < n) →
  ∃ adj em, buildAdjacency n es d = Done (adj, em)
    ∧ length adj = n
    ∧ (∀ u v, nbr adj u v ↔ nb d es u v)
    ∧ keyed d es em.
Proof.
  unfold buildAdjacency. induction es as [|e es IH] using rev_ind; intros Hin.
  - exists (replicate n []), ∅. split; [done |]. split; [apply length_replicate |].
    split; [| split].
    + intros u v. split.
      * intros (l & Hl & Hv). apply lookup_replicate in Hl as [-> _].
        by apply elem_of_nil in Hv.
      * intros (e & He & _). by apply elem_of_nil in He.
    + intros u v (e & He & _). by apply elem_of_nil in He.
    + intros u v i Hi. by rewrite lookup_empty in Hi.
  - destruct IH as (adj & em & Hrun & Hlen & Hadj & Hkey1 & Hkey2).
    { intros e' He'. apply Hin, elem_of_app. by left. }
    destruct (Hin e) as [Hf Ht]; [apply elem_of_app; right; by left |].
    rewrite imap_pair_snoc, foldl_app, Hrun. cbn [foldl].
    unfold addEdge. cbn [mbind run_bind].
    destruct (lookup_lt_is_Some_2 adj (from e)) as [lf Hlf]; [lia |].
    rewrite Hlf. cbn [mbind run_bind of_option].
    set (adj1 := <[from e := lf ++ [to e]]> adj).
    assert (Hadj1 : ∀ u v, nbr adj1 u v ↔ nb d es u v ∨ (u = from e ∧ v = to e)).
    { intros u v. unfold adj1. rewrite (nbr_insert _ _ _ _ _ _ Hlf).
      by rewrite Hadj. }
    destruct d.
    + eexists _, _. split; [done |].
      split; [unfold adj1; by rewrite length_insert |].
      split; [| split].
      * intros u v. rewrite Hadj1, nb_snoc. naive_solver.
      * intros u v [Hold | [[<- <-] | [? _]]]%nb_snoc; [| | done].
        -- destruct (decide ((from e, to e) = (u, v))) as [<- | Hne].
           ++ rewrite lookup_insert_eq. eauto.
           ++ rewrite lookup_insert_ne by done. by apply Hkey1.
        -- rewrite lookup_insert_eq. eauto.
      * intros u v i. destruct (decide ((from e, to e) = (u, v))) as [E | Hne].
        -- rewrite E, lookup_insert_eq. intros [= <-]. exists e.
           rewrite lookup_app_r, Nat.sub_diag by done. split; [done |].
           left. by simplify_eq.
        -- rewrite lookup_insert_ne by done. intros Hi.
           destruct (Hkey2 u v i Hi) as (e' & He' & H').
           exists e'. split; [| done]. by apply lookup_app_l_Some.
    + destruct (lookup_lt_is_Some_2 adj1 (to e)) as [lt Hlt].
      { unfold adj1. rewrite length_insert. lia. }
      rewrite Hlt. cbn [mbind run_bind of_option].
      eexists _, _. split; [done |].
      split; [unfold adj1; by rewrite !length_insert |].
      split; [| split].
      * intros u v. rewrite (nbr_insert _ _ _ _ _ _ Hlt), Hadj1, nb_snoc.
        naive_solver.
      * intros u v Hnb.
        destruct (decide ((to e, from e) = (u, v))) as [<- | Hne1];
          [rewrite lookup_insert_eq; eauto |].
        rewrite lookup_insert_ne by done.
        destruct (decide ((from e, to e) = (u, v))) as [<- | Hne2];
          [rewrite lookup_insert_eq; eauto |].
        rewrite lookup_insert_ne by done.
        apply nb_snoc in Hnb as [Hold | [[<- <-] | (_ & <- & <-)]];
          [by apply Hkey1 | done | done].
      * intros u v i.
        destruct (decide ((to e, from e) = (u, v))) as [E | Hne1].
        { rewrite E, lookup_insert_eq. intros [= <-]. exists e.
          rewrite lookup_app_r, Nat.sub_diag by done. split; [done |].
          right. by simplify_eq. }
        rewrite lookup_insert_ne by done.
        destruct (decide ((from e, to e) = (u, v))) as [E | Hne2].
        { rewrite E, lookup_insert_eq. intros [= <-]. exists e.
          rewrite lookup_app_r, Nat.sub_diag by done. split; [done |].
          left. by simplify_eq. }
        rewrite lookup_insert_ne by done. intros Hi.
        destruct (Hkey2 u v i Hi) as (e' & He' & H').
        exists e'. split; [| done]. by apply lookup_app_l_Some.
Qed.

(** *** Directed graphs *)

(** The loop over the neighbours of [nodeId], with the recursive call as a
    parameter: [dfs] is this loop after [enter]. *)
Definition eachNeighbor (isDirected : bool) (edgeMap : gmap (nat * nat) nat)
    (rec : nat → option nat → DfsState → run (bool * DfsState))
    (nodeId : nat) (parent : option nat)
    : list nat → DfsState → run (bool * DfsState) :=
  fix each (ns : list nat) (st : DfsState) : run (bool * DfsState) :=
    match ns with
    | [] => Done (false, leave nodeId st)
    | neighbor :: ns =>
      if isDirected then
        if decide (neighbor ∈ recursionStack st) then
          Done (true, addCycleEdge (edgeMap !! (nodeId, neighbor)) st)
        else if decide (neighbor ∈ visited st) then each ns st
        else
          match rec neighbor (Some nodeId) st with
          | Done (true, st) => Done (true, st)
          | Done (false, st) => each ns st
          | Thrown => Thrown
          | Timeout => Timeout
          end
      else
        if decide (Some neighbor = parent) then each ns st
        else if decide (neighbor ∈ visited st) then
          Done (true,
                addCycleEdge
                  (or_falsy (edgeMap !! (nodeId, neighbor))
                            (edgeMap !! (neighbor, nodeId))) st)
        else
          match rec neighbor (Some nodeId) st with
          | Done (true, st) => Done (true, st)
          | Done (false, st) => each ns st
          | Thrown => Thrown
          | Timeout => Timeout
          end
    end.

Lemma dfs_S d adj em fuel u parent st :
  dfs d adj em (S fuel) u parent st =
  if decide (u < length (colors st)) then
    match adj !! u with
    | None => Thrown
    | Some ns =>
      eachNeighbor d em (dfs d adj em fuel) u parent ns (enter u st)
    end
  else Thrown.
Proof. reflexivity. Qed.

Lemma cyc_unvisited_le n (V : gset nat) : cyc_unvisited n V ≤ n.
Proof.
  unfold cyc_unvisited.
  transitivity (size (set_seq 0 n : gset nat)).
  - apply subseteq_size. set_solver.
  - by rewrite size_set_seq.
Qed.

Section Directed.
Variable adj : list (list nat).
Variable em : gmap (nat * nat) nat.
Hypothesis closed : ∀ u v, nbr adj u v → v < length adj.
Hypothesis keys : ∀ u v, nbr adj u v → is_Some (em !! (u, v)).

(** The state of a directed run that has met no cycle: a finished (black)
    node leads to finished nodes only, which finished before it. *)
Record Good (fin : nat → nat) (k : nat) (st : DfsState) : Prop := {
  good_len : length (colors st) = length adj;
  good_stack : recursionStack st ⊆ visited st;
  good_bound : ∀ x, x ∈ visited st → x < length adj;
  good_black : ∀ x y, x ∈ visited st → x ∉ recursionStack st →
    nbr adj x y →
    y ∈ visited st ∧ y ∉ recursionStack st ∧ fin y < fin x;
  good_fin : ∀ x, x ∈ visited st → x ∉ recursionStack st → fin x < k;
  good_quiet : foundCycle st = false ∧ cycleEdgeSet st = ∅
}.

(** The state of a directed run that has met a cycle: one edge is flagged,
    and its head leads back to its tail. *)
Definition Found (st : DfsState) : Prop :=
  foundCycle st = true
  ∧ ∃ u v i, em !! (u, v) = Some i ∧ cycleEdgeSet st = {[i]}
      ∧ nbr adj u v ∧ rtc (nbr adj) v u.

Definition Returns (u : nat) (st : DfsState) (b : bool) (st' : DfsState)
    : Prop :=
  if b then Found st'
  else ∃ fin' k', Good fin' k' st'
         ∧ recursionStack st' = recursionStack st
         ∧ visited st ⊆ visited st' ∧ u ∈ visited st'.

Lemma each_directed fuel u parent (R0 : gset nat) :
  (∀ v p st fin k,
     Good fin k st → v < length adj → v ∉ visited st →
     (∀ x, x ∈ recursionStack st → rtc (nbr adj) x v) →
     cyc_unvisited (length adj) (visited st) ≤ fuel →
     ∃ b st', dfs true adj em fuel v p st = Done (b, st')
       ∧ Returns v st b st') →
  u ∉ R0 → (∀ x, x ∈ R0 → rtc (nbr adj) x u) →
  ∀ ns pre st fin k,
    adj !! u = Some (pre ++ ns) →
    Good fin k st → recursionStack st = {[u]} ∪ R0 → u ∈ visited st →
    (∀ y, y ∈ pre → y ∈ visited st ∧ y ∉ recursionStack st) →
    cyc_unvisited (length adj) (visited st) ≤ fuel →
    ∃ b st',
      eachNeighbor true em (dfs true adj em fuel) u parent ns st
      = Done (b, st')
      ∧ if b then Found st'
        else ∃ fin' k', Good fin' k' st' ∧ recursionStack st' = R0
               ∧ visited st ⊆ visited st'.
Proof.
  intros IH HuR0 Hpath ns.
  induction ns as [|v ns IHns]; intros pre st fin k Hadj HG HR Hu Hpre Hfuel.
  - (* all neighbours done: the node turns black *)
    rewrite app_nil_r in Hadj. simpl.
    exists false, (leave u st). split; [done |].
    exists (λ x, if decide (x = u) then k else fin x), (S k).
    destruct HG as [G1 G2 G3 G4 G5 G6].
    assert (HR' : recursionStack (leave u st) = R0).
    { simpl. rewrite HR. set_solver. }
    split; [| split; [done | done]].
    constructor; rewrite ?HR'; simpl.
    + by rewrite length_insert.
    + rewrite HR in G2. set_solver.
    + done.
    + intros x y Hx HxR Harc. destruct (decide (x = u)) as [-> | Hne].
      * destruct Harc as (l & Hl & Hy). rewrite Hadj in Hl. injection Hl as <-.
        destruct (Hpre y Hy) as [HyV HyR]. rewrite HR in HyR.
        split; [done |]. split; [set_solver |].
        rewrite decide_False by set_solver. apply G5; [done |].
        by rewrite HR.
      * assert (HxR' : x ∉ recursionStack st) by (rewrite HR; set_solver).
        destruct (G4 x y Hx HxR' Harc) as (HyV & HyR & Hlt).
        rewrite HR in HyR. split; [done |]. split; [set_solver |].
        rewrite decide_False by set_solver. done.
    + intros x Hx HxR. case_decide; [lia |].
      assert (fin x < k); [| lia]. apply G5; [done |]. rewrite HR. set_solver.
    + done.
  - (* the next neighbour *)
    assert (Harc : nbr adj u v).
    { exists (pre ++ v :: ns). split; [done |]. set_solver. }
    assert (Hadj' : adj !! u = Some ((pre ++ [v]) ++ ns)).
    { by rewrite <- app_assoc. }
    cbn [eachNeighbor]. fold (eachNeighbor true em (dfs true adj em fuel) u parent).
    destruct (decide (v ∈ recursionStack st)) as [HvR | HvR].
    { exists true, (addCycleEdge (em !! (u, v)) st). split; [done |].
      destruct (keys u v Harc) as [i Hi]. split; [done |].
      exists u, v, i. split; [done |]. rewrite Hi. simpl.
      rewrite (proj2 (good_quiet _ _ _ HG)).
      split; [set_solver |]. split; [done |].
      rewrite HR in HvR. apply elem_of_union in HvR as [Hv | Hv].
      - apply elem_of_singleton in Hv as ->. done.
      - by apply Hpath. }
    destruct (decide (v ∈ visited st)) as [HvV | HvV].
    { apply (IHns (pre ++ [v]) st fin k); try done.
      intros y [Hy | ->%list_elem_of_singleton]%elem_of_app; [by apply Hpre |].
      done. }
    destruct (IH v (Some u) st fin k HG) as (b & st' & Hrun & Hret);
      [by apply (closed u v) | done | | done |].
    { intros x Hx. rewrite HR in Hx. apply rtc_r with u; [| done].
      apply elem_of_union in Hx as [->%elem_of_singleton | Hx];
        [done | by apply Hpath]. }
    rewrite Hrun. destruct b.
    { exists true, st'. done. }
    destruct Hret as (fin' & k' & HG' & HR' & HV' & Hv').
    destruct (IHns (pre ++ [v]) st' fin' k') as (b & st'' & Hrun' & Hret');
      try done.
    + by rewrite HR'.
    + set_solver.
    + intros y [Hy | ->%list_elem_of_singleton]%elem_of_app.
      * destruct (Hpre y Hy). rewrite HR'. split; [set_solver | done].
      * rewrite HR'. done.
    + pose proof (cyc_unvisited_mono (length adj) _ _ HV'). lia.
    + exists b, st''. split; [done |]. destruct b; [done |].
      destruct Hret' as (fin'' & k'' & ? & ? & ?).
      exists fin'', k''. split_and!; [done | done | set_solver].
Qed.

Lemma dfs_directed fuel : ∀ u parent st fin k,
  Good fin k st → u < length adj → u ∉ visited st →
  (∀ x, x ∈ recursionStack st → rtc (nbr adj) x u) →
  cyc_unvisited (length adj) (visited st) ≤ fuel →
  ∃ b st', dfs true adj em fuel u parent st = Done (b, st')
    ∧ Returns u st b st'.
Proof.
  induction fuel as [|fuel IH]; intros u parent st fin k HG Hu HuV Hpath Hfuel.
  { pose proof (cyc_unvisited_insert _ _ _ Hu HuV). lia. }
  rewrite dfs_S. rewrite decide_True by (by rewrite (good_len _ _ _ HG)).
  destruct (lookup_lt_is_Some_2 adj u Hu) as [ns Hns]. rewrite Hns.
  assert (HuR : u ∉ recursionStack st).
  { intros Hin. apply HuV. by apply (good_stack _ _ _ HG). }
  destruct (each_directed fuel u parent (recursionStack st) IH HuR Hpath
              ns [] (enter u st) fin k) as (b & st' & Hrun & Hret).
  - done.
  - destruct HG as [G1 G2 G3 G4 G5 G6]. constructor; simpl.
    + by rewrite length_insert.
    + set_solver.
    + intros x [->%elem_of_singleton | Hx]%elem_of_union; [done | by apply G3].
    + intros x y Hx HxR Harc.
      assert (x ∈ visited st ∧ x ∉ recursionStack st) as [Hx' HxR']
        by set_solver.
      destruct (G4 x y Hx' HxR' Harc) as (HyV & HyR & Hlt).
      split_and!; [set_solver | set_solver | done].
    + intros x Hx HxR. apply G5; set_solver.
    + done.
  - done.
  - simpl. set_solver.
  - intros y Hy. by apply elem_of_nil in Hy.
  - simpl. pose proof (cyc_unvisited_insert _ _ _ Hu HuV). lia.
  - exists b, st'. split; [done |]. unfold Returns. destruct b; [done |].
    destruct Hret as (fin' & k' & HG' & HR' & HV').
    exists fin', k'. simpl in HV'. split_and!; [done | done | | ]; set_solver.
Qed.

Lemma roots_directed fuel : ∀ ids st fin k,
  Good fin k st → recursionStack st = ∅ →
  (∀ i, i ∈ ids → i < length adj) → length adj ≤ fuel →
  ∃ st', roots true adj em fuel ids st = Done st'
    ∧ (Found st'
       ∨ ∃ fin' k', Good fin' k' st' ∧ recursionStack st' = ∅
           ∧ visited st ⊆ visited st' ∧ ∀ i, i ∈ ids → i ∈ visited st').
Proof.
  induction ids as [|i ids IH]; intros st fin k HG HR Hids Hfuel.
  - exists st. split; [done |]. right. exists fin, k.
    split_and!; try done. intros i Hi. by apply elem_of_nil in Hi.
  - cbn [roots].
    assert (Hids' : ∀ j, j ∈ ids → j < length adj).
    { intros j Hj. apply Hids. by right. }
    destruct (decide (i ∈ visited st)) as [Hi | Hi].
    + destruct (IH st fin k HG HR Hids' Hfuel) as (st' & Hrun & Hres).
      exists st'. split; [done |]. destruct Hres as [? | (fin' & k' & ? & ? & ? & Hall)];
        [by left | right].
      exists fin', k'. split_and!; try done.
      intros j [-> | Hj]%elem_of_cons; [set_solver | by apply Hall].
    + destruct (dfs_directed fuel i None st fin k HG) as (b & st1 & Hrun & Hret).
      * apply Hids. by left.
      * done.
      * intros x Hx. rewrite HR in Hx. set_solver.
      * pose proof (cyc_unvisited_le (length adj) (visited st)). lia.
      * rewrite Hrun. destruct b.
        { exists st1. split; [done |]. by left. }
        destruct Hret as (fin1 & k1 & HG1 & HR1 & HV1 & Hi1).
        rewrite HR in HR1.
        destruct (IH st1 fin1 k1 HG1 HR1 Hids' Hfuel) as (st' & Hrun' & Hres).
        exists st'. split; [done |].
        destruct Hres as [? | (fin' & k' & ? & ? & ? & Hall)]; [by left | right].
        exists fin', k'. split_and!; [done | done | set_solver |].
        intros j [-> | Hj]%elem_of_cons; [set_solver | by apply Hall].
Qed.

End Directed.

Lemma tc_decreasing (R : relation nat) (fin : nat → nat) :
  (∀ x y, R x y → fin y < fin x) → ∀ x y, tc R x y → fin y < fin x.
Proof.
  intros HR x y Htc. induction Htc as [x y Hxy | x y z Hxy _ IH].
  - by apply HR.
  - pose proof (HR x y Hxy). lia.
Qed.

(** The state [detectCycle] starts its search from. *)
Definition startState (n : nat) : DfsState :=
  {| colors := replicate n white; visited := ∅; recursionStack := ∅;
     cycleEdgeSet := ∅; foundCycle := false |}.

Lemma directed_run (n fuel : nat) (es : list Edge) :
  (∀ e, e ∈ es → from e < n ∧ to e < n) → n ≤ fuel →
  ∃ adj em st',
    buildAdjacency n es true = Done (adj, em)
    ∧ roots true adj em fuel (seq 0 n) (startState n) = Done st'
    ∧ ((foundCycle st' = true
        ∧ ∃ i e, cycleEdgeSet st' = {[i]} ∧ es !! i = Some e
            ∧ nb true es (from e) (to e)
            ∧ rtc (nb true es) (to e) (from e))
       ∨ (foundCycle st' = false ∧ cycleEdgeSet st' = ∅
          ∧ ¬ ∃ x, tc (nb true es) x x)).
Proof.
  intros Hin Hfuel.
  destruct (buildAdjacency_spec n true es Hin)
    as (adj & em & Hbuild & Hlen & Hadj & Hkey1 & Hkey2).
  assert (Hclosed : ∀ u v, nbr adj u v → v < length adj).
  { intros u v (e & He & [[_ <-] | [? _]])%Hadj; [| done].
    rewrite Hlen. by apply Hin. }
  assert (Hkeys : ∀ u v, nbr adj u v → is_Some (em !! (u, v))).
  { intros u v Huv. by apply Hkey1, Hadj. }
  assert (Hrtc : ∀ x y, rtc (nbr adj) x y → rtc (nb true es) x y).
  { intros x y. apply rtc_subrel. intros a b. apply Hadj. }
  destruct (roots_directed adj em Hclosed Hkeys fuel (seq 0 n)
              (startState n) (λ _, 0) 0)
    as (st' & Hroots & Hres).
  - constructor;
      cbn [colors visited recursionStack cycleEdgeSet foundCycle startState].
    + by rewrite length_replicate.
    + done.
    + intros x Hx. by apply elem_of_empty in Hx.
    + intros x y Hx. by apply elem_of_empty in Hx.
    + intros x Hx. by apply elem_of_empty in Hx.
    + done.
  - done.
  - intros i Hi%elem_of_seq. lia.
  - lia.
  - exists adj, em, st'. split; [done |]. split; [done |].
    destruct Hres as [(Hf & u & v & i & Hi & Hcyc & Harc & Hback)
                     | (fin & k & HG & HR & _ & Hall)].
    + left. split; [done |].
      destruct (Hkey2 u v i Hi) as (e & He & [[<- <-] | [? _]]); [| done].
      exists i, e. split_and!; [done | done | by apply Hadj | by apply Hrtc].
    + right. destruct (good_quiet _ _ _ _ HG) as [Hf Hcyc].
      split; [done |]. split; [done |]. intros (x & Hx).
      assert (Hdec : ∀ a b, nb true es a b → fin b < fin a).
      { intros a b Hab. apply Hadj in Hab as Hab'.
        assert (Ha : a ∈ visited st').
        { apply Hall, elem_of_seq. destruct Hab' as (l & Hl & _).
          apply lookup_lt_Some in Hl. lia. }
        destruct (good_black _ _ _ _ HG a b Ha) as (_ & _ & Hlt);
          [rewrite HR; set_solver | done | done]. }
      pose proof (tc_decreasing _ fin Hdec x x Hx). lia.
Qed.

(** Directed detection is exact: on a list of edges between nodes below
    [n], with a recursion budget of at least [n], the run returns; it
    reports a cycle exactly when some walk along the edges, each from its
    tail to its head, leads from a node back to itself; and when it does it
    flags one edge, whose head leads back to its tail. *)
Theorem directed_detection_is_exact (n fuel : nat) (es : list Edge)
    (old : bool * gset nat) :
  es ≠ [] → (∀ e, e ∈ es → from e < n ∧ to e < n) → n ≤ fuel →
  ∃ b cyc,
    detectCycle fuel n es true old = Done (b, cyc)
    ∧ (b = true ↔ ∃ x, tc (nb true es) x x)
    ∧ (b = false → cyc = ∅)
    ∧ (b = true → ∃ i e, cyc = {[i]} ∧ es !! i = Some e
         ∧ rtc (nb true es) (to e) (from e)).
Proof.
  intros Hne Hin Hfuel.
  destruct (directed_run n fuel es Hin Hfuel)
    as (adj & em & st' & Hbuild & Hroots & Hres).
  exists (foundCycle st'), (cycleEdgeSet st'). split.
  { unfold detectCycle. rewrite decide_False by (by destruct es).
    rewrite Hbuild. cbn [mbind run_bind].
    unfold startState in Hroots. by rewrite Hroots. }
  destruct Hres as [(-> & i & e & Hcyc & He & Harc & Hback)
                   | (-> & Hcyc & Hnone)].
  - split_and!; [| done |].
    + split; [| done]. intros _. exists (from e).
      by apply tc_rtc_r with (to e); [apply tc_once |].
    + intros _. by exists i, e.
  - split_and!; [| done | done].
    split; [done |]. intros Hx. by destruct Hnone.
Qed.

Lemma directed_detection_is_exact_witness :
  ∃ b cyc,
    detectCycle 3 3 triangle true (false, ∅) = Done (b, cyc)
    ∧ (b = true ↔ ∃ x, tc (nb true triangle) x x)
    ∧ (b = false → cyc = ∅)
    ∧ (b = true → ∃ i e, cyc = {[i]} ∧ triangle !! i = Some e
         ∧ rtc (nb true triangle) (to e) (from e)).
Proof.
  apply (directed_detection_is_exact 3 3 triangle (false, ∅)).
  - discriminate.
  - intros e He. unfold triangle in He.
    repeat (apply elem_of_cons in He as [-> | He]; [simpl; lia |]).
    by apply elem_of_nil in He.
  - lia.
Defined.

(** *** Undirected graphs *)

(** An edge other than the one of index [i] joins [x] and [y]. *)
Definition link (i : nat) (es : list Edge) (x y : nat) : Prop :=
  ∃ j e, j ≠ i ∧ es !! j = Some e
    ∧ ((from e = x ∧ to e = y) ∨ (from e = y ∧ to e = x)).

(** The edge of index [i] lies on an undirected cycle: its two ends are
    joined by a walk that does not use it. *)
Definition onCycle (es : list Edge) (i : nat) : Prop :=
  ∃ e, es !! i = Some e ∧ rtc (link i es) (from e) (to e).

Definition noLoop (es : list Edge) : Prop := ∀ e, e ∈ es → from e ≠ to e.

Lemma link_sym i es x y : link i es x y → link i es y x.
Proof. intros (j & e & ? & ? & ?). exists j, e. naive_solver. Qed.

Lemma noDuplicate_fresh es e :
  noDuplicate false (es ++ [e]) →
  ¬ nb false es (from e) (to e) ∧ ¬ nb false es (to e) (from e).
Proof.
  intros Hnd.
  assert (Hlast : (es ++ [e]) !! length es = Some e).
  { by rewrite lookup_app_r, Nat.sub_diag by done. }
  assert (Hno : ∀ e', e' ∈ es → ¬ sameConnection false e' e).
  { intros e' (j & Hj)%list_elem_of_lookup Hsame.
    pose proof (lookup_lt_Some _ _ _ Hj) as Hlt.
    assert (Hj' : (es ++ [e]) !! j = Some e') by (by apply lookup_app_l_Some).
    pose proof (Hnd j (length es) e' e Hj' Hlast Hsame). lia. }
  split; intros (e' & He' & Hends); apply (Hno e' He');
    unfold sameConnection; naive_solver.
Qed.

Lemma buildAdjacency_NoDup n es :
  (∀ e, e ∈ es → from e < n ∧ to e < n) →
  noLoop es → noDuplicate false es →
  ∀ adj em, buildAdjacency n es false = Done (adj, em) →
  ∀ u l, adj !! u = Some l → NoDup l.
Proof.
  induction es as [|e es IH] using rev_ind; intros Hin Hloop Hnd adj em Hrun u l Hl.
  - injection Hrun as <- <-. apply lookup_replicate in Hl as [-> _].
    constructor.
  - assert (Hin' : ∀ e', e' ∈ es → from e' < n ∧ to e' < n).
    { intros e' He'. apply Hin, elem_of_app. by left. }
    assert (Hloop' : noLoop es).
    { intros e' He'. apply Hloop, elem_of_app. by left. }
    assert (Hnd' : noDuplicate false es).
    { intros i j e1 e2 Hi Hj. apply Hnd; by apply lookup_app_l_Some. }
    destruct (buildAdjacency_spec n false es Hin')
      as (adj0 & em0 & Hrun0 & Hlen & Hadj & _).
    specialize (IH Hin' Hloop' Hnd' adj0 em0 Hrun0).
    destruct (noDuplicate_fresh es e Hnd) as [Hf1 Hf2].
    assert (Hne : from e ≠ to e).
    { apply Hloop, elem_of_app. right. by left. }
    destruct (Hin e) as [Hf Ht]; [apply elem_of_app; right; by left |].
    unfold buildAdjacency in Hrun, Hrun0.
    rewrite imap_pair_snoc, foldl_app, Hrun0 in Hrun. cbn [foldl] in Hrun.
    unfold addEdge in Hrun. cbn [mbind run_bind] in Hrun.
    destruct (lookup_lt_is_Some_2 adj0 (from e)) as [lf Hlf]; [lia |].
    destruct (lookup_lt_is_Some_2 adj0 (to e)) as [lt Hlt]; [lia |].
    rewrite Hlf in Hrun. cbn [mbind run_bind of_option] in Hrun.
    rewrite list_lookup_insert_ne, Hlt in Hrun by done.
    cbn [mbind run_bind of_option] in Hrun.
    injection Hrun as <- <-.
    destruct (decide (u = to e)) as [-> | Hu1].
    { rewrite list_lookup_insert_eq in Hl
        by (rewrite length_insert; lia).
      injection Hl as <-. apply NoDup_app. split; [by apply (IH (to e)) |].
      split; [| apply NoDup_singleton].
      intros x Hx ->%list_elem_of_singleton. apply Hf2, Hadj.
      exists lt. done. }
    rewrite list_lookup_insert_ne in Hl by done.
    destruct (decide (u = from e)) as [-> | Hu2].
    { rewrite list_lookup_insert_eq in Hl by lia.
      injection Hl as <-. apply NoDup_app. split; [by apply (IH (from e)) |].
      split; [| apply NoDup_singleton].
      intros x Hx ->%list_elem_of_singleton. apply Hf1, Hadj.
      exists lf. done. }
    rewrite list_lookup_insert_ne in Hl by done. by apply (IH u).
Qed.

Section Undirected.
Variable es : list Edge.
Variable adj : list (list nat).
Variable em : gmap (nat * nat) nat.
Hypothesis adj_es : ∀ u v, nbr adj u v ↔ nb false es u v.
Hypothesis em_es : keyed false es em.
Hypothesis bounded : ∀ u v, nbr adj u v → v < length adj.
Hypothesis adj_NoDup : ∀ u l, adj !! u = Some l → NoDup l.
Hypothesis no_loop : ∀ u, ¬ nbr adj u u.

Lemma nbr_sym u v : nbr adj u v → nbr adj v u.
Proof.
  rewrite !adj_es. intros (e & He & Hends). exists e. naive_solver.
Qed.

(** [a] was entered from [b]. *)
Definition up (par : nat → option nat) (a b : nat) : Prop := par a = Some b.

(** The state of an undirected run that has met no cycle: the visited
    nodes form a forest under [par], and every edge at a finished node is
    an edge of this forest. *)
Record UGood (par : nat → option nat) (dep : nat → nat) (st : DfsState)
    : Prop := {
  ugood_len : length (colors st) = length adj;
  ugood_stack : recursionStack st ⊆ visited st;
  ugood_bound : ∀ x, x ∈ visited st → x < length adj;
  ugood_par : ∀ x p, x ∈ visited st → par x = Some p →
    p ∈ visited st ∧ nbr adj p x ∧ dep x = S (dep p);
  ugood_black : ∀ x y, x ∈ visited st → x ∉ recursionStack st →
    nbr adj x y → y ∈ visited st ∧ (par x = Some y ∨ par y = Some x);
  ugood_quiet : foundCycle st = false ∧ cycleEdgeSet st = ∅
}.

Definition UFound (st : DfsState) : Prop :=
  foundCycle st = true ∧ ∃ i, cycleEdgeSet st = {[i]} ∧ onCycle es i.

Definition agree (V : gset nat) (par par' : nat → option nat)
    (dep dep' : nat → nat) : Prop :=
  ∀ x, x ∈ V → par' x = par x ∧ dep' x = dep x.

(** The recursion stack above a call: the caller and its ancestors. *)
Definition Stack (par : nat → option nat) (parent : option nat)
    (R : gset nat) : Prop :=
  match parent with
  | None => R = ∅
  | Some q => q ∈ R ∧ ∀ x, x ∈ R → rtc (up par) q x
  end.

(** Nodes visited since [V0], other than [u], were entered from nodes
    visited since [V0]. *)
Definition Below (par : nat → option nat) (V0 V : gset nat) (u : nat)
    : Prop :=
  ∀ y, y ∈ V → y ∉ V0 → y ≠ u → ∃ z, par y = Some z ∧ z ∉ V0.

Definition UReturns (u : nat) (parent : option nat) (par : nat → option nat)
    (dep : nat → nat) (st : DfsState) (b : bool) (st' : DfsState) : Prop :=
  if b then UFound st'
  else ∃ par' dep', UGood par' dep' st'
         ∧ agree (visited st) par par' dep dep'
         ∧ par' u = parent
         ∧ recursionStack st' = recursionStack st
         ∧ visited st ⊆ visited st' ∧ u ∈ visited st'
         ∧ Below par' (visited st) (visited st') u.

Lemma up_agree par dep st par' dep' a b :
  UGood par dep st → agree (visited st) par par' dep dep' →
  a ∈ visited st → rtc (up par) a b → rtc (up par') a b.
Proof.
  intros HG Hag Ha Hrtc. induction Hrtc as [a | a a' b Hstep _ IH]; [done |].
  destruct (ugood_par _ _ _ HG a a' Ha Hstep) as (Ha' & _ & _).
  apply rtc_l with a'; [| by apply IH].
  unfold up. by rewrite (proj1 (Hag a Ha)).
Qed.

Lemma up_dep par dep st a b :
  UGood par dep st → a ∈ visited st → rtc (up par) a b →
  b ∈ visited st ∧ dep b ≤ dep a.
Proof.
  intros HG Ha Hrtc. induction Hrtc as [a | a a' b Hstep _ IH]; [done |].
  destruct (ugood_par _ _ _ HG a a' Ha Hstep) as (Ha' & _ & Hd).
  destruct (IH Ha'). split; [done | lia].
Qed.

Lemma nbr_index x y :
  nbr adj x y →
  ∃ j e, es !! j = Some e
    ∧ ((from e = x ∧ to e = y) ∨ (from e = y ∧ to e = x)).
Proof.
  intros (e & (j & Hj)%list_elem_of_lookup & Hends)%adj_es.
  exists j, e. naive_solver.
Qed.

(** Walking up the forest from below [u] never uses an edge at [u]. *)
Lemma up_link par dep st i e u a b :
  UGood par dep st → es !! i = Some e → (from e = u ∨ to e = u) →
  a ∈ visited st → dep a < dep u → rtc (up par) a b →
  rtc (link i es) a b.
Proof.
  intros HG Hi Hu Ha Hlt Hrtc.
  induction Hrtc as [a | a a' b Hstep _ IH]; [done |].
  destruct (ugood_par _ _ _ HG a a' Ha Hstep) as (Ha' & Harc & Hd).
  apply rtc_l with a'; [| apply IH; [done | lia]].
  destruct (nbr_index a' a Harc) as (j & e' & Hj & Hends).
  exists j, e'. split; [| split; [done | naive_solver]].
  intros ->. assert (e' = e) as -> by congruence.
  assert (a ≠ u ∧ a' ≠ u) as [? ?] by (split; intros ->; lia).
  naive_solver.
Qed.

Lemma or_falsy_cases (a b : option nat) i j :
  a = Some i → b = Some j → or_falsy a b = Some i ∨ or_falsy a b = Some j.
Proof. intros -> ->. destruct i; simpl; auto. Qed.

Lemma each_undirected fuel u parent (V0 R0 : gset nat) :
  (∀ v p st par dep,
     UGood par dep st → v < length adj → v ∉ visited st →
     Stack par p (recursionStack st) → (∀ q, p = Some q → nbr adj q v) →
     cyc_unvisited (length adj) (visited st) ≤ fuel →
     ∃ b st', dfs false adj em fuel v p st = Done (b, st')
       ∧ UReturns v p par dep st b st') →
  u ∉ V0 → R0 ⊆ V0 →
  ∀ ns pre st par dep,
    adj !! u = Some (pre ++ ns) →
    UGood par dep st → recursionStack st = {[u]} ∪ R0 →
    {[u]} ∪ V0 ⊆ visited st →
    par u = parent → Stack par parent R0 →
    (∀ y, y ∈ pre → y ∈ visited st ∧ (par u = Some y ∨ par y = Some u)) →
    (∀ y, y ∈ visited st → par y = Some u → y ∈ pre) →
    Below par V0 (visited st) u →
    cyc_unvisited (length adj) (visited st) ≤ fuel →
    ∃ b st',
      eachNeighbor false em (dfs false adj em fuel) u parent ns st
      = Done (b, st')
      ∧ if b then UFound st'
        else ∃ par' dep', UGood par' dep' st'
               ∧ agree (visited st) par par' dep dep'
               ∧ recursionStack st' = R0
               ∧ visited st ⊆ visited st'
               ∧ Below par' V0 (visited st') u.
Proof.
  intros IH HuV0 HR0 ns.
  induction ns as [|v ns IHns];
    intros pre st par dep Hadj HG HR HV Hpu Hstack Hpre Hkids Hbelow Hfuel.
  - (* all neighbours done *)
    rewrite app_nil_r in Hadj. simpl.
    exists false, (leave u st). split; [done |].
    exists par, dep.
    assert (HR' : recursionStack (leave u st) = R0).
    { simpl. rewrite HR. set_solver. }
    destruct HG as [G1 G2 G3 G4 G5 G6].
    split_and!; [| done | done | done | done].
    constructor; rewrite ?HR'; simpl.
    + by rewrite length_insert.
    + rewrite HR in G2. set_solver.
    + done.
    + done.
    + intros x y Hx HxR Harc. destruct (decide (x = u)) as [-> | Hne].
      * destruct Harc as (l & Hl & Hy). rewrite Hadj in Hl. injection Hl as <-.
        by apply Hpre.
      * apply G5; [done | | done]. rewrite HR. set_solver.
    + done.
  - (* the next neighbour *)
    assert (Harc : nbr adj u v).
    { exists (pre ++ v :: ns). split; [done |]. set_solver. }
    assert (Hvu : v ≠ u).
    { intros ->. by apply (no_loop u). }
    assert (Hadj' : adj !! u = Some ((pre ++ [v]) ++ ns)).
    { by rewrite <- app_assoc. }
    assert (HuV : u ∈ visited st) by set_solver.
    cbn [eachNeighbor].
    fold (eachNeighbor false em (dfs false adj em fuel) u parent).
    destruct (decide (Some v = parent)) as [Hvp | Hvp].
    { (* the node we came from *)
      apply (IHns (pre ++ [v]) st par dep); try done.
      - intros y [Hy | ->%list_elem_of_singleton]%elem_of_app;
          [by apply Hpre |].
        split; [| left; congruence].
        unfold Stack in Hstack. rewrite <- Hvp in Hstack.
        destruct Hstack as [Hv _].
        apply (ugood_stack _ _ _ HG). rewrite HR. set_solver.
      - intros y Hy Hpy. apply elem_of_app. left. by apply Hkids. }
    destruct (decide (v ∈ visited st)) as [HvV | HvV].
    { (* a visited node that is not the parent: a cycle *)
      destruct em_es as [Hkey1 Hkey2].
      destruct (Hkey1 u v) as [i1 Hi1]; [by apply adj_es |].
      destruct (Hkey1 v u) as [i2 Hi2]; [by apply adj_es, nbr_sym |].
      eexists true, _. split; [done |].
      assert (∃ i e, or_falsy (em !! (u, v)) (em !! (v, u)) = Some i
                ∧ es !! i = Some e
                ∧ ((from e = u ∧ to e = v) ∨ (from e = v ∧ to e = u)))
        as (i & e & -> & Hi & Hends).
      { destruct (or_falsy_cases _ _ _ _ Hi1 Hi2) as [-> | ->].
        - destruct (Hkey2 u v i1 Hi1) as (e & ? & ?). exists i1, e.
          naive_solver.
        - destruct (Hkey2 v u i2 Hi2) as (e & ? & ?). exists i2, e.
          naive_solver. }
      split; [done |]. exists i. simpl.
      rewrite (proj2 (ugood_quiet _ _ _ HG)). split; [set_solver |].
      exists e. split; [done |].
      assert (Hconn : rtc (link i es) u v).
      { destruct (decide (v ∈ recursionStack st)) as [HvR | HvR].
        - (* an ancestor beyond the parent *)
          rewrite HR in HvR.
          assert (HvR0 : v ∈ R0) by set_solver.
          unfold Stack in Hstack. destruct parent as [q |]; [| set_solver].
          destruct Hstack as [Hq Hchain].
          destruct (ugood_par _ _ _ HG u q HuV Hpu) as (HqV & Hqu & Hdep).
          assert (Hqu' : q ≠ u) by set_solver.
          assert (Hqv : q ≠ v) by congruence.
          apply rtc_l with q.
          + destruct (nbr_index q u Hqu) as (j & e' & Hj & Hends').
            exists j, e'. split; [| split; [done | naive_solver]].
            intros ->. assert (e' = e) as -> by congruence. naive_solver.
          + apply (up_link par dep st i e u); try done; [naive_solver | lia |].
            by apply Hchain.
        - (* a finished node: it was entered from here, earlier in the list *)
          exfalso.
          destruct (ugood_black _ _ _ HG v u HvV HvR (nbr_sym _ _ Harc))
            as [_ [Hp | Hp]].
          + pose proof (Hkids v HvV Hp) as Hin.
            pose proof (adj_NoDup u _ Hadj) as Hnd.
            apply NoDup_app in Hnd as (_ & Hnd & _).
            apply (Hnd v Hin). by left.
          + apply Hvp. congruence. }
      destruct Hends as [[-> ->] | [-> ->]]; [done |].
      clear -Hconn. induction Hconn as [| x y z Hxy _ IH]; [done |].
      apply rtc_r with y; [done | by apply link_sym]. }
    (* an unvisited neighbour *)
    destruct (IH v (Some u) st par dep HG) as (b & st' & Hrun & Hret);
      [by apply (bounded u v) | done | | | done |].
    { split; [rewrite HR; set_solver |].
      intros x Hx. rewrite HR in Hx.
      apply elem_of_union in Hx as [->%elem_of_singleton | Hx]; [done |].
      unfold Stack in Hstack. destruct parent as [q |]; [| set_solver].
      apply rtc_l with q; [done | by apply Hstack]. }
    { by intros q [= <-]. }
    rewrite Hrun. destruct b.
    { exists true, st'. done. }
    destruct Hret as (par' & dep' & HG' & Hag & Hpv & HR' & HV' & Hv' & Hbelow').
    destruct (IHns (pre ++ [v]) st' par' dep')
      as (b & st'' & Hrun' & Hret'); try done.
    + by rewrite HR'.
    + set_solver.
    + rewrite <- Hpu. by apply Hag.
    + unfold Stack in *. destruct parent as [q |]; [| done].
      destruct Hstack as [Hq Hchain]. split; [done |].
      intros x Hx. apply (up_agree par dep st par' dep'); try done;
        [| by apply Hchain].
      apply (ugood_stack _ _ _ HG). rewrite HR. set_solver.
    + intros y [Hy | ->%list_elem_of_singleton]%elem_of_app.
      * destruct (Hpre y Hy) as [HyV Hlink]. split; [set_solver |].
        rewrite (proj1 (Hag u HuV)), (proj1 (Hag y HyV)). done.
      * split; [done | by right].
    + intros y Hy Hpy. apply elem_of_app.
      destruct (decide (y ∈ visited st)) as [HyV | HyV].
      * left. apply Hkids; [done |]. by rewrite <- (proj1 (Hag y HyV)).
      * right. apply list_elem_of_singleton.
        destruct (decide (y = v)) as [| Hyv]; [done |].
        destruct (Hbelow' y Hy HyV Hyv) as (z & Hz & HzV).
        exfalso. apply HzV. congruence.
    + intros y Hy HyV0 Hyu.
      destruct (decide (y ∈ visited st)) as [HyV | HyV].
      * destruct (Hbelow y HyV HyV0 Hyu) as (z & Hz & HzV).
        exists z. split; [| done]. by rewrite (proj1 (Hag y HyV)).
      * destruct (decide (y = v)) as [-> | Hyv].
        { exists u. done. }
        destruct (Hbelow' y Hy HyV Hyv) as (z & Hz & HzV).
        exists z. split; [done | set_solver].
    + pose proof (cyc_unvisited_mono (length adj) _ _ HV'). lia.
    + exists b, st''. split; [done |]. destruct b; [done |].
      destruct Hret' as (par'' & dep'' & ? & Hag' & ? & ? & ?).
      exists par'', dep''. split_and!; [done | | done | set_solver | done].
      intros x Hx. destruct (Hag x Hx) as [<- <-]. apply Hag'. set_solver.
Qed.

Lemma dfs_undirected fuel : ∀ u parent st par dep,
  UGood par dep st → u < length adj → u ∉ visited st →
  Stack par parent (recursionStack st) →
  (∀ q, parent = Some q → nbr adj q u) →
  cyc_unvisited (length adj) (visited st) ≤ fuel →
  ∃ b st', dfs false adj em fuel u parent st = Done (b, st')
    ∧ UReturns u parent par dep st b st'.
Proof.
  induction fuel as [|fuel IH];
    intros u parent st par dep HG Hu HuV Hstack Hparent Hfuel.
  { pose proof (cyc_unvisited_insert _ _ _ Hu HuV). lia. }
  rewrite dfs_S. rewrite decide_True by (by rewrite (ugood_len _ _ _ HG)).
  destruct (lookup_lt_is_Some_2 adj u Hu) as [ns Hns]. rewrite Hns.
  set (par1 := λ x, if decide (x = u) then parent else par x).
  set (dep1 := λ x, if decide (x = u)
                    then match parent with Some q => S (dep q) | None => 0 end
                    else dep x).
  assert (Hag1 : agree (visited st) par par1 dep dep1).
  { intros x Hx. unfold par1, dep1.
    rewrite !decide_False by set_solver. done. }
  assert (Hpq : ∀ q, parent = Some q → q ∈ visited st ∧ q ≠ u).
  { intros q ->. destruct Hstack as [Hq _].
    pose proof (ugood_stack _ _ _ HG). set_solver. }
  destruct (each_undirected fuel u parent (visited st) (recursionStack st)
              IH HuV (ugood_stack _ _ _ HG) ns [] (enter u st) par1 dep1)
    as (b & st' & Hrun & Hret).
  - done.
  - destruct HG as [G1 G2 G3 G4 G5 G6]. constructor; simpl.
    + by rewrite length_insert.
    + set_solver.
    + intros x [->%elem_of_singleton | Hx]%elem_of_union; [done | by apply G3].
    + intros x p Hx Hp. unfold par1, dep1 in *.
      destruct (decide (x = u)) as [-> | Hne].
      * destruct (Hpq p Hp) as [HpV Hpu]. rewrite decide_False by done.
        rewrite Hp. split_and!; [set_solver | by apply Hparent | done].
      * assert (Hx' : x ∈ visited st) by set_solver.
        destruct (G4 x p Hx' Hp) as (HpV & ? & ?).
        rewrite decide_False by set_solver.
        split_and!; [set_solver | done | done].
    + intros x y Hx HxR Harc.
      assert (x ∈ visited st ∧ x ∉ recursionStack st ∧ x ≠ u)
        as (Hx' & HxR' & Hxu) by set_solver.
      destruct (G5 x y Hx' HxR' Harc) as (HyV & Hlink).
      split; [set_solver |]. unfold par1.
      rewrite !decide_False by set_solver. done.
    + done.
  - done.
  - done.
  - unfold par1. by rewrite decide_True.
  - unfold Stack in *. destruct parent as [q |]; [| done].
    destruct Hstack as [Hq Hchain]. split; [done |].
    intros x Hx. apply (up_agree par dep st par1 dep1); try done;
      [| by apply Hchain].
    by apply (ugood_stack _ _ _ HG).
  - intros y Hy. by apply elem_of_nil in Hy.
  - intros y Hy Hpy. exfalso. simpl in Hy. unfold par1 in Hpy.
    destruct (decide (y = u)) as [-> | Hne].
    + destruct (Hpq u Hpy). done.
    + assert (Hy' : y ∈ visited st) by set_solver.
      destruct (ugood_par _ _ _ HG y u Hy' Hpy) as (? & _). done.
  - intros y Hy HyV Hyu. simpl in Hy. set_solver.
  - simpl. pose proof (cyc_unvisited_insert _ _ _ Hu HuV). lia.
  - exists b, st'. split; [done |]. unfold UReturns. destruct b; [done |].
    destruct Hret as (par' & dep' & HG' & Hag' & HR' & HV' & Hbelow').
    exists par', dep'. simpl in Hag', HV'.
    split_and!; [done | | | done | set_solver | set_solver | done].
    + intros x Hx. destruct (Hag1 x Hx) as [<- <-]. apply Hag'. set_solver.
    + rewrite (proj1 (Hag' u ltac:(set_solver))). unfold par1.
      by rewrite decide_True.
Qed.

Lemma roots_undirected fuel : ∀ ids st par dep,
  UGood par dep st → recursionStack st = ∅ →
  (∀ i, i ∈ ids → i < length adj) → length adj ≤ fuel →
  ∃ st', roots false adj em fuel ids st = Done st'
    ∧ (UFound st'
       ∨ ∃ par' dep', UGood par' dep' st' ∧ recursionStack st' = ∅
           ∧ visited st ⊆ visited st' ∧ ∀ i, i ∈ ids → i ∈ visited st').
Proof.
  induction ids as [|i ids IH]; intros st par dep HG HR Hids Hfuel.
  - exists st. split; [done |]. right. exists par, dep.
    split_and!; try done. intros i Hi. by apply elem_of_nil in Hi.
  - cbn [roots].
    assert (Hids' : ∀ j, j ∈ ids → j < length adj).
    { intros j Hj. apply Hids. by right. }
    destruct (decide (i ∈ visited st)) as [Hi | Hi].
    + destruct (IH st par dep HG HR Hids' Hfuel) as (st' & Hrun & Hres).
      exists st'. split; [done |].
      destruct Hres as [? | (par' & dep' & ? & ? & ? & Hall)];
        [by left | right].
      exists par', dep'. split_and!; try done.
      intros j [-> | Hj]%elem_of_cons; [set_solver | by apply Hall].
    + destruct (dfs_undirected fuel i None st par dep HG)
        as (b & st1 & Hrun & Hret).
      * apply Hids. by left.
      * done.
      * done.
      * done.
      * pose proof (cyc_unvisited_le (length adj) (visited st)). lia.
      * rewrite Hrun. destruct b.
        { exists st1. split; [done |]. by left. }
        destruct Hret as (par1 & dep1 & HG1 & _ & _ & HR1 & HV1 & Hi1 & _).
        rewrite HR in HR1.
        destruct (IH st1 par1 dep1 HG1 HR1 Hids' Hfuel) as (st' & Hrun' & Hres).
        exists st'. split; [done |].
        destruct Hres as [? | (par' & dep' & ? & ? & ? & Hall)];
          [by left | right].
        exists par', dep'. split_and!; [done | done | set_solver |].
        intros j [-> | Hj]%elem_of_cons; [set_solver | by apply Hall].
Qed.

(** A graph all of whose edges are edges of a forest has no cycle. *)
Lemma forest_acyclic par dep st :
  UGood par dep st → recursionStack st = ∅ →
  (∀ x, x < length adj → x ∈ visited st) →
  noDuplicate false es →
  ∀ i, ¬ onCycle es i.
Proof.
  intros HG HR Hall Hnd i (e & Hi & Hwalk).
  assert (Hin : ∀ x y, nbr adj x y → x ∈ visited st ∧ y ∈ visited st).
  { intros x y Hxy. split; apply Hall.
    - by apply (bounded y x), nbr_sym.
    - by apply (bounded x y). }
  assert (Hlinked : ∀ x y, nbr adj x y → par x = Some y ∨ par y = Some x).
  { intros x y Hxy. destruct (Hin x y Hxy) as [Hx _].
    destruct (ugood_black _ _ _ HG x y Hx) as [_ ?]; [set_solver | done | done]. }
  assert (Harc : nbr adj (from e) (to e)).
  { apply adj_es. exists e. split; [by eapply list_elem_of_lookup_2 | by left]. }
  (* the subtree below the child end of the edge is closed under the
     other edges *)
  assert (Hcut : ∀ c d, par c = Some d →
            ((from e = c ∧ to e = d) ∨ (from e = d ∧ to e = c)) →
            ∀ x y, link i es x y → rtc (up par) x c → rtc (up par) y c).
  { intros c d Hcd Hends x y (j & e' & Hji & Hj & Hends') Hx.
    assert (Hxy : nbr adj x y).
    { apply adj_es. exists e'. split; [by eapply list_elem_of_lookup_2 |].
      naive_solver. }
    destruct (Hlinked x y Hxy) as [Hp | Hp].
    - apply rtc_inv in Hx as [-> | (x' & Hstep & Hrest)].
      + exfalso. apply Hji. apply (Hnd j i e' e Hj Hi).
        assert (y = d) as -> by congruence.
        unfold sameConnection. naive_solver.
      + unfold up in Hstep. assert (x' = y) as -> by congruence. done.
    - by apply rtc_l with x. }
  assert (Hno : ∀ c d, c ∈ visited st → par c = Some d →
            ¬ rtc (up par) d c).
  { intros c d Hc Hcd Hdc.
    destruct (ugood_par _ _ _ HG c d Hc Hcd) as (Hd & _ & Hdep).
    destruct (up_dep par dep st d c HG Hd Hdc). lia. }
  destruct (Hin _ _ Harc) as [Hf Ht].
  destruct (Hlinked _ _ Harc) as [Hp | Hp].
  - (* the edge leads up from [from e]: walk from it, staying below *)
    apply (Hno (from e) (to e) Hf Hp).
    assert (∀ a b, rtc (link i es) a b →
              rtc (up par) a (from e) → rtc (up par) b (from e)) as Hclosed.
    { intros a b Hab. induction Hab as [| a a' b Hstep _ IH]; [done |].
      intros Ha. apply IH. apply (Hcut (from e) (to e) Hp) with a; auto. }
    by apply (Hclosed (from e) (to e) Hwalk).
  - (* the edge leads up from [to e]: walk back to it *)
    apply (Hno (to e) (from e) Ht Hp).
    assert (∀ a b, rtc (link i es) a b →
              rtc (up par) b (to e) → rtc (up par) a (to e)) as Hclosed.
    { intros a b Hab. induction Hab as [| a a' b Hstep _ IH]; [done |].
      intros Hb. apply (Hcut (to e) (from e) Hp) with a'; auto.
      by apply link_sym. }
    by apply (Hclosed (from e) (to e) Hwalk).
Qed.

End Undirected.

Lemma undirected_run (n fuel : nat) (es : list Edge) :
  (∀ e, e ∈ es → from e < n ∧ to e < n) →
  noLoop es → noDuplicate false es → n ≤ fuel →
  ∃ adj em st',
    buildAdjacency n es false = Done (adj, em)
    ∧ roots false adj em fuel (seq 0 n) (startState n) = Done st'
    ∧ ((foundCycle st' = true
        ∧ ∃ i, cycleEdgeSet st' = {[i]} ∧ onCycle es i)
       ∨ (foundCycle st' = false ∧ cycleEdgeSet st' = ∅
          ∧ ¬ ∃ i, onCycle es i)).
Proof.
  intros Hin Hloop Hnd Hfuel.
  destruct (buildAdjacency_spec n false es Hin)
    as (adj & em & Hbuild & Hlen & Hadj & Hkey).
  pose proof (buildAdjacency_NoDup n es Hin Hloop Hnd adj em Hbuild) as Hdup.
  assert (Hclosed : ∀ u v, nbr adj u v → v < length adj).
  { intros u v (e & He & [[_ <-] | (_ & <- & _)])%Hadj;
      rewrite Hlen; by apply Hin. }
  assert (Hnl : ∀ u, ¬ nbr adj u u).
  { intros u (e & He & Hends)%Hadj. apply (Hloop e He). naive_solver. }
  destruct (roots_undirected es adj em Hadj Hkey Hclosed Hdup Hnl fuel
              (seq 0 n) (startState n) (λ _, None) (λ _, 0))
    as (st' & Hroots & Hres).
  - constructor;
      cbn [colors visited recursionStack cycleEdgeSet foundCycle startState].
    + by rewrite length_replicate.
    + done.
    + intros x Hx. by apply elem_of_empty in Hx.
    + intros x p Hx. by apply elem_of_empty in Hx.
    + intros x y Hx. by apply elem_of_empty in Hx.
    + done.
  - done.
  - intros i Hi%elem_of_seq. lia.
  - lia.
  - exists adj, em, st'. split; [done |]. split; [done |].
    destruct Hres as [(Hf & i & Hcyc & Hon) | (par & dep & HG & HR & _ & Hall)].
    + left. split; [done |]. by exists i.
    + right. destruct (ugood_quiet _ _ _ _ HG) as [Hf Hcyc].
      split; [done |]. split; [done |]. intros (i & Hon).
      eapply (forest_acyclic es adj); try eassumption.
      intros x Hx. apply Hall, elem_of_seq. lia.
Qed.

(** Undirected detection is exact on a graph without loops and without
    two edges between the same pair of nodes: with a recursion budget of
    at least [n] the run returns; it reports a cycle exactly when some
    edge has its two ends joined by a walk that does not use it; and when
    it does it flags one such edge. *)
Theorem undirected_detection_is_exact (n fuel : nat) (es : list Edge)
    (old : bool * gset nat) :
  es ≠ [] → (∀ e, e ∈ es → from e < n ∧ to e < n) →
  noLoop es → noDuplicate false es → n ≤ fuel →
  ∃ b cyc,
    detectCycle fuel n es false old = Done (b, cyc)
    ∧ (b = true ↔ ∃ i, onCycle es i)
    ∧ (b = false → cyc = ∅)
    ∧ (b = true → ∃ i, cyc = {[i]} ∧ onCycle es i).
Proof.
  intros Hne Hin Hloop Hnd Hfuel.
  destruct (undirected_run n fuel es Hin Hloop Hnd Hfuel)
    as (adj & em & st' & Hbuild & Hroots & Hres).
  exists (foundCycle st'), (cycleEdgeSet st'). split.
  { unfold detectCycle. rewrite decide_False by (by destruct es).
    rewrite Hbuild. cbn [mbind run_bind].
    unfold startState in Hroots. by rewrite Hroots. }
  destruct Hres as [(-> & i & Hcyc & Hon) | (-> & Hcyc & Hnone)].
  - split_and!; [| done |].
    + split; [| done]. intros _. by exists i.
    + intros _. by exists i.
  - split_and!; [| done | done].
    split; [done |]. intros Hx. by destruct Hnone.
Qed.

Lemma triangle_single : noDuplicate false triangle.
Proof.
  intros i j e1 e2 Hi Hj Hsame.
  destruct i as [|[|[|i]]]; destruct j as [|[|[|j]]];
    simpl in Hi, Hj; try done;
    injection Hi as <-; injection Hj as <-;
    destruct Hsame as [[? ?] | (_ & ? & ?)]; simpl in *; discriminate.
Qed.

Lemma undirected_detection_is_exact_witness :
  ∃ b cyc,
    detectCycle 3 3 triangle false (false, ∅) = Done (b, cyc)
    ∧ (b = true ↔ ∃ i, onCycle triangle i)
    ∧ (b = false → cyc = ∅)
    ∧ (b = true → ∃ i, cyc = {[i]} ∧ onCycle triangle i).
Proof.
  apply (undirected_detection_is_exact 3 3 triangle (false, ∅)).
  - discriminate.
  - intros e He. unfold triangle in He.
    repeat (apply elem_of_cons in He as [-> | He]; [simpl; lia |]).
    by apply elem_of_nil in He.
  - intros e He. unfold triangle in He.
    repeat (apply elem_of_cons in He as [-> | He]; [simpl; lia |]).
    by apply elem_of_nil in He.
  - apply triangle_single.
  - lia.
Defined.

(** *** Sessions of the graph builder *)

(** The hit test of [handleCanvasClick] ([nodes.find]) only yields a node
    that exists when the click is made. *)
Definition onNode (s : State) (a : Action) : bool :=
  match a with
  | Click (Some c) => c <? nodeCount s
  | _ => true
  end.

Fixpoint clicksOnNodes (s : State) (actions : list Action) : bool :=
  match actions with
  | [] => true
  | a :: rest => onNode s a && clicksOnNodes (step s a) rest
  end.

(** The graph has a cycle: in directed mode a walk along the edges from a
    node back to itself, in undirected mode an edge whose ends are joined
    by a walk that does not use it. *)
Definition cyclic (d : bool) (es : list Edge) : Prop :=
  if d then ∃ x, tc (nb true es) x x else ∃ i, onCycle es i.

(** What every graph of the builder satisfies. *)
Record Built (s : State) : Prop := {
  built_nodes : nodeCount s ≤ 5;
  built_edges : ∀ e, e ∈ edges s →
    from e < nodeCount s ∧ to e < nodeCount s ∧ from e ≠ to e;
  built_selected : ∀ c, selectedNode s = Some c → c < nodeCount s;
  built_single : noDuplicate (isDirected s) (edges s)
}.

Lemma Built_initial isMobile : Built (initial isMobile).
Proof.
  constructor; simpl.
  - destruct isMobile; lia.
  - intros e He. by apply elem_of_nil in He.
  - done.
  - apply noDuplicate_nil.
Qed.

Lemma Built_step s a : Built s → onNode s a = true → Built (step s a).
Proof.
  intros HB Hon.
  constructor; [| | | apply step_noDuplicate, (built_single _ HB)];
    destruct HB as [B1 B2 B3 _];
    destruct a as [c | | | m | |]; simpl; try done;
    try (by destruct m; lia);
    try (by intros e He; apply elem_of_nil in He).
  - unfold handleCanvasClick. destruct (isRunning s); [done |].
    destruct c as [clicked |]; [| done].
    destruct (selectedNode s) as [selected |]; [| done].
    by destruct (Nat.eqb selected clicked).
  - unfold handleCanvasClick. destruct (isRunning s); [done |].
    destruct c as [clicked |]; [| done].
    destruct (selectedNode s) as [selected |] eqn:Hsel; [| done].
    destruct (Nat.eqb selected clicked) eqn:Heq; [done |]. simpl.
    destruct (edgeExists s selected clicked); [done |].
    intros e [He | ->%list_elem_of_singleton]%elem_of_app; [by apply B2 |].
    simpl. simpl in Hon. apply Nat.ltb_lt in Hon.
    apply Nat.eqb_neq in Heq. split_and!; [by apply B3 | done | done].
  - unfold handleCanvasClick. destruct (isRunning s); [done |].
    destruct c as [clicked |]; [| done].
    simpl in Hon. apply Nat.ltb_lt in Hon.
    destruct (selectedNode s) as [selected |]; simpl.
    + by destruct (Nat.eqb selected clicked).
    + by intros c [= <-].
Qed.

Lemma Built_session actions : ∀ s,
  Built s → clicksOnNodes s actions = true → Built (foldl step s actions).
Proof.
  induction actions as [|a actions IH]; intros s HB Hon; [done |].
  simpl in Hon. apply andb_true_iff in Hon as [Ha Hrest].
  simpl. apply IH; [by apply Built_step | done].
Qed.

(** Whatever graph the user has drawn, detection judges it exactly: in
    every state the builder reaches by clicks on its nodes and by its
    buttons, every edge joins two distinct nodes that exist; and a run of
    [detectCycle] on a non-empty edge list, with a recursion budget of five,
    returns, and it reports a cycle exactly when the drawn graph has one. *)
Theorem drawn_graphs_are_judged_exactly (isMobile : bool)
    (actions : list Action) (fuel : nat) :
  let s := foldl step (initial isMobile) actions in
  clicksOnNodes (initial isMobile) actions = true →
  (∀ e, e ∈ edges s →
     from e < nodeCount s ∧ to e < nodeCount s ∧ from e ≠ to e)
  ∧ (edges s ≠ [] → 5 ≤ fuel →
     ∃ b cyc,
       detectCycle fuel (nodeCount s) (edges s) (isDirected s)
         (hasCycle s, cycleEdges s) = Done (b, cyc)
       ∧ (b = true ↔ cyclic (isDirected s) (edges s))).
Proof.
  intros s Hon.
  pose proof (Built_session actions (initial isMobile)
                (Built_initial isMobile) Hon) as HB.
  fold s in HB. destruct HB as [B1 B2 B3 B4].
  split; [exact B2 |]. intros Hne Hfuel.
  assert (Hin : ∀ e, e ∈ edges s → from e < nodeCount s ∧ to e < nodeCount s).
  { intros e He. destruct (B2 e He) as (? & ? & _). done. }
  unfold cyclic, detectCycle. rewrite decide_False by (by destruct (edges s)).
  destruct (isDirected s).
  - destruct (directed_run (nodeCount s) fuel (edges s) Hin)
      as (adj & em & st' & -> & Hroots & Hres); [lia |].
    cbn [mbind run_bind]. unfold startState in Hroots. rewrite Hroots.
    eexists _, _. split; [done |].
    destruct Hres as [(-> & i & e & _ & _ & Harc & Hback) | (-> & _ & Hnone)].
    + split; [| done]. intros _. exists (from e).
      by apply tc_rtc_r with (to e); [apply tc_once |].
    + split; [done |]. intros Hx. by destruct Hnone.
  - destruct (undirected_run (nodeCount s) fuel (edges s) Hin)
      as (adj & em & st' & -> & Hroots & Hres); [| done | lia |].
    { intros e He. by apply B2. }
    cbn [mbind run_bind]. unfold startState in Hroots. rewrite Hroots.
    eexists _, _. split; [done |].
    destruct Hres as [(-> & i & _ & Hcy) | (-> & _ & Hnone)].
    + split; [| done]. intros _. by exists i.
    + split; [done |]. intros Hx. by destruct Hnone.
Qed.

(** The directed triangle 0 → 1 → 2 → 0, drawn by six clicks. *)
Definition drawTriangle : list Action :=
  [Click (Some 0); Click (Some 1); Click (Some 1); Click (Some 2);
   Click (Some 2); Click (Some 0)].

Lemma drawn_graphs_are_judged_exactly_witness :
  edges (foldl step (initial false) drawTriangle) = triangle
  ∧ (∀ e, e ∈ triangle → from e < 5 ∧ to e < 5 ∧ from e ≠ to e)
  ∧ ∃ b cyc,
      detectCycle 5 5 triangle true (false, ∅) = Done (b, cyc)
      ∧ (b = true ↔ cyclic true triangle).
Proof.
  split; [reflexivity |].
  destruct (drawn_graphs_are_judged_exactly false drawTriangle 5 eq_refl)
    as [Hedges Hrun].
  split; [exact Hedges |].
  apply Hrun; [discriminate | lia].
Defined.

End CycleRunSpec.

(** ** Graph colouring: the greedy pass on the graph it is given *)

Module GreedySpec.
Import GraphColoring GraphColoringSpec ColoringGame ColoringGameSpec.

(** C7: on an undirected loop-free graph whose largest degree plus one is at
    most the palette size 8, [autoSolve] returns normally with the nodes it
    was given, their ids and neighbour lists unchanged; every node of the
    graph has a palette colour, which differs from the colour of each of its
    neighbours and is the lowest one not taken by a neighbour at a smaller
    index (each lower colour is taken by such a neighbour); the recomputed
    conflict set is empty and the colouring is reported complete. *)
Theorem greedy_colours_properly (s : State) :
  isGraph (nodes s) → maxDegree (nodes s) + 1 ≤ paletteSize →
  ∃ s', autoSolve s = Done s'
    ∧ id <$> nodes s' = id <$> nodes s
    ∧ neighbors <$> nodes s' = neighbors <$> nodes s
    ∧ (∀ i, i < length (nodes s) →
         ∃ node, nodes s' !! i = Some node
           ∧ (0 ≤ color node)%Z ∧ (color node < Z.of_nat paletteSize)%Z
           ∧ (∀ k, k ∈ neighbors node →
                colorAt (nodes s') k ≠ (-1)%Z
                ∧ colorAt (nodes s') k ≠ color node)
           ∧ (∀ c, (0 ≤ c)%Z → (c < color node)%Z →
                ∃ k, k ∈ neighbors node ∧ k < i
                  ∧ colorAt (nodes s') k = c))
    ∧ conflicts s' = ∅
    ∧ isComplete s' = true.
Proof.
  intros Hg Hdeg. unfold autoSolve.
  destruct (greedy_spec (nodes s) Hg Hdeg) as (ns & Hgreedy & HC).
  pose proof (greedy_ids _ _ Hgreedy) as Hids.
  rewrite Hgreedy. cbn [mbind run_bind]. unfold checkConflicts.
  pose proof (col_neighbors _ _ _ HC) as Hnb.
  assert (Hlen : length ns = length (nodes s)).
  { apply (f_equal length) in Hnb. by rewrite !length_fmap in Hnb. }
  assert (Hcol : ∀ j nj, ns !! j = Some nj → colorAt ns j = color nj).
  { intros j nj Hj. unfold colorAt. by rewrite Hj. }
  assert (Hproper : ∀ j nj k, ns !! j = Some nj → k ∈ neighbors nj →
            ∃ nk, ns !! k = Some nk ∧ color nk ≠ color nj).
  { intros j nj k Hj Hk.
    destruct (neighbors_lookup _ _ _ _ Hnb Hj) as (n0j & Hn0j & Hnbj).
    rewrite <- Hnbj in Hk.
    destruct (Hg j n0j k Hn0j Hk) as (_ & other & Hother & _).
    destruct (lookup_lt_is_Some_2 ns k) as [nk Hnk].
    { rewrite Hlen. by eapply lookup_lt_Some. }
    exists nk. split; [done |].
    rewrite <- (Hcol j nj Hj), <- (Hcol k nk Hnk). symmetry.
    apply (col_proper _ _ _ HC j k nj); [| | done | by rewrite <- Hnbj].
    - rewrite <- Hlen. by eapply lookup_lt_Some.
    - rewrite <- Hlen. by eapply lookup_lt_Some. }
  unfold conflictsOf. rewrite conflictsOf_quiet.
  2:{ intros node k [j Hj]%list_elem_of_lookup Hk. by eapply Hproper. }
  cbn [mbind run_bind].
  assert (forallb (λ node, negb (color node =? -1)%Z) ns = true) as ->.
  { apply forallb_forall. intros node [j Hj]%list_elem_of_In%list_elem_of_lookup.
    destruct (col_done _ _ _ HC j) as [H0 _].
    - rewrite <- Hlen. by eapply lookup_lt_Some.
    - by eapply lookup_lt_Some.
    - rewrite (Hcol j node Hj) in H0. apply negb_true_iff, Z.eqb_neq. lia. }
  rewrite bool_decide_eq_true_2 by (by rewrite size_empty).
  eexists. split; [done |]. simpl. split_and!; try done.
  intros i Hil.
  destruct (lookup_lt_is_Some_2 ns i) as [node Hi]; [lia |].
  exists node. split; [done |].
  destruct (col_done _ _ _ HC i) as [H0 H8]; [done | lia |].
  rewrite (Hcol i node Hi) in H0, H8. split_and!; try done.
  - intros k Hk. destruct (Hproper i node k Hi Hk) as (nk & Hnk & Hne).
    rewrite (Hcol k nk Hnk). split; [| done].
    destruct (col_done _ _ _ HC k) as [Hk0 _].
    + rewrite <- Hlen. by eapply lookup_lt_Some.
    + by eapply lookup_lt_Some.
    + rewrite (Hcol k nk Hnk) in Hk0. lia.
  - intros c Hc0 Hc. by apply (col_least _ _ _ HC i node c).
Qed.

(** The star, which the greedy pass colours with two colours: the centre
    gets colour 0 and every leaf colour 1. *)
Lemma greedy_colours_properly_witness :
  ∃ s', autoSolve {| nodes := star; conflicts := ∅; isComplete := false;
                     colorsUsed := 0 |} = Done s'
    ∧ id <$> nodes s' = [0; 1; 2; 3; 4]
    ∧ neighbors <$> nodes s' = [[1; 2; 3; 4]; [0]; [0]; [0]; [0]]
    ∧ (∀ i, i < 5 →
         ∃ node, nodes s' !! i = Some node
           ∧ (0 ≤ color node)%Z ∧ (color node < Z.of_nat paletteSize)%Z
           ∧ (∀ k, k ∈ neighbors node →
                colorAt (nodes s') k ≠ (-1)%Z
                ∧ colorAt (nodes s') k ≠ color node)
           ∧ (∀ c, (0 ≤ c)%Z → (c < color node)%Z →
                ∃ k, k ∈ neighbors node ∧ k < i
                  ∧ colorAt (nodes s') k = c))
    ∧ conflicts s' = ∅
    ∧ isComplete s' = true.
Proof.
  apply (greedy_colours_properly
           {| nodes := star; conflicts := ∅; isComplete := false;
              colorsUsed := 0 |}).
  - apply star_isGraph.
  - vm_compute. lia.
Defined.

End GreedySpec.

(** ** Path finder: the order of the unvisited array *)

Module DijkstraOrderSpec.
Import PathFinder GridSpec PathFinderSpec.

Definition dist_eqb (a b : Distance) : bool :=
  match a, b with
  | Finite m, Finite n => m =? n
  | Infinity, Infinity => true
  | _, _ => false
  end.

(** [a] may stand before [b] in an array sorted by distance. *)
Definition byDistance (g : Grid) (a b : nat * nat) : Prop :=
  dist_ltb (distanceAt g b) (distanceAt g a) = false.

(** The cells of the array at distance [d], in the order of the array. *)
Definition atDistance (g : Grid) (d : Distance) (l : list (nat * nat))
    : list (nat * nat) :=
  List.filter (λ p, dist_eqb (distanceAt g p) d) l.

(** A cell rebuilt from its walls, weight and flags, as [resetCell] leaves
    it. *)
Definition ofStatic (t : nat * nat * bool * bool * bool * nat) : GridCell :=
  let '(x, y, isWall, isStart, isEnd, weight) := t in
  {| x := x; y := y; isWall := isWall; isStart := isStart; isEnd := isEnd;
     isVisited := false; isPath := false;
     distance := if isStart then Finite 0 else Infinity;
     weight := weight; previous := None |}.

Lemma insertByDistance_sorted g a l :
  StronglySorted (byDistance g) l →
  StronglySorted (byDistance g) (insertByDistance g a l).
Proof.
  induction 1 as [| b l Hs IH Hall]; simpl.
  - repeat constructor.
  - destruct (dist_ltb (distanceAt g b) (distanceAt g a)) eqn:E.
    + constructor; [done |]. rewrite insertByDistance_perm.
      constructor; [| done]. unfold byDistance.
      destruct (distanceAt g a), (distanceAt g b); simpl in *; try done.
      apply Nat.ltb_lt in E. apply Nat.ltb_ge. lia.
    + constructor; [by constructor |]. constructor; [done |].
      eapply Forall_impl; [exact Hall |]. unfold byDistance.
      intros c Hc. simpl in Hc. by eapply dist_ltb_ge_trans.
Qed.

Lemma sortByDistance_sorted g l :
  StronglySorted (byDistance g) (sortByDistance g l).
Proof.
  induction l as [| a l IH]; [constructor |].
  by apply insertByDistance_sorted.
Qed.

(** Cells of one distance keep their order. *)
Lemma insertByDistance_stable g d a l :
  atDistance g d (insertByDistance g a l) = atDistance g d (a :: l).
Proof.
  unfold atDistance. induction l as [| b l IH]; [done |]. simpl in *.
  destruct (dist_ltb (distanceAt g b) (distanceAt g a)) eqn:E; [| done].
  simpl. rewrite IH.
  destruct (distanceAt g a) as [da |], (distanceAt g b) as [db |], d as [dd |];
    simpl in *; try done.
  destruct (da =? dd) eqn:Ea, (db =? dd) eqn:Eb; try done.
  apply Nat.eqb_eq in Ea, Eb. apply Nat.ltb_lt in E. lia.
Qed.

Lemma sortByDistance_stable g d l :
  atDistance g d (sortByDistance g l) = atDistance g d l.
Proof.
  induction l as [| a l IH]; [done |].
  change (sortByDistance g (a :: l))
    with (insertByDistance g a (sortByDistance g l)).
  rewrite insertByDistance_stable. unfold atDistance in *. simpl.
  by rewrite IH.
Qed.

Lemma resetCell_ofStatic c : resetCell c = ofStatic (static c).
Proof. done. Qed.

(** The reset grid depends on walls, weights and flags only. *)
Lemma reset_static g1 g2 :
  map (map static) g1 = map (map static) g2 →
  map (map resetCell) g1 = map (map resetCell) g2.
Proof.
  intros E.
  assert (Hre : ∀ g, map (map resetCell) g
                     = map (map ofStatic) (map (map static) g)).
  { intros g. rewrite map_map. apply map_ext. intros row.
    rewrite map_map. apply map_ext. intros c. apply resetCell_ofStatic. }
  by rewrite !Hre, E.
Qed.

(** What a turn does with the head of the sorted array. *)
Lemma turn_shifts W H g0 l rank cur rest :
  wellFormed W H g0 →
  Core g0 (newGrid l) (unvisited l) (visited l) rank →
  sortByDistance (newGrid l) (unvisited l) = cur :: rest →
  ∃ c, cellAt (newGrid l) cur = Some c
    ∧ isWall c = false ∧ isVisited c = false
    ∧ match distance c with
      | Infinity =>
        turn W H l
        = Done (Stop {| newGrid := newGrid l; unvisited := rest;
                        visited := visited l |})
      | Finite d =>
        ∃ l', turn W H l = Done (if isEnd c then AtEnd l' cur else Again l')
          ∧ unvisited l' = rest ∧ visited l' = S (visited l)
          ∧ cellAt (newGrid l') cur = Some (markVisited c)
      end.
Proof.
  intros Hwf HC Hs. unfold turn. rewrite Hs.
  pose proof (sortByDistance_perm (newGrid l) (unvisited l)) as Hperm.
  rewrite Hs in Hperm.
  apply (Core_perm _ _ _ _ _ _ (symmetry Hperm)) in HC as HC'.
  destruct (proj1 (core_unvisited _ _ _ _ _ HC' cur)) as (c & Hc & Hw & Hv);
    [left |].
  exists c. split; [done |]. split; [done |]. split; [done |].
  rewrite Hc. cbn [mbind run_bind of_option].
  destruct (distance c) as [d |] eqn:Hd; [| done].
  pose proof (Core_markVisited _ _ _ _ _ _ _ d HC' Hc Hd) as HC1.
  set (g1 := setCell (newGrid l) cur (markVisited c)) in *.
  assert (Hcur1 : cellAt g1 cur = Some (markVisited c)).
  { by apply (cellAt_setCell_eq _ _ c). }
  destruct (isEnd c) eqn:Hend.
  { eexists. split; [done |]. done. }
  unfold directions. cbn [foldl].
  destruct (relax_step W H g0 Hwf _ _ _ _ _ _ d (0, -1)%Z HC1 Hcur1 Hd)
    as (g2 & -> & HC2 & Hcur2 & _).
  destruct (relax_step W H g0 Hwf _ _ _ _ _ _ d (1, 0)%Z HC2 Hcur2 Hd)
    as (g3 & -> & HC3 & Hcur3 & _).
  destruct (relax_step W H g0 Hwf _ _ _ _ _ _ d (0, 1)%Z HC3 Hcur3 Hd)
    as (g4 & -> & HC4 & Hcur4 & _).
  destruct (relax_step W H g0 Hwf _ _ _ _ _ _ d (-1, 0)%Z HC4 Hcur4 Hd)
    as (g5 & -> & HC5 & Hcur5 & _).
  cbn [mbind run_bind]. eexists. split; [done |]. done.
Qed.

(** C3, as the loop runs.  Let [l] be the state of the loop after any
    number of turns of a run on a well-formed grid.
    - The array [unvisited] starts in ascending row-major order, and in [l]
      it holds exactly the cells that are no wall and not visited.
    - The sort of the next turn is the stable sort by distance: the sorted
      array is ordered by distance and the cells of each distance stand in
      it in the order they had in [unvisited l].  So its head [cur] has a
      distance no cell of the array is below, and every cell that stood
      before [cur] in [unvisited l] is strictly farther.
    - The turn acts on this head: if its distance is [Infinity] the loop
      stops; otherwise the turn marks [cur] visited and the array of the
      next turn is the rest of the sorted array, in that order.
    - The run is a function of the walls, weights, start and end of the
      grid: a state with the same ones, whatever marks, distances and back
      pointers it carries, goes through the same states of the loop, and
      with any two budgets that let the runs return they end in the same
      grid. *)
Theorem dijkstra_selection (W H : nat) (s : State) (k : nat) (l : Loop) :
  wellFormed W H (grid s) →
  turns W H k (loopStart (map (map resetCell) (grid s))) = Some l →
  StronglySorted (λ p q, rowMajor W p < rowMajor W q)
    (unvisited (loopStart (map (map resetCell) (grid s))))
  ∧ (∀ p, p ∈ unvisited l ↔
       ∃ c, cellAt (newGrid l) p = Some c ∧ isWall c = false
            ∧ isVisited c = false)
  ∧ (unvisited l = [] → turn W H l = Done (Stop l))
  ∧ (∀ cur rest,
       sortByDistance (newGrid l) (unvisited l) = cur :: rest →
       StronglySorted (byDistance (newGrid l)) (cur :: rest)
       ∧ (∀ d, atDistance (newGrid l) d (cur :: rest)
               = atDistance (newGrid l) d (unvisited l))
       ∧ (∃ l1 l2, unvisited l = l1 ++ cur :: l2
            ∧ (∀ a, a ∈ l1 →
                 dist_ltb (distanceAt (newGrid l) cur)
                          (distanceAt (newGrid l) a) = true)
            ∧ (∀ a, a ∈ l2 →
                 dist_ltb (distanceAt (newGrid l) a)
                          (distanceAt (newGrid l) cur) = false))
       ∧ ∃ c, cellAt (newGrid l) cur = Some c
           ∧ isWall c = false ∧ isVisited c = false
           ∧ match distance c with
             | Infinity =>
               turn W H l
               = Done (Stop {| newGrid := newGrid l; unvisited := rest;
                               visited := visited l |})
             | Finite d =>
               ∃ l', turn W H l
                     = Done (if isEnd c then AtEnd l' cur else Again l')
                 ∧ unvisited l' = rest ∧ visited l' = S (visited l)
                 ∧ cellAt (newGrid l') cur = Some (markVisited c)
             end)
  ∧ (∀ s2, map (map static) (grid s2) = map (map static) (grid s) →
       (∀ j, turns W H j (loopStart (map (map resetCell) (grid s2)))
             = turns W H j (loopStart (map (map resetCell) (grid s))))
       ∧ ∀ fuel fuel' r r',
           runDijkstra W H fuel s = Done r →
           runDijkstra W H fuel' s2 = Done r' →
           grid r' = grid r).
Proof.
  intros Hwf Hturns.
  pose proof (wellFormed_reset _ _ _ Hwf) as Hwf0.
  set (g0 := map (map resetCell) (grid s)) in *.
  destruct (Core_start g0) as [HC0 HS0].
  { intros p c. unfold g0. rewrite cellAt_fmap.
    destruct (cellAt (grid s) p) as [c0|]; [| done]. intros [= <-]. simpl.
    split_and!; try done; by intros ->. }
  destruct (turns_Core W H g0 Hwf0 k (loopStart g0) _ l HC0 HS0 Hturns)
    as [[rank HC] _].
  split_and!.
  - by apply (loopStart_rowMajor W H).
  - apply (core_unvisited _ _ _ _ _ HC).
  - intros E. unfold turn. rewrite E. done.
  - intros cur rest Hsort. split_and!.
    + rewrite <- Hsort. apply sortByDistance_sorted.
    + intros d. rewrite <- Hsort. apply sortByDistance_stable.
    + by apply (sortByDistance_head _ _ _ rest).
    + by apply (turn_shifts W H g0 l rank).
  - intros s2 Hstatic.
    pose proof (reset_static _ _ Hstatic) as Hreset. fold g0 in Hreset.
    split; [intros j; by rewrite Hreset |].
    intros fuel fuel' r r' Hr Hr'.
    apply (runDijkstra_mono _ _ _ (fuel `max` fuel')) in Hr; [| lia].
    apply (runDijkstra_mono _ _ _ (fuel `max` fuel')) in Hr'; [| lia].
    revert Hr Hr'. unfold runDijkstra. rewrite Hreset. fold g0.
    destruct (findStart g0 (scanOrder W H)) as [o | |]; [| done ..].
    cbn [mbind run_bind]. destruct o as [pstart |].
    2:{ intros [= <-] [= <-]. done. }
    destruct (loop W H (fuel `max` fuel') (loopStart g0))
      as [[l' found] | |]; [| done ..].
    cbn [mbind run_bind]. destruct found as [cur |].
    2:{ intros [= <-] [= <-]. done. }
    destruct (reconstruct _ _ _ _ _) as [[[g n] t] | |]; [| done ..].
    cbn [mbind run_bind]. intros [= <-] [= <-]. done.
Qed.

Lemma dijkstra_selection_witness :
  ∃ l rest l',
    turns 20 12 9 (loopStart (map (map resetCell) (grid unitGrid))) = Some l
    ∧ sortByDistance (newGrid l) (unvisited l) = (1, 7) :: rest
    ∧ StronglySorted (byDistance (newGrid l)) ((1, 7) :: rest)
    ∧ (∀ d, atDistance (newGrid l) d ((1, 7) :: rest)
            = atDistance (newGrid l) d (unvisited l))
    ∧ turn 20 12 l = Done (Again l')
    ∧ unvisited l' = rest ∧ visited l' = 10
    ∧ (isVisited <$> cellAt (newGrid l') (1, 7)) = Some true.
Proof.
  set (l := default (loopStart [])
              (turns 20 12 9 (loopStart (map (map resetCell) (grid unitGrid))))).
  set (rest := tail (sortByDistance (newGrid l) (unvisited l))).
  assert (H1 : turns 20 12 9 (loopStart (map (map resetCell) (grid unitGrid)))
               = Some l) by (vm_compute; reflexivity).
  assert (H2 : sortByDistance (newGrid l) (unvisited l) = (1, 7) :: rest)
    by (vm_compute; reflexivity).
  destruct (dijkstra_selection 20 12 unitGrid 9 l
              (wellFormed_initializeGrid 20 12 (λ _ _, 1)) H1)
    as (_ & _ & _ & Hturn & _).
  destruct (Hturn (1, 7) rest H2)
    as (Hsorted & Hstable & _ & c & Hc & _ & _ & Hact).
  assert (Hc' : cellAt (newGrid l) (1, 7)
                = Some {| x := 1; y := 7; isWall := false; isStart := false;
                          isEnd := false; isVisited := false; isPath := false;
                          distance := Finite 2; weight := 1;
                          previous := Some (1, 6) |})
    by (vm_compute; reflexivity).
  rewrite Hc' in Hc. injection Hc as <-. cbn [distance isEnd] in Hact.
  destruct Hact as (l' & Ht & Hrest & Hvis & Hcur).
  exists l, rest, l'.
  split; [exact H1 |]. split; [exact H2 |]. split; [exact Hsorted |].
  split; [exact Hstable |]. split; [exact Ht |]. split; [exact Hrest |].
  split; [rewrite Hvis; vm_compute; reflexivity |].
  rewrite Hcur. reflexivity.
Defined.

End DijkstraOrderSpec.

(** ** The maze solver on a maze that carries marks *)

Module MazeOpenSpec.
Import MazeSolver GridSpec MazeSolverSpec MazeRunSpec.

(** A walk of [n] moves from [p] to [r] that the search can make: every
    cell it enters passes [getNeighbors], that is, it is no wall and carries
    no visited mark in the maze the run was started on. *)
Inductive owalk (m : Maze) : nat → nat * nat → nat * nat → Prop :=
  | owalk_here p : owalk m 0 p p
  | owalk_step n p q r :
      adjacent p q → passable m q = true → owalk m n q r →
      owalk m (S n) p r.

(** Such a walk of [n] moves leads from the start cell (1, 1) to an end
    cell. *)
Definition openEnd (m : Maze) (n : nat) : Prop :=
  ∃ pe ce, owalk m n (1, 1) pe ∧ cellAt m pe = Some ce ∧ isEnd ce = true.

(** Every cell with a parent passed [getNeighbors]. *)
Definition Open (maze : Maze) (s : Search) : Prop :=
  ∀ n p, parent s !! n = Some p → passable maze n = true.

(** Every cell [getNeighbors] lets pass next to a visited cell has been
    met. *)
Definition Shut (maze : Maze) (s : Search) : Prop :=
  ∀ p q, visitedAt (newMaze s) p = true → adjacent p q →
    passable maze q = true → met s q.

Lemma owalk_snoc m n a p q :
  owalk m n a p → adjacent p q → passable m q = true → owalk m (S n) a q.
Proof.
  intros Hw Hadj Hq. induction Hw as [p | n p p' r Hadj0 Hp' _ IH].
  - apply (owalk_step _ _ _ q); [done | done | constructor].
  - apply (owalk_step _ _ _ p'); [done | done | by apply IH].
Qed.

(** The last move of a walk enters its end from the start or from a cell
    that passes. *)
Lemma owalk_last m n p r :
  owalk m n p r →
  p = r ∨ (passable m r = true
           ∧ ∃ q, adjacent q r ∧ (q = p ∨ passable m q = true)).
Proof.
  induction 1 as [p | n p q r Hadj Hq Hw IH]; [by left |]. right.
  destruct IH as [<- | (Hr & q' & Hadj' & Hq')].
  - split; [done |]. exists p. split; [done | by left].
  - split; [done |]. exists q'. split; [done |]. right.
    by destruct Hq' as [-> | ?].
Qed.


Section Run.
Variables W H : nat.
Variable maze : Maze.
Variable m0 : Maze.
Hypothesis wfs : wellFormed W H maze.
Hypothesis wf0 : wellFormed W H m0.
Hypothesis same : ∀ p, static <$> cellAt m0 p = static <$> cellAt maze p.

Lemma passable_inside q :
  passable maze q = true → q.1 < W ∧ q.2 < H.
Proof.
  unfold passable. destruct (cellAt maze q) as [c |] eqn:Hc; [| done].
  intros _. apply wfs. eauto.
Qed.

Lemma Open_turn a s s' :
  Open maze s → turnOf W H maze a s = Again s' → Open maze s'.
Proof.
  intros HO. unfold turnOf.
  destruct (take a (frontier s)) as [[cur rest]|]; [| done].
  destruct (cellAt (newMaze s) cur) as [c|]; [| done].
  destruct (isVisited c); [by intros [= <-] |].
  destruct (isEnd c); [done |]. intros [= <-].
  intros n p. cbn [parent]. rewrite adopt_lookup. case_decide as Hin.
  - intros _. apply list_elem_of_In, filter_In in Hin as [Hin _].
    apply list_elem_of_In, (elem_of_neighborsOf W H maze) in Hin.
    by destruct Hin as (_ & _ & _ & ?).
  - apply HO.
Qed.

Lemma Shut_turn a s rank s' :
  Inv W H m0 s rank → Shut maze s →
  turnOf W H maze a s = Again s' → Shut maze s'.
Proof.
  intros HI HC. unfold turnOf.
  destruct (take a (frontier s)) as [[cur rest]|] eqn:Htake; [| done].
  pose proof (take_perm _ _ _ _ Htake) as Hperm.
  assert (Hfr : ∀ q, q ∈ frontier s ↔ q = cur ∨ q ∈ rest).
  { intros q. by rewrite Hperm, elem_of_cons. }
  destruct (cellAt (newMaze s) cur) as [c|] eqn:Hc; [| done].
  destruct (isVisited c) eqn:Hv.
  { intros [= <-]. intros p q Hp Hadj Hq. simpl in *.
    destruct (HC p q Hp Hadj Hq) as [Hin | Hvis]; [| by right].
    apply Hfr in Hin as [-> | Hin]; [right | by left].
    unfold visitedAt. cbn [newMaze]. by rewrite Hc. }
  destruct (isEnd c); [done |]. intros [= <-].
  intros p q. unfold met. cbn [newMaze frontier].
  rewrite !(visitedAt_setCell _ _ c) by done.
  intros Hp Hadj Hq.
  destruct (bool_decide (q = cur) || visitedAt (newMaze s) q) eqn:Hvq;
    [by right | left].
  apply orb_false_iff in Hvq as [Hne Hvq]. apply bool_decide_eq_false in Hne.
  apply orb_true_iff in Hp as [Hp | Hp].
  - apply bool_decide_eq_true in Hp as ->. apply elem_of_app. right.
    destruct (passable_inside q Hq) as [Hq1 Hq2].
    apply list_elem_of_In, filter_In. split.
    + apply list_elem_of_In, (elem_of_neighborsOf W H maze). done.
    + destruct (inv_exists W H m0 wf0 s rank q HI Hq1 Hq2) as [cq Hcq].
      unfold unvisitedAt. rewrite cellAt_setCell_ne by done. rewrite Hcq.
      unfold visitedAt in Hvq. rewrite Hcq in Hvq. by rewrite Hvq.
  - destruct (HC p q Hp Hadj Hq) as [Hin | Hvis]; [| congruence].
    apply Hfr in Hin as [-> | Hin]; [done |]. apply elem_of_app. by left.
Qed.

(** When the work list is empty, every cell the search could walk to from a
    visited cell is visited. *)
Lemma Shut_walk s :
  Shut maze s → frontier s = [] →
  ∀ n p r, owalk maze n p r → visitedAt (newMaze s) p = true →
  visitedAt (newMaze s) r = true.
Proof.
  intros HC Hempty n p r Hwalk.
  induction Hwalk as [p | n p q r Hadj Hq Hwalk IH]; [done |].
  intros Hp. apply IH. destruct (HC p q Hp Hadj Hq) as [Hin | Hvis]; [| done].
  rewrite Hempty in Hin. by apply elem_of_nil in Hin.
Qed.

(** The chain of parents of a visited cell, read backwards, is a walk the
    search can make from the start cell. *)
Lemma pchain_owalk s rank :
  Inv W H m0 s rank → Tree m0 s → Open maze s →
  ∀ l p c, pchain (parent s) (Some p) l →
    cellAt (newMaze s) p = Some c → isVisited c = true →
    owalk maze (length l - 1) (1, 1) p.
Proof.
  intros HI HT HO l. induction l as [|p' l IH]; intros p c Hch Hc Hv.
  { inversion Hch. }
  assert (p' = p ∧ pchain (parent s) (parent s !! p) l) as [-> Hch1].
  { inversion Hch as [|p1 l1 Hch1]. done. }
  destruct (tree_visited _ _ HT p c Hc Hv) as [_ Hroot].
  destruct (parent s !! p) as [q|] eqn:Hp.
  - destruct (inv_parent _ _ _ _ _ HI p q Hp) as [(cq & Hcq & Hvq) _].
    pose proof (IH q cq Hch1 Hcq Hvq) as Hwalk.
    assert (1 ≤ length l) by (inversion Hch1; simpl; lia).
    replace (length (p :: l) - 1) with (S (length l - 1))
      by (simpl; lia).
    apply (owalk_snoc _ _ _ q); [done | |].
    + by apply (tree_parent _ _ HT p q).
    + by apply (HO p q).
  - inversion Hch1; subst. destruct Hroot as [-> | [? ?]]; [| done].
    constructor.
Qed.

End Run.

(** [reconstruct] changes no mark but [isPath]. *)
Lemma reconstruct_nopath par fuel : ∀ m o n m' n',
  reconstruct fuel m par o n = Done (m', n') →
  ∀ q, nopath <$> cellAt m' q = nopath <$> cellAt m q.
Proof.
  induction fuel as [|fuel IH]; intros m o n m' n' Hrun;
    destruct o as [p|]; try done;
    try (simpl in Hrun; injection Hrun as <- <-; done).
  cbn [reconstruct] in Hrun. destruct (cellAt m p) as [c|] eqn:Hc; [| done].
  cbn [mbind run_bind of_option] in Hrun.
  intros q. rewrite (IH _ _ _ _ _ Hrun q).
  by apply (cellAt_setCell_proj nopath m p c).
Qed.

(** What the loop of a run hands over beyond [Outcome], whatever marks the
    maze carries. *)
Lemma open_outcome W H maze a fuel r found :
  wellFormed W H maze → 2 ≤ W → 2 ≤ H →
  loop W H maze a fuel (searchStart maze) = Done (r, found) →
  Open maze r ∧ (found = None → Shut maze r).
Proof.
  intros Hwf HW HH Hloop.
  set (m0 := map (map resetCell) maze).
  pose proof (maze_wellFormed_reset _ _ _ Hwf) as Hwf0. fold m0 in Hwf0.
  destruct (searchStart_Inv W H maze Hwf HW HH) as (HI0 & HQ0 & _).
  fold m0 in HI0.
  set (P := λ s : Search, Open maze s ∧ Shut maze s).
  set (Q := λ (r : Search) (found : option (nat * nat)),
              Open maze r ∧ (found = None → Shut maze r)).
  assert (Hagain : ∀ s rank s', Inv W H m0 s rank → Quiet s → P s →
            turnOf W H maze a s = Again s' → P s').
  { intros s rank s' HI _ [HO HS] Ht. split.
    - by apply (Open_turn W H maze a s).
    - by apply (Shut_turn W H maze m0 Hwf Hwf0 a s rank). }
  assert (Hend : ∀ s rank s' cur rank', Inv W H m0 s rank → Quiet s → P s →
            turnOf W H maze a s = AtEnd s' cur → Inv W H m0 s' rank' →
            Q s' (Some cur)).
  { intros s rank s' cur rank' _ _ [HO _] Ht _. split; [| done].
    revert Ht. unfold turnOf.
    destruct (take a (frontier s)) as [[cur' rest]|]; [| done].
    destruct (cellAt (newMaze s) cur') as [c|]; [| done].
    destruct (isVisited c); [done |].
    destruct (isEnd c); [| done]. by intros [= <- <-]. }
  assert (Hstop : ∀ s rank s', Inv W H m0 s rank → Quiet s → P s →
            turnOf W H maze a s = Stop s' → Q s' None).
  { intros s rank s' _ _ [HO HS] Ht.
    assert (s' = s) as ->; [| done].
    revert Ht. unfold turnOf.
    destruct (take a (frontier s)) as [[cur' rest]|]; [| by intros [= <-]].
    destruct (cellAt (newMaze s) cur') as [c|]; [| by intros [= <-]].
    destruct (isVisited c); [done |]. by destruct (isEnd c). }
  assert (HP0 : P (searchStart maze)).
  { split.
    - intros n p Hn. simpl in Hn. by rewrite lookup_empty in Hn.
    - intros p q Hp. simpl in Hp. by rewrite (reset_unvisited maze p) in Hp. }
  exact (loop_ind W H maze m0 Hwf Hwf0 P Q a Hagain Hend Hstop fuel
           (searchStart maze) (λ _, 0) r found HI0 HQ0 HP0 Hloop).
Qed.

(** How a run of the maze solver ends, on any well-formed maze whose cell
    (1, 1) is no wall and whatever visited marks it carries. *)
Lemma maze_run_outcome W H s fuel c0 :
  wellFormed W H (maze s) →
  cellAt (maze s) (1, 1) = Some c0 → isWall c0 = false →
  5 * length (places (maze s)) + 1 < fuel →
  ∃ s', runSearch W H fuel s = Done s' ∧ isRunning s' = false
    ∧ (((∃ n, openEnd (maze s) n)
        ∧ gameCompleted s' = true
        ∧ ∃ l pe ce,
            trail (maze s) l ∧ NoDup l
            ∧ head l = Some (1, 1) ∧ last l = Some pe
            ∧ cellAt (maze s) pe = Some ce ∧ isEnd ce = true
            ∧ owalk (maze s) (length l - 1) (1, 1) pe
            ∧ pathLength s' = length l
            ∧ (isEnd c0 = false →
               (∀ p c, cellAt (maze s') p = Some c → isPath c = true ↔ p ∈ l)
               ∧ (isVisited <$> cellAt (maze s') pe) = Some true))
       ∨ (¬ (∃ n, openEnd (maze s) n)
          ∧ gameCompleted s' = gameCompleted s
          ∧ pathLength s' = pathLength s
          ∧ ∀ p c, cellAt (maze s') p = Some c →
              isPath c = false ∧ (isVisited c = true → isEnd c = false))).
Proof.
  intros Hwf Hc0 Hw0 Hfuel.
  assert (HW : 2 ≤ W ∧ 2 ≤ H).
  { destruct Hwf as [Hdim _]. destruct (proj1 (Hdim (1, 1))); [eauto |].
    simpl in *. lia. }
  destruct (runSearch_spec W H s fuel Hwf) as (s' & Hrun & Hidle' & _);
    [lia | lia | done |].
  exists s'. split; [done |]. split; [done |].
  unfold runSearch in Hrun.
  destruct (loop W H (maze s) (algorithm s) fuel (searchStart (maze s)))
    as [[r found]| |] eqn:Hloop; [| done ..].
  cbn [mbind run_bind] in Hrun.
  destruct (search_outcome W H (maze s) c0 _ _ _ _ Hwf Hc0 Hw0 Hloop)
    as ([rank HI] & HT & Hfound).
  destruct (open_outcome W H (maze s) _ _ _ _ Hwf (proj1 HW) (proj2 HW) Hloop)
    as [HO HS].
  pose proof (maze_wellFormed_reset _ _ _ Hwf) as Hwf0.
  destruct found as [cur|].
  - left. destruct Hfound as (c & Hc & Hv & He & Hshown).
    destruct (reconstruct fuel _ _ _ _) as [[m n]| |] eqn:Hrec; [| done ..].
    cbn [mbind run_bind] in Hrun. injection Hrun as <-.
    cbn [pathLength gameCompleted MazeSolver.maze].
    destruct (reconstruct_chain _ _ _ _ _ _ _ Hrec) as (l & Hch & -> & Hmarks).
    destruct (pchain_trail W H (map (map resetCell) (maze s)) r rank HI HT l cur c
                Hch Hc Hv) as (Htr & Hhead & Hlast & _ & Hnd).
    pose proof (pchain_owalk W H (maze s) _ r rank HI HT HO l cur c Hch Hc Hv)
      as Hwalk.
    destruct (fmap_Some_eq static _ _ c
                (eq_sym (inv_static _ _ _ _ _ HI cur)) Hc) as (c1 & Hc1 & E1).
    destruct (fmap_Some_eq static _ _ c1 (eq_sym (reset_same (maze s) cur)) Hc1)
      as (ce & Hce & E2).
    assert (Hee : isEnd ce = true).
    { by rewrite (static_end _ _ E2), (static_end _ _ E1). }
    split; [| split; [done |]].
    { exists (length l - 1), cur, ce. done. }
    exists (reverse l), cur, ce. split_and!.
    + apply (trail_static (map (map resetCell) (maze s))); [| done].
      intros p. by rewrite reset_same.
    + by rewrite reverse_Permutation.
    + by rewrite head_reverse.
    + by rewrite last_reverse.
    + done.
    + done.
    + by rewrite length_reverse.
    + by rewrite length_reverse.
    + intros He0. rewrite (Hshown He0). split.
      * intros p c' Hc'. destruct (Hmarks p c' Hc') as (c2 & Hc2 & _ & ->).
        rewrite (tree_nopath _ _ HT p c2 Hc2). simpl.
        by rewrite bool_decide_eq_true, elem_of_reverse.
      * destruct (fmap_Some_eq nopath _ _ c
                    (reconstruct_nopath _ _ _ _ _ _ _ Hrec cur) Hc)
          as (c' & Hc' & E').
        cbv iota. rewrite Hc'. unfold nopath in E'. simpl. f_equal. congruence.
  - right. destruct Hfound as (Hempty & [Hnoend Hshown] & Hroot & _).
    injection Hrun as <-. cbn [pathLength gameCompleted MazeSolver.maze].
    assert (shown r = true) as ->.
    { destruct Hshown as [? | [? _]]; done. }
    split_and!; try done.
    + intros (n & pe & ce & Hwalk & Hce & He).
      pose proof (Shut_walk (maze s) r (HS eq_refl) Hempty n (1, 1) pe Hwalk Hroot)
        as Hvis.
      unfold visitedAt in Hvis.
      destruct (cellAt (newMaze r) pe) as [c|] eqn:Hc; [| done].
      pose proof (Hnoend pe c Hc Hvis) as Hne.
      pose proof (static_at _ _ _ _ _ (inv_static _ _ _ _ _ HI pe) Hc
                    (eq_trans (cellAt_fmap resetCell (maze s) pe)
                       (f_equal (fmap resetCell) Hce))) as Es.
      rewrite (static_end _ _ Es) in Hne. simpl in Hne. congruence.
    + intros p c Hc. split; [by apply (tree_nopath _ _ HT p c) |].
      by apply (Hnoend p c).
Qed.

(** A property of every cell, checked over the places of the grid. *)
Lemma all_cells {A} (P : nat * nat → A → bool) (g : list (list A)) :
  forallb (λ p, match cellAt g p with
                | Some c => P p c
                | None => true
                end) (places g) = true →
  ∀ p c, cellAt g p = Some c → P p c = true.
Proof.
  intros Hall p c Hc.
  assert (Hp : p ∈ places g) by (apply elem_of_places; eauto).
  apply list_elem_of_In in Hp.
  pose proof (proj1 (forallb_forall _ _) Hall p Hp) as HP.
  cbv beta in HP. by rewrite Hc in HP.
Qed.

(** A grid with the same coordinates in its cells is as well formed. *)
Lemma wellFormed_coords W H (m m' : Maze) :
  map (map (λ c, (x c, y c))) m' = map (map (λ c, (x c, y c))) m →
  wellFormed W H m → wellFormed W H m'.
Proof.
  intros E [Hdim Hxy].
  assert (Hs : ∀ q, (λ c, (x c, y c)) <$> cellAt m' q
                    = (λ c, (x c, y c)) <$> cellAt m q).
  { intros q. rewrite <- !cellAt_fmap. by rewrite E. }
  split.
  - intros p. rewrite <- (fmap_is_Some (λ c, (x c, y c))), Hs, fmap_is_Some.
    apply Hdim.
  - intros p c Hc.
    destruct (fmap_Some_eq (λ c, (x c, y c)) _ _ c (eq_sym (Hs p)) Hc)
      as (c1 & Hc1 & E1).
    destruct (Hxy p c1 Hc1). simpl in E1. split; congruence.
Qed.




(** [twoCorridors] after a depth-first run: the run has found the end, and
    the end cell carries its visited mark. *)
Definition afterDFS : State :=
  match startAlgorithm 20 12 1202 (setAlgorithm DFS twoCorridors) with
  | Done s => s
  | _ => twoCorridors
  end.

Lemma afterDFS_shut : ¬ ∃ n, openEnd (maze afterDFS) n.
Proof.
  intros (n & pe & ce & Hwalk & Hce & He).
  assert (pe = (18, 10)) as ->.
  { assert (Hall : forallb (λ p, match cellAt (maze afterDFS) p with
                                 | Some c =>
                                   implb (isEnd c) ((p.1 =? 18) && (p.2 =? 10))
                                 | None => true
                                 end) (places (maze afterDFS)) = true)
      by (vm_compute; reflexivity).
    pose proof (all_cells _ _ Hall pe ce Hce) as HP.
    cbv beta in HP. rewrite He in HP. simpl in HP.
    apply andb_true_iff in HP as [H1 H2].
    apply Nat.eqb_eq in H1, H2. destruct pe as [a b]. cbn [fst snd] in H1, H2. by subst. }
  destruct (owalk_last _ _ _ _ Hwalk) as [? | (Hpass & _)]; [done |].
  by vm_compute in Hpass.
Qed.

Lemma wellFormed_afterDFS : wellFormed 20 12 (maze afterDFS).
Proof.
  apply (wellFormed_coords 20 12 (maze twoCorridors)).
  - vm_compute. reflexivity.
  - apply wellFormed_initializeMaze.
Qed.

Lemma wellFormed_marked : wellFormed 20 12 (maze marked).
Proof.
  apply (wellFormed_coords 20 12 (maze twoCorridors)).
  - vm_compute. reflexivity.
  - apply wellFormed_initializeMaze.
Qed.


(** Every path the maze solver shows is a path of the maze.  On a
    well-formed maze whose cell (1, 1) is neither a wall nor an end cell,
    with whatever visited marks earlier runs left on it, a press of the
    start button with either algorithm returns, and what it shows is
    decided by the maze.  If the search can walk from (1, 1) to an end cell
    (over cells that are no walls and carry no visited mark),
    [gameCompleted] is turned on, the cells marked [isPath] are exactly
    those of a list without repetition that leads from (1, 1) to an end
    cell over cells that are no walls, each next to the one before it, and
    [pathLength] is the number of these cells.  If it cannot,
    [gameCompleted] and [pathLength] stay as they were and no cell is
    marked [isPath].  And an end cell is marked visited only in the first
    case. *)
Theorem found_path_is_a_trail (W H : nat) (s : State) (fuel : nat)
    (c0 : MazeCell) :
  wellFormed W H (maze s) →
  cellAt (maze s) (1, 1) = Some c0 → isWall c0 = false → isEnd c0 = false →
  isRunning s = false →
  5 * length (places (maze s)) + 1 < fuel →
  ∃ s', startAlgorithm W H fuel s = Done s'
    ∧ ((∃ n, openEnd (maze s) n) →
       gameCompleted s' = true
       ∧ ∃ l pe ce,
           trail (maze s) l ∧ NoDup l
           ∧ head l = Some (1, 1) ∧ last l = Some pe
           ∧ cellAt (maze s) pe = Some ce ∧ isEnd ce = true
           ∧ pathLength s' = length l
           ∧ (∀ p c, cellAt (maze s') p = Some c → isPath c = true ↔ p ∈ l))
    ∧ (¬ (∃ n, openEnd (maze s) n) →
       gameCompleted s' = gameCompleted s ∧ pathLength s' = pathLength s
       ∧ ∀ p c, cellAt (maze s') p = Some c → isPath c = false)
    ∧ (∀ pe ce, cellAt (maze s') pe = Some ce → isEnd ce = true →
         isVisited ce = true → ∃ n, openEnd (maze s) n).
Proof.
  intros Hwf Hc0 Hw0 He0 Hidle Hfuel.
  destruct (maze_run_outcome W H s fuel c0 Hwf Hc0 Hw0 Hfuel)
    as (s' & Hrun & _ & Hres).
  exists s'. unfold startAlgorithm. rewrite Hidle. split; [done |].
  destruct Hres as [(Hopen & Hdone & l & pe & ce & Htr & Hnd & Hh & Hl & Hce
                     & Hee & _ & Hlen & Hmarks)
                   | (Hshut & Hdone & Hlen & Hmarks)].
  - destruct (Hmarks He0) as [Hpath _]. split_and!.
    + intros _. split; [done |]. exists l, pe, ce. done.
    + intros Hno. by destruct Hno.
    + intros _ _ _ _ _. done.
  - split_and!.
    + intros Hopen. by destruct Hshut.
    + intros _. split_and!; [done | done |].
      intros p c Hc. by destruct (Hmarks p c Hc).
    + intros pe ce Hce Hee Hv. destruct (Hmarks pe ce Hce) as [_ Hne].
      rewrite (Hne Hv) in Hee. done.
Qed.

(** On [marked], where an earlier run has left [gameCompleted] on, the
    breadth-first run reaches the end and the 53 cells it marks are a path
    of the maze; on [afterDFS], where the end cell carries its visited
    mark, the run reaches nothing and shows no path. *)
Lemma found_path_is_a_trail_witness :
  (gameCompleted marked = true ∧ gameCompleted markedRun = true
   ∧ ∃ l pe ce,
       trail (maze marked) l ∧ NoDup l
       ∧ head l = Some (1, 1) ∧ last l = Some pe
       ∧ cellAt (maze marked) pe = Some ce ∧ isEnd ce = true
       ∧ pathLength markedRun = length l
       ∧ length l = 53
       ∧ (∀ p c, cellAt (maze markedRun) p = Some c →
            isPath c = true ↔ p ∈ l))
  ∧ (∃ s', startAlgorithm 20 12 1202 afterDFS = Done s'
       ∧ gameCompleted s' = gameCompleted afterDFS
       ∧ pathLength s' = pathLength afterDFS
       ∧ ∀ p c, cellAt (maze s') p = Some c → isPath c = false).
Proof.
  split.
  - destruct (found_path_is_a_trail 20 12 marked 1202
                {| x := 1; y := 1; isWall := false; isVisited := true;
                   isPath := false; isStart := true; isEnd := false |})
      as (s' & Hrun & Hfound & _ & Hback).
    + apply wellFormed_marked.
    + vm_compute. reflexivity.
    + reflexivity.
    + reflexivity.
    + vm_compute. reflexivity.
    + vm_compute. lia.
    + assert (s' = markedRun) as ->.
      { unfold markedRun. by rewrite Hrun. }
      assert (Hopen : ∃ n, openEnd (maze marked) n).
      { apply (Hback (18, 10)
                 {| x := 18; y := 10; isWall := false; isVisited := true;
                    isPath := true; isStart := false; isEnd := true |});
          [vm_compute; reflexivity | reflexivity | reflexivity]. }
      destruct (Hfound Hopen)
        as (Hdone & l & pe & ce & Htr & Hnd & Hh & Hl & Hce & Hee & Hlen & Hp).
      split; [vm_compute; reflexivity |]. split; [done |].
      exists l, pe, ce. split_and!; try done.
  - destruct (found_path_is_a_trail 20 12 afterDFS 1202
                {| x := 1; y := 1; isWall := false; isVisited := true;
                   isPath := true; isStart := true; isEnd := false |})
      as (s' & Hrun & _ & Hlost & _).
    + apply wellFormed_afterDFS.
    + vm_compute. reflexivity.
    + reflexivity.
    + reflexivity.
    + vm_compute. reflexivity.
    + vm_compute. lia.
    + exists s'. split; [exact Hrun |]. apply Hlost, afterDFS_shut.
Defined.

End MazeOpenSpec.

(** ** Path finder: how a run ends *)

Module DijkstraOutcomeSpec.
Import PathFinder GridSpec PathFinderSpec DijkstraSpec.










End DijkstraOutcomeSpec.

(** ** How the runs end *)

Module RunsOutcomeSpec.
Import GridSpec MazeOpenSpec DijkstraOutcomeSpec.



End RunsOutcomeSpec.
